(** * Stabilizer: the IR-to-IR passes of parsa/stabilizer

    A shallow embedding of the two compiler passes of the repository
    (the Stabilizer transform and the intrinsic-lowering pass) over a small
    model of the LLVM IR objects they manipulate, followed by the theorems
    that relate the passes to their specification.

    Objects that the C++ code handles through pointers (functions, global
    variables, basic blocks, instructions) carry a handle; two pointers are
    equal exactly when the handles are.  Constants are uniqued by LLVM, so a
    constant is identified with its structure.  Containers ordered by pointer
    value ([std::set<T*>], [std::map<T*, _>]) are ordered by an address
    function that is a parameter of the development.

    Names are kept as the code gives them.  LLVM holds the functions and
    the global variables of a module in one symbol table and gives a value
    that is created or renamed under a name the table already holds another
    name; that renaming is outside the model, which agrees with LLVM as long
    as the names asked for are free.  A theorem that states the name of a
    value that a pass creates or renames has a hypothesis that makes this
    name free ([nameFree], [prefixFree], [ownName]); the other theorems
    state no such name. *)

From Stdlib Require Import List String Ascii Bool Arith NArith Lia.
From Stdlib Require Import DecimalString Sorted Permutation.
Import ListNotations.
Set Warnings "-register-all".
Local Open Scope string_scope.
Local Open Scope list_scope.
Local Open Scope nat_scope.

(** String concatenation, written apart from list concatenation. *)
Infix "+++" := String.append (right associativity, at level 60).

(** ** The IR *)

Module IR.

Definition Handle := nat.

Inductive Ty : Type :=
| VoidTy
| LabelTy
| MetadataTy
| IntegerTy (bits : N)
| HalfTy
| FloatTy
| DoubleTy
| X86_FP80Ty
| FP128Ty
| PPC_FP128Ty
| PointerTy (pointee : Ty)
| StructTy (name : option string) (fields : list Ty)
| ArrayTy (n : N) (elt : Ty)
| VectorTy (n : N) (elt : Ty)
| FunctionTy (ret : Ty) (params : list Ty) (varargs : bool).

Fixpoint Ty_eq_dec (a b : Ty) {struct a} : {a = b} + {a <> b}.
Proof.
  decide equality;
    try apply N.eq_dec; try apply bool_dec;
    try (apply (list_eq_dec Ty_eq_dec));
    try (decide equality; apply string_dec).
Defined.

Inductive Linkage : Type :=
| ExternalLinkage
| AvailableExternallyLinkage
| LinkOnceAnyLinkage
| LinkOnceODRLinkage
| WeakAnyLinkage
| WeakODRLinkage
| AppendingLinkage
| InternalLinkage
| PrivateLinkage
| ExternalWeakLinkage
| CommonLinkage.

Definition Linkage_eq_dec (a b : Linkage) : {a = b} + {a <> b}.
Proof. decide equality. Defined.

Definition hasLocalLinkage (l : Linkage) : bool :=
  match l with InternalLinkage | PrivateLinkage => true | _ => false end.

Inductive Attribute : Type :=
| StackProtect
| StackProtectReq
| StackProtectStrong
| NonLazyBind
| NoUnwind
| OtherAttribute (n : nat).

Definition Attribute_eq_dec (a b : Attribute) : {a = b} + {a <> b}.
Proof. decide equality. apply Nat.eq_dec. Defined.

Inductive Opcode : Type :=
(* terminators *)
| Ret | Br | Switch | IndirectBr | Invoke | Resume | Unreachable
(* binary operators *)
| Add | FAdd | Sub | FSub | Mul | FMul | UDiv | SDiv | FDiv
| Shl | LShr | AShr | And | Or | Xor
(* memory *)
| Alloca | Load | Store | GetElementPtr
(* casts *)
| Trunc | ZExt | SExt | FPToUI | FPToSI | UIToFP | SIToFP
| FPTrunc | FPExt | PtrToInt | IntToPtr | BitCast
(* other *)
| ICmp | FCmp | PHI | Call | Select
| ExtractValue | InsertValue | LandingPad.

Definition Opcode_eq_dec (a b : Opcode) : {a = b} + {a <> b}.
Proof. decide equality. Defined.

Definition opcode_eqb (a b : Opcode) : bool :=
  if Opcode_eq_dec a b then true else false.

Definition isTerminatorOp (o : Opcode) : bool :=
  match o with
  | Ret | Br | Switch | IndirectBr | Invoke | Resume | Unreachable => true
  | _ => false
  end.

(** Constants.  [GFunction] and [GVariable] are the two kinds of
    [llvm::GlobalValue] the passes meet, named by handle; [BlockAddress] is
    the address of a basic block of a function, a constant that is neither
    a global value nor a constant expression. *)
Inductive Constant : Type :=
| GFunction (f : Handle)
| GVariable (g : Handle)
| BlockAddress (f : Handle) (b : Handle)
| ConstantInt (bits : N) (value : N)
| ConstantFP (ty : Ty) (payload : N)
| ConstantPointerNull (ty : Ty)
| ConstantAggregateZero (ty : Ty)
| UndefValue (ty : Ty)
| ConstantExpr (op : Opcode) (ty : Ty) (ops : list Constant)
| ConstantStruct (ty : Ty) (elts : list Constant)
| ConstantArray (ty : Ty) (elts : list Constant)
| ConstantVector (ty : Ty) (elts : list Constant).

Fixpoint Constant_eq_dec (a b : Constant) {struct a} : {a = b} + {a <> b}.
Proof.
  decide equality;
    try apply N.eq_dec; try apply Nat.eq_dec;
    try apply Ty_eq_dec; try apply Opcode_eq_dec;
    try (apply (list_eq_dec Constant_eq_dec)).
Defined.

Inductive Value : Type :=
| VInst (i : Handle)                 (* the result of an instruction *)
| VArg (f : Handle) (n : nat)        (* the n-th formal of a function *)
| VBlock (b : Handle)                (* a basic block used as a label *)
| VConst (c : Constant)
| VMetadata (n : nat).

Definition Value_eq_dec (a b : Value) : {a = b} + {a <> b}.
Proof.
  decide equality; try apply Nat.eq_dec; apply Constant_eq_dec.
Defined.

(** An instruction.  A call keeps its callee as the last operand, as LLVM
    does; a PHI keeps its incoming values as operands and the incoming blocks
    in [i_incoming], position by position. *)
Record Instruction : Type := mkInstruction {
  i_id : Handle;
  i_op : Opcode;
  i_ty : Ty;
  i_name : string;
  i_nuw : bool;
  i_operands : list Value;
  i_incoming : list Handle
}.

Record BasicBlock : Type := mkBasicBlock {
  b_id : Handle;
  b_name : string;
  b_insts : list Instruction
}.

Record Function : Type := mkFunction {
  fn_id : Handle;
  fn_name : string;
  fn_type : Ty;
  fn_linkage : Linkage;
  fn_align : option N;
  fn_attrs : list Attribute;
  fn_blocks : list BasicBlock
}.

Record GlobalVariable : Type := mkGlobalVariable {
  gv_id : Handle;
  gv_name : string;
  gv_type : Ty;
  gv_constant : bool;
  gv_linkage : Linkage;
  gv_init : option Constant
}.

(** A module: target triple, pointer size in bytes (from the data layout),
    the function list and the global list in order, and the next unused
    handle, from which every [new] of the passes draws. *)
Record Module : Type := mkModule {
  m_triple : string;
  m_pointer_size : N;
  m_functions : list Function;
  m_globals : list GlobalVariable;
  m_next : Handle
}.

(** *** Setters *)

Definition set_blocks (f : Function) (bs : list BasicBlock) : Function :=
  mkFunction (fn_id f) (fn_name f) (fn_type f) (fn_linkage f) (fn_align f)
             (fn_attrs f) bs.

Definition set_fn_name (f : Function) (n : string) : Function :=
  mkFunction (fn_id f) n (fn_type f) (fn_linkage f) (fn_align f)
             (fn_attrs f) (fn_blocks f).

Definition set_fn_linkage (f : Function) (l : Linkage) : Function :=
  mkFunction (fn_id f) (fn_name f) (fn_type f) l (fn_align f)
             (fn_attrs f) (fn_blocks f).

Definition set_fn_align (f : Function) (a : option N) : Function :=
  mkFunction (fn_id f) (fn_name f) (fn_type f) (fn_linkage f) a
             (fn_attrs f) (fn_blocks f).

Definition set_fn_attrs (f : Function) (a : list Attribute) : Function :=
  mkFunction (fn_id f) (fn_name f) (fn_type f) (fn_linkage f) (fn_align f)
             a (fn_blocks f).

Definition set_insts (b : BasicBlock) (l : list Instruction) : BasicBlock :=
  mkBasicBlock (b_id b) (b_name b) l.

Definition set_operands (i : Instruction) (ops : list Value) : Instruction :=
  mkInstruction (i_id i) (i_op i) (i_ty i) (i_name i) (i_nuw i) ops
                (i_incoming i).

Definition set_functions (m : Module) (fs : list Function) : Module :=
  mkModule (m_triple m) (m_pointer_size m) fs (m_globals m) (m_next m).

Definition set_globals (m : Module) (gs : list GlobalVariable) : Module :=
  mkModule (m_triple m) (m_pointer_size m) (m_functions m) gs (m_next m).

Definition set_next (m : Module) (n : Handle) : Module :=
  mkModule (m_triple m) (m_pointer_size m) (m_functions m) (m_globals m) n.

Definition set_gv_name (g : GlobalVariable) (n : string) : GlobalVariable :=
  mkGlobalVariable (gv_id g) n (gv_type g) (gv_constant g) (gv_linkage g)
                   (gv_init g).

Definition set_gv_linkage (g : GlobalVariable) (l : Linkage) : GlobalVariable :=
  mkGlobalVariable (gv_id g) (gv_name g) (gv_type g) (gv_constant g) l
                   (gv_init g).

(** *** Types *)

Definition Int1Ty := IntegerTy 1.
Definition Int8Ty := IntegerTy 8.
Definition Int32Ty := IntegerTy 32.
Definition Int64Ty := IntegerTy 64.
Definition Int8PtrTy := PointerTy Int8Ty.

Fixpoint getScalarSizeInBits (t : Ty) : N :=
  match t with
  | IntegerTy b => b
  | HalfTy => 16
  | FloatTy => 32
  | DoubleTy => 64
  | X86_FP80Ty => 80
  | FP128Ty => 128
  | PPC_FP128Ty => 128
  | VectorTy _ e => getScalarSizeInBits e
  | _ => 0
  end%N.

Definition decimal (n : N) : string := NilEmpty.string_of_uint (N.to_uint n).

Definition sepBy (sep : string) (l : list string) : string :=
  match l with
  | [] => ""
  | x :: r => fold_left (fun acc y => acc +++ sep +++ y) r x
  end.

(** [Type::print]: the textual form of a type. *)
Fixpoint printTy (t : Ty) : string :=
  match t with
  | VoidTy => "void"
  | LabelTy => "label"
  | MetadataTy => "metadata"
  | IntegerTy b => "i" +++ decimal b
  | HalfTy => "half"
  | FloatTy => "float"
  | DoubleTy => "double"
  | X86_FP80Ty => "x86_fp80"
  | FP128Ty => "fp128"
  | PPC_FP128Ty => "ppc_fp128"
  | PointerTy p => printTy p +++ "*"
  | StructTy (Some n) _ => "%" +++ n
  | StructTy None fs => "{ " +++ sepBy ", " (map printTy fs) +++ " }"
  | ArrayTy n e => "[" +++ decimal n +++ " x " +++ printTy e +++ "]"
  | VectorTy n e => "<" +++ decimal n +++ " x " +++ printTy e +++ ">"
  | FunctionTy r ps va =>
      printTy r +++ " (" +++ sepBy ", " (map printTy ps)
        +++ (if va then (match ps with [] => "..." | _ => ", ..." end) else "")
        +++ ")"
  end.

(** *** Constants *)

(** [Constant::getIntegerValue(IntNTy(bits), APInt(bits, value))]: the value
    is kept modulo two to the width. *)
Definition getInt (bits value : N) : Constant :=
  ConstantInt bits (value mod 2 ^ bits).

Definition getNullValue (t : Ty) : Constant :=
  match t with
  | IntegerTy b => ConstantInt b 0
  | PointerTy _ => ConstantPointerNull t
  | StructTy _ _ | ArrayTy _ _ | VectorTy _ _ => ConstantAggregateZero t
  | HalfTy | FloatTy | DoubleTy | X86_FP80Ty | FP128Ty | PPC_FP128Ty =>
      ConstantFP t 0
  | _ => UndefValue t
  end.

(** *** Looking things up in a module *)

Definition lookupFunction (m : Module) (h : Handle) : option Function :=
  find (fun f => fn_id f =? h) (m_functions m).

Definition lookupGlobal (m : Module) (h : Handle) : option GlobalVariable :=
  find (fun g => gv_id g =? h) (m_globals m).

(** [Module::getFunction(name)] *)
Definition getFunction (m : Module) (name : string) : option Function :=
  find (fun f => String.eqb (fn_name f) name) (m_functions m).

(** [Module::getGlobalVariable(name, AllowLocal)] *)
Definition getGlobalVariable (m : Module) (name : string) (allowLocal : bool)
  : option GlobalVariable :=
  match find (fun g => String.eqb (gv_name g) name) (m_globals m) with
  | Some g =>
      if allowLocal || negb (hasLocalLinkage (gv_linkage g)) then Some g
      else None
  | None => None
  end.

(** [Function::isIntrinsic]: the name is in the reserved [llvm.] space. *)
Definition isIntrinsic (f : Function) : bool := prefix "llvm." (fn_name f).

Definition isDeclaration (f : Function) : bool :=
  match fn_blocks f with [] => true | _ => false end.

(** [Value::getType] on constants. *)
Definition getTypeC (m : Module) (c : Constant) : Ty :=
  match c with
  | GFunction h =>
      match lookupFunction m h with
      | Some f => PointerTy (fn_type f)
      | None => PointerTy VoidTy
      end
  | GVariable h =>
      match lookupGlobal m h with
      | Some g => PointerTy (gv_type g)
      | None => PointerTy VoidTy
      end
  | BlockAddress _ _ => PointerTy (IntegerTy 8)
  | ConstantInt b _ => IntegerTy b
  | ConstantFP t _ => t
  | ConstantPointerNull t => t
  | ConstantAggregateZero t => t
  | UndefValue t => t
  | ConstantExpr _ t _ => t
  | ConstantStruct t _ => t
  | ConstantArray t _ => t
  | ConstantVector t _ => t
  end.

(** [Value::getName] on constants: only global values carry a name. *)
Definition getNameC (m : Module) (c : Constant) : string :=
  match c with
  | GFunction h =>
      match lookupFunction m h with Some f => fn_name f | None => "" end
  | GVariable h =>
      match lookupGlobal m h with Some g => gv_name g | None => "" end
  | _ => ""
  end.

Definition allInsts (bs : list BasicBlock) : list Instruction :=
  flat_map b_insts bs.

Definition findInst (bs : list BasicBlock) (h : Handle) : option Instruction :=
  find (fun i => i_id i =? h) (allInsts bs).

Definition findBlock (bs : list BasicBlock) (h : Handle) : option BasicBlock :=
  find (fun b => b_id b =? h) bs.

(** [Value::getType] on the values met inside the body [bs] of [f]. *)
Definition getTypeV (m : Module) (f : Function) (bs : list BasicBlock)
  (v : Value) : Ty :=
  match v with
  | VInst h => match findInst bs h with Some i => i_ty i | None => VoidTy end
  | VArg _ n =>
      match fn_type f with
      | FunctionTy _ ps _ => nth n ps VoidTy
      | _ => VoidTy
      end
  | VBlock _ => LabelTy
  | VConst c => getTypeC m c
  | VMetadata _ => MetadataTy
  end.

(** *** Constant expressions *)

(** [ConstantExpr::getPointerCast]: no expression is built when the constant
    already has the type asked for. *)
Definition getPointerCast (m : Module) (c : Constant) (t : Ty) : Constant :=
  if Ty_eq_dec (getTypeC m c) t then c else ConstantExpr BitCast t [c].

(** [ConstantExpr::getSizeOf]: [ptrtoint (gep T, T* null, 1) to i64]. *)
Definition getSizeOf (t : Ty) : Constant :=
  ConstantExpr PtrToInt Int64Ty
    [ConstantExpr GetElementPtr (PointerTy t)
       [ConstantPointerNull (PointerTy t); ConstantInt 32 1]].

(** [ConstantExpr::getIntegerCast] *)
Definition getIntegerCast (m : Module) (c : Constant) (t : Ty)
  (isSigned : bool) : Constant :=
  let src := getScalarSizeInBits (getTypeC m c) in
  let dst := getScalarSizeInBits t in
  if (src =? dst)%N then
    (if Ty_eq_dec (getTypeC m c) t then c else ConstantExpr BitCast t [c])
  else if (dst <? src)%N then ConstantExpr Trunc t [c]
  else ConstantExpr (if isSigned then SExt else ZExt) t [c].

(** The type a [getelementptr T, T* p, 0, index] constant has when [T] is a
    structure: a pointer to the field. *)
Definition getGetElementPtr (t : Ty) (base : Constant) (index : N) : Constant :=
  let field :=
    match t with
    | StructTy _ fs => nth (N.to_nat index) fs VoidTy
    | _ => VoidTy
    end in
  ConstantExpr GetElementPtr (PointerTy field)
    [base; ConstantInt 32 0; ConstantInt 32 (index mod 2 ^ 32)].

(** *** Changing a module *)

(** [Function::Create(type, linkage, name, &m)]: a declaration appended to
    the function list, under the name asked for.  (LLVM gives it another
    name when this one is taken; the theorems that state the name assume it
    free.) *)
Definition createFunction (m : Module) (t : Ty) (l : Linkage) (name : string)
  : Function * Module :=
  let f := mkFunction (m_next m) name t l None [] [] in
  (f, mkModule (m_triple m) (m_pointer_size m) (m_functions m ++ [f])
        (m_globals m) (S (m_next m))).

(** [new GlobalVariable(m, type, isConstant, linkage, init, name)], under
    the name asked for, as for [createFunction]. *)
Definition createGlobal (m : Module) (t : Ty) (isConst : bool) (l : Linkage)
  (init : Constant) (name : string) : GlobalVariable * Module :=
  let g := mkGlobalVariable (m_next m) name t isConst l (Some init) in
  (g, mkModule (m_triple m) (m_pointer_size m) (m_functions m)
        (m_globals m ++ [g]) (S (m_next m))).

(** [Module::getOrInsertFunction], as [Intrinsic::getDeclaration] uses it. *)
Definition getOrInsertFunction (m : Module) (name : string) (t : Ty)
  : Function * Module :=
  match getFunction m name with
  | Some f => (f, m)
  | None => createFunction m t ExternalLinkage name
  end.

Definition updateFunction (m : Module) (h : Handle)
  (g : Function -> Function) : Module :=
  set_functions m
    (map (fun f => if fn_id f =? h then g f else f) (m_functions m)).

Fixpoint insertAfterIn (h : Handle) (x : Function) (l : list Function)
  : list Function :=
  match l with
  | [] => []
  | f :: r =>
      if fn_id f =? h then f :: x :: r else f :: insertAfterIn h x r
  end.

(** [m.getFunctionList().insertAfter(f.getIterator(), x)] *)
Definition insertAfter (m : Module) (h : Handle) (x : Function) : Module :=
  set_functions m (insertAfterIn h x (m_functions m)).

(** [Function::eraseFromParent] *)
Definition eraseFunction (m : Module) (h : Handle) : Module :=
  set_functions m (filter (fun f => negb (fn_id f =? h)) (m_functions m)).

(** [GlobalVariable::eraseFromParent] *)
Definition eraseGlobal (m : Module) (h : Handle) : Module :=
  set_globals m (filter (fun g => negb (gv_id g =? h)) (m_globals m)).

Definition updateGlobal (m : Module) (h : Handle)
  (k : GlobalVariable -> GlobalVariable) : Module :=
  set_globals m
    (map (fun g => if gv_id g =? h then k g else g) (m_globals m)).

Definition removeFnAttr (f : Function) (a : Attribute) : Function :=
  set_fn_attrs f
    (filter (fun b => if Attribute_eq_dec a b then false else true)
       (fn_attrs f)).

Definition addFnAttr (f : Function) (a : Attribute) : Function :=
  set_fn_attrs f (fn_attrs f ++ [a]).

(** *** Changing a function body *)

Fixpoint insertBeforeIn (target : Handle) (x : Instruction)
  (l : list Instruction) : list Instruction :=
  match l with
  | [] => []
  | i :: r =>
      if i_id i =? target then x :: i :: r
      else i :: insertBeforeIn target x r
  end.

(** An instruction created with [InsertBefore = ip]: it is linked in front of
    [ip]; with a null [ip] it is left outside every block. *)
Definition insertBefore (ip : option Handle) (x : Instruction)
  (bs : list BasicBlock) : list BasicBlock :=
  match ip with
  | None => bs
  | Some t => map (fun b => set_insts b (insertBeforeIn t x (b_insts b))) bs
  end.

(** An instruction created with [InsertAtEnd = block]. *)
Definition insertAtEnd (block : Handle) (x : Instruction)
  (bs : list BasicBlock) : list BasicBlock :=
  map (fun b => if b_id b =? block then set_insts b (b_insts b ++ [x]) else b)
      bs.

Definition mapInsts (g : Instruction -> Instruction) (bs : list BasicBlock)
  : list BasicBlock :=
  map (fun b => set_insts b (map g (b_insts b))) bs.

Definition updateInst (h : Handle) (g : Instruction -> Instruction)
  (bs : list BasicBlock) : list BasicBlock :=
  mapInsts (fun i => if i_id i =? h then g i else i) bs.

Fixpoint setNth {A : Type} (n : nat) (x : A) (l : list A) : list A :=
  match l, n with
  | [], _ => []
  | _ :: r, O => x :: r
  | y :: r, S k => y :: setNth k x r
  end.

(** [Use::set] on operand number [k] of instruction [h]. *)
Definition setOperand (h : Handle) (k : nat) (v : Value)
  (bs : list BasicBlock) : list BasicBlock :=
  updateInst h (fun i => set_operands i (setNth k v (i_operands i))) bs.

(** [Instruction::replaceAllUsesWith]: the users of an instruction are
    instructions of the same function. *)
Definition replaceInstUses (old new : Handle) (bs : list BasicBlock)
  : list BasicBlock :=
  mapInsts
    (fun i =>
       set_operands i
         (map (fun v => if Value_eq_dec v (VInst old) then VInst new else v)
              (i_operands i)))
    bs.

(** [Instruction::eraseFromParent] for each handle of [hs]. *)
Definition eraseInsts (hs : list Handle) (bs : list BasicBlock)
  : list BasicBlock :=
  map (fun b =>
         set_insts b
           (filter (fun i => negb (existsb (Nat.eqb (i_id i)) hs))
                   (b_insts b)))
      bs.

(** [BasicBlock::getTerminator] *)
Definition getTerminator (b : BasicBlock) : option Instruction :=
  match rev (b_insts b) with
  | i :: _ => if isTerminatorOp (i_op i) then Some i else None
  | [] => None
  end.

Fixpoint nextNodeIn (c : Handle) (l : list Instruction) : option Handle :=
  match l with
  | [] => None
  | i :: r =>
      if i_id i =? c then (match r with j :: _ => Some (i_id j) | [] => None end)
      else nextNodeIn c r
  end.

(** [Instruction::getNextNode], by handle: the instruction after [c] in the
    block that holds [c]; none when [c] is the last of its block. *)
Definition getNextNode (bs : list BasicBlock) (c : Handle) : option Handle :=
  match find (fun b => existsb (fun i => i_id i =? c) (b_insts b)) bs with
  | Some b => nextNodeIn c (b_insts b)
  | None => None
  end.

(** *** Replacing a function everywhere *)

(** The constant [c] with every function handle sent through [r]. *)
Fixpoint renameConstant (r : Handle -> Handle) (c : Constant) : Constant :=
  match c with
  | GFunction h => GFunction (r h)
  | BlockAddress h b => BlockAddress (r h) b
  | ConstantExpr op t ops => ConstantExpr op t (map (renameConstant r) ops)
  | ConstantStruct t es => ConstantStruct t (map (renameConstant r) es)
  | ConstantArray t es => ConstantArray t (map (renameConstant r) es)
  | ConstantVector t es => ConstantVector t (map (renameConstant r) es)
  | _ => c
  end.

Definition renameValue (r : Handle -> Handle) (v : Value) : Value :=
  match v with
  | VConst c => VConst (renameConstant r c)
  | _ => v
  end.

Definition renameInst (r : Handle -> Handle) (i : Instruction) : Instruction :=
  set_operands i (map (renameValue r) (i_operands i)).

Definition renameFunction (r : Handle -> Handle) (f : Function) : Function :=
  set_blocks f (mapInsts (renameInst r) (fn_blocks f)).

Definition renameGlobal (r : Handle -> Handle) (g : GlobalVariable)
  : GlobalVariable :=
  mkGlobalVariable (gv_id g) (gv_name g) (gv_type g) (gv_constant g)
    (gv_linkage g) (option_map (renameConstant r) (gv_init g)).

Definition redirect (old new : Handle) (h : Handle) : Handle :=
  if h =? old then new else h.

(** [old->replaceAllUsesWith(new)] for two functions: every operand of every
    instruction and every initializer that mentions [old] mentions [new]
    instead. *)
Definition replaceAllUsesWith (m : Module) (old new : Handle) : Module :=
  mkModule (m_triple m) (m_pointer_size m)
    (map (renameFunction (redirect old new)) (m_functions m))
    (map (renameGlobal (redirect old new)) (m_globals m))
    (m_next m).

(** The number of times function [h] is used by a constant, by the body of a
    function, by a module. *)
Fixpoint usesInConstant (h : Handle) (c : Constant) : nat :=
  match c with
  | GFunction k => if k =? h then 1 else 0
  | BlockAddress k _ => if k =? h then 1 else 0
  | ConstantExpr _ _ ops => list_sum (map (usesInConstant h) ops)
  | ConstantStruct _ es => list_sum (map (usesInConstant h) es)
  | ConstantArray _ es => list_sum (map (usesInConstant h) es)
  | ConstantVector _ es => list_sum (map (usesInConstant h) es)
  | _ => 0
  end.

Definition usesInValue (h : Handle) (v : Value) : nat :=
  match v with VConst c => usesInConstant h c | _ => 0 end.

Definition usesInFunction (h : Handle) (f : Function) : nat :=
  list_sum (map (fun i => list_sum (map (usesInValue h) (i_operands i)))
              (allInsts (fn_blocks f))).

Definition usesInGlobal (h : Handle) (g : GlobalVariable) : nat :=
  match gv_init g with Some c => usesInConstant h c | None => 0 end.

Definition getNumUses (m : Module) (h : Handle) : nat :=
  list_sum (map (usesInFunction h) (m_functions m))
  + list_sum (map (usesInGlobal h) (m_globals m)).

(** *** Containers ordered by pointer value *)

Section PointerOrdered.
Context {A : Type}.
Variable eqb : A -> A -> bool.
Variable address : A -> N.

Fixpoint orderedInsert (x : A) (l : list A) : list A :=
    match l with
    | [] => [x]
    | y :: r =>
        if (address x <? address y)%N then x :: l
        else y :: orderedInsert x r
    end.

  (** [std::set<A*>::insert] *)
Definition setInsert (x : A) (s : list A) : list A :=
    if existsb (eqb x) s then s else orderedInsert x s.
End PointerOrdered.

Section PointerMap.
Context {K V : Type}.
Variable eqb : K -> K -> bool.
Variable address : K -> N.

Definition mapFind (k : K) (l : list (K * V)) : option V :=
    match find (fun p => eqb k (fst p)) l with
    | Some p => Some (snd p)
    | None => None
    end.

  (** [m[k]] used as an lvalue: the entry is created, with [dflt], when the
      key is absent. *)
Definition mapEnsure (k : K) (dflt : V) (l : list (K * V)) : list (K * V) :=
    if existsb (fun p => eqb k (fst p)) l then l
    else orderedInsert (fun p => address (fst p)) (k, dflt) l.

Definition mapUpdate (k : K) (g : V -> V) (l : list (K * V))
    : list (K * V) :=
    map (fun p => if eqb k (fst p) then (fst p, g (snd p)) else p) l.
End PointerMap.

Definition constant_eqb (a b : Constant) : bool :=
  if Constant_eq_dec a b then true else false.

(** A use: the user instruction and the operand number. *)
Definition Use : Type := (Handle * nat)%type.

Definition use_eqb (a b : Use) : bool :=
  (fst a =? fst b) && (snd a =? snd b).

End IR.

(** ** The Stabilizer transform *)

Module Stabilizer.
Import IR.

Definition ALIGN : N := 64.

(** The three command-line switches. *)
Record Options : Type := mkOptions {
  stabilize_heap : bool;
  stabilize_stack : bool;
  stabilize_code : bool
}.

Inductive Platform : Type := x86_64 | x86_32 | PowerPC | INVALID.

Definition Platform_eq_dec (a b : Platform) : {a = b} + {a <> b}.
Proof. decide equality. Defined.

Definition tolower (c : ascii) : ascii :=
  let n := nat_of_ascii c in
  if (65 <=? n) && (n <=? 90) then ascii_of_nat (n + 32) else c.

Fixpoint lowercase (s : string) : string :=
  match s with
  | EmptyString => EmptyString
  | String c r => String (tolower c) (lowercase r)
  end.

(** [hay.find(needle) != string::npos] *)
Definition contains (hay needle : string) : bool :=
  match index 0 needle hay with Some _ => true | None => false end.

Definition getPlatform (m : Module) : Platform :=
  let triple := lowercase (m_triple m) in
  if contains triple "x86_64" || contains triple "amd64" then x86_64
  else if contains triple "i386" || contains triple "i486"
          || contains triple "i586" || contains triple "i686" then x86_32
  else if contains triple "powerpc" then PowerPC
  else INVALID.

Definition getIntptrType (m : Module) : Ty :=
  if (m_pointer_size m =? 4)%N then Int32Ty else Int64Ty.

Definition getIntptrSize (m : Module) : N :=
  if (m_pointer_size m =? 4)%N then 32%N else 64%N.

Definition getInt (m : Module) (bits value : N) (is_signed : bool) : Constant :=
  IR.getInt bits value.

Definition getIntptr (m : Module) (value : N) (is_signed : bool) : Constant :=
  getInt m (getIntptrSize m) value is_signed.

Definition isDataPCRelative (m : Module) : bool :=
  match getPlatform m with
  | x86_64 => true
  | x86_32 | PowerPC => false
  | _ => true
  end.

(** The three [Function*] members of [StabilizerImpl]. *)
Record Runtime : Type := mkRuntime {
  registerFunction : Handle;
  registerConstructor : Handle;
  registerStackPad : Handle
}.

Definition declareRuntimeFunctions (m : Module) : Runtime * Module :=
  let register_function_params :=
    [Int8PtrTy; Int8PtrTy; Int8PtrTy; Int32Ty; Int1Ty; Int8PtrTy] in
  let '(rf, m) :=
    createFunction m (FunctionTy VoidTy register_function_params false)
      ExternalLinkage "stabilizer_register_function" in
  let m := updateFunction m (fn_id rf) (fun f => addFnAttr f NonLazyBind) in
  let '(rc, m) :=
    createFunction m (FunctionTy VoidTy [Int8PtrTy] false)
      ExternalLinkage "stabilizer_register_constructor" in
  let m := updateFunction m (fn_id rc) (fun f => addFnAttr f NonLazyBind) in
  let '(rs, m) :=
    createFunction m (FunctionTy VoidTy [Int8PtrTy] false)
      ExternalLinkage "stabilizer_register_stack_pad" in
  let m := updateFunction m (fn_id rs) (fun f => addFnAttr f NonLazyBind) in
  (mkRuntime (fn_id rf) (fn_id rc) (fn_id rs), m).

(** The function pointers of the entries of [llvm.global_ctors].  An entry
    that is not a structure makes the C++ code dereference a null pointer;
    the model yields an undefined value for it. *)
Definition getConstructors (m : Module) : list Value :=
  match getGlobalVariable m "llvm.global_ctors" false with
  | Some ctors =>
      match gv_init ctors with
      | Some (ConstantArray _ table) =>
          map (fun entry =>
                 match entry with
                 | ConstantStruct _ es => VConst (nth 1 es (UndefValue VoidTy))
                 | _ => VConst (UndefValue VoidTy)
                 end)
              table
      | _ => []
      end
  | None => []
  end.

Definition makeConstructor (m : Module) (name : string) : Function * Module :=
  let void_t := VoidTy in
  let i32_t := Int32Ty in
  let void_p_t := Int8PtrTy in
  let ctor_fn_t := FunctionTy void_t [] false in
  let ctor_fn_p_t := PointerTy ctor_fn_t in
  let ctor_entry_t := StructTy None [i32_t; ctor_fn_p_t; void_p_t] in
  let '(init, m) := createFunction m ctor_fn_t InternalLinkage name in
  let ctor_entries :=
    [ConstantStruct ctor_entry_t
       [ConstantInt 32 65535; GFunction (fn_id init); getNullValue void_p_t]] in
  let array_t := ArrayTy (N.of_nat (List.length ctor_entries)) ctor_entry_t in
  let ctor_array_const := ConstantArray array_t ctor_entries in
  let '(new_ctors, m) :=
    createGlobal m array_t true AppendingLinkage ctor_array_const "" in
  let m :=
    match getGlobalVariable m "llvm.global_ctors" false with
    | Some ctors =>
        (* takeName: the new table gets the name, the old one loses it *)
        let m := updateGlobal m (gv_id new_ctors)
                   (fun g => set_gv_name g (gv_name ctors)) in
        let m := updateGlobal m (gv_id ctors) (fun g => set_gv_name g "") in
        let m := updateGlobal m (gv_id ctors)
                   (fun g => set_gv_name g "old.llvm.global_ctors") in
        let m := updateGlobal m (gv_id ctors)
                   (fun g => set_gv_linkage g PrivateLinkage) in
        eraseGlobal m (gv_id ctors)
    | None =>
        updateGlobal m (gv_id new_ctors)
          (fun g => set_gv_name g "llvm.global_ctors")
    end in
  (init, m).

(** *** Stack randomization *)

Definition isCallInst (i : Instruction) : bool := opcode_eqb (i_op i) Call.

(** [CastInst::CreateZExtOrBitCast] of a value of type [src]. *)
Definition CreateZExtOrBitCast (h : Handle) (v : Value) (src dst : Ty)
  (name : string) : Instruction :=
  if (getScalarSizeInBits src =? getScalarSizeInBits dst)%N
  then mkInstruction h BitCast dst name false [v] []
  else mkInstruction h ZExt dst name false [v] [].

(** The instructions the pass puts in front of a call site, from handle [n]
    on, and the one it puts behind. *)
Definition padBefore (m : Module) (stackPad stacksave stackrestore : Handle)
  (n : Handle) : list Instruction :=
  let pad := mkInstruction n Load Int8Ty "pad" false
               [VConst (GVariable stackPad)] [] in
  let wide_pad :=
    CreateZExtOrBitCast (n + 1) (VInst n) Int8Ty (getIntptrType m) "" in
  let padSize := mkInstruction (n + 2) Mul (getIntptrType m) "aligned_pad" true
                   [VInst (n + 1); VConst (getIntptr m 16 false)] [] in
  let oldStack := mkInstruction (n + 3) Call Int8PtrTy "" false
                    [VConst (GFunction stacksave)] [] in
  let oldStackInt := mkInstruction (n + 4) PtrToInt (getIntptrType m) "" false
                       [VInst (n + 3)] [] in
  let newStackInt := mkInstruction (n + 5) Sub (getIntptrType m) "" false
                       [VInst (n + 4); VInst (n + 2)] [] in
  let newStack := mkInstruction (n + 6) IntToPtr Int8PtrTy "" false
                    [VInst (n + 5)] [] in
  let restore := mkInstruction (n + 7) Call VoidTy "" false
                   [VInst (n + 6); VConst (GFunction stackrestore)] [] in
  [pad; wide_pad; padSize; oldStack; oldStackInt; newStackInt; newStack;
   restore].

Definition padAfter (stackrestore : Handle) (n : Handle) : Instruction :=
  mkInstruction (n + 8) Call VoidTy "" false
    [VInst (n + 3); VConst (GFunction stackrestore)] [].

(** One turn of the loop over the call sites: [st] is the next unused handle
    and the body of the function. *)
Definition padCallsite (m : Module) (stackPad stacksave stackrestore : Handle)
  (st : Handle * list BasicBlock) (c : Handle) : Handle * list BasicBlock :=
  let '(n, bs) := st in
  let next := getNextNode bs c in
  let bs :=
    fold_left (fun bs x => insertBefore (Some c) x bs)
      (padBefore m stackPad stacksave stackrestore n) bs in
  let bs := insertBefore next (padAfter stackrestore n) bs in
  (n + 9, bs).

Definition randomizeStack (m : Module) (f : Function) (stackPad : Handle)
  : Module :=
  let '(stacksave, m) :=
    getOrInsertFunction m "llvm.stacksave" (FunctionTy Int8PtrTy [] false) in
  let '(stackrestore, m) :=
    getOrInsertFunction m "llvm.stackrestore"
      (FunctionTy VoidTy [Int8PtrTy] false) in
  let calls := map i_id (filter isCallInst (allInsts (fn_blocks f))) in
  let '(n, bs) :=
    fold_left (padCallsite m stackPad (fn_id stacksave) (fn_id stackrestore))
      calls (m_next m, fn_blocks f) in
  set_next (updateFunction m (fn_id f) (fun g => set_blocks g bs)) n.

(** *** Code randomization *)

(** [containsGlobal]: is the value a global value, or a constant expression
    that holds one?  Intrinsics and the personality routine do not count. *)
Fixpoint containsGlobalC (m : Module) (c : Constant) : bool :=
  match c with
  | GFunction h =>
      match lookupFunction m h with
      | Some f =>
          if isIntrinsic f || String.eqb (fn_name f) "__gxx_personality_v0"
          then false else true
      | None => true
      end
  | GVariable _ => true
  | ConstantExpr _ _ ops => existsb (containsGlobalC m) ops
  | _ => false
  end.

Definition containsGlobal (m : Module) (v : Value) : bool :=
  match v with
  | VConst c => containsGlobalC m c
  | _ => false
  end.

Fixpoint containsConstantFloat (c : Constant) : bool :=
  match c with
  | ConstantFP _ _ => true
  | ConstantExpr _ _ ops => existsb containsConstantFloat ops
  | _ => false
  end.

Definition conversionName (opcode : Opcode) : option string :=
  match opcode with
  | FPToUI => Some "fptoui"
  | FPToSI => Some "fptosi"
  | UIToFP => Some "uitofp"
  | SIToFP => Some "sitofp"
  | FPTrunc => Some "fptrunc"
  | _ => None
  end.

Definition converterName (prefix : string) (tin tout : Ty) : string :=
  prefix +++ "." +++ printTy tin +++ "." +++ printTy tout.

(** The body given to a new converter: the conversion of the argument, then
    the return of its result. *)
Definition converterBody (fh : Handle) (n : Handle) (opcode : Opcode)
  (tout : Ty) : list BasicBlock :=
  [mkBasicBlock n ""
     [mkInstruction (n + 1) opcode tout "" false [VArg fh 0] [];
      mkInstruction (n + 2) Ret VoidTy "" false [VInst (n + 1)] []]].

(** [getFloatConversion]; [None] stands for the call of [abort]. *)
Definition getFloatConversion (m : Module) (opcode : Opcode) (tin tout : Ty)
  : option (Function * Module) :=
  match conversionName opcode with
  | None => None
  | Some prefix =>
      let name := converterName prefix tin tout in
      match getFunction m name with
      | Some f => Some (f, m)
      | None =>
          let '(f, m) :=
            createFunction m (FunctionTy tout [tin] false) InternalLinkage
              name in
          let body := converterBody (fn_id f) (m_next m) opcode tout in
          let m := updateFunction m (fn_id f) (fun g => set_blocks g body) in
          Some (set_blocks f body, set_next m (m_next m + 3))
      end
  end.

Definition isConversion (m : Module) (i : Instruction) : bool :=
  match i_op i with
  | FPToSI | FPToUI | SIToFP | UIToFP => true
  | FPTrunc => if Platform_eq_dec (getPlatform m) PowerPC then true else false
  | _ => false
  end.

Definition isPHI (i : Instruction) : bool := opcode_eqb (i_op i) PHI.

(** Where a value computed for operand [k] of [i] has to be placed: in front
    of [i], or, for a PHI, in front of the terminator of the incoming block. *)
Definition insertionPoint (bs : list BasicBlock) (i : Instruction) (k : nat)
  : option Handle :=
  if isPHI i then
    match findBlock bs (nth k (i_incoming i) 0) with
    | Some incoming => option_map i_id (getTerminator incoming)
    | None => None
    end
  else Some (i_id i).

Definition returnType (t : Ty) : Ty :=
  match t with FunctionTy r _ _ => r | _ => VoidTy end.

(** Operand [k] of instruction [h], when it is a constant that holds a
    floating-point literal, becomes a load from a new read-only global.
    The names are those asked for, [fconst] and [fconst.load]; LLVM numbers
    them from the second on, and the properties stated of the extraction
    leave the names out. *)
Definition extractOperand (h : Handle) (st : Module * list BasicBlock)
  (k : nat) : Module * list BasicBlock :=
  let '(m, bs) := st in
  match findInst bs h with
  | Some i =>
      match nth_error (i_operands i) k with
      | Some (VConst c) =>
          if containsConstantFloat c then
            let t := getTypeC m c in
            let '(g, m) := createGlobal m t true InternalLinkage c "fconst" in
            let load := mkInstruction (m_next m) Load t "fconst.load" false
                          [VConst (GVariable (gv_id g))] [] in
            let bs := insertBefore (insertionPoint bs i k) load bs in
            (set_next m (S (m_next m)), setOperand h k (VInst (i_id load)) bs)
          else (m, bs)
      | _ => (m, bs)
      end
  | None => (m, bs)
  end.

(** One turn of the loop of [extractFloatOperations], at instruction [h]. *)
Definition extractStep (f : Function)
  (st : option (Module * list BasicBlock * list Handle)) (h : Handle)
  : option (Module * list BasicBlock * list Handle) :=
  match st with
  | None => None
  | Some (m, bs, to_delete) =>
      match findInst bs h with
      | None => Some (m, bs, to_delete)
      | Some i =>
          if isConversion m i then
            let op0 := nth 0 (i_operands i) (VConst (UndefValue VoidTy)) in
            match getFloatConversion m (i_op i) (getTypeV m f bs op0) (i_ty i)
            with
            | None => None
            | Some (conv, m) =>
                let ci := mkInstruction (m_next m) Call
                            (returnType (fn_type conv)) "" false
                            [op0; VConst (GFunction (fn_id conv))] [] in
                let m := set_next m (S (m_next m)) in
                let bs := insertBefore (Some (i_id i)) ci bs in
                let bs := replaceInstUses (i_id i) (i_id ci) bs in
                Some (m, bs, to_delete ++ [i_id i])
            end
          else
            let '(m, bs) :=
              fold_left (extractOperand h)
                (seq 0 (List.length (i_operands i))) (m, bs) in
            Some (m, bs, to_delete)
      end
  end.

(** [extractFloatOperations]: the instructions are visited in the order of
    the body; those the loop itself adds are calls placed in front of the
    cursor and loads of a global variable, on which a visit changes nothing. *)
Definition extractFloatOperations (m : Module) (f : Function)
  : option Module :=
  match fold_left (extractStep f) (map i_id (allInsts (fn_blocks f)))
          (Some (m, fn_blocks f, []))
  with
  | None => None
  | Some (m, bs, to_delete) =>
      Some (updateFunction m (fn_id f)
              (fun g => set_blocks g (eraseInsts to_delete bs)))
  end.

Section Addresses.

(** The address of a (uniqued) constant object and of a use slot: they order
    the pointer-keyed containers of the pass. *)
Variable addr : Constant -> N.
Variable use_addr : Use -> N.

Definition References : Type := list (Constant * list Use).

(** [if (result.find(c) == result.end()) result[c] = set<Use*>();
    result[c].insert(&use);] *)
Definition recordUse (c : Constant) (u : Use) (result : References)
  : References :=
  let result := mapEnsure constant_eqb addr c [] result in
  mapUpdate constant_eqb c (setInsert use_eqb use_addr u) result.

Definition scanOperand (m : Module) (i : Instruction) (result : References)
  (k : nat) : References :=
  match nth_error (i_operands i) k with
  | Some (VConst c) =>
      if containsGlobal m (VConst c) then recordUse c (i_id i, k) result
      else result
  | _ => result
  end.

Definition findPCRelativeUsesIn (m : Module) (bs : list BasicBlock)
  : References :=
  fold_left
    (fun result b =>
       fold_left
         (fun result i =>
            if isPHI i then
              (* the incoming values, by index *)
              fold_left (scanOperand m i)
                (seq 0 (List.length (i_operands i))) result
            else
              (* every operand *)
              fold_left (scanOperand m i)
                (seq 0 (List.length (i_operands i))) result)
         (b_insts b) result)
    bs [].

(** One use of constant number [index] is rewritten: a load of the slot is
    put at the insertion point and the use is pointed at it. *)
Definition rewriteUse (m : Module) (tableTy : Ty) (actual c : Constant)
  (index : N) (st : Handle * list BasicBlock) (u : Use)
  : Handle * list BasicBlock :=
  let '(n, bs) := st in
  let insertion_point :=
    match findInst bs (fst u) with
    | Some i => insertionPoint bs i (snd u)
    | None => None
    end in
  let slot := getGetElementPtr tableTy actual index in
  let loaded := mkInstruction n Load (getTypeC m slot)
                  (getNameC m c +++ ".indirect") false [VConst slot] [] in
  (S n, setOperand (fst u) (snd u) (VInst n)
          (insertBefore insertion_point loaded bs)).

(** The loop over the referenced constants, [index] counting them. *)
Fixpoint rewriteAll (m : Module) (tableTy : Ty) (actual : Constant)
  (references : References) (index : N) (st : Handle * list BasicBlock)
  : Handle * list BasicBlock :=
  match references with
  | [] => st
  | (c, uses) :: rest =>
      let st := fold_left (rewriteUse m tableTy actual c index) uses st in
      rewriteAll m tableTy actual rest (index + 1)%N st
  end.

(** The sentinel that follows a randomized function, under the name asked
    for: it is the name the sentinel has in the module when that name is
    free. *)
Definition makeDummy (n : Handle) (name : string) : Function :=
  let next := mkFunction n ("stabilizer.dummy." +++ name)
                (FunctionTy VoidTy [] false) InternalLinkage None [] [] in
  let next := set_fn_align next (Some ALIGN) in
  set_blocks next
    [mkBasicBlock (n + 1) ""
       [mkInstruction (n + 2) Ret VoidTy "" false [] []]].

(** The first part of [randomizeCode]: the sentinel is created and linked
    after [f], the stack-protection attributes are dropped and a
    linkonce_odr linkage is made external. *)
Definition sentinelStage (m : Module) (f : Function) : Module :=
  let next := makeDummy (m_next m) (fn_name f) in
  let m := set_next m (m_next m + 3) in
  let m := insertAfter m (fn_id f) next in
  let m := updateFunction m (fn_id f) (fun g => removeFnAttr g StackProtect) in
  let m := updateFunction m (fn_id f)
             (fun g => removeFnAttr g StackProtectReq) in
  updateFunction m (fn_id f)
    (fun g =>
       if Linkage_eq_dec (fn_linkage g) LinkOnceODRLinkage
       then set_fn_linkage g ExternalLinkage else g).

Definition bodyOf (m : Module) (h : Handle) : list BasicBlock :=
  match lookupFunction m h with
  | Some g => fn_blocks g
  | None => []
  end.

(** The second part: the floating-point operations are extracted and the
    uses of global values are collected. *)
Definition collect (m : Module) (f : Function)
  : option (Module * References) :=
  match extractFloatOperations (sentinelStage m f) f with
  | None => None
  | Some m => Some (m, findPCRelativeUsesIn m (bodyOf m (fn_id f)))
  end.

Definition relocationTableTypeOf (m : Module) (f : Function)
  (references : References) : Ty :=
  StructTy (Some (fn_name f +++ ".relocation_table_t"))
    (map (getTypeC m) (map fst references)).

(** The table the rewritten code addresses: the sentinel, cast, where data
    is PC-relative, and the global table elsewhere. *)
Definition actualTable (m : Module) (next : Handle) (tableTy : Ty)
  (relocationTable : Handle) : Constant :=
  if isDataPCRelative m
  then getPointerCast m (GFunction next) (PointerTy tableTy)
  else GVariable relocationTable.

Definition randomizeCode (m0 : Module) (f : Function)
  : option (Module * list Value) :=
  let next := m_next m0 in
  match collect m0 f with
  | None => None
  | Some (m, references) =>
      let bs := bodyOf m (fn_id f) in
      let fbase := VConst (getPointerCast m (GFunction (fn_id f)) Int8PtrTy) in
      let flimit := VConst (getPointerCast m (GFunction next) Int8PtrTy) in
      if 0 <? List.length references then
        let referencedValues := map fst references in
        let relocationTableType := relocationTableTypeOf m f references in
        let '(relocationTable, m) :=
          createGlobal m relocationTableType false InternalLinkage
            (ConstantStruct relocationTableType referencedValues)
            (fn_name f +++ ".relocation_table") in
        let actualRelocationTable :=
          actualTable m next relocationTableType (gv_id relocationTable) in
        let '(n, bs) :=
          rewriteAll m relocationTableType actualRelocationTable references
            0%N (m_next m, bs) in
        let m := set_next (updateFunction m (fn_id f)
                             (fun g => set_blocks g bs)) n in
        Some (m,
              [fbase; flimit;
               VConst (getPointerCast m (GVariable (gv_id relocationTable))
                         Int8PtrTy);
               VConst (getIntegerCast m (getSizeOf relocationTableType)
                         Int32Ty false);
               VConst (IR.getInt 1 (if isDataPCRelative m then 1 else 0))])
      else
        Some (m,
              [fbase; flimit;
               VConst (getNullValue Int8PtrTy);
               VConst (IR.getInt 32 0);
               VConst (IR.getInt 1 0)])
  end.

End Addresses.

(** *** Heap randomization *)

(** [if (fn) { s = Function::Create(fn->getFunctionType(), ExternalLinkage,
    name, &m); fn->replaceAllUsesWith(s); }] *)
Definition replaceAllocator (m : Module) (fn : option Function)
  (name : string) : Module :=
  match fn with
  | Some f =>
      let '(s, m) := createFunction m (fn_type f) ExternalLinkage name in
      replaceAllUsesWith m (fn_id f) (fn_id s)
  | None => m
  end.

Definition randomizeHeap (m : Module) : Module :=
  let malloc_fn := getFunction m "malloc" in
  let calloc_fn := getFunction m "calloc" in
  let realloc_fn := getFunction m "realloc" in
  let free_fn := getFunction m "free" in
  let m := replaceAllocator m malloc_fn "stabilizer_malloc" in
  let m := replaceAllocator m calloc_fn "stabilizer_calloc" in
  let m := replaceAllocator m realloc_fn "stabilizer_realloc" in
  replaceAllocator m free_fn "stabilizer_free".

(** *** The pass *)

Section Pass.

Variable addr : Constant -> N.
Variable use_addr : Use -> N.
Variable opts : Options.

(** A [Function*] is ordered as the constant it is. *)
Definition faddr (h : Handle) : N := addr (GFunction h).

Definition isLocalFunction (f : Function) : bool :=
  negb (isIntrinsic f) && negb (isDeclaration f)
  && negb (String.eqb (fn_name f) "__gxx_personality_v0").

Definition localFunctions (m : Module) : list Handle :=
  fold_left
    (fun s f => if isLocalFunction f then setInsert Nat.eqb faddr (fn_id f) s
                else s)
    (m_functions m) [].

(** [CallInst::Create(callee, args, "", block)] in function [fh]. *)
Definition emitCall (m : Module) (fh block callee : Handle)
  (args : list Value) : Module :=
  let ci := mkInstruction (m_next m) Call VoidTy "" false
              (args ++ [VConst (GFunction callee)]) [] in
  set_next (updateFunction m fh
              (fun g => set_blocks g (insertAtEnd block ci (fn_blocks g))))
           (S (m_next m)).

Definition StackPads : Type := list (Handle * Handle).

Definition stackStep (st : StackPads * Module) (fh : Handle)
  : StackPads * Module :=
  let '(stackPads, m) := st in
  match lookupFunction m fh with
  | Some f =>
      let '(pad, m) :=
        createGlobal m Int8Ty false InternalLinkage (getInt m 8 0 false)
          (fn_name f +++ ".stack_pad") in
      let stackPads :=
        mapUpdate Nat.eqb fh (fun _ => gv_id pad)
          (mapEnsure Nat.eqb faddr fh 0 stackPads) in
      (stackPads, randomizeStack m f (gv_id pad))
  | None => (stackPads, m)
  end.

Definition codeStep (rt : Runtime) (stackPads : StackPads)
  (ctor ctor_bb : Handle) (st : option Module) (fh : Handle)
  : option Module :=
  match st with
  | None => None
  | Some m =>
      match lookupFunction m fh with
      | Some f =>
          match randomizeCode addr use_addr m f with
          | None => None
          | Some (m, args) =>
              let table :=
                match mapFind Nat.eqb fh stackPads with
                | Some pad => VConst (GVariable pad)
                | None => VConst (getNullValue (PointerTy Int8Ty))
                end in
              Some (emitCall m ctor ctor_bb (registerFunction rt)
                      (args ++ [table]))
          end
      | None => Some m
      end
  end.

(** [main->setName("stabilizer_main")]: the name is the one asked for, which
    is the name [main] gets when no other value has it. *)
Definition renameMain (m : Module) : Module :=
  match getFunction m "main" with
  | Some main =>
      updateFunction m (fn_id main) (fun g => set_fn_name g "stabilizer_main")
  | None => m
  end.

(** The three loops of [StabilizerImpl::operator()]: the stack pads of the
    local functions, the randomization of their code, and the calls that
    the constructor makes for the former constructors and, when code is
    not randomized, for the stack pads; the constructor ends with a return. *)
Definition stackPhase (local_functions : list Handle) (m : Module)
  : StackPads * Module :=
  if stabilize_stack opts
  then fold_left stackStep local_functions ([], m)
  else ([], m).

Definition codePhase (rt : Runtime) (stackPads : StackPads)
  (ctor ctor_bb : Handle) (local_functions : list Handle) (m : Module)
  : option Module :=
  if stabilize_code opts
  then fold_left (codeStep rt stackPads ctor ctor_bb) local_functions (Some m)
  else Some m.

Definition registerPhase (rt : Runtime) (stackPads : StackPads)
  (old_ctors : list Value) (ctor ctor_bb : Handle) (m : Module) : Module :=
  let m :=
    fold_left
      (fun m ctor_iter =>
         emitCall m ctor ctor_bb (registerConstructor rt) [ctor_iter])
      old_ctors m in
  let m :=
    if stabilize_stack opts && negb (stabilize_code opts)
    then fold_left
           (fun m p =>
              emitCall m ctor ctor_bb (registerStackPad rt)
                [VConst (GVariable (snd p))])
           stackPads m
    else m in
  let ret := mkInstruction (m_next m) Ret VoidTy "" false [] [] in
  set_next (updateFunction m ctor
              (fun g => set_blocks g (insertAtEnd ctor_bb ret (fn_blocks g))))
           (S (m_next m)).

(** [StabilizerImpl::operator()].  [None] stands for an abort of the
    process. *)
Definition run (m : Module) : option Module :=
  let m := if stabilize_heap opts then randomizeHeap m else m in
  let local_functions := localFunctions m in
  let '(rt, m) := declareRuntimeFunctions m in
  let '(stackPads, m) := stackPhase local_functions m in
  let old_ctors := getConstructors m in
  let '(ctor, m) := makeConstructor m "stabilizer.module_ctor" in
  let ctor_bb := m_next m in
  let m := set_next (updateFunction m (fn_id ctor)
                       (fun g => set_blocks g
                                   (fn_blocks g ++ [mkBasicBlock ctor_bb "" []])))
                    (S (m_next m)) in
  match codePhase rt stackPads (fn_id ctor) ctor_bb local_functions m with
  | None => None
  | Some m =>
      Some (renameMain
              (registerPhase rt stackPads old_ctors (fn_id ctor) ctor_bb m))
  end.

End Pass.

End Stabilizer.

(** ** Intrinsic lowering *)

Module LowerIntrinsics.
Import IR.

Section Libcalls.

(** [IntrinsicLibcalls.h] is not part of the sources at hand: the table
    lookup and the always-inline list are parameters. *)
Variable GetLibcall : string -> string.
Variable isAlwaysInlined : string -> bool.
Variable addr : Constant -> N.

Definition isEmpty (s : string) : bool :=
  match s with EmptyString => true | _ => false end.

Definition warning (name : string) : string :=
  "warning: unable to handle intrinsic " +++ name +++ String (ascii_of_nat 10) "".

(** The state of the loop: the module, the set of functions to delete and
    the text written to the error stream. *)
Definition LoopState : Type := (Module * list Handle * list string)%type.

(** What the body of the loop does at function [f]. *)
Definition visit (st : LoopState) (f : Function) : LoopState :=
  let '(m, toDelete, err) := st in
  if isIntrinsic f && negb (isAlwaysInlined (fn_name f)) then
    let r := GetLibcall (fn_name f) in
    if negb (isEmpty r) then
      let '(f_extern, m) :=
        match getFunction m r with
        | Some g => (g, m)
        | None => createFunction m (fn_type f) ExternalLinkage r
        end in
      let m := replaceAllUsesWith m (fn_id f) (fn_id f_extern) in
      (m, setInsert Nat.eqb (fun h => addr (GFunction h)) (fn_id f) toDelete,
       err)
    else (m, toDelete, err ++ [warning (fn_name f)])
  else st.

(** The loop over the function list: the list is read at the position of
    the iterator, so a function that the body appends is visited in its
    turn.  [fuel] bounds the number of turns. *)
Fixpoint lowerLoop (fuel : nat) (pos : nat) (st : LoopState)
  : option LoopState :=
  match fuel with
  | O => None
  | S fuel =>
      match nth_error (m_functions (fst (fst st))) pos with
      | None => Some st
      | Some f => lowerLoop fuel (S pos) (visit st f)
      end
  end.

(** [lowerInstrinsicsPass]: the module after the pass and the warnings. *)
Definition lowerInstrinsicsPass (fuel : nat) (m : Module)
  : option (Module * list string) :=
  match lowerLoop fuel 0 (m, [], []) with
  | None => None
  | Some (m, toDelete, err) =>
      Some (fold_left eraseFunction toDelete m, err)
  end.

(** The intrinsic is to be lowered: it is not always inlined and the table
    has a name for it. *)
Definition lowered (f : Function) : bool :=
  isIntrinsic f && negb (isAlwaysInlined (fn_name f))
  && negb (isEmpty (GetLibcall (fn_name f))).

(** The intrinsic is left with a warning. *)
Definition warned (f : Function) : bool :=
  isIntrinsic f && negb (isAlwaysInlined (fn_name f))
  && isEmpty (GetLibcall (fn_name f)).

(** The state of the loop when the functions [done] of [m0] have been
    visited. *)
Definition lowerInv (m0 : Module) (done : list Function)
  (st : LoopState) (r : Handle -> Handle) (news : list Function) : Prop :=
  let '(m, toDelete, err) := st in
  m_functions m = map (renameFunction r) (m_functions m0) ++ news
  /\ m_globals m = map (renameGlobal r) (m_globals m0)
  /\ m_next m0 <= m_next m
  /\ (forall s, In s news ->
        m_next m0 <= fn_id s < m_next m /\ fn_blocks s = []
        /\ fn_linkage s = ExternalLinkage /\ isIntrinsic s = false
        /\ getFunction m0 (fn_name s) = None)
  /\ (forall h, In h toDelete <->
                exists f, In f done /\ lowered f = true /\ fn_id f = h)
  /\ err = map (fun f => warning (fn_name f)) (filter warned done)
  /\ (forall h, (forall f, In f done -> lowered f = true -> h <> fn_id f) ->
                r h = h)
  /\ (forall f, In f done -> lowered f = true ->
        match getFunction m0 (GetLibcall (fn_name f)) with
        | Some e => r (fn_id f) = fn_id e
        | None => exists s, In s news /\ fn_name s = GetLibcall (fn_name f)
                            /\ r (fn_id f) = fn_id s
        end).

End Libcalls.

End LowerIntrinsics.

(** ** Notions the properties are stated with *)

Import IR.
Import Stabilizer.

Section ConstantInduction.
Variable P : Constant -> Prop.
Hypothesis HF : forall h, P (GFunction h).
Hypothesis HV : forall h, P (GVariable h).
Hypothesis HB : forall h b, P (BlockAddress h b).
Hypothesis HI : forall b v, P (ConstantInt b v).
Hypothesis HFP : forall t v, P (ConstantFP t v).
Hypothesis HN : forall t, P (ConstantPointerNull t).
Hypothesis HZ : forall t, P (ConstantAggregateZero t).
Hypothesis HU : forall t, P (UndefValue t).
Hypothesis HE : forall op t ops, Forall P ops -> P (ConstantExpr op t ops).
Hypothesis HS : forall t es, Forall P es -> P (ConstantStruct t es).
Hypothesis HA : forall t es, Forall P es -> P (ConstantArray t es).
Hypothesis HVec : forall t es, Forall P es -> P (ConstantVector t es).

(** Induction on constants that goes through the operand lists. *)
Fixpoint Constant_nested_ind (c : Constant) : P c :=
  let all :=
    fix all (l : list Constant) : Forall P l :=
      match l with
      | [] => Forall_nil P
      | x :: r => Forall_cons x (Constant_nested_ind x) (all r)
      end in
  match c with
  | GFunction h => HF h
  | GVariable h => HV h
  | BlockAddress h b => HB h b
  | ConstantInt b v => HI b v
  | ConstantFP t v => HFP t v
  | ConstantPointerNull t => HN t
  | ConstantAggregateZero t => HZ t
  | UndefValue t => HU t
  | ConstantExpr op t ops => HE op t ops (all ops)
  | ConstantStruct t es => HS t es (all es)
  | ConstantArray t es => HA t es (all es)
  | ConstantVector t es => HVec t es (all es)
  end.
End ConstantInduction.

(** The identities and names of the functions of a module. *)
Definition signature (m : Module) : list (Handle * string) :=
  map (fun f => (fn_id f, fn_name f)) (m_functions m).

(** The handles of the instructions of a body. *)
Definition ids (bs : list BasicBlock) : list Handle := map i_id (allInsts bs).

(** The handles of a body are distinct and below [n]: the body is well
    formed and [n] is fresh for it. *)
Definition wfBody (n : Handle) (bs : list BasicBlock) : Prop :=
  NoDup (ids bs) /\ Forall (fun h => h < n) (ids bs).

(** A list in ascending order of address. *)
Definition ascending {A : Type} (address : A -> N) : list A -> Prop :=
  StronglySorted (fun a b => (address a <= address b)%N).

(** *** The scan for global references *)

(** The places the scan of a body visits, in order: each operand slot of
    each instruction. *)
Definition scanPositions (bs : list BasicBlock) : list (Instruction * nat) :=
  flat_map (fun i => map (pair i) (seq 0 (List.length (i_operands i))))
           (allInsts bs).

(** The constant found at a place, when it refers to a global. *)
Definition qualifying (m : Module) (p : Instruction * nat) : option Constant :=
  match nth_error (i_operands (fst p)) (snd p) with
  | Some (VConst c) => if containsGlobalC m c then Some c else None
  | _ => None
  end.

(** The constants that refer to a global, in the order the scan meets them,
    with repetitions. *)
Definition discovered (m : Module) (bs : list BasicBlock) : list Constant :=
  flat_map (fun p => match qualifying m p with Some c => [c] | None => [] end)
           (scanPositions bs).

(** The list the specification describes for the relocation table: the
    distinct constants, each at the place of its first discovery. *)
Definition firstDiscoveryOrder (l : list Constant) : list Constant :=
  fold_left (fun s c => if existsb (constant_eqb c) s then s else s ++ [c]) l [].

(** The keys of a [std::map<Constant*, _>] filled in the same order: distinct
    constants in ascending order of address. *)
Definition pointerOrder (addr : Constant -> N) (l : list Constant)
  : list Constant :=
  fold_left (fun s c => setInsert constant_eqb addr c s) l [].

(** Use [u] is recorded for constant [c] in a collection. *)
Definition recorded (res : References) (c : Constant) (u : Use) : Prop :=
  exists us, In (c, us) res /\ In u us.

(** The uses of entry number [k] of a collection. *)
Definition entryUse (refs : References) (k : nat) (u : Use) : Prop :=
  exists c us, nth_error refs k = Some (c, us) /\ In u us.

(** *** The rewriting of the collected uses *)

(** A load of a slot of the table addressed through [base]. *)
Definition isSlotLoad (tableTy : Ty) (base : Constant) (i : Instruction) : Prop :=
  i_op i = Load
  /\ exists index, i_operands i = [VConst (getGetElementPtr tableTy base index)].

(** Every instruction is a slot load, or its operands that refer to a global
    are among the uses still to be rewritten. *)
Definition pendingOnly (m : Module) (tableTy : Ty) (base : Constant)
  (pending : list Use) (bs : list BasicBlock) : Prop :=
  forall i, In i (allInsts bs) ->
    isSlotLoad tableTy base i
    \/ forall k c, nth_error (i_operands i) k = Some (VConst c) ->
                   containsGlobalC m c = true -> In (i_id i, k) pending.

(** Use [u] has been pointed at the load [nu] of slot [j]: the operand is the
    result of [nu], the instruction [nu] loads slot [j], and it stands in the
    body when the user is not a PHI. *)
Definition rewritten (tableTy : Ty) (base : Constant) (bs : list BasicBlock)
  (u : Use) (j : N) (nu : Handle) : Prop :=
  (forall x, In x (allInsts bs) -> i_id x = fst u ->
             nth_error (i_operands x) (snd u) = Some (VInst nu))
  /\ (forall x, In x (allInsts bs) -> i_id x = nu ->
                i_op x = Load
                /\ i_operands x = [VConst (getGetElementPtr tableTy base j)])
  /\ ((forall x, In x (allInsts bs) -> i_id x = fst u -> isPHI x = false) ->
      exists y, In y (allInsts bs) /\ i_id y = nu).

(** Every use of [allUses] names an instruction and an operand number of the
    body. *)
Definition usesInRange (allUses : list Use) (bs : list BasicBlock) : Prop :=
  forall u, In u allUses ->
    (exists x, In x (allInsts bs) /\ i_id x = fst u)
    /\ forall x, In x (allInsts bs) -> i_id x = fst u ->
                 snd u < List.length (i_operands x).

(** The invariant of the rewriting loop: [D u j] says that use [u] was
    rewritten with slot [j]; [n0] is the first handle the loop draws. *)
Definition rewriteInv (tableTy : Ty) (base : Constant) (n0 : Handle)
  (allUses : list Use) (st : Handle * list BasicBlock)
  (D : Use -> N -> Prop) : Prop :=
  wfBody (fst st) (snd st) /\ n0 <= fst st /\ usesInRange allUses (snd st)
  /\ forall u j, D u j ->
       In u allUses
       /\ exists nu, n0 <= nu < fst st /\ rewritten tableTy base (snd st) u j nu.

(** The closure the specification speaks of: the constant and every constant
    it holds, aggregates and block addresses included, refers to a global
    value that is neither an intrinsic nor the personality routine. *)
Fixpoint closureReferencesGlobal (m : Module) (c : Constant) : bool :=
  match c with
  | GFunction h | BlockAddress h _ =>
      match lookupFunction m h with
      | Some f =>
          negb (isIntrinsic f || String.eqb (fn_name f) "__gxx_personality_v0")
      | None => true
      end
  | GVariable _ => true
  | ConstantExpr _ _ ops => existsb (closureReferencesGlobal m) ops
  | ConstantStruct _ es => existsb (closureReferencesGlobal m) es
  | ConstantArray _ es => existsb (closureReferencesGlobal m) es
  | ConstantVector _ es => existsb (closureReferencesGlobal m) es
  | _ => false
  end.

(** What the specification promises of a randomized body: no operand refers
    to a global value. *)
Definition noGlobalReference (m : Module) (bs : list BasicBlock) : Prop :=
  forall i, In i (allInsts bs) ->
  forall c, In (VConst c) (i_operands i) -> closureReferencesGlobal m c = false.

(** *** A small module *)

(** [int g = 7; int k = 9; int h() { return k + g; }] on x86-64. *)
Definition example_g : GlobalVariable :=
  mkGlobalVariable 1 "g" Int32Ty false ExternalLinkage (Some (ConstantInt 32 7)).

Definition example_k : GlobalVariable :=
  mkGlobalVariable 2 "k" Int32Ty false ExternalLinkage (Some (ConstantInt 32 9)).

Definition example_h : Function :=
  mkFunction 3 "h" (FunctionTy Int32Ty [] false) ExternalLinkage None []
    [mkBasicBlock 4 "entry"
       [mkInstruction 5 Load Int32Ty "a" false [VConst (GVariable 2)] [];
        mkInstruction 6 Load Int32Ty "b" false [VConst (GVariable 1)] [];
        mkInstruction 7 Add Int32Ty "c" false [VInst 5; VInst 6] [];
        mkInstruction 8 Ret VoidTy "" false [VInst 7] []]].

Definition example_module : Module :=
  mkModule "x86_64-unknown-linux-gnu" 8 [example_h] [example_g; example_k] 9.

(** Addresses for the example: a global value lies at its handle. *)
Definition example_addr (c : Constant) : N :=
  match c with
  | GVariable h => N.of_nat h
  | GFunction h => N.of_nat h
  | _ => 1000
  end.

Definition example_use_addr (u : Use) : N := N.of_nat (16 * fst u + snd u).

(** *** Stack padding, as the specification describes it *)

(** A call site [c] with what surrounds it: the pad byte is loaded, widened
    to the pointer width and multiplied by 16; the stack pointer is saved,
    lowered by the pad and installed; after the call the saved pointer is
    installed again.  [n] is the first of the nine handles used. *)
Definition paddedCall (intptr : Ty) (bits : N)
  (stackPad stacksave stackrestore : Handle) (n : Handle) (c : Instruction)
  : list Instruction :=
  [mkInstruction n Load Int8Ty "pad" false [VConst (GVariable stackPad)] [];
   mkInstruction (n + 1) ZExt intptr "" false [VInst n] [];
   mkInstruction (n + 2) Mul intptr "aligned_pad" true
     [VInst (n + 1); VConst (ConstantInt bits 16)] [];
   mkInstruction (n + 3) Call Int8PtrTy "" false
     [VConst (GFunction stacksave)] [];
   mkInstruction (n + 4) PtrToInt intptr "" false [VInst (n + 3)] [];
   mkInstruction (n + 5) Sub intptr "" false [VInst (n + 4); VInst (n + 2)] [];
   mkInstruction (n + 6) IntToPtr Int8PtrTy "" false [VInst (n + 5)] [];
   mkInstruction (n + 7) Call VoidTy "" false
     [VInst (n + 6); VConst (GFunction stackrestore)] [];
   c;
   mkInstruction (n + 8) Call VoidTy "" false
     [VInst (n + 3); VConst (GFunction stackrestore)] []].

(** Every call of a list of instructions padded, left to right, from handle
    [n] on; the next unused handle comes first in the result. *)
Fixpoint padInsts (intptr : Ty) (bits : N)
  (stackPad stacksave stackrestore : Handle) (n : Handle)
  (l : list Instruction) : Handle * list Instruction :=
  match l with
  | [] => (n, [])
  | i :: r =>
      if isCallInst i then
        let '(n', r') :=
          padInsts intptr bits stackPad stacksave stackrestore (n + 9) r in
        (n', paddedCall intptr bits stackPad stacksave stackrestore n i ++ r')
      else
        let '(n', r') :=
          padInsts intptr bits stackPad stacksave stackrestore n r in
        (n', i :: r')
  end.

Fixpoint padBlocks (intptr : Ty) (bits : N)
  (stackPad stacksave stackrestore : Handle) (n : Handle)
  (bs : list BasicBlock) : Handle * list BasicBlock :=
  match bs with
  | [] => (n, [])
  | b :: r =>
      let '(n1, l) :=
        padInsts intptr bits stackPad stacksave stackrestore n (b_insts b) in
      let '(n2, r') :=
        padBlocks intptr bits stackPad stacksave stackrestore n1 r in
      (n2, set_insts b l :: r')
  end.

(** No block ends with a call: a block of well-formed IR ends with a
    terminator. *)
Definition callsHaveSuccessor (bs : list BasicBlock) : Prop :=
  forall b, In b bs ->
    match rev (b_insts b) with
    | i :: _ => isCallInst i = false
    | [] => True
    end.

(** [void f() { g(); g(); }] *)
Definition example_caller : Function :=
  mkFunction 2 "f" (FunctionTy VoidTy [] false) ExternalLinkage None []
    [mkBasicBlock 3 "entry"
       [mkInstruction 4 Call VoidTy "" false [VConst (GFunction 1)] [];
        mkInstruction 5 Call VoidTy "" false [VConst (GFunction 1)] [];
        mkInstruction 6 Ret VoidTy "" false [] []]].

Definition example_callee : Function :=
  mkFunction 1 "g" (FunctionTy VoidTy [] false) ExternalLinkage None [] [].

Definition example_calls : Module :=
  mkModule "x86_64-unknown-linux-gnu" 8 [example_callee; example_caller]
    [mkGlobalVariable 7 "f.stack_pad" Int8Ty false InternalLinkage
       (Some (ConstantInt 8 0))]
    8.

(** *** Heap randomization, as the specification describes it *)

(** The allocator names and the names of their replacements. *)
Definition allocators : list (string * string) :=
  [("malloc", "stabilizer_malloc"); ("calloc", "stabilizer_calloc");
   ("realloc", "stabilizer_realloc"); ("free", "stabilizer_free")].

(** The functions of a module have distinct handles, all below the next
    unused one. *)
Definition wfFunctions (m : Module) : Prop :=
  NoDup (map fn_id (m_functions m))
  /\ Forall (fun f => fn_id f < m_next m) (m_functions m).

(** [h] is the handle of an allocator that module [m] declares. *)
Definition isAllocator (m : Module) (h : Handle) : Prop :=
  exists orig new f,
    In (orig, new) allocators /\ getFunction m orig = Some f /\ fn_id f = h.

(** A module that declares [malloc] and [free] and defines a function that
    calls [malloc(8)], frees the result and returns the address of [malloc]
    itself. *)
Definition example_malloc : Function :=
  mkFunction 1 "malloc" (FunctionTy Int8PtrTy [Int64Ty] false) ExternalLinkage
    None [] [].

Definition example_free : Function :=
  mkFunction 2 "free" (FunctionTy VoidTy [Int8PtrTy] false) ExternalLinkage
    None [] [].

Definition example_user : Function :=
  mkFunction 3 "f" (FunctionTy Int8PtrTy [] false) ExternalLinkage None []
    [mkBasicBlock 4 "entry"
       [mkInstruction 5 Call Int8PtrTy "p" false
          [VConst (ConstantInt 64 8); VConst (GFunction 1)] [];
        mkInstruction 6 Call VoidTy "" false [VInst 5; VConst (GFunction 2)] [];
        mkInstruction 7 Ret VoidTy "" false
          [VConst (ConstantExpr BitCast Int8PtrTy [GFunction 1])] []]].

Definition example_heap : Module :=
  mkModule "x86_64-unknown-linux-gnu" 8
    [example_malloc; example_free; example_user] [] 8.

(** *** The state of the heap loop *)

(** The state of the module after some of the allocators of [m0] have been
    dealt with: [P] lists them with their replacements' names. *)
Definition heapInv (m0 : Module) (P : list (Function * string)) (m : Module)
  (r : Handle -> Handle) (news : list Function) : Prop :=
  m_functions m = map (renameFunction r) (m_functions m0) ++ news
  /\ m_globals m = map (renameGlobal r) (m_globals m0)
  /\ m_next m0 <= m_next m
  /\ (forall h, (forall p, In p P -> h <> fn_id (fst p)) -> r h = h)
  /\ (forall s, In s news ->
        m_next m0 <= fn_id s < m_next m /\ fn_blocks s = []
        /\ exists p, In p P /\ fn_name s = snd p)
  /\ (forall p, In p P ->
        exists s, In s news /\ fn_name s = snd p
                  /\ fn_linkage s = ExternalLinkage
                  /\ fn_type s = fn_type (fst p)
                  /\ r (fn_id (fst p)) = fn_id s).

Definition present (fn : option Function) (name : string)
  : list (Function * string) :=
  match fn with Some f => [(f, name)] | None => [] end.

(** *** Intrinsic lowering: an example *)

(** A table that knows one intrinsic, and a module that declares that
    intrinsic and another one, and calls both. *)
Definition example_libcall (n : string) : string :=
  if String.eqb n "llvm.memset.p0i8.i64" then "memset" else EmptyString.

Definition example_memset : Function :=
  mkFunction 1 "llvm.memset.p0i8.i64"
    (FunctionTy VoidTy [Int8PtrTy; IntegerTy 8; Int64Ty; IntegerTy 1] false)
    ExternalLinkage None [] [].

Definition example_trap : Function :=
  mkFunction 2 "llvm.trap" (FunctionTy VoidTy [] false) ExternalLinkage
    None [] [].

Definition example_filler : Function :=
  mkFunction 3 "fill" (FunctionTy VoidTy [Int8PtrTy] false) ExternalLinkage
    None []
    [mkBasicBlock 4 "entry"
       [mkInstruction 5 Call VoidTy "" false
          [VArg 3 0; VConst (ConstantInt 8 0); VConst (ConstantInt 64 16);
           VConst (ConstantInt 1 0); VConst (GFunction 1)] [];
        mkInstruction 6 Call VoidTy "" false [VConst (GFunction 2)] [];
        mkInstruction 7 Unreachable VoidTy "" false [] []]].

Definition example_intrinsics : Module :=
  mkModule "x86_64-unknown-linux-gnu" 8
    [example_memset; example_trap; example_filler] [] 8.

(** The same module with a [memset] of its own: internal, with a body. *)
Definition example_own_memset : Function :=
  mkFunction 8 "memset"
    (FunctionTy Int8PtrTy [Int8PtrTy; Int32Ty; Int64Ty] false)
    InternalLinkage None []
    [mkBasicBlock 9 "entry"
       [mkInstruction 10 Ret VoidTy "" false [VArg 8 0] []]].

Definition example_defined : Module :=
  mkModule "x86_64-unknown-linux-gnu" 8
    [example_memset; example_trap; example_filler; example_own_memset] [] 11.

(** *** Float conversions *)

(** A renaming of instruction handles, on a value. *)
Definition renameInstValue (r : Handle -> Handle) (v : Value) : Value :=
  match v with VInst h => VInst (r h) | _ => v end.

(** The first operand of an instruction, as [getOperand(0)] reads it. *)
Definition operand0 (i : Instruction) : Value :=
  nth 0 (i_operands i) (VConst (UndefValue VoidTy)).

(** An operand whose type does not depend on the conversions around it: it is
    not the result of a conversion of the body [bs], and not a global. *)
Definition stableOperand (m : Module) (bs : list BasicBlock) (v : Value)
  : Prop :=
  match v with
  | VInst k =>
      exists j, In j (allInsts bs) /\ i_id j = k /\ isConversion m j = false
  | VConst (GFunction _) | VConst (GVariable _) => False
  | _ => True
  end.

(** What a function that [getFloatConversion] created looks like. *)
Definition isConverter (m : Module) (s : Function) : Prop :=
  getFunction m (fn_name s) = None
  /\ fn_linkage s = InternalLinkage
  /\ exists op p tin tout n,
       conversionName op = Some p
       /\ fn_name s = converterName p tin tout
       /\ fn_type s = FunctionTy tout [tin] false
       /\ fn_blocks s = converterBody (fn_id s) n op tout.

(** The body [bs'] comes from [bs] by changes to the operands of instruction
    [h] and by new loads, whose handles are [n] at least. *)
Definition operandsChanged (h n : Handle) (bs bs' : list BasicBlock) : Prop :=
  (forall y, In y (allInsts bs) ->
     exists y', In y' (allInsts bs') /\ i_id y' = i_id y /\ i_op y' = i_op y
                /\ i_ty y' = i_ty y /\ (i_id y <> h -> y' = y))
  /\ (forall y', In y' (allInsts bs') ->
        (exists y, In y (allInsts bs) /\ i_id y = i_id y'
                   /\ i_op y = i_op y')
        \/ (n <= i_id y' /\ i_op y' = Load)).

(** The state of the loop of [extractFloatOperations] on [f] in [m], when
    the instructions with handles [P] have been visited: [r] sends a
    conversion that was visited to the call that stands for it, [news] are
    the functions created. *)
Definition convInv (m : Module) (f : Function) (P : list Handle)
  (st : Module * list BasicBlock * list Handle)
  (r : Handle -> Handle) (news : list Function) : Prop :=
  let '(mk, bs, del) := st in
  wfBody (m_next mk) bs
  /\ m_next m <= m_next mk
  /\ m_triple mk = m_triple m
  /\ m_functions mk = m_functions m ++ news
  /\ NoDup (map fn_name news)
  /\ (forall s, In s news ->
        m_next m <= fn_id s < m_next mk /\ isConverter m s)
  /\ (forall j, In j (allInsts (fn_blocks f)) ->
        exists j', In j' (allInsts bs) /\ i_id j' = i_id j
          /\ i_op j' = i_op j /\ i_ty j' = i_ty j
          /\ (isConversion m j = true ->
              i_operands j' = map (renameInstValue r) (i_operands j)))
  /\ (forall j', In j' (allInsts bs) ->
        (exists j, In j (allInsts (fn_blocks f)) /\ i_id j = i_id j')
        \/ (m_next m <= i_id j' /\ isConversion m j' = false))
  /\ (forall h, In h del <->
        (In h P /\ exists j, In j (allInsts (fn_blocks f)) /\ i_id j = h
                             /\ isConversion m j = true))
  /\ (forall h, ~ In h del -> r h = h)
  /\ (forall i, In i (allInsts (fn_blocks f)) -> isConversion m i = true ->
        In (i_id i) P ->
        exists p tin conv ci,
          conversionName (i_op i) = Some p
          /\ getFunction mk (converterName p tin (i_ty i)) = Some conv
          /\ (stableOperand m (fn_blocks f) (operand0 i) ->
              tin = getTypeV m f (fn_blocks f) (operand0 i))
          /\ In ci (allInsts bs) /\ i_id ci = r (i_id i)
          /\ m_next m <= i_id ci /\ i_op ci = Call
          /\ i_operands ci = [renameInstValue r (operand0 i);
                              VConst (GFunction (fn_id conv))]).

(** A function that converts its argument to [double], alone in a module,
    and in a module that already has a function of the name of the
    converter, a declaration. *)
Definition example_convert : Function :=
  mkFunction 2 "to_double" (FunctionTy DoubleTy [IntegerTy 32] false)
    ExternalLinkage None []
    [mkBasicBlock 3 "entry"
       [mkInstruction 4 SIToFP DoubleTy "d" false [VArg 2 0] [];
        mkInstruction 5 Ret VoidTy "" false [VInst 4] []]].

Definition example_named : Function :=
  mkFunction 1 "sitofp.i32.double" (FunctionTy DoubleTy [IntegerTy 32] false)
    ExternalLinkage None [] [].

Definition example_clash : Module :=
  mkModule "x86_64-unknown-linux-gnu" 8 [example_named; example_convert] [] 6.

Definition example_plain : Module :=
  mkModule "x86_64-unknown-linux-gnu" 8 [example_convert] [] 6.

(** *** How the lists of a module evolve through the pass *)

Section Evolution.
Context {A : Type}.
Variable ident : A -> nat.
Variable label : A -> string.
Variable same : A -> A -> Prop.
Variable U : A -> Prop.
Variable N : string -> Prop.

(** [l'] comes from [l]: every element is still there, the same but for what
    [same] lets change, and unchanged outside [U]; what is new has a handle
    from [lo] to below [hi] and a name in [N]. *)
Definition evolvesL (lo hi : nat) (l l' : list A) : Prop :=
  (forall x, In x l ->
     exists x', In x' l' /\ same x x' /\ (~ U x -> x' = x))
  /\ (forall x', In x' l' ->
        (exists x, In x l /\ same x x' /\ (~ U x -> x' = x))
        \/ (lo <= ident x' < hi /\ N (label x'))).
End Evolution.

Definition sameFunction (f f' : Function) : Prop :=
  fn_id f' = fn_id f /\ fn_name f' = fn_name f.

Definition sameGlobal (g g' : GlobalVariable) : Prop :=
  gv_id g' = gv_id g /\ gv_name g' = gv_name g
  /\ gv_linkage g' = gv_linkage g.

(** In the list [l] the function of handle [h] is immediately followed by
    [d]. *)
Definition followedBy (h : Handle) (d : Function) (l : list Function) : Prop :=
  exists l1 g l2, l = l1 ++ g :: d :: l2 /\ fn_id g = h.

(** The functions of [m'] come from those of [m]; [I] holds of the handles
    after which a function was inserted. *)
Definition fevolves (U : Function -> Prop) (I : Handle -> Prop)
  (N : string -> Prop) (m m' : Module) : Prop :=
  m_next m <= m_next m'
  /\ evolvesL fn_id fn_name sameFunction U N (m_next m) (m_next m')
       (m_functions m) (m_functions m')
  /\ (forall h d, followedBy h d (m_functions m) -> ~ I h -> ~ U d ->
        followedBy h d (m_functions m')).

Definition gevolves (U : GlobalVariable -> Prop) (N : string -> Prop)
  (m m' : Module) : Prop :=
  m_next m <= m_next m'
  /\ evolvesL gv_id gv_name sameGlobal U N (m_next m) (m_next m')
       (m_globals m) (m_globals m').

(** The names the pass gives are not [main] and not the name of the
    constructor table. *)
Definition notMain (s : string) : Prop := s <> "main".
Definition notCtorTable (s : string) : Prop := s <> "llvm.global_ctors".

(** Both lists of the module evolve. *)
Definition evolves (U : Function -> Prop) (I : Handle -> Prop)
  (UG : GlobalVariable -> Prop) (m m' : Module) : Prop :=
  fevolves U I notMain m m' /\ gevolves UG notCtorTable m m'.

(** The module the loops start from, and the functions they go through. *)
Definition afterHeap (opts : Options) (m : Module) : Module :=
  if stabilize_heap opts then randomizeHeap m else m.

(** *** The constructor table *)

(** The type of an entry of [llvm.global_ctors] and the table of the single
    entry for the function of handle [h]. *)
Definition ctorEntryTy : Ty :=
  StructTy None [Int32Ty; PointerTy (FunctionTy VoidTy [] false); Int8PtrTy].

Definition ctorTable (h : Handle) : Constant :=
  ConstantArray (ArrayTy 1 ctorEntryTy)
    [ConstantStruct ctorEntryTy
       [ConstantInt 32 65535; GFunction h; ConstantPointerNull Int8PtrTy]].

Definition ctorGlobal (n : Handle) : GlobalVariable :=
  mkGlobalVariable (S n) "llvm.global_ctors" (ArrayTy 1 ctorEntryTy) true
    AppendingLinkage (Some (ctorTable n)).

(** A program that declares [main], defines a function [init] and has it in
    its constructor table. *)
Definition example_main : Function :=
  mkFunction 1 "main" (FunctionTy Int32Ty [] false) ExternalLinkage None [] [].

Definition example_init : Function :=
  mkFunction 2 "init" (FunctionTy VoidTy [] false) ExternalLinkage None []
    [mkBasicBlock 3 "entry" [mkInstruction 4 Ret VoidTy "" false [] []]].

Definition example_ctors : GlobalVariable :=
  mkGlobalVariable 5 "llvm.global_ctors" (ArrayTy 1 ctorEntryTy) true
    AppendingLinkage (Some (ctorTable 2)).

Definition example_program : Module :=
  mkModule "x86_64-unknown-linux-gnu" 8 [example_main; example_init]
    [example_ctors] 6.

Definition example_options : Options := mkOptions true true true.

(** *** Names that are free

    What a theorem assumes of the module it starts from when it states the
    name of a value that the pass creates or renames. *)

(** The names in the symbol table of the module: those of its functions and
    of its global variables. *)
Definition globalNames (m : Module) : list string :=
  map fn_name (m_functions m) ++ map gv_name (m_globals m).

(** No function and no global variable of the module is named [name]. *)
Definition nameFree (m : Module) (name : string) : bool :=
  negb (existsb (String.eqb name) (globalNames m)).

(** No name of the module begins with [p]. *)
Definition prefixFree (m : Module) (p : string) : bool :=
  forallb (fun n => negb (prefix p n)) (globalNames m).

(** No other local function of the module has the name of [f]: two
    functions may share a name only when both are unnamed. *)
Definition ownName (m : Module) (f : Function) : Prop :=
  forall g, In g (m_functions m) -> isLocalFunction g = true ->
            fn_name g = fn_name f -> g = f.

(** *** The sentinel and an aggregate operand *)

(** The sentinel of a randomized function, but for its name: an internal
    function of type [void ()], aligned to a cache line, whose body is one
    block with a single instruction, a return of nothing. *)
Definition isSentinel (d : Function) : Prop :=
  fn_linkage d = InternalLinkage
  /\ fn_type d = FunctionTy VoidTy [] false
  /\ fn_align d = Some ALIGN
  /\ exists b r,
       fn_blocks d
       = [mkBasicBlock b "" [mkInstruction r Ret VoidTy "" false [] []]].

(** A function that returns a structure holding the address of [g]. *)
Definition example_packed : Function :=
  mkFunction 3 "packed" (FunctionTy (StructTy None [PointerTy Int32Ty]) [] false)
    ExternalLinkage None []
    [mkBasicBlock 4 "entry"
       [mkInstruction 5 Ret VoidTy "" false
          [VConst (ConstantStruct (StructTy None [PointerTy Int32Ty])
                     [GVariable 1])] []]].

Definition example_aggregate : Module :=
  mkModule "x86_64-unknown-linux-gnu" 8 [example_packed] [example_g] 6.

(** ** Notions for the functions around the claims *)

(** The constant is made of global values and plain data by constant
    expressions alone: no structure, array, vector or block address stands
    inside it. *)
Fixpoint expressionsOnly (c : Constant) : bool :=
  match c with
  | ConstantExpr _ _ ops => forallb expressionsOnly ops
  | ConstantStruct _ _ | ConstantArray _ _ | ConstantVector _ _ => false
  | BlockAddress _ _ => false
  | _ => true
  end.

(** *** Floating-point literals among the operands *)

(** The operand is a constant in which [containsConstantFloat] finds a
    floating-point literal. *)
Definition floatOperand (v : Value) : bool :=
  match v with VConst c => containsConstantFloat c | _ => false end.

Definition hasFloatOperand (j : Instruction) : bool :=
  existsb floatOperand (i_operands j).

(** The operands of [j] in front of position [k] hold no literal. *)
Definition cleanBelow (k : nat) (j : Instruction) : Prop :=
  forall k' v, k' < k -> nth_error (i_operands j) k' = Some v ->
               floatOperand v = false.

(** The state of the loop of [extractFloatOperations] when the instructions
    with handles [P], among those of the body [orig], have been visited: an
    instruction that still has a literal operand has not been visited, or
    is a conversion that will be deleted, or is a call that the loop made;
    [n0] is the first handle the loop could draw. *)
Definition floatInv (n0 : Handle) (orig P : list Handle)
  (st : Module * list BasicBlock * list Handle) : Prop :=
  let '(mk, bs, del) := st in
  wfBody (m_next mk) bs /\ n0 <= m_next mk
  /\ forall j, In j (allInsts bs) -> hasFloatOperand j = true ->
       (In (i_id j) orig /\ ~ In (i_id j) P)
       \/ In (i_id j) del
       \/ (n0 <= i_id j /\ i_op j = Call).

(** An operand that the loop of [extractFloatOperations] changes no more:
    it is not the result of an instruction of the original body, whose
    handles are below [n0], and not a constant with a literal in an
    instruction that is still to be visited; [V] holds of the handles the
    loop may still visit. *)
Definition settled (n0 : Handle) (V : Handle -> Prop) (owner : Handle)
  (v : Value) : Prop :=
  match v with
  | VInst h => n0 <= h
  | VConst c => containsConstantFloat c = false \/ ~ V owner
  | _ => True
  end.

(** Every instruction of [bs] is in [bs'], the same but for operands that
    were not settled. *)
Definition keeps (n0 : Handle) (V : Handle -> Prop)
  (bs bs' : list BasicBlock) : Prop :=
  forall j, In j (allInsts bs) ->
    exists j', In j' (allInsts bs') /\ j' = set_operands j (i_operands j')
      /\ List.length (i_operands j') = List.length (i_operands j)
      /\ forall k v, nth_error (i_operands j) k = Some v ->
                     settled n0 V (i_id j) v ->
                     nth_error (i_operands j') k = Some v.

(** The global variable and the load that take the place of a constant [c]
    with a literal. *)
Definition fconstGlobal (m : Module) (g : Handle) (c : Constant)
  : GlobalVariable :=
  mkGlobalVariable g "fconst" (getTypeC m c) true InternalLinkage (Some c).

Definition fconstLoad (m : Module) (l g : Handle) (c : Constant)
  : Instruction :=
  mkInstruction l Load (getTypeC m c) "fconst.load" false
    [VConst (GVariable g)] [].

(** Operand [k] of the instruction of handle [h] has been replaced: it is
    the result of a load, of handle [l], of the global variable of handle
    [g] that holds [c]. *)
Definition extractedAt (n0 : Handle) (m mk : Module) (bs : list BasicBlock)
  (h : Handle) (k : nat) (c : Constant) : Prop :=
  exists j l g,
    In j (allInsts bs) /\ i_id j = h
    /\ nth_error (i_operands j) k = Some (VInst l)
    /\ n0 <= l /\ n0 <= g
    /\ In (fconstGlobal m g c) (m_globals mk)
    /\ (isPHI j = false -> In (fconstLoad m l g c) (allInsts bs)).

(** [double half(double x) { return x * 0.5; }] *)
Definition example_half : Function :=
  mkFunction 1 "half" (FunctionTy DoubleTy [DoubleTy] false) ExternalLinkage
    None []
    [mkBasicBlock 2 "entry"
       [mkInstruction 3 FMul DoubleTy "y" false
          [VArg 1 0; VConst (ConstantFP DoubleTy 4602678819172646912)] [];
        mkInstruction 4 Ret VoidTy "" false [VInst 3] []]].

Definition example_floats : Module :=
  mkModule "x86_64-unknown-linux-gnu" 8 [example_half] [] 5.

(** *** The calls of the module constructor *)

(** The pad byte that the pass creates for the function named [name]. *)
Definition stackPad (p : Handle) (name : string) : GlobalVariable :=
  mkGlobalVariable p (name +++ ".stack_pad") Int8Ty false InternalLinkage
    (Some (ConstantInt 8 0)).

(** A call, of type [void], of the function [callee] on [args]. *)
Definition callOf (callee : Handle) (args : list Value) (i : Instruction)
  : Prop :=
  i_op i = Call /\ i_ty i = VoidTy
  /\ i_operands i = args ++ [VConst (GFunction callee)].

(** The functions of handle [cid] of the module are one, the function [c0]
    with a body of the single block [bb] that holds [calls]. *)
Definition ctorIs (m : Module) (cid : Handle) (c0 : Function) (bb : Handle)
  (calls : list Instruction) : Prop :=
  (exists g, In g (m_functions m) /\ fn_id g = cid)
  /\ forall g, In g (m_functions m) -> fn_id g = cid ->
       g = set_blocks c0 [mkBasicBlock bb "" calls].

(** The functions of [m] are those of [m0], with function handles renamed
    in their operands, and new declarations. *)
Definition heapShape (m0 m : Module) : Prop :=
  exists r news,
    m_functions m = map (renameFunction r) (m_functions m0) ++ news
    /\ m_globals m = map (renameGlobal r) (m_globals m0)
    /\ m_next m0 <= m_next m
    /\ forall s, In s news -> fn_blocks s = [] /\ m_next m0 <= fn_id s < m_next m.

(** The last argument of the registration of the function of handle [h]:
    its pad byte, or a null pointer when it has none. *)
Definition padValue (pads : StackPads) (h : Handle) : Value :=
  match mapFind Nat.eqb h pads with
  | Some pad => VConst (GVariable pad)
  | None => VConst (ConstantPointerNull Int8PtrTy)
  end.

(** The call that registers the function of handle [h]: six arguments, of
    which the first is the function as an [i8*] and the last is [pad]. *)
Definition registersFunction (rf : Handle) (pad : Value) (h : Handle)
  (i : Instruction) : Prop :=
  exists base limit table size adjacent,
    callOf rf [base; limit; table; size; adjacent; pad] i
    /\ (base = VConst (GFunction h)
        \/ base = VConst (ConstantExpr BitCast Int8PtrTy [GFunction h])).

(** *** What code randomization changes of a function record *)

(** [g'] is [g] with another body. *)
Definition sameButBody (g g' : Function) : Prop :=
  g' = set_blocks g (fn_blocks g').

(** The functions of [m'] are those of [m] with, at most, another body, and
    functions with new handles. *)
Definition bodiesOnly (m m' : Module) : Prop :=
  m_next m <= m_next m'
  /\ forall g', In g' (m_functions m') ->
       (exists g, In g (m_functions m) /\ sameButBody g g')
       \/ m_next m <= fn_id g'.

(** A function with stack protectors and linkonce_odr linkage. *)
Definition example_guarded : Function :=
  mkFunction 1 "guarded" (FunctionTy VoidTy [] false) LinkOnceODRLinkage None
    [StackProtect; StackProtectStrong; NoUnwind]
    [mkBasicBlock 2 "entry" [mkInstruction 3 Ret VoidTy "" false [] []]].

Definition example_protected : Module :=
  mkModule "x86_64-unknown-linux-gnu" 8 [example_guarded] [] 4.

(** * Proofs *)

(** ** Facts about the IR *)

Lemma find_signature (fs gs : list Function) (h : Handle) :
  map (fun f => (fn_id f, fn_name f)) fs = map (fun f => (fn_id f, fn_name f)) gs ->
  option_map fn_name (find (fun f => fn_id f =? h) fs)
  = option_map fn_name (find (fun f => fn_id f =? h) gs).
Proof.
  revert gs. induction fs as [|f fs IH]; intros [|g gs] E; simpl in *;
    try discriminate; auto.
  injection E as Ei En Er. rewrite Ei.
  destruct (fn_id g =? h); simpl; auto. congruence.
Qed.

Lemma containsGlobalC_signature (m m' : Module) (c : Constant) :
  signature m = signature m' -> containsGlobalC m c = containsGlobalC m' c.
Proof.
  intros E. induction c using Constant_nested_ind; simpl; auto.
  - unfold lookupFunction. pose proof (find_signature _ _ h E) as H.
    destruct (find _ (m_functions m)) as [f|], (find _ (m_functions m')) as [g|];
      simpl in H; try discriminate; auto.
    unfold isIntrinsic. injection H as ->. reflexivity.
  - induction H as [|x l Hx Hl IH]; simpl; auto. now rewrite Hx, IH.
Qed.

Lemma containsGlobal_signature (m m' : Module) (v : Value) :
  signature m = signature m' -> containsGlobal m v = containsGlobal m' v.
Proof. destruct v; simpl; auto. apply containsGlobalC_signature. Qed.

Lemma signature_updateFunction_blocks m h bs :
  signature (updateFunction m h (fun g => set_blocks g bs)) = signature m.
Proof.
  unfold signature, updateFunction; simpl. rewrite map_map.
  apply map_ext. intros f. now destruct (fn_id f =? h).
Qed.

Lemma signature_set_next m n : signature (set_next m n) = signature m.
Proof. reflexivity. Qed.

Lemma signature_createGlobal m t c l i n :
  signature (snd (createGlobal m t c l i n)) = signature m.
Proof. reflexivity. Qed.

Lemma constant_eqb_eq a b : constant_eqb a b = true <-> a = b.
Proof. unfold constant_eqb. destruct (Constant_eq_dec a b); split; congruence. Qed.

Lemma constant_eqb_refl a : constant_eqb a a = true.
Proof. now apply constant_eqb_eq. Qed.

Lemma use_eqb_eq a b : use_eqb a b = true <-> a = b.
Proof.
  unfold use_eqb. destruct a, b; simpl.
  rewrite andb_true_iff, !Nat.eqb_eq. split; [intros []|intros [=]]; subst; auto.
Qed.

Section OrderedFacts.
Context {A : Type}.
Variable eqb : A -> A -> bool.
Variable address : A -> N.
Hypothesis eqb_eq : forall a b, eqb a b = true <-> a = b.

Lemma orderedInsert_In x y l :
    In y (orderedInsert address x l) <-> y = x \/ In y l.
  Proof.
    induction l as [|z l IH]; simpl.
    - intuition.
    - destruct (address x <? address z)%N; simpl; rewrite ?IH; intuition.
  Qed.

Lemma orderedInsert_perm x l : Permutation (orderedInsert address x l) (x :: l).
  Proof.
    induction l as [|z l IH]; simpl; auto.
    destruct (address x <? address z)%N; auto.
    rewrite IH. apply perm_swap.
  Qed.

Lemma orderedInsert_ascending x l :
    ascending address l -> ascending address (orderedInsert address x l).
  Proof.
    unfold ascending. induction 1 as [|z l Hl IH Hz]; simpl.
    - constructor; auto. constructor.
    - destruct (address x <? address z)%N eqn:E.
      + apply N.ltb_lt in E. constructor.
        * constructor; auto.
        * constructor; [lia|]. eapply Forall_impl; [|exact Hz]. simpl; intros; lia.
      + apply N.ltb_ge in E. constructor; auto.
        apply Forall_forall. intros y Hy. apply orderedInsert_In in Hy.
        destruct Hy as [->|Hy]; auto.
        rewrite Forall_forall in Hz. auto.
  Qed.

Lemma existsb_eqb_In x l : existsb (eqb x) l = true <-> In x l.
  Proof.
    rewrite existsb_exists. split.
    - intros (y & Hy & E). apply eqb_eq in E. now subst.
    - intros H. exists x. split; auto. now apply eqb_eq.
  Qed.

Lemma setInsert_In x y l :
    In y (setInsert eqb address x l) <-> y = x \/ In y l.
  Proof.
    unfold setInsert. destruct (existsb (eqb x) l) eqn:E.
    - apply existsb_eqb_In in E. intuition (subst; auto).
    - apply orderedInsert_In.
  Qed.

Lemma setInsert_NoDup x l : NoDup l -> NoDup (setInsert eqb address x l).
  Proof.
    intros H. unfold setInsert. destruct (existsb (eqb x) l) eqn:E; auto.
    assert (~ In x l) as Hx.
    { intros Hin. apply existsb_eqb_In in Hin. congruence. }
    eapply Permutation_NoDup.
    - symmetry. apply orderedInsert_perm.
    - now constructor.
  Qed.

Lemma setInsert_ascending x l :
    ascending address l -> ascending address (setInsert eqb address x l).
  Proof.
    intros H. unfold setInsert. destruct (existsb (eqb x) l); auto.
    now apply orderedInsert_ascending.
  Qed.
End OrderedFacts.

Section MapFacts.
Context {K V : Type}.
Variable eqb : K -> K -> bool.
Variable address : K -> N.
Hypothesis eqb_eq : forall a b, eqb a b = true <-> a = b.

Lemma map_fst_orderedInsert (k : K) (d : V) l :
    map fst (orderedInsert (fun p => address (fst p)) (k, d) l)
    = orderedInsert address k (map fst l).
  Proof.
    induction l as [|[k' v'] l IH]; simpl; auto.
    destruct (address k <? address k')%N; simpl; congruence.
  Qed.

Lemma existsb_key k (l : list (K * V)) :
    existsb (fun p => eqb k (fst p)) l = existsb (eqb k) (map fst l).
  Proof. induction l; simpl; congruence. Qed.

Lemma map_fst_mapEnsure k (d : V) l :
    map fst (mapEnsure eqb address k d l) = setInsert eqb address k (map fst l).
  Proof.
    unfold mapEnsure, setInsert. rewrite existsb_key.
    destruct (existsb (eqb k) (map fst l)); auto.
    apply map_fst_orderedInsert.
  Qed.

Lemma map_fst_mapUpdate k (g : V -> V) l :
    map fst (mapUpdate eqb k g l) = map fst l.
  Proof.
    unfold mapUpdate. rewrite map_map. apply map_ext.
    intros p. now destruct (eqb k (fst p)).
  Qed.

Lemma mapEnsure_In k (d : V) l p :
    In p (mapEnsure eqb address k d l)
    <-> In p l \/ (p = (k, d) /\ ~ In k (map fst l)).
  Proof.
    unfold mapEnsure. rewrite existsb_key.
    destruct (existsb (eqb k) (map fst l)) eqn:E.
    - apply (existsb_eqb_In eqb eqb_eq) in E. intuition.
    - assert (~ In k (map fst l)) as Hk.
      { intros Hin. apply (existsb_eqb_In eqb eqb_eq) in Hin. congruence. }
      rewrite orderedInsert_In. intuition.
  Qed.

Lemma mapEnsure_key k (d : V) l : In k (map fst (mapEnsure eqb address k d l)).
  Proof.
    rewrite map_fst_mapEnsure. apply (setInsert_In eqb address eqb_eq). now left.
  Qed.

Lemma mapUpdate_In k (g : V -> V) l k' v' :
    In (k', v') (mapUpdate eqb k g l)
    <-> (k' <> k /\ In (k', v') l) \/ (k' = k /\ exists v, In (k, v) l /\ v' = g v).
  Proof.
    unfold mapUpdate. rewrite in_map_iff. split.
    - intros ([k0 v0] & E & Hin). simpl in E.
      destruct (eqb k k0) eqn:Ek.
      + apply eqb_eq in Ek. subst k0. injection E as <- <-.
        right. split; auto. now exists v0.
      + injection E as <- <-. left. split; auto.
        intros ->. assert (eqb k k = true) by now apply eqb_eq. congruence.
    - intros [[Hne Hin]|[-> (v & Hin & ->)]].
      + exists (k', v'). split; auto. simpl.
        destruct (eqb k k') eqn:Ek; auto. apply eqb_eq in Ek. congruence.
      + exists (k, v). split; auto. simpl.
        assert (eqb k k = true) as -> by now apply eqb_eq. reflexivity.
  Qed.
End MapFacts.

Lemma fold_left_flat_map {A B C : Type} (f : A -> C -> A) (g : B -> list C)
  (l : list B) (a : A) :
  fold_left f (flat_map g l) a = fold_left (fun a x => fold_left f (g x) a) l a.
Proof.
  revert a. induction l as [|x l IH]; intros a; simpl; auto.
  now rewrite fold_left_app, IH.
Qed.

Lemma fold_left_map {A B C : Type} (f : A -> C -> A) (g : B -> C)
  (l : list B) (a : A) :
  fold_left f (map g l) a = fold_left (fun a x => f a (g x)) l a.
Proof. revert a. induction l; intros; simpl; auto. Qed.

Lemma fold_left_ext {A B : Type} (f g : A -> B -> A) (l : list B) (a : A) :
  (forall a x, f a x = g a x) -> fold_left f l a = fold_left g l a.
Proof. intros E. revert a. induction l; intros; simpl; auto. now rewrite E. Qed.

Section Scan.
Variable addr : Constant -> N.
Variable use_addr : Use -> N.

Abbreviation findUses := (findPCRelativeUsesIn addr use_addr).
Abbreviation scanOp := (scanOperand addr use_addr).
Abbreviation record := (recordUse addr use_addr).

Lemma findPCRelativeUsesIn_positions m bs :
    findUses m bs
    = fold_left (fun res p => scanOp m (fst p) res (snd p)) (scanPositions bs) [].
  Proof.
    unfold findPCRelativeUsesIn, scanPositions, allInsts.
    rewrite !fold_left_flat_map. apply fold_left_ext. intros res b.
    apply fold_left_ext. intros res' i.
    rewrite fold_left_map. simpl. now destruct (isPHI i).
  Qed.

Lemma scanOperand_qualifying m p res :
    scanOp m (fst p) res (snd p)
    = match qualifying m p with
      | Some c => record c (i_id (fst p), snd p) res
      | None => res
      end.
  Proof.
    unfold scanOperand, qualifying.
    destruct (nth_error _ _) as [[]|]; simpl; auto.
    now destruct (containsGlobalC m c).
  Qed.

Lemma map_fst_recordUse c u res :
    map fst (record c u res) = setInsert constant_eqb addr c (map fst res).
  Proof.
    unfold recordUse. now rewrite map_fst_mapUpdate, map_fst_mapEnsure.
  Qed.

  (** The referenced constants are the keys of a pointer-ordered map filled
      in discovery order. *)
Lemma referencedValues_pointerOrder m bs :
    map fst (findUses m bs) = pointerOrder addr (discovered m bs).
  Proof.
    rewrite findPCRelativeUsesIn_positions. unfold discovered, pointerOrder.
    rewrite fold_left_flat_map.
    assert (forall ps (res : References),
      map fst (fold_left (fun res p => scanOp m (fst p) res (snd p)) ps res)
      = fold_left
          (fun a x =>
             fold_left (fun s c => setInsert constant_eqb addr c s)
               (match qualifying m x with Some c => [c] | None => [] end) a)
          ps (map fst res)) as H.
    { induction ps as [|p ps IH]; intros res; simpl; auto.
      rewrite IH. f_equal. rewrite scanOperand_qualifying.
      destruct (qualifying m p); simpl; auto. apply map_fst_recordUse. }
    apply (H _ []).
  Qed.

Lemma recorded_recordUse c u res c' u' :
    recorded (record c u res) c' u' <-> recorded res c' u' \/ (c' = c /\ u' = u).
  Proof.
    unfold recorded, recordUse. split.
    - intros (us & Hin & Hu).
      apply (mapUpdate_In constant_eqb constant_eqb_eq) in Hin.
      destruct Hin as [[Hne Hin]|[-> (v & Hin & ->)]].
      + apply (mapEnsure_In constant_eqb addr constant_eqb_eq) in Hin.
        destruct Hin as [Hin|[[= -> ->] _]]; [|now destruct Hu].
        left. now exists us.
      + apply (setInsert_In use_eqb use_addr use_eqb_eq) in Hu.
        destruct Hu as [->|Hu]; [now right|].
        apply (mapEnsure_In constant_eqb addr constant_eqb_eq) in Hin.
        destruct Hin as [Hin|[[= ->] _]]; [|now destruct Hu].
        left. now exists v.
    - intros [(us & Hin & Hu)|[-> ->]].
      + destruct (Constant_eq_dec c' c) as [->|Hne].
        * exists (setInsert use_eqb use_addr u us). split.
          -- apply (mapUpdate_In constant_eqb constant_eqb_eq). right. split; auto.
             exists us. split; auto.
             apply (mapEnsure_In constant_eqb addr constant_eqb_eq). now left.
          -- apply (setInsert_In use_eqb use_addr use_eqb_eq). now right.
        * exists us. split; auto.
          apply (mapUpdate_In constant_eqb constant_eqb_eq). left. split; auto.
          apply (mapEnsure_In constant_eqb addr constant_eqb_eq). now left.
      + pose proof (mapEnsure_key constant_eqb addr constant_eqb_eq c (@nil Use) res) as Hk.
        apply in_map_iff in Hk. destruct Hk as ([k us] & E & Hin). simpl in E. subst k.
        exists (setInsert use_eqb use_addr u us). split.
        * apply (mapUpdate_In constant_eqb constant_eqb_eq). right. split; auto.
          now exists us.
        * apply (setInsert_In use_eqb use_addr use_eqb_eq). now left.
  Qed.

  (** The uses the scan records are the operand slots that hold a constant
      referring to a global. *)
Lemma findPCRelativeUsesIn_recorded m bs c u :
    recorded (findUses m bs) c u
    <-> exists p, In p (scanPositions bs) /\ qualifying m p = Some c
                  /\ u = (i_id (fst p), snd p).
  Proof.
    rewrite findPCRelativeUsesIn_positions.
    assert (forall ps res,
      recorded (fold_left (fun res p => scanOp m (fst p) res (snd p)) ps res) c u
      <-> recorded res c u
          \/ exists p, In p ps /\ qualifying m p = Some c
                       /\ u = (i_id (fst p), snd p)) as H.
    { induction ps as [|p ps IH]; intros res; simpl.
      - split; [now left|]. intros [H|(p & [] & _)]; auto.
      - rewrite IH, scanOperand_qualifying. destruct (qualifying m p) as [c0|] eqn:Eq.
        + rewrite recorded_recordUse. split.
          * intros [[H|[-> ->]]|(q & Hq & H)]; auto.
            -- right. exists p. auto.
            -- right. exists q. auto.
          * intros [H|(q & [->|Hq] & Hc & Hu)]; auto.
            -- left. right. split; congruence.
            -- right. exists q. auto.
        + split.
          * intros [H|(q & Hq & H)]; auto. right. exists q. auto.
          * intros [H|(q & [->|Hq] & Hc & Hu)]; auto; [congruence|].
            right. exists q. auto. }
    rewrite H. split.
    - intros [(us & [] & _)|H']; auto.
    - intros H'. now right.
  Qed.
End Scan.

(** Facts about the two orders. *)

Lemma pointerOrder_acc_In addr l s c :
  In c (fold_left (fun s c => setInsert constant_eqb addr c s) l s)
  <-> In c s \/ In c l.
Proof.
  revert s. induction l as [|x l IH]; intros s; simpl.
  - intuition.
  - rewrite IH, (setInsert_In constant_eqb addr constant_eqb_eq). intuition.
Qed.

Lemma pointerOrder_In addr l c : In c (pointerOrder addr l) <-> In c l.
Proof. unfold pointerOrder. rewrite pointerOrder_acc_In. simpl. intuition. Qed.

Lemma pointerOrder_NoDup addr l : NoDup (pointerOrder addr l).
Proof.
  unfold pointerOrder.
  assert (forall s, NoDup s ->
            NoDup (fold_left (fun s c => setInsert constant_eqb addr c s) l s)) as H.
  { induction l as [|x l IH]; intros s Hs; simpl; auto.
    apply IH. now apply (setInsert_NoDup constant_eqb addr constant_eqb_eq). }
  apply H. constructor.
Qed.

Lemma pointerOrder_ascending addr l : ascending addr (pointerOrder addr l).
Proof.
  unfold pointerOrder.
  assert (forall s, ascending addr s ->
            ascending addr (fold_left (fun s c => setInsert constant_eqb addr c s) l s)) as H.
  { induction l as [|x l IH]; intros s Hs; simpl; auto.
    apply IH. now apply setInsert_ascending. }
  apply H. constructor.
Qed.

Lemma firstDiscoveryOrder_acc l s c :
  In c (fold_left (fun s c => if existsb (constant_eqb c) s then s else s ++ [c]) l s)
  <-> In c s \/ In c l.
Proof.
  revert s. induction l as [|x l IH]; intros s; simpl.
  - intuition.
  - rewrite IH. destruct (existsb (constant_eqb x) s) eqn:E.
    + apply (existsb_eqb_In constant_eqb constant_eqb_eq) in E.
      intuition (subst; auto).
    + rewrite in_app_iff. simpl. intuition.
Qed.

Lemma firstDiscoveryOrder_In l c : In c (firstDiscoveryOrder l) <-> In c l.
Proof. unfold firstDiscoveryOrder. rewrite firstDiscoveryOrder_acc. simpl. intuition. Qed.

Lemma firstDiscoveryOrder_NoDup l : NoDup (firstDiscoveryOrder l).
Proof.
  unfold firstDiscoveryOrder.
  assert (forall s, NoDup s ->
            NoDup (fold_left (fun s c => if existsb (constant_eqb c) s then s else s ++ [c]) l s)) as H.
  { induction l as [|x l IH]; intros s Hs; simpl; auto.
    apply IH. destruct (existsb (constant_eqb x) s) eqn:E; auto.
    assert (~ In x s) as Hx.
    { intros Hin. apply (existsb_eqb_In constant_eqb constant_eqb_eq) in Hin. congruence. }
    eapply Permutation_NoDup; [apply Permutation_cons_append|]. now constructor. }
  apply H. constructor.
Qed.

Lemma pointerOrder_perm addr l :
  Permutation (pointerOrder addr l) (firstDiscoveryOrder l).
Proof.
  apply NoDup_Permutation.
  - apply pointerOrder_NoDup.
  - apply firstDiscoveryOrder_NoDup.
  - intros c. now rewrite pointerOrder_In, firstDiscoveryOrder_In.
Qed.

(** ** Float extraction never aborts *)

Lemma isConversion_named m i :
  isConversion m i = true -> exists s, conversionName (i_op i) = Some s.
Proof.
  unfold isConversion, conversionName. destruct (i_op i); try discriminate; eauto.
Qed.

Lemma getFloatConversion_named m op tin tout s :
  conversionName op = Some s ->
  exists r, getFloatConversion m op tin tout = Some r.
Proof.
  intros E. unfold getFloatConversion. rewrite E.
  destruct (getFunction m (converterName s tin tout)); [eauto|].
  unfold createFunction. simpl. eauto.
Qed.

Lemma extractOperand_triple h st k :
  m_triple (fst (extractOperand h st k)) = m_triple (fst st).
Proof.
  destruct st as [m bs]. unfold extractOperand.
  destruct (findInst bs h); auto.
  destruct (nth_error _ k) as [[]|]; auto.
  destruct (containsConstantFloat c); auto.
Qed.

Lemma fold_extractOperand_triple h l st :
  m_triple (fst (fold_left (extractOperand h) l st)) = m_triple (fst st).
Proof.
  revert st. induction l as [|k l IH]; intros st; simpl; auto.
  rewrite IH. apply extractOperand_triple.
Qed.

Lemma getFloatConversion_triple m op tin tout g m' :
  getFloatConversion m op tin tout = Some (g, m') -> m_triple m' = m_triple m.
Proof.
  unfold getFloatConversion. destruct (conversionName op); [|discriminate].
  destruct (getFunction m _); intros [= <- <-]; reflexivity.
Qed.

Lemma extractStep_total f m bs del h :
  exists m' bs' del',
    extractStep f (Some (m, bs, del)) h = Some (m', bs', del')
    /\ m_triple m' = m_triple m.
Proof.
  unfold extractStep. destruct (findInst bs h) as [i|]; [|eauto 6].
  destruct (isConversion m i) eqn:E.
  - destruct (isConversion_named _ _ E) as (s & Hs).
    destruct (getFloatConversion_named m _ (getTypeV m f bs
               (nth 0 (i_operands i) (VConst (UndefValue VoidTy)))) (i_ty i) _ Hs)
      as ([g m'] & Hg).
    rewrite Hg. do 3 eexists. split; [reflexivity|].
    simpl. eapply getFloatConversion_triple; eauto.
  - pose proof (fold_extractOperand_triple h
                  (seq 0 (List.length (i_operands i))) (m, bs)) as Ht.
    destruct (fold_left _ _ _) as [m' bs']. do 3 eexists. split; [reflexivity|].
    exact Ht.
Qed.

Lemma fold_extractStep_total f l m bs del :
  exists m' bs' del',
    fold_left (extractStep f) l (Some (m, bs, del)) = Some (m', bs', del')
    /\ m_triple m' = m_triple m.
Proof.
  revert m bs del. induction l as [|h l IH]; intros m bs del; cbn [fold_left].
  - eauto 6.
  - destruct (extractStep_total f m bs del h) as (m1 & bs1 & del1 & -> & Ht).
    destruct (IH m1 bs1 del1) as (m2 & bs2 & del2 & -> & Ht2).
    do 3 eexists. split; [reflexivity|]. congruence.
Qed.

Lemma extractFloatOperations_total m f :
  exists m', extractFloatOperations m f = Some m' /\ m_triple m' = m_triple m.
Proof.
  unfold extractFloatOperations.
  destruct (fold_extractStep_total f (map i_id (allInsts (fn_blocks f))) m
              (fn_blocks f) []) as (m1 & bs1 & del1 & -> & Ht).
  eexists. split; [reflexivity|]. exact Ht.
Qed.

Lemma collect_total addr ua m f :
  exists m1, collect addr ua m f
             = Some (m1, findPCRelativeUsesIn addr ua m1 (bodyOf m1 (fn_id f)))
             /\ m_triple m1 = m_triple m.
Proof.
  unfold collect.
  destruct (extractFloatOperations_total (sentinelStage m f) f) as (m1 & -> & Ht).
  exists m1. split; auto.
Qed.

Lemma isDataPCRelative_triple m m' :
  m_triple m' = m_triple m -> isDataPCRelative m' = isDataPCRelative m.
Proof. unfold isDataPCRelative, getPlatform. now intros ->. Qed.

Lemma randomizeCode_total addr ua m f :
  exists r, randomizeCode addr ua m f = Some r.
Proof.
  unfold randomizeCode.
  destruct (collect_total addr ua m f) as (m1 & -> & _).
  destruct (0 <? _); [|eauto].
  destruct (createGlobal _ _ _ _ _ _) as [g m2].
  destruct (rewriteAll _ _ _ _ _ _) as [n bs]. eauto.
Qed.

(** The arguments that [randomizeCode] returns: two casts of function
    handles, the table pointer, the size of the table and the flag. *)
Lemma randomizeCode_tuple addr ua (m : Module) (f : Function) :
  exists m1 refs m' args,
    collect addr ua m f = Some (m1, refs)
    /\ randomizeCode addr ua m f = Some (m', args)
    /\ exists table size flag,
         args = [VConst (getPointerCast m1 (GFunction (fn_id f)) Int8PtrTy);
                 VConst (getPointerCast m1 (GFunction (m_next m)) Int8PtrTy);
                 VConst table; VConst size; VConst (ConstantInt 1 flag)]
         /\ (flag = 1%N <-> isDataPCRelative m = true /\ refs <> [])
         /\ (flag = 0%N \/ flag = 1%N)
         /\ (refs = [] ->
               table = ConstantPointerNull Int8PtrTy
               /\ size = ConstantInt 32 0 /\ flag = 0%N)
         /\ (refs <> [] ->
               exists g,
                 In g (m_globals m')
                 /\ gv_id g = m_next m1
                 /\ gv_type g = relocationTableTypeOf m1 f refs
                 /\ gv_init g = Some (ConstantStruct
                                        (relocationTableTypeOf m1 f refs)
                                        (map fst refs))
                 /\ gv_constant g = false
                 /\ gv_linkage g = InternalLinkage
                 /\ table = getPointerCast m' (GVariable (gv_id g)) Int8PtrTy
                 /\ size = ConstantExpr Trunc Int32Ty
                             [getSizeOf (relocationTableTypeOf m1 f refs)]).
Proof.
  destruct (collect_total addr ua m f) as (m1 & Hc & Ht).
  set (refs := findPCRelativeUsesIn addr ua m1 (bodyOf m1 (fn_id f))) in *.
  unfold randomizeCode. rewrite Hc. fold refs.
  pose proof (isDataPCRelative_triple m m1 Ht) as Hpc.
  destruct refs as [|r refs'] eqn:Er.
  - simpl. do 4 eexists. split; [reflexivity|]. split; [reflexivity|].
    exists (ConstantPointerNull Int8PtrTy), (ConstantInt 32 0), 0%N.
    repeat split; auto; try discriminate; try tauto.
  - cbn [List.length Nat.ltb Nat.leb].
    destruct (createGlobal m1 _ _ _ _ _) as [g m2] eqn:Eg.
    destruct (rewriteAll _ _ _ _ _ _) as [n bs] eqn:Erw.
    do 4 eexists. split; [reflexivity|]. split; [reflexivity|].
    unfold createGlobal in Eg. injection Eg as <- <-.
    match goal with
    | |- context [isDataPCRelative ?x] =>
        replace (isDataPCRelative x) with (isDataPCRelative m)
          by (symmetry; apply isDataPCRelative_triple; exact Ht)
    end.
    do 3 eexists. split; [reflexivity|].
    split; [|split; [|split; [discriminate|]]].
    + unfold IR.getInt. destruct (isDataPCRelative m); simpl; split; try tauto;
        try discriminate; try (intros _; split; [reflexivity|discriminate]).
      intros [H _]. discriminate.
    + unfold IR.getInt. destruct (isDataPCRelative m); simpl; auto.
    + intros _. eexists. split; [simpl; apply in_or_app; right; now left|].
      repeat split.
Qed.

(** ** Bodies under insertion and operand update *)

Lemma allInsts_mapInsts g bs : allInsts (mapInsts g bs) = map g (allInsts bs).
Proof.
  unfold allInsts, mapInsts. induction bs as [|b bs IH]; simpl; auto.
  now rewrite map_app, IH.
Qed.

Lemma insertBeforeIn_In t x l y :
  In y (insertBeforeIn t x l) -> y = x \/ In y l.
Proof.
  induction l as [|i l IH]; simpl; auto.
  destruct (i_id i =? t); simpl; intuition.
Qed.

Lemma insertBefore_In ip x bs y :
  In y (allInsts (insertBefore ip x bs)) -> y = x \/ In y (allInsts bs).
Proof.
  destruct ip as [t|]; simpl; [|now right].
  unfold allInsts. rewrite !in_flat_map.
  intros (b & Hb & Hy). apply in_map_iff in Hb. destruct Hb as (b0 & <- & Hb0).
  simpl in Hy. apply insertBeforeIn_In in Hy. destruct Hy; auto.
  right. exists b0. auto.
Qed.

Lemma nth_error_setNth {A : Type} (l : list A) k j v x :
  nth_error (setNth k v l) j = Some x ->
  (j = k /\ x = v) \/ (j <> k /\ nth_error l j = Some x).
Proof.
  revert k j. induction l as [|y l IH]; intros [|k] [|j]; simpl;
    try discriminate; auto.
  - intros [= <-]. auto.
  - intros H. apply IH in H. destruct H as [[-> ->]|[Hne H]]; auto.
Qed.

Lemma lookupFunction_updateFunction m h g k :
  (forall f, fn_id (g f) = fn_id f) ->
  lookupFunction (updateFunction m h g) k
  = if k =? h then option_map g (lookupFunction m k) else lookupFunction m k.
Proof.
  intros Hg. unfold lookupFunction, updateFunction. simpl.
  induction (m_functions m) as [|f fs IH]; simpl.
  - now destruct (k =? h).
  - destruct (fn_id f =? h) eqn:E1.
    + rewrite Hg. apply Nat.eqb_eq in E1.
      destruct (fn_id f =? k) eqn:E2.
      * apply Nat.eqb_eq in E2. assert ((k =? h) = true) as -> by (apply Nat.eqb_eq; lia).
        reflexivity.
      * exact IH.
    + destruct (fn_id f =? k) eqn:E2; auto.
      apply Nat.eqb_eq in E2. assert ((k =? h) = false) as ->; auto.
      apply Nat.eqb_neq. apply Nat.eqb_neq in E1. lia.
Qed.

Lemma bodyOf_update_blocks m h bs n :
  bodyOf (set_next (updateFunction m h (fun g => set_blocks g bs)) n) h
  = match lookupFunction m h with Some _ => bs | None => [] end.
Proof.
  unfold bodyOf.
  change (lookupFunction (set_next ?x n) h) with (lookupFunction x h).
  rewrite lookupFunction_updateFunction by reflexivity.
  rewrite Nat.eqb_refl. now destruct (lookupFunction m h).
Qed.

(** ** The rewriting of the collected uses *)

Section Rewrite.
Variable m : Module.
Variable tableTy : Ty.
Variable base : Constant.

Lemma rewriteUse_pending c index n bs u pending :
    pendingOnly m tableTy base (u :: pending) bs ->
    pendingOnly m tableTy base pending (snd (rewriteUse m tableTy base c index (n, bs) u)).
  Proof.
    intros HQ i Hi. unfold rewriteUse in Hi. simpl in Hi.
    unfold setOperand, updateInst in Hi. rewrite allInsts_mapInsts in Hi.
    apply in_map_iff in Hi. destruct Hi as (x & <- & Hx).
    apply insertBefore_In in Hx.
    assert (isSlotLoad tableTy base x
            \/ forall k c0, nth_error (i_operands x) k = Some (VConst c0) ->
                 containsGlobalC m c0 = true -> In (i_id x, k) (u :: pending)) as Hx'.
    { destruct Hx as [->|Hx]; auto. left. split; simpl; eauto. }
    clear Hx. destruct Hx' as [[Hop (idx & Hops)]|Hx'].
    - (* a slot load *)
      destruct (i_id x =? fst u) eqn:E; [|left; split; eauto].
      simpl. destruct (snd u) as [|k'] eqn:Ek.
      + right. simpl. rewrite Hops. intros [|[|k]] c0; simpl; discriminate.
      + left. split; auto. exists idx. simpl. rewrite Hops. simpl. now destruct k'.
    - right. destruct (i_id x =? fst u) eqn:E.
      + apply Nat.eqb_eq in E. simpl. intros k c0 Hk Hc.
        apply nth_error_setNth in Hk. destruct Hk as [[_ [=]]|[Hne Hk]].
        specialize (Hx' k c0 Hk Hc). destruct Hx' as [Hu|Hp]; auto.
        destruct u as [a b]. simpl in *. injection Hu as H1 H2. congruence.
      + intros k c0 Hk Hc.
        specialize (Hx' k c0 Hk Hc). destruct Hx' as [Hu|Hp]; auto.
        apply Nat.eqb_neq in E. destruct u as [a b]. simpl in *.
        injection Hu as H1 H2. congruence.
  Qed.

Lemma fold_rewriteUse_pending c index us st pending :
    pendingOnly m tableTy base (us ++ pending) (snd st) ->
    pendingOnly m tableTy base pending
      (snd (fold_left (rewriteUse m tableTy base c index) us st)).
  Proof.
    revert st. induction us as [|u us IH]; intros [n bs] H;
      cbn [fold_left app snd] in *; auto.
    apply IH. now apply rewriteUse_pending.
  Qed.

Lemma rewriteAll_pending refs index st :
    pendingOnly m tableTy base (flat_map snd refs) (snd st) ->
    pendingOnly m tableTy base [] (snd (rewriteAll m tableTy base refs index st)).
  Proof.
    revert index st. induction refs as [|[c us] refs IH]; intros index st H;
      cbn [rewriteAll flat_map snd] in *; auto.
    apply IH. now apply fold_rewriteUse_pending.
  Qed.
End Rewrite.

Lemma scanPositions_In bs i k v :
  In i (allInsts bs) -> nth_error (i_operands i) k = Some v ->
  In (i, k) (scanPositions bs).
Proof.
  intros Hi Hk. unfold scanPositions. apply in_flat_map. exists i. split; auto.
  apply in_map. apply in_seq. split; [lia|]. simpl.
  apply nth_error_Some. congruence.
Qed.

Lemma scanPositions_inv bs p :
  In p (scanPositions bs) -> In (fst p) (allInsts bs).
Proof.
  unfold scanPositions. rewrite in_flat_map. intros (i & Hi & Hp).
  apply in_map_iff in Hp. destruct Hp as (k & <- & _). exact Hi.
Qed.

Lemma signature_set_next' n t p fs gs :
  signature (mkModule t p fs gs n) = map (fun f => (fn_id f, fn_name f)) fs.
Proof. reflexivity. Qed.

(** Every operand that refers to a global is a recorded use. *)
Lemma findPCRelativeUsesIn_complete addr ua m bs i k c :
  In i (allInsts bs) -> nth_error (i_operands i) k = Some (VConst c) ->
  containsGlobalC m c = true ->
  In (i_id i, k) (flat_map snd (findPCRelativeUsesIn addr ua m bs)).
Proof.
  intros Hi Hk Hc.
  assert (recorded (findPCRelativeUsesIn addr ua m bs) c (i_id i, k)) as (us & Hin & Hu).
  { apply findPCRelativeUsesIn_recorded. exists (i, k). split; [|split]; auto.
    - eapply scanPositions_In; eauto.
    - unfold qualifying. simpl. now rewrite Hk, Hc. }
  apply in_flat_map. exists (c, us). auto.
Qed.

(** After [randomizeCode], an operand of an instruction of the function on
    which [containsGlobal] holds belongs to one of the loads that the
    rewriting inserted: a load from a slot of the table addressed through
    [actualTable].  There is no such operand when nothing was collected. *)
Lemma randomizeCode_slot_loads addr ua (m : Module) (f : Function) :
  exists m1 refs m' args,
    collect addr ua m f = Some (m1, refs)
    /\ randomizeCode addr ua m f = Some (m', args)
    /\ forall i, In i (allInsts (bodyOf m' (fn_id f))) ->
       forall v, In v (i_operands i) -> containsGlobal m' v = true ->
         refs <> []
         /\ isSlotLoad (relocationTableTypeOf m1 f refs)
              (actualTable m1 (m_next m) (relocationTableTypeOf m1 f refs)
                 (m_next m1)) i.
Proof.
  destruct (collect_total addr ua m f) as (m1 & Hc & Ht).
  set (refs := findPCRelativeUsesIn addr ua m1 (bodyOf m1 (fn_id f))) in *.
  unfold randomizeCode. rewrite Hc. fold refs.
  assert (forall i k c, In i (allInsts (bodyOf m1 (fn_id f))) ->
            nth_error (i_operands i) k = Some (VConst c) ->
            containsGlobalC m1 c = true -> In (i_id i, k) (flat_map snd refs)) as Hcomplete.
  { intros. eapply findPCRelativeUsesIn_complete; eauto. }
  destruct refs as [|r refs'] eqn:Er.
  - simpl. do 4 eexists. split; [reflexivity|]. split; [reflexivity|].
    intros i Hi v Hv Hg. exfalso. destruct v; try discriminate. simpl in Hg.
    apply In_nth_error in Hv. destruct Hv as (k & Hk).
    apply (Hcomplete i k c Hi Hk Hg).
  - cbn [List.length Nat.ltb Nat.leb].
    destruct (createGlobal m1 _ _ _ _ _) as [g m2] eqn:Eg.
    destruct (rewriteAll _ _ _ _ _ _) as [n bs] eqn:Erw.
    do 4 eexists. split; [reflexivity|]. split; [reflexivity|].
    unfold createGlobal in Eg. injection Eg as <- <-.
    intros i Hi v Hv Hg. split; [discriminate|].
    rewrite bodyOf_update_blocks in Hi.
    match type of Erw with
    | rewriteAll ?m2 ?ty ?base ?rs ?ix ?st = _ =>
        pose proof (rewriteAll_pending m2 ty base rs ix st) as Hp;
        assert (signature m2 = signature m1) as Hs1 by reflexivity
    end.
    rewrite Erw in Hp. simpl snd in Hp.
    destruct (lookupFunction _ (fn_id f)); [|destruct Hi].
    match type of Hg with
    | containsGlobal ?m3 _ = _ =>
        assert (signature m3 = signature m1) as Hs3
          by (rewrite signature_set_next, signature_updateFunction_blocks;
              reflexivity)
    end.
    rewrite (containsGlobal_signature _ _ v Hs3) in Hg.
    destruct Hp with (i := i) as [Hs|Hn]; auto.
    + intros j Hj. right. intros k c Hk Hgc.
      rewrite (containsGlobalC_signature _ _ c Hs1) in Hgc.
      exact (Hcomplete j k c Hj Hk Hgc).
    + exfalso. destruct v; try discriminate. simpl in Hg.
      apply In_nth_error in Hv. destruct Hv as (k & Hk).
      rewrite <- (containsGlobalC_signature _ _ c Hs1) in Hg.
      exact (Hn k c Hk Hg).
Qed.

(** ** Handles of a body *)

Lemma insertBeforeIn_absent t x l :
  ~ In t (map i_id l) -> insertBeforeIn t x l = l.
Proof.
  induction l as [|i l IH]; simpl; auto. intros H.
  destruct (i_id i =? t) eqn:E.
  - apply Nat.eqb_eq in E. tauto.
  - f_equal. tauto.
Qed.

Lemma insertBeforeIn_app t x l1 l2 :
  insertBeforeIn t x (l1 ++ l2)
  = if existsb (fun i => i_id i =? t) l1
    then insertBeforeIn t x l1 ++ l2
    else l1 ++ insertBeforeIn t x l2.
Proof.
  induction l1 as [|i l1 IH]; simpl; auto.
  destruct (i_id i =? t); simpl; auto.
  rewrite IH. now destruct (existsb _ l1).
Qed.

Lemma existsb_id_In t l :
  existsb (fun i => i_id i =? t) l = true <-> In t (map i_id l).
Proof.
  rewrite existsb_exists, in_map_iff. split.
  - intros (i & Hi & E). apply Nat.eqb_eq in E. eauto.
  - intros (i & E & Hi). exists i. split; auto. now apply Nat.eqb_eq.
Qed.

Lemma NoDup_app_disjoint {A : Type} (l1 l2 : list A) (a : A) :
  NoDup (l1 ++ l2) -> In a l1 -> ~ In a l2.
Proof.
  induction l1 as [|x l1 IH]; simpl; [tauto|].
  intros H [->|Hin] Hin2.
  - inversion H as [|? ? Hx _]. apply Hx. apply in_or_app. now right.
  - inversion H. now apply IH.
Qed.

Lemma allInsts_cons b bs : allInsts (b :: bs) = b_insts b ++ allInsts bs.
Proof. reflexivity. Qed.

Lemma allInsts_insertBefore t x bs :
  NoDup (ids bs) ->
  allInsts (insertBefore (Some t) x bs) = insertBeforeIn t x (allInsts bs).
Proof.
  unfold ids. induction bs as [|b bs IH]; intros H; auto.
  cbn [insertBefore map]. rewrite !allInsts_cons in *. cbn [b_insts set_insts].
  rewrite map_app in H. rewrite insertBeforeIn_app.
  change (allInsts (map (fun b0 => set_insts b0 (insertBeforeIn t x (b_insts b0))) bs))
    with (allInsts (insertBefore (Some t) x bs)).
  rewrite IH by (eapply NoDup_app_remove_l; eauto).
  destruct (existsb _ (b_insts b)) eqn:E.
  - apply existsb_id_In in E. f_equal. apply insertBeforeIn_absent.
    intros Hin. exact (NoDup_app_disjoint _ _ _ H E Hin).
  - f_equal. apply insertBeforeIn_absent. intros Hin.
    apply existsb_id_In in Hin. congruence.
Qed.

Lemma insertBeforeIn_split t x l :
  In t (map i_id l) ->
  exists l1 y l2,
    l = l1 ++ y :: l2 /\ i_id y = t /\ ~ In t (map i_id l1)
    /\ insertBeforeIn t x l = l1 ++ x :: y :: l2.
Proof.
  induction l as [|i l IH]; simpl; [tauto|]. intros H.
  destruct (i_id i =? t) eqn:E.
  - apply Nat.eqb_eq in E. exists [], i, l. simpl. auto.
  - apply Nat.eqb_neq in E. destruct H as [H|H]; [congruence|].
    destruct (IH H) as (l1 & y & l2 & -> & Hy & Hl1 & ->).
    exists (i :: l1), y, l2. simpl. repeat split; auto. tauto.
Qed.

Lemma insertBeforeIn_perm t x l :
  In t (map i_id l) -> Permutation (insertBeforeIn t x l) (x :: l).
Proof.
  intros H. destruct (insertBeforeIn_split t x l H) as (l1 & y & l2 & -> & _ & _ & ->).
  symmetry. apply Permutation_middle.
Qed.

Lemma insertBeforeIn_ids t x l :
  map i_id (insertBeforeIn t x l) = map i_id l
  \/ Permutation (map i_id (insertBeforeIn t x l)) (i_id x :: map i_id l).
Proof.
  destruct (in_dec Nat.eq_dec t (map i_id l)) as [H|H].
  - right. change (i_id x :: map i_id l) with (map i_id (x :: l)).
    apply Permutation_map. now apply insertBeforeIn_perm.
  - left. now rewrite insertBeforeIn_absent.
Qed.

Lemma wfBody_insertBefore n ip x bs :
  wfBody n bs -> i_id x = n -> wfBody (S n) (insertBefore ip x bs).
Proof.
  intros [Hnd Hlt] Hx. destruct ip as [t|]; [|cbn [insertBefore]].
  - unfold wfBody, ids. rewrite allInsts_insertBefore by exact Hnd.
    destruct (insertBeforeIn_ids t x (allInsts bs)) as [E|P].
    + rewrite E. split; auto. eapply Forall_impl; [|exact Hlt]. simpl. lia.
    + assert (~ In n (ids bs)) as Hfresh.
      { intros Hin. rewrite Forall_forall in Hlt. specialize (Hlt _ Hin). lia. }
      split.
      * eapply Permutation_NoDup; [symmetry; exact P|]. constructor; auto.
        now rewrite Hx.
      * eapply Permutation_Forall; [symmetry; exact P|]. constructor; [lia|].
        eapply Forall_impl; [|exact Hlt]. simpl. lia.
  - split; auto. eapply Forall_impl; [|exact Hlt]. simpl. lia.
Qed.

Lemma ids_mapInsts g bs :
  (forall i, i_id (g i) = i_id i) -> ids (mapInsts g bs) = ids bs.
Proof.
  intros Hg. unfold ids. rewrite allInsts_mapInsts, map_map.
  apply map_ext. exact Hg.
Qed.

Lemma wfBody_mapInsts n g bs :
  (forall i, i_id (g i) = i_id i) -> wfBody n bs -> wfBody n (mapInsts g bs).
Proof. intros Hg. unfold wfBody. now rewrite ids_mapInsts. Qed.

Lemma wfBody_setOperand n h k v bs :
  wfBody n bs -> wfBody n (setOperand h k v bs).
Proof.
  apply wfBody_mapInsts. intros i. now destruct (i_id i =? h).
Qed.

Lemma wfBody_replaceInstUses n a b bs :
  wfBody n bs -> wfBody n (replaceInstUses a b bs).
Proof. apply wfBody_mapInsts. reflexivity. Qed.

Lemma wfBody_mono n n' bs : n <= n' -> wfBody n bs -> wfBody n' bs.
Proof.
  intros Hle [Hnd Hlt]. split; auto.
  eapply Forall_impl; [|exact Hlt]. simpl. lia.
Qed.

Lemma allInsts_eraseInsts hs bs :
  allInsts (eraseInsts hs bs)
  = filter (fun i => negb (existsb (Nat.eqb (i_id i)) hs)) (allInsts bs).
Proof.
  unfold allInsts, eraseInsts. induction bs as [|b bs IH]; simpl; auto.
  now rewrite filter_app, IH.
Qed.

Lemma NoDup_map_filter {A B : Type} (g : A -> B) (p : A -> bool) l :
  NoDup (map g l) -> NoDup (map g (filter p l)).
Proof.
  induction l as [|x l IH]; simpl; auto. intros H. inversion H as [|? ? Hx Hl]; subst.
  destruct (p x); simpl; auto. constructor; auto.
  intros Hin. apply Hx. apply in_map_iff in Hin. destruct Hin as (y & E & Hy).
  apply filter_In in Hy. apply in_map_iff. exists y. tauto.
Qed.

Lemma wfBody_eraseInsts n hs bs : wfBody n bs -> wfBody n (eraseInsts hs bs).
Proof.
  intros [Hnd Hlt]. unfold wfBody, ids in *. rewrite allInsts_eraseInsts. split.
  - now apply NoDup_map_filter.
  - rewrite Forall_forall in *. intros h Hh. apply Hlt.
    apply in_map_iff in Hh. destruct Hh as (y & E & Hy).
    apply filter_In in Hy. apply in_map_iff. exists y. tauto.
Qed.

Lemma findInst_Some bs h x :
  findInst bs h = Some x -> In x (allInsts bs) /\ i_id x = h.
Proof.
  unfold findInst. intros H. apply find_some in H. destruct H as [H E].
  apply Nat.eqb_eq in E. auto.
Qed.

Lemma findInst_exists bs h x :
  In x (allInsts bs) -> i_id x = h -> exists y, findInst bs h = Some y.
Proof.
  unfold findInst. intros Hx E.
  destruct (find _ _) as [y|] eqn:F; eauto.
  exfalso. apply (find_none _ _ F) in Hx. apply Nat.eqb_neq in Hx. auto.
Qed.

Lemma nth_error_setNth_other {A : Type} (l : list A) k j v :
  j <> k -> nth_error (setNth k v l) j = nth_error l j.
Proof.
  revert k j. induction l as [|y l IH]; intros [|k] [|j] H; simpl; auto;
    try congruence.
Qed.

Lemma nth_error_setNth_same {A : Type} (l : list A) k v :
  k < List.length l -> nth_error (setNth k v l) k = Some v.
Proof.
  revert k. induction l as [|y l IH]; intros [|k] H; simpl in *; auto; try lia.
  apply IH. lia.
Qed.

Lemma length_setNth {A : Type} (l : list A) k v :
  List.length (setNth k v l) = List.length l.
Proof. revert k. induction l as [|y l IH]; intros [|k]; simpl; auto. Qed.

Lemma in_insertBeforeIn t x l y :
  In y l -> In y (insertBeforeIn t x l).
Proof.
  induction l as [|i l IH]; simpl; auto.
  destruct (i_id i =? t); simpl; intuition.
Qed.

Lemma in_insertBeforeIn_new t x l :
  In t (map i_id l) -> In x (insertBeforeIn t x l).
Proof.
  intros H. destruct (insertBeforeIn_split t x l H) as (l1 & y & l2 & _ & _ & _ & ->).
  apply in_or_app. right. now left.
Qed.

Section RewriteIndex.
Variable m : Module.
Variable tableTy : Ty.
Variable base : Constant.
Variable n0 : Handle.          (* the first handle the rewriting draws *)
Variable allUses : list Use.   (* the uses of the collection *)

Hypothesis uses_old : forall u, In u allUses -> fst u < n0.

Lemma allInsts_rewriteUse c index n bs u :
    wfBody n bs ->
    exists l,
      allInsts (snd (rewriteUse m tableTy base c index (n, bs) u))
      = map (fun i => if i_id i =? fst u
                      then set_operands i (setNth (snd u) (VInst n) (i_operands i))
                      else i) l
      /\ (forall y, In y (allInsts bs) -> In y l)
      /\ (forall y, In y l ->
            In y (allInsts bs)
            \/ y = mkInstruction n Load (getTypeC m (getGetElementPtr tableTy base index))
                     (getNameC m c +++ ".indirect") false
                     [VConst (getGetElementPtr tableTy base index)] [])
      /\ ((forall x, In x (allInsts bs) -> i_id x = fst u -> isPHI x = false) ->
          (exists x, In x (allInsts bs) /\ i_id x = fst u) ->
          In (mkInstruction n Load (getTypeC m (getGetElementPtr tableTy base index))
                (getNameC m c +++ ".indirect") false
                [VConst (getGetElementPtr tableTy base index)] []) l).
  Proof.
    intros [Hnd Hlt]. unfold rewriteUse. cbn [snd].
    unfold setOperand, updateInst. rewrite allInsts_mapInsts.
    eexists. split; [reflexivity|]. split; [|split].
    - intros y Hy. destruct (match findInst bs (fst u) with
                             | Some i => insertionPoint bs i (snd u) | None => None end)
        as [t|]; [|exact Hy].
      rewrite allInsts_insertBefore by exact Hnd. now apply in_insertBeforeIn.
    - intros y Hy. apply insertBefore_In in Hy. tauto.
    - intros Hphi (x & Hx & Ex).
      destruct (findInst_exists bs (fst u) x Hx Ex) as (y & Hy).
      rewrite Hy. destruct (findInst_Some _ _ _ Hy) as [Hyin Hyid].
      unfold insertionPoint. rewrite (Hphi y Hyin Hyid).
      rewrite allInsts_insertBefore by exact Hnd.
      apply in_insertBeforeIn_new. rewrite Hyid. apply in_map_iff. eauto.
  Qed.

Lemma rewriteUse_inv c index st u D :
    rewriteInv tableTy base n0 allUses st D -> In u allUses -> (forall j, ~ D u j) ->
    rewriteInv tableTy base n0 allUses (rewriteUse m tableTy base c index st u)
      (fun u' j => D u' j \/ (u' = u /\ j = index)).
  Proof.
    destruct st as [n bs]. intros (Hwf & Hn0 & Hrange & HD) Hu Hfresh.
    cbn [fst snd] in *.
    destruct (allInsts_rewriteUse c index n bs u Hwf) as (l & El & Hold & Hl & Hnew).
    set (load := mkInstruction n Load (getTypeC m (getGetElementPtr tableTy base index))
                   (getNameC m c +++ ".indirect") false
                   [VConst (getGetElementPtr tableTy base index)] []) in *.
    set (upd := fun i => if i_id i =? fst u
                         then set_operands i (setNth (snd u) (VInst n) (i_operands i))
                         else i) in *.
    assert (forall i, i_id (upd i) = i_id i) as Hupd_id.
    { intros i. unfold upd. now destruct (i_id i =? fst u). }
    assert (forall i, i_op (upd i) = i_op i) as Hupd_op.
    { intros i. unfold upd. now destruct (i_id i =? fst u). }
    assert (forall y, In y (allInsts bs) -> i_id y < n) as Hlt.
    { intros y Hy. destruct Hwf as [_ Hlt]. rewrite Forall_forall in Hlt.
      apply Hlt. unfold ids. now apply in_map. }
    assert (fst u < n) as Hun by (specialize (uses_old u Hu); lia).
    assert (rewriteUse m tableTy base c index (n, bs) u
            = (S n, snd (rewriteUse m tableTy base c index (n, bs) u))) as Est
      by reflexivity.
    assert (wfBody (S n) (snd (rewriteUse m tableTy base c index (n, bs) u))) as Hwf'.
    { unfold rewriteUse. cbn [snd]. apply wfBody_setOperand.
      now apply wfBody_insertBefore. }
    rewrite Est. generalize dependent (snd (rewriteUse m tableTy base c index (n, bs) u)).
    intros bs' El _ Hwf'. unfold rewriteInv, usesInRange. cbn [fst snd].
    split; [exact Hwf'|]. split; [lia|]. split.
    - (* the uses stay in range *)
      intros u0 Hu0. destruct (Hrange u0 Hu0) as [(x & Hx & Ex) Hr]. split.
      + exists (upd x). rewrite El. split; [apply in_map; auto|]. now rewrite Hupd_id.
      + intros x' Hx' Ex'. rewrite El in Hx'. apply in_map_iff in Hx'.
        destruct Hx' as (y & <- & Hy). rewrite Hupd_id in Ex'.
        destruct (Hl y Hy) as [Hy'| ->].
        * specialize (Hr y Hy' Ex'). unfold upd.
          destruct (i_id y =? fst u); simpl; auto. now rewrite length_setNth.
        * simpl in Ex'. specialize (uses_old u0 Hu0). lia.
    - intros u' j [Hd|[-> ->]].
      + (* an earlier use is left as it was *)
        destruct (HD u' j Hd) as (Hu' & nu & Hnu & R1 & R2 & R3).
        split; auto. exists nu. split; [lia|].
        assert (u' <> u) as Hne by (intros ->; exact (Hfresh j Hd)).
        split; [|split].
        * intros x' Hx' Ex'. rewrite El in Hx'. apply in_map_iff in Hx'.
          destruct Hx' as (y & <- & Hy). rewrite Hupd_id in Ex'.
          destruct (Hl y Hy) as [Hy'| ->].
          -- specialize (R1 y Hy' Ex'). unfold upd.
             destruct (i_id y =? fst u) eqn:E; auto. simpl.
             apply Nat.eqb_eq in E. rewrite nth_error_setNth_other; auto.
             intros Es. apply Hne. destruct u, u'. simpl in *. congruence.
          -- simpl in Ex'. specialize (uses_old u' Hu'). lia.
        * intros x' Hx' Ex'. rewrite El in Hx'. apply in_map_iff in Hx'.
          destruct Hx' as (y & <- & Hy). rewrite Hupd_id in Ex'. rewrite Hupd_op.
          destruct (Hl y Hy) as [Hy'| ->].
          -- destruct (R2 y Hy' Ex') as [Hop Hops]. split; auto. unfold upd.
             destruct (i_id y =? fst u) eqn:E; auto.
             apply Nat.eqb_eq in E. specialize (uses_old u Hu). lia.
          -- simpl in Ex'. lia.
        * intros Hphi. destruct R3 as (y & Hy & Ey).
          { intros x Hx Ex.
            assert (isPHI (upd x) = false) as H
              by (apply Hphi; [rewrite El; apply in_map; auto|now rewrite Hupd_id]).
            unfold isPHI in *. now rewrite Hupd_op in H. }
          exists (upd y). rewrite El, Hupd_id. split; auto. apply in_map. auto.
      + (* the use at hand *)
        split; auto. exists n. split; [lia|]. split; [|split].
        * intros x' Hx' Ex'. rewrite El in Hx'. apply in_map_iff in Hx'.
          destruct Hx' as (y & <- & Hy). rewrite Hupd_id in Ex'.
          destruct (Hl y Hy) as [Hy'| ->]; [|simpl in Ex'; lia].
          unfold upd. rewrite (proj2 (Nat.eqb_eq _ _) Ex'). simpl.
          apply nth_error_setNth_same. now apply (proj2 (Hrange u Hu)).
        * intros x' Hx' Ex'. rewrite El in Hx'. apply in_map_iff in Hx'.
          destruct Hx' as (y & <- & Hy). rewrite Hupd_id in Ex'. rewrite Hupd_op.
          destruct (Hl y Hy) as [Hy'| ->]; [specialize (Hlt y Hy'); lia|].
          unfold upd. simpl. destruct (n =? fst u) eqn:E.
          -- apply Nat.eqb_eq in E. lia.
          -- simpl. auto.
        * intros Hphi. exists (upd load). rewrite El, Hupd_id. split; auto.
          apply in_map. apply Hnew; [|exact (proj1 (Hrange u Hu))].
          intros x Hx Ex.
          assert (isPHI (upd x) = false) as H
            by (apply Hphi; [rewrite El; apply in_map; auto|now rewrite Hupd_id]).
          unfold isPHI in *. now rewrite Hupd_op in H.
  Qed.

Lemma fold_rewriteUse_inv c index us st D :
    rewriteInv tableTy base n0 allUses st D -> NoDup us ->
    (forall u, In u us -> In u allUses /\ forall j, ~ D u j) ->
    rewriteInv tableTy base n0 allUses (fold_left (rewriteUse m tableTy base c index) us st)
      (fun u' j => D u' j \/ (In u' us /\ j = index)).
  Proof.
    revert st D. induction us as [|u us IH]; intros st D HI Hnd Hus;
      cbn [fold_left].
    - destruct HI as (H1 & H2 & H3 & H4).
      split; [exact H1|split; [exact H2|split; [exact H3|]]].
      intros u j [Hd|[[] _]]. now apply H4.
    - inversion Hnd as [|? ? Hu Hnd']; subst.
      destruct (Hus u (or_introl eq_refl)) as [Hin Hfresh].
      pose proof (rewriteUse_inv c index st u D HI Hin Hfresh) as HI'.
      specialize (IH _ _ HI' Hnd').
      destruct IH as (H1 & H2 & H3 & H4).
      { intros u' Hu'. split; [apply Hus; now right|].
        intros j [Hd|[-> _]]; [|contradiction].
        exact (proj2 (Hus u' (or_intror Hu')) j Hd). }
      split; [exact H1|split; [exact H2|split; [exact H3|]]].
      intros u' j [Hd|[[<-|Hu'] ->]]; apply H4; tauto.
  Qed.

Lemma rewriteAll_inv refs index st D :
    rewriteInv tableTy base n0 allUses st D -> NoDup (flat_map snd refs) ->
    (forall u, In u (flat_map snd refs) -> In u allUses /\ forall j, ~ D u j) ->
    rewriteInv tableTy base n0 allUses (rewriteAll m tableTy base refs index st)
      (fun u' j => D u' j
                   \/ exists k, entryUse refs k u' /\ j = (index + N.of_nat k)%N).
  Proof.
    revert index st D. induction refs as [|[c us] refs IH]; intros index st D HI Hnd Hus;
      cbn [rewriteAll].
    - destruct HI as (H1 & H2 & H3 & H4).
      split; [exact H1|split; [exact H2|split; [exact H3|]]].
      intros u j [Hd|(k & (c & us & E & _) & _)]; [now apply H4|].
      now destruct k.
    - cbn [flat_map snd] in *.
      assert (NoDup us /\ NoDup (flat_map snd refs)
              /\ forall u, In u us -> ~ In u (flat_map snd refs)) as (Hnd1 & Hnd2 & Hdis).
      { split; [eapply NoDup_app_remove_r; eauto|].
        split; [eapply NoDup_app_remove_l; eauto|].
        intros u. now apply NoDup_app_disjoint. }
      pose proof (fold_rewriteUse_inv c index us st D HI Hnd1) as HI'.
      specialize (IH (index + 1)%N _ _ (HI' (fun u Hu => Hus u (in_or_app _ _ _ (or_introl Hu)))) Hnd2).
      destruct IH as (H1 & H2 & H3 & H4).
      { intros u Hu. split; [apply Hus; apply in_or_app; now right|].
        intros j [Hd|[Hu' _]].
        - exact (proj2 (Hus u (in_or_app _ _ _ (or_intror Hu))) j Hd).
        - exact (Hdis u Hu' Hu). }
      assert (forall u j,
                (D u j \/ exists k, entryUse ((c, us) :: refs) k u
                                     /\ j = (index + N.of_nat k)%N) ->
                (D u j \/ In u us /\ j = index)
                \/ exists k, entryUse refs k u /\ j = (index + 1 + N.of_nat k)%N) as Hconv.
      { intros u j [Hd|(k & (c' & us' & E & Hu) & ->)]; auto.
        destruct k as [|k]; simpl in E.
        - injection E as <- <-. left. right. split; auto. lia.
        - right. exists k. split; [exists c', us'; auto|lia]. }
      split; [exact H1|split; [exact H2|split; [exact H3|]]].
      intros u j Hd. apply Hconv in Hd. now apply H4.
  Qed.
End RewriteIndex.

(** ** Float extraction keeps the handles of the body distinct *)

Lemma getFloatConversion_next m op tin tout g m' :
  getFloatConversion m op tin tout = Some (g, m') -> m_next m <= m_next m'.
Proof.
  unfold getFloatConversion. destruct (conversionName op); [|discriminate].
  destruct (getFunction m _); intros [= <- <-]; simpl; lia.
Qed.

Lemma extractOperand_wf h st k :
  wfBody (m_next (fst st)) (snd st) ->
  wfBody (m_next (fst (extractOperand h st k))) (snd (extractOperand h st k)).
Proof.
  destruct st as [m bs]. unfold extractOperand. cbn [fst snd]. intros H.
  destruct (findInst bs h) as [i|]; auto.
  destruct (nth_error _ k) as [[]|]; auto.
  destruct (containsConstantFloat c); auto.
  cbn [fst snd createGlobal m_next set_next i_id].
  apply wfBody_setOperand. apply wfBody_insertBefore; auto.
  eapply wfBody_mono; [|exact H]. lia.
Qed.

Lemma fold_extractOperand_wf h l st :
  wfBody (m_next (fst st)) (snd st) ->
  wfBody (m_next (fst (fold_left (extractOperand h) l st)))
         (snd (fold_left (extractOperand h) l st)).
Proof.
  revert st. induction l as [|k l IH]; intros st H; cbn [fold_left]; auto.
  apply IH. now apply extractOperand_wf.
Qed.

Local Opaque insertBefore.

Lemma extractStep_wf f m bs del h m' bs' del' :
  wfBody (m_next m) bs ->
  extractStep f (Some (m, bs, del)) h = Some (m', bs', del') ->
  wfBody (m_next m') bs'.
Proof.
  intros H. unfold extractStep. destruct (findInst bs h) as [i|].
  - destruct (isConversion m i).
    + destruct (getFloatConversion _ _ _ _) as [[g mc]|] eqn:Eg; [|discriminate].
      intros [= <- <- <-]. cbn [m_next set_next].
      apply wfBody_replaceInstUses. apply wfBody_insertBefore; auto.
      eapply wfBody_mono; [|exact H]. eapply getFloatConversion_next; eauto.
    + pose proof (fold_extractOperand_wf h (seq 0 (List.length (i_operands i)))
                    (m, bs) H) as Hw.
      destruct (fold_left _ _ _) as [m2 bs2]. intros [= <- <- <-]. exact Hw.
  - intros [= <- <- <-]. exact H.
Qed.

Local Transparent insertBefore.

Lemma fold_extractStep_wf f l m bs del m' bs' del' :
  wfBody (m_next m) bs ->
  fold_left (extractStep f) l (Some (m, bs, del)) = Some (m', bs', del') ->
  wfBody (m_next m') bs'.
Proof.
  revert m bs del. induction l as [|h l IH]; intros m bs del H; cbn [fold_left].
  - intros [= <- <- <-]. exact H.
  - destruct (extractStep_total f m bs del h) as (m1 & bs1 & del1 & E & _).
    rewrite E. apply IH. eapply extractStep_wf; eauto.
Qed.

Lemma extractFloatOperations_wf m f m' :
  wfBody (m_next m) (fn_blocks f) ->
  extractFloatOperations m f = Some m' ->
  wfBody (m_next m') (bodyOf m' (fn_id f)).
Proof.
  intros H. unfold extractFloatOperations.
  destruct (fold_left _ _ _) as [[[m1 bs1] del1]|] eqn:E; [|discriminate].
  intros [= <-]. pose proof (fold_extractStep_wf _ _ _ _ _ _ _ _ H E) as Hw.
  unfold bodyOf. rewrite lookupFunction_updateFunction by reflexivity.
  rewrite Nat.eqb_refl. destruct (lookupFunction m1 (fn_id f)); simpl.
  - now apply wfBody_eraseInsts.
  - split; constructor.
Qed.

Lemma collect_wf addr ua m f m1 refs :
  wfBody (m_next m) (fn_blocks f) ->
  collect addr ua m f = Some (m1, refs) ->
  wfBody (m_next m1) (bodyOf m1 (fn_id f)).
Proof.
  intros H. unfold collect.
  destruct (extractFloatOperations _ f) as [m2|] eqn:E; [|discriminate].
  intros [= <- _]. eapply extractFloatOperations_wf; [|exact E].
  eapply wfBody_mono; [|exact H]. unfold sentinelStage. simpl. lia.
Qed.

(** ** The collection holds each use once *)

Lemma NoDup_flat_map_snd {K V : Type} (l : list (K * list V)) :
  NoDup (map fst l) ->
  (forall k vs, In (k, vs) l -> NoDup vs) ->
  (forall k k' vs vs' v, In (k, vs) l -> In (k', vs') l ->
                         In v vs -> In v vs' -> k = k') ->
  NoDup (flat_map snd l).
Proof.
  induction l as [|[k vs] l IH]; intros Hk Hv Hd; simpl; [constructor|].
  inversion Hk as [|? ? Hk1 Hk2]; subst.
  apply NoDup_app.
  - apply (Hv k). now left.
  - apply IH; auto.
    + intros k0 vs0 H0. apply (Hv k0). now right.
    + intros k0 k' vs0 vs' v H0 H0'. apply Hd; now right.
  - intros v Hin Hin'. apply in_flat_map in Hin'. destruct Hin' as ([k' vs'] & Hl & Hv').
    simpl in Hv'. assert (k = k') as <-.
    { eapply Hd; [now left|right; exact Hl|exact Hin|exact Hv']. }
    apply Hk1. apply in_map_iff. exists (k, vs'). auto.
Qed.

Lemma recordUse_sets addr ua c u res :
  (forall k us, In (k, us) res -> NoDup us) ->
  forall k us, In (k, us) (recordUse addr ua c u res) -> NoDup us.
Proof.
  intros H k us Hin. unfold recordUse in Hin.
  apply (mapUpdate_In constant_eqb constant_eqb_eq) in Hin.
  destruct Hin as [[_ Hin]|[-> (v & Hin & ->)]].
  - apply (mapEnsure_In constant_eqb addr constant_eqb_eq) in Hin.
    destruct Hin as [Hin|[[= -> ->] _]]; [eauto|constructor].
  - apply (setInsert_NoDup use_eqb ua use_eqb_eq).
    apply (mapEnsure_In constant_eqb addr constant_eqb_eq) in Hin.
    destruct Hin as [Hin|[[= ->] _]]; [eauto|constructor].
Qed.

Lemma findPCRelativeUsesIn_sets addr ua m bs k us :
  In (k, us) (findPCRelativeUsesIn addr ua m bs) -> NoDup us.
Proof.
  rewrite findPCRelativeUsesIn_positions.
  assert (forall ps res,
            (forall k us, In (k, us) res -> NoDup us) ->
            forall k us,
              In (k, us) (fold_left (fun res p => scanOperand addr ua m (fst p) res (snd p))
                            ps res) -> NoDup us) as H.
  { induction ps as [|p ps IH]; intros res Hres; cbn [fold_left]; auto.
    apply IH. rewrite scanOperand_qualifying. destruct (qualifying m p); auto.
    now apply recordUse_sets. }
  apply H. intros ? ? [].
Qed.

Lemma NoDup_ids_unique bs x y :
  NoDup (ids bs) -> In x (allInsts bs) -> In y (allInsts bs) ->
  i_id x = i_id y -> x = y.
Proof.
  unfold ids. generalize (allInsts bs) as l. induction l as [|z l IH];
    simpl; [tauto|].
  intros H [->|Hx] [->|Hy] E; auto; inversion H as [|? ? Hz Hl]; subst.
  - exfalso. apply Hz. rewrite E. now apply in_map.
  - exfalso. apply Hz. rewrite <- E. now apply in_map.
  - now apply IH.
Qed.

Lemma findPCRelativeUsesIn_NoDup addr ua m bs :
  NoDup (ids bs) ->
  NoDup (flat_map snd (findPCRelativeUsesIn addr ua m bs)).
Proof.
  intros Hnd. apply NoDup_flat_map_snd.
  - rewrite referencedValues_pointerOrder. apply pointerOrder_NoDup.
  - intros k us. apply findPCRelativeUsesIn_sets.
  - intros k k' us us' u Hin Hin' Hu Hu'.
    assert (recorded (findPCRelativeUsesIn addr ua m bs) k u) as R by (exists us; auto).
    assert (recorded (findPCRelativeUsesIn addr ua m bs) k' u) as R' by (exists us'; auto).
    apply findPCRelativeUsesIn_recorded in R, R'.
    destruct R as ([i j] & Hp & Hq & ->). destruct R' as ([i' j'] & Hp' & Hq' & E).
    simpl in E. injection E as Ei Ej. subst j'.
    assert (i = i') as <-.
    { eapply NoDup_ids_unique; eauto; eapply scanPositions_inv with (p := (_, _)); eauto. }
    congruence.
Qed.

Lemma qualifying_inv m p c :
  qualifying m p = Some c ->
  nth_error (i_operands (fst p)) (snd p) = Some (VConst c)
  /\ containsGlobalC m c = true.
Proof.
  unfold qualifying. destruct (nth_error _ _) as [[]|]; try discriminate.
  destruct (containsGlobalC m c0) eqn:E; [|discriminate]. intros [= <-]. auto.
Qed.

Lemma recorded_flat_map (refs : References) u :
  In u (flat_map snd refs) <-> exists c, recorded refs c u.
Proof.
  rewrite in_flat_map. split.
  - intros ([c us] & H & Hu). exists c, us. auto.
  - intros (c & us & H & Hu). exists (c, us). auto.
Qed.

(** C2, as the code has it.  The initializer of the relocation table lists
    the qualifying constants of the function once each, in ascending order
    of their addresses, the order in which a [std::map] keyed by pointers is
    iterated; the list is a permutation of the list in the order of first
    discovery.  A use of the constant at position [j] of the list is
    rewritten to a load from slot [j]. *)
Theorem relocation_table_layout addr ua (m : Module) (f : Function)
  (Hwf : wfBody (m_next m) (fn_blocks f)) :
  exists m1 refs m' args,
    collect addr ua m f = Some (m1, refs)
    /\ randomizeCode addr ua m f = Some (m', args)
    /\ map fst refs = pointerOrder addr (discovered m1 (bodyOf m1 (fn_id f)))
    /\ NoDup (map fst refs)
    /\ ascending addr (map fst refs)
    /\ Permutation (map fst refs)
         (firstDiscoveryOrder (discovered m1 (bodyOf m1 (fn_id f))))
    /\ (refs <> [] ->
        (exists g,
            In g (m_globals m') /\ gv_id g = m_next m1
            /\ gv_name g = fn_name f +++ ".relocation_table"
            /\ gv_init g = Some (ConstantStruct (relocationTableTypeOf m1 f refs)
                                   (map fst refs)))
        /\ forall i k c,
             In i (allInsts (bodyOf m1 (fn_id f))) ->
             nth_error (i_operands i) k = Some (VConst c) ->
             containsGlobalC m1 c = true ->
             exists j nu,
               nth_error (map fst refs) j = Some c
               /\ rewritten (relocationTableTypeOf m1 f refs)
                    (actualTable m1 (m_next m) (relocationTableTypeOf m1 f refs)
                       (m_next m1))
                    (bodyOf m' (fn_id f)) (i_id i, k) (N.of_nat j) nu).
Proof.
  destruct (collect_total addr ua m f) as (m1 & Hc & Ht).
  pose proof (collect_wf _ _ _ _ _ _ Hwf Hc) as Hwf1.
  set (refs := findPCRelativeUsesIn addr ua m1 (bodyOf m1 (fn_id f))) in *.
  assert (map fst refs = pointerOrder addr (discovered m1 (bodyOf m1 (fn_id f)))) as HV
    by apply referencedValues_pointerOrder.
  assert (NoDup (map fst refs)) as HV1
    by (rewrite HV; apply pointerOrder_NoDup).
  assert (ascending addr (map fst refs)) as HV2
    by (rewrite HV; apply pointerOrder_ascending).
  assert (Permutation (map fst refs)
            (firstDiscoveryOrder (discovered m1 (bodyOf m1 (fn_id f))))) as HV3
    by (rewrite HV; apply pointerOrder_perm).
  unfold randomizeCode. rewrite Hc.
  destruct refs as [|r refs'] eqn:Er.
  - simpl. do 4 eexists. split; [reflexivity|]. split; [reflexivity|].
    split; [exact HV|]. split; [exact HV1|]. split; [exact HV2|].
    split; [exact HV3|]. congruence.
  - cbn [List.length Nat.ltb Nat.leb]. rewrite <- Er in *.
    destruct (createGlobal m1 _ _ _ _ _) as [g m2] eqn:Eg.
    destruct (rewriteAll _ _ _ _ _ _) as [n bs] eqn:Erw.
    do 4 eexists. split; [reflexivity|]. split; [reflexivity|].
    unfold createGlobal in Eg. injection Eg as <- <-.
    split; [exact HV|]. split; [exact HV1|]. split; [exact HV2|].
    split; [exact HV3|].
    intros _. split.
    + eexists. split.
      * simpl. apply in_or_app. right. left. reflexivity.
      * repeat split.
    + intros i k c Hi Hk Hg.
      rewrite bodyOf_update_blocks.
      assert (exists g0, lookupFunction m1 (fn_id f) = Some g0) as (g0 & Hg0).
      { unfold bodyOf in Hi. destruct (lookupFunction m1 (fn_id f)); eauto.
        destruct Hi. }
      change (lookupFunction
                (mkModule (m_triple m1) (m_pointer_size m1) (m_functions m1)
                   (m_globals m1 ++ _) (S (m_next m1))) (fn_id f))
        with (lookupFunction m1 (fn_id f)).
      rewrite Hg0.
      (* the invariant of the rewriting loop *)
      assert (forall u, In u (flat_map snd refs) ->
                exists x, In x (allInsts (bodyOf m1 (fn_id f))) /\ i_id x = fst u
                          /\ snd u < List.length (i_operands x)) as Huse.
      { intros u Hu. apply recorded_flat_map in Hu. destruct Hu as (c0 & R).
        apply findPCRelativeUsesIn_recorded in R.
        destruct R as (p & Hp & Hq & ->). simpl.
        apply qualifying_inv in Hq. destruct Hq as [Hq _].
        exists (fst p). split; [now apply scanPositions_inv|]. split; auto.
        apply nth_error_Some. congruence. }
      assert (forall y, In y (allInsts (bodyOf m1 (fn_id f))) -> i_id y < m_next m1) as Hlt.
      { intros y Hy. destruct Hwf1 as [_ Hl]. rewrite Forall_forall in Hl.
        apply Hl. unfold ids. now apply in_map. }
      assert (forall u, In u (flat_map snd refs) -> fst u < S (m_next m1)) as Hold.
      { intros u Hu. destruct (Huse u Hu) as (x & Hx & <- & _).
        specialize (Hlt x Hx). lia. }
      match type of Erw with
      | rewriteAll ?m2 ?ty ?base ?rs ?ix ?st = _ =>
          pose proof (rewriteAll_inv m2 ty base (S (m_next m1)) (flat_map snd refs)
                        Hold rs ix st (fun _ _ => False)) as Hinv
      end.
      rewrite Erw in Hinv.
      destruct Hinv as (_ & _ & _ & HD).
      * unfold rewriteInv. cbn [fst snd m_next].
        split; [eapply wfBody_mono; [|exact Hwf1]; lia|].
        split; [lia|]. split; [|intros ? ? []].
        intros u Hu. destruct (Huse u Hu) as (x & Hx & Ex & Hr). split; [eauto|].
        intros y Hy Ey.
        assert (x = y) as <-; auto.
        eapply NoDup_ids_unique; eauto; [exact (proj1 Hwf1)|congruence].
      * apply findPCRelativeUsesIn_NoDup. exact (proj1 Hwf1).
      * intros u Hu. split; auto.
      * assert (recorded refs c (i_id i, k)) as (us & Hin & Hu).
        { apply findPCRelativeUsesIn_recorded. exists (i, k). split; [|split]; auto.
          - eapply scanPositions_In; eauto.
          - unfold qualifying. simpl. now rewrite Hk, Hg. }
        apply In_nth_error in Hin. destruct Hin as (j & Hj).
        destruct (HD (i_id i, k) (N.of_nat j)) as (_ & nu & _ & R).
        { right. exists j. split; [exists c, us; auto|lia]. }
        exists j, nu. split.
        -- rewrite nth_error_map, Hj. reflexivity.
        -- exact R.
Qed.

Lemma example_wfBody : wfBody (m_next example_module) (fn_blocks example_h).
Proof.
  split.
  - repeat (constructor; [simpl; lia|]). constructor.
  - repeat constructor.
Defined.

(** C1 fails as stated: the load the rewrite puts in front of the first
    instruction of [h] addresses a slot through the sentinel. *)
Lemma direct_reference_remains :
  exists m1 refs m' args,
    collect example_addr example_use_addr example_module example_h = Some (m1, refs)
    /\ refs <> []
    /\ randomizeCode example_addr example_use_addr example_module example_h
       = Some (m', args)
    /\ ~ noGlobalReference m' (bodyOf m' (fn_id example_h)).
Proof.
  do 4 eexists. split; [vm_compute; reflexivity|]. split; [discriminate|].
  split; [vm_compute; reflexivity|].
  intros H. unfold noGlobalReference in H.
  match type of H with
  | forall i, In i (allInsts ?b) -> _ =>
      let b' := eval vm_compute in b in
      change b with b' in H
  end.
  specialize (H _ (or_introl eq_refl) _ (or_introl eq_refl)).
  vm_compute in H. discriminate.
Qed.

(** C2 fails as stated: [k] is discovered before [g], and the table holds
    [g] before [k]. *)
Lemma table_not_in_discovery_order :
  exists m1 refs m' args g,
    collect example_addr example_use_addr example_module example_h = Some (m1, refs)
    /\ randomizeCode example_addr example_use_addr example_module example_h
       = Some (m', args)
    /\ getGlobalVariable m' "h.relocation_table" true = Some g
    /\ gv_init g = Some (ConstantStruct (relocationTableTypeOf m1 example_h refs)
                           [GVariable 1; GVariable 2])
    /\ firstDiscoveryOrder (discovered m1 (bodyOf m1 (fn_id example_h)))
       = [GVariable 2; GVariable 1]
    /\ gv_init g <> Some (ConstantStruct (relocationTableTypeOf m1 example_h refs)
                            (firstDiscoveryOrder
                               (discovered m1 (bodyOf m1 (fn_id example_h))))).
Proof.
  do 5 eexists. split; [vm_compute; reflexivity|].
  split; [vm_compute; reflexivity|].
  split; [vm_compute; reflexivity|].
  split; [vm_compute; reflexivity|].
  split; [vm_compute; reflexivity|].
  vm_compute. discriminate.
Qed.

Lemma relocation_table_layout_witness :
  wfBody (m_next example_module) (fn_blocks example_h)
  /\ exists m1 refs m' args,
    collect example_addr example_use_addr example_module example_h = Some (m1, refs)
    /\ randomizeCode example_addr example_use_addr example_module example_h
       = Some (m', args)
    /\ map fst refs
       = pointerOrder example_addr (discovered m1 (bodyOf m1 (fn_id example_h)))
    /\ NoDup (map fst refs)
    /\ ascending example_addr (map fst refs)
    /\ Permutation (map fst refs)
         (firstDiscoveryOrder (discovered m1 (bodyOf m1 (fn_id example_h))))
    /\ (refs <> [] ->
        (exists g,
            In g (m_globals m') /\ gv_id g = m_next m1
            /\ gv_name g = fn_name example_h +++ ".relocation_table"
            /\ gv_init g = Some (ConstantStruct
                                   (relocationTableTypeOf m1 example_h refs)
                                   (map fst refs)))
        /\ forall i k c,
             In i (allInsts (bodyOf m1 (fn_id example_h))) ->
             nth_error (i_operands i) k = Some (VConst c) ->
             containsGlobalC m1 c = true ->
             exists j nu,
               nth_error (map fst refs) j = Some c
               /\ rewritten (relocationTableTypeOf m1 example_h refs)
                    (actualTable m1 (m_next example_module)
                       (relocationTableTypeOf m1 example_h refs) (m_next m1))
                    (bodyOf m' (fn_id example_h)) (i_id i, k) (N.of_nat j) nu).
Proof.
  split; [exact example_wfBody|].
  exact (relocation_table_layout example_addr example_use_addr example_module
           example_h example_wfBody).
Defined.

(** ** Stack randomization *)

Lemma set_insts_id b : set_insts b (b_insts b) = b.
Proof. now destruct b. Qed.

Lemma ids_app bs1 bs2 : ids (bs1 ++ bs2) = ids bs1 ++ ids bs2.
Proof. unfold ids, allInsts. now rewrite flat_map_app, map_app. Qed.

Lemma ids_cons b bs : ids (b :: bs) = map i_id (b_insts b) ++ ids bs.
Proof. unfold ids. rewrite allInsts_cons. apply map_app. Qed.

Lemma insertBeforeIn_here x y A R :
  ~ In (i_id y) (map i_id A) ->
  insertBeforeIn (i_id y) x (A ++ y :: R) = A ++ x :: y :: R.
Proof.
  intros H. rewrite insertBeforeIn_app.
  destruct (existsb _ A) eqn:E.
  - apply existsb_id_In in E. contradiction.
  - simpl. now rewrite Nat.eqb_refl.
Qed.

Lemma insertBefore_absent t x bs :
  ~ In t (ids bs) -> insertBefore (Some t) x bs = bs.
Proof.
  induction bs as [|b bs IH]; intros H; auto.
  rewrite ids_cons in H. cbn [insertBefore map] in *.
  rewrite insertBeforeIn_absent by (intros Hin; apply H; apply in_or_app; auto).
  rewrite set_insts_id. f_equal. apply IH. intros Hin. apply H. apply in_or_app; auto.
Qed.

(** An insertion in front of [y], which stands in block [b] after [A]. *)
Lemma insertBefore_at Bdone b A y R Brest x :
  ~ In (i_id y) (ids Bdone) -> ~ In (i_id y) (map i_id A) ->
  ~ In (i_id y) (ids Brest) ->
  insertBefore (Some (i_id y)) x (Bdone ++ set_insts b (A ++ y :: R) :: Brest)
  = Bdone ++ set_insts b (A ++ x :: y :: R) :: Brest.
Proof.
  intros H1 H2 H3.
  pose proof (insertBefore_absent (i_id y) x Bdone H1) as E1.
  pose proof (insertBefore_absent (i_id y) x Brest H3) as E3.
  cbn [insertBefore] in *. rewrite map_app. cbn [map]. rewrite E1, E3.
  cbn [b_insts set_insts b_id b_name]. now rewrite insertBeforeIn_here.
Qed.

Lemma nextNodeIn_here y s A R :
  ~ In (i_id y) (map i_id A) ->
  nextNodeIn (i_id y) (A ++ y :: s :: R) = Some (i_id s).
Proof.
  induction A as [|a A IH]; simpl; intros H.
  - now rewrite Nat.eqb_refl.
  - destruct (i_id a =? i_id y) eqn:E.
    + apply Nat.eqb_eq in E. tauto.
    + apply IH. tauto.
Qed.

Lemma getNextNode_at Bdone b A y s R Brest :
  ~ In (i_id y) (ids Bdone) -> ~ In (i_id y) (map i_id A) ->
  getNextNode (Bdone ++ set_insts b (A ++ y :: s :: R) :: Brest) (i_id y)
  = Some (i_id s).
Proof.
  intros H1 H2. unfold getNextNode.
  assert (find (fun b0 => existsb (fun i => i_id i =? i_id y) (b_insts b0))
            (Bdone ++ set_insts b (A ++ y :: s :: R) :: Brest)
          = Some (set_insts b (A ++ y :: s :: R))) as ->.
  { induction Bdone as [|d Bdone IH]; cbn [app find].
    - cbn [b_insts set_insts]. rewrite existsb_app. cbn [existsb].
      rewrite Nat.eqb_refl, orb_true_r. reflexivity.
    - rewrite ids_cons in H1.
      destruct (existsb _ (b_insts d)) eqn:E.
      + apply existsb_id_In in E. exfalso. apply H1. apply in_or_app. auto.
      + apply IH. intros Hin. apply H1. apply in_or_app. auto. }
  cbn [b_insts set_insts]. now apply nextNodeIn_here.
Qed.

Section StackProofs.
Variable m : Module.
Variables stackPad stacksave stackrestore : Handle.

Lemma padBefore_paddedCall n c :
  padBefore m stackPad stacksave stackrestore n ++ [c; padAfter stackrestore n]
  = paddedCall (getIntptrType m) (getIntptrSize m) stackPad stacksave
      stackrestore n c.
Proof.
  unfold padBefore, padAfter, paddedCall, CreateZExtOrBitCast, getIntptr,
    Stabilizer.getInt, IR.getInt, getIntptrType, getIntptrSize.
  destruct (m_pointer_size m =? 4)%N; reflexivity.
Qed.

Lemma padBefore_ids n :
  map i_id (padBefore m stackPad stacksave stackrestore n)
  = [n; n + 1; n + 2; n + 3; n + 4; n + 5; n + 6; n + 7].
Proof.
  unfold padBefore, CreateZExtOrBitCast.
  destruct (_ =? _)%N; reflexivity.
Qed.

(** One turn of the loop, at a call [c] followed by [s] in its block. *)
Lemma padCallsite_at n Bdone b A c s R Brest :
  wfBody n (Bdone ++ set_insts b (A ++ c :: s :: R) :: Brest) ->
  padCallsite m stackPad stacksave stackrestore
    (n, Bdone ++ set_insts b (A ++ c :: s :: R) :: Brest) (i_id c)
  = (n + 9,
     Bdone ++ set_insts b
                (A ++ (padBefore m stackPad stacksave stackrestore n
                       ++ [c; padAfter stackrestore n]) ++ s :: R)
           :: Brest).
Proof.
  intros [Hnd Hlt]. rewrite ids_app, ids_cons in Hnd, Hlt.
  cbn [b_insts set_insts] in Hnd, Hlt. rewrite map_app in Hnd, Hlt.
  cbn [map] in Hnd, Hlt.
  assert (~ In (i_id c) (ids Bdone) /\ ~ In (i_id c) (map i_id A)
          /\ ~ In (i_id c) (ids Brest) /\ i_id c < n
          /\ ~ In (i_id s) (ids Bdone) /\ ~ In (i_id s) (map i_id A)
          /\ ~ In (i_id s) (ids Brest) /\ i_id s < n /\ i_id s <> i_id c)
    as (C1 & C2 & C3 & C4 & S1 & S2 & S3 & S4 & S5).
  { rewrite !Forall_app in Hlt. destruct Hlt as (_ & (_ & Hc) & _).
    inversion Hc as [|? ? Hc1 Hc2]; subst. inversion Hc2 as [|? ? Hs1 _]; subst.
    assert (NoDup ((ids Bdone ++ map i_id A)
                   ++ i_id c :: (i_id s :: map i_id R ++ ids Brest))) as Nc.
    { revert Hnd. rewrite <- !app_assoc. simpl. auto. }
    assert (NoDup ((ids Bdone ++ map i_id A ++ [i_id c])
                   ++ i_id s :: (map i_id R ++ ids Brest))) as Ns.
    { revert Hnd. rewrite <- !app_assoc. simpl. auto. }
    apply NoDup_remove_2 in Nc, Ns.
    rewrite !in_app_iff in Nc, Ns. simpl in Nc, Ns. rewrite !in_app_iff in Nc, Ns.
    simpl in Ns.
    repeat split; auto; try tauto.
    intros Hin. apply Ns. right. apply in_or_app. now right. }
  unfold padCallsite. rewrite getNextNode_at by assumption.
  f_equal.
  assert (forall (xs : list Instruction) A0,
            (forall x, In x xs -> i_id x <> i_id c) ->
            ~ In (i_id c) (map i_id A0) ->
            fold_left (fun bs x => insertBefore (Some (i_id c)) x bs) xs
              (Bdone ++ set_insts b (A0 ++ c :: s :: R) :: Brest)
            = Bdone ++ set_insts b ((A0 ++ xs) ++ c :: s :: R) :: Brest) as Hfold.
  { induction xs as [|x xs IH]; intros A0 Hx HA0; cbn [fold_left].
    - now rewrite app_nil_r.
    - rewrite insertBefore_at by assumption.
      replace (A0 ++ x :: c :: s :: R) with ((A0 ++ [x]) ++ c :: s :: R)
        by (now rewrite <- app_assoc).
      rewrite IH.
      + now rewrite <- !app_assoc.
      + intros y Hy. apply Hx. now right.
      + rewrite map_app. intros Hin. apply in_app_or in Hin.
        destruct Hin as [Hin|[E|[]]]; auto. apply (Hx x (or_introl eq_refl)). auto. }
  rewrite Hfold; auto.
  - replace ((A ++ padBefore m stackPad stacksave stackrestore n) ++ c :: s :: R)
      with ((A ++ padBefore m stackPad stacksave stackrestore n ++ [c]) ++ s :: R)
      by (now rewrite <- !app_assoc).
    rewrite insertBefore_at; auto.
    + now rewrite <- !app_assoc.
    + rewrite !map_app, padBefore_ids. cbn [map]. intros Hin.
      apply in_app_or in Hin. destruct Hin as [Hin|Hin]; auto.
      apply in_app_or in Hin. destruct Hin as [Hin|[E|[]]]; auto.
      simpl in Hin. lia.
  - intros x Hx. apply (in_map i_id) in Hx. rewrite padBefore_ids in Hx.
    simpl in Hx. lia.
Qed.

Lemma padCallsite_wf n bs c :
  wfBody n bs ->
  wfBody (n + 9) (snd (padCallsite m stackPad stacksave stackrestore (n, bs) c)).
Proof.
  intros H. unfold padCallsite. cbn [snd].
  assert (wfBody (n + 8)
            (fold_left (fun bs x => insertBefore (Some c) x bs)
               (padBefore m stackPad stacksave stackrestore n) bs)) as H8.
  { unfold padBefore, CreateZExtOrBitCast.
    destruct (_ =? _)%N; cbn [fold_left];
      replace (n + 8) with (S (n + 7)) by lia;
      repeat (apply wfBody_insertBefore; [|simpl; lia]);
      replace (n + 0) with n by lia;
      repeat (match goal with
              | |- wfBody (?a + S ?k) _ =>
                  replace (a + S k) with (S (a + k)) by lia;
                  apply wfBody_insertBefore; [|simpl; lia]
              end);
      replace (n + 0) with n by lia; try exact H;
      apply wfBody_insertBefore; auto. }
  replace (n + 9) with (S (n + 8)) by lia.
  apply wfBody_insertBefore; auto.
Qed.

End StackProofs.

Section StackLoop.
Variable m : Module.
Variables stackPad stacksave stackrestore : Handle.

Abbreviation step := (padCallsite m stackPad stacksave stackrestore).
Abbreviation pad := (padInsts (getIntptrType m) (getIntptrSize m) stackPad
                       stacksave stackrestore).
Abbreviation padB := (padBlocks (getIntptrType m) (getIntptrSize m) stackPad
                        stacksave stackrestore).

Lemma fold_padCallsite_wf cs n bs :
  wfBody n bs ->
  wfBody (fst (fold_left step cs (n, bs))) (snd (fold_left step cs (n, bs))).
Proof.
  revert n bs. induction cs as [|c cs IH]; intros n bs H; cbn [fold_left]; auto.
  pose proof (padCallsite_wf m stackPad stacksave stackrestore n bs c H) as H'.
  assert (step (n, bs) c = (n + 9, snd (step (n, bs) c))) as -> by reflexivity.
  now apply IH.
Qed.

Lemma padCalls_insts l :
  forall A n Bdone b Brest,
    wfBody n (Bdone ++ set_insts b (A ++ l) :: Brest) ->
    match rev l with i :: _ => isCallInst i = false | [] => True end ->
    fold_left step (map i_id (filter isCallInst l))
      (n, Bdone ++ set_insts b (A ++ l) :: Brest)
    = (fst (pad n l), Bdone ++ set_insts b (A ++ snd (pad n l)) :: Brest).
Proof.
  induction l as [|i r IH]; intros A n Bdone b Brest Hwf Hlast.
  - reflexivity.
  - cbn [filter padInsts]. destruct (isCallInst i) eqn:E.
    + destruct r as [|s r'].
      { simpl in Hlast. congruence. }
      cbn [map fold_left]. rewrite padCallsite_at by exact Hwf.
      pose proof (padCallsite_wf m stackPad stacksave stackrestore n _ (i_id i) Hwf) as Hwf'.
      rewrite padCallsite_at in Hwf' by exact Hwf. cbn [snd] in Hwf'.
      rewrite app_assoc in Hwf' |- *.
      rewrite IH; [| exact Hwf' |].
      * destruct (pad (n + 9) (s :: r')) as [n' r''] eqn:Ep. cbn [fst snd].
        rewrite padBefore_paddedCall. now rewrite <- app_assoc.
      * cbn [rev] in Hlast |- *. destruct (rev r' ++ [s]) eqn:Er; auto.
    + replace (A ++ i :: r) with ((A ++ [i]) ++ r) in * by (now rewrite <- app_assoc).
      rewrite IH; [| exact Hwf |].
      * destruct (pad n r) as [n' r''] eqn:Ep. cbn [fst snd].
        now rewrite <- app_assoc.
      * cbn [rev] in Hlast. destruct (rev r) eqn:Er; auto.
Qed.

Lemma padCalls_blocks bs :
  forall Bdone n,
    wfBody n (Bdone ++ bs) -> callsHaveSuccessor bs ->
    fold_left step (map i_id (filter isCallInst (allInsts bs))) (n, Bdone ++ bs)
    = (fst (padB n bs), Bdone ++ snd (padB n bs)).
Proof.
  induction bs as [|b rest IH]; intros Bdone n Hwf Hs.
  - reflexivity.
  - rewrite allInsts_cons, filter_app, map_app, fold_left_app.
    cbn [padBlocks].
    assert (Bdone ++ b :: rest = Bdone ++ set_insts b ([] ++ b_insts b) :: rest) as E0
      by (cbn [app]; now rewrite set_insts_id).
    rewrite E0 in *.
    pose proof (fold_padCallsite_wf (map i_id (filter isCallInst (b_insts b))) n _ Hwf) as Hwf'.
    rewrite padCalls_insts in Hwf' |- *; try exact Hwf;
      try (apply (Hs b); now left).
    cbn [fst snd app] in Hwf' |- *.
    destruct (pad n (b_insts b)) as [n1 l1] eqn:Ep. cbn [fst snd] in *.
    replace (Bdone ++ set_insts b l1 :: rest)
      with ((Bdone ++ [set_insts b l1]) ++ rest) in * by (now rewrite <- app_assoc).
    rewrite IH; [| exact Hwf' | intros b0 Hb0; apply Hs; now right].
    destruct (padB n1 rest) as [n2 r2]. cbn [fst snd].
    now rewrite <- app_assoc.
Qed.

Lemma padInsts_app n l1 l2 :
  pad n (l1 ++ l2)
  = (fst (pad (fst (pad n l1)) l2), snd (pad n l1) ++ snd (pad (fst (pad n l1)) l2)).
Proof.
  revert n. induction l1 as [|i l1 IH]; intros n; cbn [app padInsts].
  - cbn [fst snd app]. now destruct (pad n l2).
  - destruct (isCallInst i).
    + rewrite IH. destruct (pad (n + 9) l1) as [n1 r1]. cbn [fst snd].
      now rewrite <- app_assoc.
    + rewrite IH. destruct (pad n l1) as [n1 r1]. reflexivity.
Qed.

Lemma padBlocks_In bs b n :
  In b bs ->
  exists k, n <= k /\ In (set_insts b (snd (pad k (b_insts b)))) (snd (padB n bs)).
Proof.
  assert (forall n l, n <= fst (pad n l)) as Hmono.
  { intros n0 l. revert n0. induction l as [|i l IH]; intros n0; cbn [padInsts fst]; auto.
    destruct (isCallInst i).
    - specialize (IH (n0 + 9)). destruct (pad (n0 + 9) l). simpl in *. lia.
    - specialize (IH n0). destruct (pad n0 l). simpl in *. lia. }
  revert n. induction bs as [|b0 bs IH]; intros n Hin; [destruct Hin|].
  cbn [padBlocks]. destruct (pad n (b_insts b0)) as [n1 l1] eqn:Ep.
  destruct Hin as [->|Hin].
  - exists n. split; auto. destruct (padB n1 bs). cbn [snd]. left. now rewrite Ep.
  - destruct (IH n1 Hin) as (k & Hk & Hin').
    exists k. split.
    + specialize (Hmono n (b_insts b0)). rewrite Ep in Hmono. simpl in Hmono. lia.
    + destruct (padB n1 bs). cbn [snd] in *. now right.
Qed.

End StackLoop.

Lemma find_app_Some {A : Type} (p : A -> bool) l1 l2 x :
  find p l1 = Some x -> find p (l1 ++ l2) = Some x.
Proof.
  induction l1 as [|y l1 IH]; simpl; [discriminate|].
  destruct (p y); auto.
Qed.

Lemma getOrInsertFunction_facts m name t g m' :
  getOrInsertFunction m name t = (g, m') ->
  fn_name g = name
  /\ m_pointer_size m' = m_pointer_size m
  /\ m_next m <= m_next m'
  /\ (forall h f, lookupFunction m h = Some f -> lookupFunction m' h = Some f).
Proof.
  unfold getOrInsertFunction. destruct (getFunction m name) as [g0|] eqn:E.
  - intros [= <- <-]. repeat split; auto.
    unfold getFunction in E. apply find_some in E. destruct E as [_ E].
    now apply String.eqb_eq in E.
  - intros [= <- <-]. simpl. repeat split; auto.
    intros h f. unfold lookupFunction. simpl. apply find_app_Some.
Qed.


Lemma example_calls_wfBody : wfBody (m_next example_calls) (fn_blocks example_caller).
Proof.
  split.
  - repeat (constructor; [simpl; lia|]). constructor.
  - repeat constructor.
Defined.

Lemma example_calls_successors : callsHaveSuccessor (fn_blocks example_caller).
Proof. intros b [<-|[]]. reflexivity. Defined.


(** ** Renaming of function handles *)

Lemma renameConstant_compose r1 r2 c :
  renameConstant r2 (renameConstant r1 c) = renameConstant (fun h => r2 (r1 h)) c.
Proof.
  induction c using Constant_nested_ind; simpl; auto; f_equal;
    rewrite map_map; apply map_ext_in; intros c Hc;
    rewrite Forall_forall in H; auto.
Qed.

Lemma renameConstant_ext r1 r2 c :
  (forall h, usesInConstant h c <> 0 -> r1 h = r2 h) ->
  renameConstant r1 c = renameConstant r2 c.
Proof.
  induction c using Constant_nested_ind; simpl; auto.
  - intros E. f_equal. apply E. now rewrite Nat.eqb_refl.
  - intros E. f_equal. apply E. now rewrite Nat.eqb_refl.
  - intros E. f_equal. apply map_ext_in. intros c Hc.
    rewrite Forall_forall in H. apply H; auto. intros h Hh. apply E.
    intros Hs. apply Hh. clear - Hs Hc. induction ops as [|x l IH]; simpl in *; [tauto|].
    destruct Hc as [->|Hc]; [lia|]. apply IH; auto. lia.
  - intros E. f_equal. apply map_ext_in. intros c Hc.
    rewrite Forall_forall in H. apply H; auto. intros h Hh. apply E.
    intros Hs. apply Hh. clear - Hs Hc. induction es as [|x l IH]; simpl in *; [tauto|].
    destruct Hc as [->|Hc]; [lia|]. apply IH; auto. lia.
  - intros E. f_equal. apply map_ext_in. intros c Hc.
    rewrite Forall_forall in H. apply H; auto. intros h Hh. apply E.
    intros Hs. apply Hh. clear - Hs Hc. induction es as [|x l IH]; simpl in *; [tauto|].
    destruct Hc as [->|Hc]; [lia|]. apply IH; auto. lia.
  - intros E. f_equal. apply map_ext_in. intros c Hc.
    rewrite Forall_forall in H. apply H; auto. intros h Hh. apply E.
    intros Hs. apply Hh. clear - Hs Hc. induction es as [|x l IH]; simpl in *; [tauto|].
    destruct Hc as [->|Hc]; [lia|]. apply IH; auto. lia.
Qed.

Lemma renameConstant_id c : renameConstant (fun h => h) c = c.
Proof.
  induction c using Constant_nested_ind; simpl; auto; f_equal;
    rewrite <- (map_id ops) at 2 || rewrite <- (map_id es) at 2;
    apply map_ext_in; intros c Hc; rewrite Forall_forall in H; auto.
Qed.

Lemma mapInsts_compose g1 g2 bs :
  mapInsts g2 (mapInsts g1 bs) = mapInsts (fun i => g2 (g1 i)) bs.
Proof.
  unfold mapInsts. rewrite map_map. apply map_ext. intros b. simpl.
  now rewrite map_map.
Qed.

Lemma renameFunction_compose r1 r2 f :
  renameFunction r2 (renameFunction r1 f)
  = renameFunction (fun h => r2 (r1 h)) f.
Proof.
  unfold renameFunction, set_blocks. simpl. f_equal.
  rewrite mapInsts_compose. unfold mapInsts. apply map_ext. intros b.
  f_equal. apply map_ext. intros i. unfold renameInst, set_operands. simpl.
  f_equal. rewrite map_map. apply map_ext. intros [] ; simpl; auto.
  now rewrite renameConstant_compose.
Qed.

Lemma renameGlobal_compose r1 r2 g :
  renameGlobal r2 (renameGlobal r1 g) = renameGlobal (fun h => r2 (r1 h)) g.
Proof.
  unfold renameGlobal. simpl. f_equal. destruct (gv_init g); simpl; auto.
  now rewrite renameConstant_compose.
Qed.

Lemma renameFunction_declaration r s :
  fn_blocks s = [] -> renameFunction r s = s.
Proof. destruct s. simpl. intros ->. reflexivity. Qed.

Lemma usesInConstant_avoided r h c :
  (forall x, r x <> h) -> usesInConstant h (renameConstant r c) = 0.
Proof.
  intros Hr. induction c using Constant_nested_ind; simpl; auto.
  - destruct (r h0 =? h) eqn:E; auto. apply Nat.eqb_eq in E. now apply Hr in E.
  - destruct (r h0 =? h) eqn:E; auto. apply Nat.eqb_eq in E. now apply Hr in E.
  - induction H as [|x l Hx Hl IH]; simpl; auto. now rewrite Hx, IH.
  - induction H as [|x l Hx Hl IH]; simpl; auto. now rewrite Hx, IH.
  - induction H as [|x l Hx Hl IH]; simpl; auto. now rewrite Hx, IH.
  - induction H as [|x l Hx Hl IH]; simpl; auto. now rewrite Hx, IH.
Qed.

Lemma list_sum_zero {A : Type} (g : A -> nat) l :
  (forall x, In x l -> g x = 0) -> list_sum (map g l) = 0.
Proof.
  induction l as [|x l IH]; simpl; auto. intros H.
  rewrite (H x (or_introl eq_refl)), IH; auto.
Qed.

Lemma usesInFunction_avoided r h f :
  (forall x, r x <> h) -> usesInFunction h (renameFunction r f) = 0.
Proof.
  intros Hr. unfold usesInFunction. apply list_sum_zero. intros i Hi.
  simpl in Hi. rewrite allInsts_mapInsts in Hi. apply in_map_iff in Hi.
  destruct Hi as (j & <- & _). simpl. rewrite map_map.
  apply list_sum_zero. intros v _. destruct v; simpl; auto.
  now apply usesInConstant_avoided.
Qed.

Lemma usesInGlobal_avoided r h g :
  (forall x, r x <> h) -> usesInGlobal h (renameGlobal r g) = 0.
Proof.
  intros Hr. unfold usesInGlobal. simpl. destruct (gv_init g); simpl; auto.
  now apply usesInConstant_avoided.
Qed.

Lemma usesInFunction_declaration h s :
  fn_blocks s = [] -> usesInFunction h s = 0.
Proof. unfold usesInFunction. now intros ->. Qed.

Lemma renameValue_unused r v :
  (forall h, usesInValue h v <> 0 -> r h = h) -> renameValue r v = v.
Proof.
  destruct v; simpl; auto. intros H. f_equal.
  rewrite <- (renameConstant_id c) at 2. now apply renameConstant_ext.
Qed.

Lemma renameFunction_id f : renameFunction (fun h => h) f = f.
Proof.
  destruct f as [i n t l a at' bs]. unfold renameFunction, set_blocks. simpl.
  f_equal. unfold mapInsts. rewrite <- (map_id bs) at 2. apply map_ext.
  intros [bi bn l']. unfold set_insts. simpl. f_equal.
  rewrite <- (map_id l') at 2. apply map_ext. intros x.
  destruct x as [xi xo xt xn xw ops inc]. unfold renameInst, set_operands. simpl.
  f_equal. rewrite <- (map_id ops) at 2. apply map_ext. intros []; simpl; auto.
  now rewrite renameConstant_id.
Qed.

Lemma renameGlobal_id g : renameGlobal (fun h => h) g = g.
Proof.
  destruct g as [i n t c l init]. unfold renameGlobal. simpl. f_equal.
  destruct init; simpl; auto. now rewrite renameConstant_id.
Qed.

(** ** Heap randomization *)

Lemma heapInv_step m0 P m r news f name :
  heapInv m0 P m r news ->
  fn_id f < m_next m0 -> (forall p, In p P -> fn_id (fst p) <> fn_id f) ->
  exists r' news',
    heapInv m0 (P ++ [(f, name)]) (replaceAllocator m (Some f) name) r' news'.
Proof.
  intros (Hf & Hg & Hn & Hid & Hnews & HP) Hold Hdist.
  exists (fun h => redirect (fn_id f) (m_next m) (r h)),
         (news ++ [mkFunction (m_next m) name (fn_type f) ExternalLinkage None [] []]).
  unfold replaceAllocator, createFunction, replaceAllUsesWith.
  unfold heapInv. cbn [m_functions m_globals m_next fn_id].
  split; [|split; [|split; [|split; [|split]]]].
  - rewrite Hf, !map_app, map_map. cbn [map].
    rewrite (renameFunction_declaration _ (mkFunction _ _ _ _ _ _ _)) by reflexivity.
    rewrite <- app_assoc. f_equal.
    + apply map_ext. intros g. apply renameFunction_compose.
    + f_equal. rewrite <- (map_id news) at 2. apply map_ext_in. intros s Hs.
      apply renameFunction_declaration. now apply Hnews.
  - rewrite Hg, map_map. apply map_ext. intros g. apply renameGlobal_compose.
  - lia.
  - intros h Hh. rewrite Hid.
    + unfold redirect. destruct (h =? fn_id f) eqn:E; auto.
      apply Nat.eqb_eq in E. exfalso. apply (Hh (f, name)); auto.
      apply in_or_app. right. now left.
    + intros p Hp. apply Hh. apply in_or_app. now left.
  - intros s Hs. apply in_app_or in Hs. destruct Hs as [Hs|[<-|[]]].
    + destruct (Hnews s Hs) as (Hr & Hb & p & Hp & En). repeat split; auto; try lia.
      exists p. split; auto. apply in_or_app. now left.
    + cbn. repeat split; auto; try lia. exists (f, name). split; auto.
      apply in_or_app. right. now left.
  - intros p Hp. apply in_app_or in Hp. destruct Hp as [Hp|[<-|[]]].
    + destruct (HP p Hp) as (s & Hs & En & El & Et & Er).
      exists s. repeat split; auto; [apply in_or_app; now left|].
      rewrite Er. unfold redirect. destruct (fn_id s =? fn_id f) eqn:E; auto.
      apply Nat.eqb_eq in E. destruct (Hnews s Hs) as (Hr & _). lia.
    + eexists. split; [apply in_or_app; right; left; reflexivity|].
      cbn. repeat split; auto.
      rewrite Hid by (intros p Hp E; exact (Hdist p Hp (eq_sym E))).
      unfold redirect. now rewrite Nat.eqb_refl.
Qed.

Lemma getFunction_In m name f :
  getFunction m name = Some f -> In f (m_functions m) /\ fn_name f = name.
Proof.
  unfold getFunction. intros H. apply find_some in H. destruct H as [H E].
  now apply String.eqb_eq in E.
Qed.

Lemma wfFunctions_unique m f g :
  wfFunctions m -> In f (m_functions m) -> In g (m_functions m) ->
  fn_id f = fn_id g -> f = g.
Proof.
  intros [Hnd _]. revert Hnd. generalize (m_functions m) as l.
  induction l as [|z l IH]; simpl; [tauto|].
  intros H [->|Hx] [->|Hy] E; auto; inversion H as [|? ? Hz Hl]; subst.
  - exfalso. apply Hz. rewrite E. now apply in_map.
  - exfalso. apply Hz. rewrite <- E. now apply in_map.
  - now apply IH.
Qed.

Lemma heapInv_opt m0 P m r news fn name :
  heapInv m0 P m r news ->
  (forall f, fn = Some f ->
     fn_id f < m_next m0 /\ forall p, In p P -> fn_id (fst p) <> fn_id f) ->
  exists r' news',
    heapInv m0 (P ++ present fn name) (replaceAllocator m fn name) r' news'.
Proof.
  intros H Hfn. destruct fn as [f|].
  - destruct (Hfn f eq_refl) as [Hold Hdist]. eapply heapInv_step; eauto.
  - exists r, news. simpl. now rewrite app_nil_r.
Qed.

Lemma heapInv_uses m0 P m r news p :
  heapInv m0 P m r news ->
  (forall q, In q P -> fn_id (fst q) < m_next m0) ->
  In p P -> getNumUses m (fn_id (fst p)) = 0.
Proof.
  intros (Hf & Hg & Hn & Hid & Hnews & HP) Hold Hp.
  assert (forall x, r x <> fn_id (fst p)) as Havoid.
  { intros x E.
    destruct (in_dec Nat.eq_dec x (map (fun q => fn_id (fst q)) P)) as [Hin|Hout].
    - apply in_map_iff in Hin. destruct Hin as (q & <- & Hq).
      destruct (HP q Hq) as (s & Hs & _ & _ & _ & Er).
      destruct (Hnews s Hs) as (Hr & _). specialize (Hold p Hp). lia.
    - rewrite Hid in E.
      + apply Hout. apply in_map_iff. exists p. auto.
      + intros q Hq Eq. apply Hout. apply in_map_iff. exists q. auto. }
  unfold getNumUses. rewrite Hf, Hg, map_app, !map_map.
  rewrite list_sum_app.
  rewrite (list_sum_zero (fun f => usesInFunction (fn_id (fst p)) (renameFunction r f)))
    by (intros; now apply usesInFunction_avoided).
  rewrite (list_sum_zero (usesInFunction (fn_id (fst p))))
    by (intros s Hs; apply usesInFunction_declaration; now apply Hnews).
  rewrite (list_sum_zero (fun g => usesInGlobal (fn_id (fst p)) (renameGlobal r g)))
    by (intros; now apply usesInGlobal_avoided).
  reflexivity.
Qed.

(** C7. For each of [malloc], [calloc], [realloc] and [free] that the
    module has as a function, [randomizeHeap] appends an external
    declaration of the same type under the [stabilizer_] name; every operand
    that named the original names the declaration, and nothing else of an
    operand list changes; the original stays in the module and has no use
    left.  The four [stabilizer_] names are taken to be free in the module
    ([Hfree]); they differ from one another, so each is free when its
    declaration is created. *)
Theorem allocators_retargeted (m : Module) (Hwf : wfFunctions m)
  (Hfree : forall orig new, In (orig, new) allocators ->
             nameFree m new = true) :
  exists (r : Handle -> Handle) (news : list Function),
    m_functions (randomizeHeap m)
    = map (renameFunction r) (m_functions m) ++ news
    /\ m_globals (randomizeHeap m) = map (renameGlobal r) (m_globals m)
    /\ (forall h, ~ isAllocator m h -> r h = h)
    /\ (forall v, (forall h, isAllocator m h -> usesInValue h v = 0) ->
                  renameValue r v = v)
    /\ (forall s, In s news ->
          m_next m <= fn_id s /\ isDeclaration s = true
          /\ exists orig f, In (orig, fn_name s) allocators
                            /\ getFunction m orig = Some f)
    /\ forall orig new f,
         In (orig, new) allocators -> getFunction m orig = Some f ->
         (exists s, In s news /\ fn_name s = new
                    /\ fn_linkage s = ExternalLinkage
                    /\ fn_type s = fn_type f /\ r (fn_id f) = fn_id s)
         /\ getNumUses (randomizeHeap m) (fn_id f) = 0
         /\ In (renameFunction r f) (m_functions (randomizeHeap m)).
Proof.
  unfold randomizeHeap.
  set (P := present (getFunction m "malloc") "stabilizer_malloc"
            ++ present (getFunction m "calloc") "stabilizer_calloc"
            ++ present (getFunction m "realloc") "stabilizer_realloc"
            ++ present (getFunction m "free") "stabilizer_free").
  assert (forall p, In p P ->
            exists orig, In (orig, snd p) allocators
                         /\ getFunction m orig = Some (fst p)) as HPin.
  { intros p Hp. unfold P, present in Hp.
    destruct (getFunction m "malloc") eqn:E1, (getFunction m "calloc") eqn:E2,
             (getFunction m "realloc") eqn:E3, (getFunction m "free") eqn:E4;
      simpl in Hp;
      repeat (destruct Hp as [<-|Hp];
              [eexists; split; [|eassumption]; simpl; tauto|]);
      destruct Hp. }
  assert (forall orig new f, In (orig, new) allocators ->
            getFunction m orig = Some f -> In (f, new) P) as HPall.
  { intros orig new f Hin Hg. unfold allocators in Hin. unfold P, present.
    simpl in Hin.
    destruct Hin as [[= <- <-]|[[= <- <-]|[[= <- <-]|[[= <- <-]|[]]]]];
      rewrite Hg; rewrite ?in_app_iff; simpl; tauto. }
  assert (forall p, In p P -> fn_id (fst p) < m_next m) as Hold.
  { intros p Hp. destruct (HPin p Hp) as (orig & _ & Hg).
    apply getFunction_In in Hg. destruct Hg as [Hg _].
    destruct Hwf as [_ Hlt]. rewrite Forall_forall in Hlt. now apply Hlt. }
  assert (forall p q, In p P -> In q P -> fn_id (fst p) = fn_id (fst q) ->
                      snd p = snd q) as Hinj.
  { intros p q Hp Hq E. destruct (HPin p Hp) as (o1 & Ha1 & Hg1).
    destruct (HPin q Hq) as (o2 & Ha2 & Hg2).
    apply getFunction_In in Hg1, Hg2. destruct Hg1 as [Hi1 Hn1], Hg2 as [Hi2 Hn2].
    assert (fst p = fst q) as Ef by (eapply wfFunctions_unique; eauto).
    rewrite Ef in Hn1. assert (o1 = o2) as Eo by congruence.
    unfold allocators in Ha1, Ha2. simpl in Ha1, Ha2.
    destruct Ha1 as [E1|[E1|[E1|[E1|[]]]]];
      destruct Ha2 as [E2|[E2|[E2|[E2|[]]]]];
      injection E1 as A1 B1; injection E2 as A2 B2; congruence. }
  assert (heapInv m [] m (fun h => h) []) as H0.
  { unfold heapInv. rewrite app_nil_r.
    split; [|split; [|split; [|split; [|split]]]]; auto.
    - rewrite <- (map_id (m_functions m)) at 1. apply map_ext. intros f.
      now rewrite renameFunction_id.
    - rewrite <- (map_id (m_globals m)) at 1. apply map_ext. intros g.
      now rewrite renameGlobal_id.
    - intros s [].
    - intros p []. }
  (* the four allocators in turn *)
  destruct (heapInv_opt m [] m _ _ (getFunction m "malloc") "stabilizer_malloc" H0)
    as (r1 & n1 & H1).
  { intros f Hf. split; [apply (Hold (f, "stabilizer_malloc")) | intros p []].
    apply (HPall "malloc"); auto. simpl. tauto. }
  cbn [app] in H1.
  destruct (heapInv_opt m _ _ _ _ (getFunction m "calloc") "stabilizer_calloc" H1)
    as (r2 & n2 & H2).
  { intros f Hf. split.
    - apply (Hold (f, "stabilizer_calloc")). apply (HPall "calloc"); auto. simpl. tauto.
    - intros p Hp E.
      assert (snd p = "stabilizer_calloc") as En.
      { apply (Hinj p (f, "stabilizer_calloc")); auto.
        - unfold P. apply in_or_app. now left.
        - apply (HPall "calloc"); auto. simpl. tauto. }
      unfold present in Hp. destruct (getFunction m "malloc"); simpl in Hp;
        [destruct Hp as [<-|[]]; discriminate|destruct Hp]. }
  destruct (heapInv_opt m _ _ _ _ (getFunction m "realloc") "stabilizer_realloc" H2)
    as (r3 & n3 & H3).
  { intros f Hf. split.
    - apply (Hold (f, "stabilizer_realloc")). apply (HPall "realloc"); auto. simpl. tauto.
    - intros p Hp E.
      assert (snd p = "stabilizer_realloc") as En.
      { apply (Hinj p (f, "stabilizer_realloc")); auto.
        - unfold P. rewrite app_assoc. apply in_or_app. now left.
        - apply (HPall "realloc"); auto. simpl. tauto. }
      unfold present in Hp.
      destruct (getFunction m "malloc"), (getFunction m "calloc"); simpl in Hp;
        repeat (destruct Hp as [<-|Hp]; [discriminate|]); destruct Hp. }
  destruct (heapInv_opt m _ _ _ _ (getFunction m "free") "stabilizer_free" H3)
    as (r4 & n4 & H4).
  { intros f Hf. split.
    - apply (Hold (f, "stabilizer_free")). apply (HPall "free"); auto. simpl. tauto.
    - intros p Hp E.
      assert (snd p = "stabilizer_free") as En.
      { apply (Hinj p (f, "stabilizer_free")); auto.
        - unfold P. rewrite !app_assoc. apply in_or_app. now left.
        - apply (HPall "free"); auto. simpl. tauto. }
      unfold present in Hp.
      destruct (getFunction m "malloc"), (getFunction m "calloc"),
               (getFunction m "realloc"); simpl in Hp;
        repeat (destruct Hp as [<-|Hp]; [discriminate|]); destruct Hp. }
  rewrite <- !app_assoc in H4. fold P in H4.
  exists r4, n4.
  pose proof H4 as (Hf & Hg & Hn & Hid & Hnews & HP).
  split; [exact Hf|]. split; [exact Hg|].
  assert (forall h, ~ isAllocator m h -> r4 h = h) as Hfix.
  { intros h Hh. apply Hid. intros p Hp E. apply Hh.
    destruct (HPin p Hp) as (orig & Ha & Hgf). exists orig, (snd p), (fst p). auto. }
  split; [exact Hfix|].
  split.
  { intros v Hv. apply renameValue_unused. intros h Hh. apply Hfix.
    intros Ha. apply Hh. now apply Hv. }
  split.
  { intros s Hs. destruct (Hnews s Hs) as (Hr & Hb & p & Hp & En).
    split; [lia|]. split; [unfold isDeclaration; now rewrite Hb|].
    destruct (HPin p Hp) as (orig & Ha & Hgf). exists orig, (fst p).
    rewrite En. auto. }
  intros orig new f Ha Hgf. specialize (HPall orig new f Ha Hgf).
  split; [exact (HP _ HPall)|]. split.
  - exact (heapInv_uses m P _ r4 n4 (f, new) H4 Hold HPall).
  - rewrite Hf. apply in_or_app. left. apply in_map.
    now apply getFunction_In in Hgf.
Qed.

Lemma example_heap_wf : wfFunctions example_heap.
Proof.
  split.
  - simpl. repeat constructor; simpl; intuition discriminate.
  - repeat constructor; simpl; lia.
Defined.

Lemma allocators_retargeted_witness :
  wfFunctions example_heap
  /\ (forall orig new, In (orig, new) allocators ->
        nameFree example_heap new = true)
  /\ getNumUses (randomizeHeap example_heap) (fn_id example_malloc) = 0.
Proof.
  assert (Hfree : forall orig new, In (orig, new) allocators ->
                    nameFree example_heap new = true).
  { intros orig new [E|[E|[E|[E|[]]]]]; injection E as _ <-; reflexivity. }
  split; [exact example_heap_wf|]. split; [exact Hfree|].
  destruct (allocators_retargeted example_heap example_heap_wf Hfree)
    as (r & news & _ & _ & _ & _ & _ & H).
  exact (proj1 (proj2 (H "malloc" "stabilizer_malloc" example_malloc
                         (or_introl eq_refl) eq_refl))).
Defined.

Import LowerIntrinsics.

(** ** Intrinsic lowering *)

Lemma fold_eraseFunction hs m :
  m_functions (fold_left eraseFunction hs m)
  = filter (fun f => negb (existsb (Nat.eqb (fn_id f)) hs)) (m_functions m)
  /\ m_globals (fold_left eraseFunction hs m) = m_globals m.
Proof.
  revert m. induction hs as [|h hs IH]; intros m; cbn [fold_left].
  - split; auto. simpl. induction (m_functions m) as [|f l IHl]; simpl; congruence.
  - destruct (IH (eraseFunction m h)) as [E1 E2]. rewrite E1, E2. split; auto.
    unfold eraseFunction. simpl.
    induction (m_functions m) as [|f l IHl]; simpl; auto.
    destruct (fn_id f =? h) eqn:E; simpl; auto.
    destruct (existsb (Nat.eqb (fn_id f)) hs); simpl; auto. now rewrite IHl.
Qed.

Section Lowering.
Variable GetLibcall : string -> string.
Variable isAlwaysInlined : string -> bool.
Variable addr : Constant -> N.

(** The names the table yields are not in the reserved [llvm.] space. *)
Hypothesis libcall_not_intrinsic :
  forall n, prefix "llvm." (GetLibcall n) = false.

Abbreviation visit' := (visit GetLibcall isAlwaysInlined addr).
Abbreviation loop := (lowerLoop GetLibcall isAlwaysInlined addr).

Lemma find_name_rename r name l :
  find (fun f => String.eqb (fn_name f) name) (map (renameFunction r) l)
  = option_map (renameFunction r) (find (fun f => String.eqb (fn_name f) name) l).
Proof.
  induction l as [|f l IH]; simpl; auto.
  destruct (String.eqb (fn_name f) name); auto.
Qed.

Lemma find_app {A : Type} (p : A -> bool) l1 l2 :
  find p (l1 ++ l2) = match find p l1 with Some x => Some x | None => find p l2 end.
Proof. induction l1 as [|x l1 IH]; simpl; auto. destruct (p x); auto. Qed.

Lemma lowered_intrinsic f : lowered GetLibcall isAlwaysInlined f = true -> isIntrinsic f = true.
Proof.
  unfold lowered. intros H. apply andb_prop in H. destruct H as [H _].
  apply andb_prop in H. tauto.
Qed.

Lemma libcall_differs m0 f e :
  wfFunctions m0 -> In f (m_functions m0) -> isIntrinsic f = true ->
  In e (m_functions m0) -> isIntrinsic e = false -> fn_id e <> fn_id f.
Proof.
  intros Hwf Hf Hi He Hn E.
  rewrite (wfFunctions_unique m0 e f Hwf He Hf E) in Hn. congruence.
Qed.

Lemma lowerInv_step m0 done f0 rest st r news :
  wfFunctions m0 -> m_functions m0 = done ++ f0 :: rest ->
  lowerInv GetLibcall isAlwaysInlined m0 done st r news ->
  exists r' news',
    lowerInv GetLibcall isAlwaysInlined m0 (done ++ [f0]) (visit' st (renameFunction r f0)) r' news'
    /\ List.length news' <= S (List.length news).
Proof.
  intros Hwf Hsplit. destruct st as [[m toDelete] err].
  intros (Hf & Hg & Hn & Hnews & Hdel & Herr & Hid & Htgt).
  assert (Hin0 : In f0 (m_functions m0)).
  { rewrite Hsplit. apply in_or_app. right. now left. }
  assert (Hdone : forall f, In f done -> In f (m_functions m0)).
  { intros f Hfd. rewrite Hsplit. apply in_or_app. now left. }
  assert (Hfresh : forall f, In f done -> fn_id f <> fn_id f0).
  { intros f Hfd E. destruct Hwf as [Hnd _]. rewrite Hsplit in Hnd.
    rewrite map_app in Hnd. simpl in Hnd. apply NoDup_remove_2 in Hnd.
    apply Hnd. apply in_or_app. left. rewrite <- E. now apply in_map. }
  assert (Hold : fn_id f0 < m_next m0).
  { destruct Hwf as [_ Hall]. rewrite Forall_forall in Hall. auto. }
  unfold visit.
  change (fn_name (renameFunction r f0)) with (fn_name f0).
  change (isIntrinsic (renameFunction r f0)) with (isIntrinsic f0).
  change (fn_id (renameFunction r f0)) with (fn_id f0).
  change (fn_type (renameFunction r f0)) with (fn_type f0).
  destruct (isIntrinsic f0 && negb (isAlwaysInlined (fn_name f0))) eqn:Ei.
  2:{ exists r, news. split; [|lia]. unfold lowerInv.
      assert (El : lowered GetLibcall isAlwaysInlined f0 = false) by (unfold lowered; now rewrite Ei).
      assert (Ew : warned GetLibcall isAlwaysInlined f0 = false) by (unfold warned; now rewrite Ei).
      split; [auto|split; [auto|split; [auto|split; [auto|split; [|split; [|split]]]]]].
      - intros h. rewrite Hdel. split; intros (f & Hfd & Hl & E).
        + exists f. split; auto. apply in_or_app. now left.
        + apply in_app_or in Hfd. destruct Hfd as [Hfd|[<-|[]]]; [eauto|congruence].
      - rewrite filter_app. simpl. rewrite Ew. now rewrite app_nil_r.
      - intros h Hh. apply Hid. intros f Hfd. apply Hh. apply in_or_app. now left.
      - intros f Hfd Hl. apply in_app_or in Hfd.
        destruct Hfd as [Hfd|[<-|[]]]; [now apply Htgt|congruence]. }
  destruct (isEmpty (GetLibcall (fn_name f0))) eqn:Ee; cbn [negb].
  { exists r, news. split; [|lia]. unfold lowerInv.
    assert (El : lowered GetLibcall isAlwaysInlined f0 = false) by (unfold lowered; rewrite Ei, Ee; reflexivity).
    assert (Ew : warned GetLibcall isAlwaysInlined f0 = true) by (unfold warned; rewrite Ei, Ee; reflexivity).
    split; [auto|split; [auto|split; [auto|split; [auto|split; [|split; [|split]]]]]].
    - intros h. rewrite Hdel. split; intros (f & Hfd & Hl & E).
      + exists f. split; auto. apply in_or_app. now left.
      + apply in_app_or in Hfd. destruct Hfd as [Hfd|[<-|[]]]; [eauto|congruence].
    - rewrite filter_app, map_app. simpl. rewrite Ew. now rewrite Herr.
    - intros h Hh. apply Hid. intros f Hfd. apply Hh. apply in_or_app. now left.
    - intros f Hfd Hl. apply in_app_or in Hfd.
      destruct Hfd as [Hfd|[<-|[]]]; [now apply Htgt|congruence]. }
  assert (El : lowered GetLibcall isAlwaysInlined f0 = true) by (unfold lowered; rewrite Ei, Ee; reflexivity).
  assert (Hint : isIntrinsic f0 = true) by now apply lowered_intrinsic.
  assert (Ew : warned GetLibcall isAlwaysInlined f0 = false) by (unfold warned; rewrite Ei, Ee; reflexivity).
  set (name := GetLibcall (fn_name f0)) in *.
  (* the identifier that the uses of [f0] are sent to *)
  assert (Hkeep : forall f, In f done -> lowered GetLibcall isAlwaysInlined f = true ->
            forall b, b <> fn_id f0 -> redirect (fn_id f0) b (r (fn_id f)) = r (fn_id f)).
  { intros f Hfd Hl b Hb. unfold redirect.
    destruct (r (fn_id f) =? fn_id f0) eqn:E; auto. apply Nat.eqb_eq in E.
    exfalso. specialize (Htgt f Hfd Hl).
    destruct (getFunction m0 (GetLibcall (fn_name f))) as [e|] eqn:Eg.
    - apply getFunction_In in Eg. destruct Eg as [He En].
      apply (libcall_differs m0 f0 e Hwf Hin0 Hint He).
      + unfold isIntrinsic. rewrite En. apply libcall_not_intrinsic.
      + congruence.
    - destruct Htgt as (s & Hs & _ & Er). apply Hnews in Hs. lia. }
  assert (Hself : r (fn_id f0) = fn_id f0).
  { apply Hid. intros f Hfd _ E. now apply (Hfresh f Hfd). }
  assert (Hgen : forall (b : Handle) (m1 : Module) (news' : list Function),
     b <> fn_id f0 ->
     m_functions m1 = map (renameFunction r) (m_functions m0) ++ news' ->
     m_globals m1 = m_globals m -> m_next m <= m_next m1 ->
     (forall s, In s news' ->
        m_next m0 <= fn_id s < m_next m1 /\ fn_blocks s = []
        /\ fn_linkage s = ExternalLinkage /\ isIntrinsic s = false
        /\ getFunction m0 (fn_name s) = None) ->
     (forall s, In s news -> In s news') ->
     match getFunction m0 name with
     | Some e => b = fn_id e
     | None => exists s, In s news' /\ fn_name s = name /\ b = fn_id s
     end ->
     lowerInv GetLibcall isAlwaysInlined m0 (done ++ [f0])
       (replaceAllUsesWith m1 (fn_id f0) b,
        setInsert Nat.eqb (fun h => addr (GFunction h)) (fn_id f0) toDelete, err)
       (fun h => redirect (fn_id f0) b (r h)) news').
  { intros b m1 news' Hb Hf1 Hg1 Hn1 Hnews1 Hsub Hb'.
    unfold lowerInv, replaceAllUsesWith. cbn [m_functions m_globals m_next].
    split; [|split; [|split; [|split; [|split; [|split; [|split]]]]]].
    - rewrite Hf1, map_app, map_map. f_equal.
      + apply map_ext. intros g. apply renameFunction_compose.
      + rewrite <- (map_id news') at 2. apply map_ext_in. intros s Hs.
        apply renameFunction_declaration. now apply Hnews1.
    - rewrite Hg1, Hg, map_map. apply map_ext. intros g. apply renameGlobal_compose.
    - lia.
    - auto.
    - intros h. rewrite (setInsert_In Nat.eqb).
      2:{ intros x y. apply Nat.eqb_eq. }
      rewrite Hdel. split.
      + intros [->|(f & Hfd & Hl & E)].
        * exists f0. split; auto. apply in_or_app. right. now left.
        * exists f. split; auto. apply in_or_app. now left.
      + intros (f & Hfd & Hl & E). apply in_app_or in Hfd.
        destruct Hfd as [Hfd|[<-|[]]]; [right; eauto|left; auto].
    - rewrite filter_app. simpl. rewrite Ew. now rewrite app_nil_r.
    - intros h Hh. rewrite Hid.
      + unfold redirect. destruct (h =? fn_id f0) eqn:E; auto.
        apply Nat.eqb_eq in E. exfalso. apply (Hh f0); auto.
        apply in_or_app. right. now left.
      + intros f Hfd. apply Hh. apply in_or_app. now left.
    - intros f Hfd Hl. apply in_app_or in Hfd. destruct Hfd as [Hfd|[<-|[]]].
      + rewrite (Hkeep f Hfd Hl b Hb). specialize (Htgt f Hfd Hl).
        destruct (getFunction m0 (GetLibcall (fn_name f))); auto.
        destruct Htgt as (s & Hs & En & Er). exists s. auto.
      + rewrite Hself. unfold redirect. rewrite Nat.eqb_refl. exact Hb'. }
  unfold getFunction at 1. rewrite Hf, find_app, find_name_rename.
  fold (getFunction m0 name).
  destruct (getFunction m0 name) as [e|] eqn:Eg0; cbn [option_map].
  - (* the module had a function of that name from the start *)
    exists (fun h => redirect (fn_id f0) (fn_id e) (r h)), news. split; [|lia].
    change (fn_id (renameFunction r e)) with (fn_id e).
    apply Hgen; auto.
    + pose proof Eg0 as Eg1. apply getFunction_In in Eg1. destruct Eg1 as [He En].
      apply (libcall_differs m0 f0 e Hwf Hin0 Hint He).
      unfold isIntrinsic. rewrite En. apply libcall_not_intrinsic.
  - destruct (find (fun f => String.eqb (fn_name f) name) news) as [s|] eqn:Es.
    + (* an earlier turn created it *)
      exists (fun h => redirect (fn_id f0) (fn_id s) (r h)), news. split; [|lia].
      apply find_some in Es. destruct Es as [Hs En]. apply String.eqb_eq in En.
      apply Hgen; auto.
      * apply Hnews in Hs. lia.
      * exists s. auto.
    + (* it is created now *)
      exists (fun h => redirect (fn_id f0) (m_next m) (r h)),
             (news ++ [mkFunction (m_next m) name (fn_type f0) ExternalLinkage None [] []]).
      split; [|rewrite length_app; simpl; lia].
      unfold createFunction. cbn [fn_id].
      apply Hgen; cbn [m_functions m_globals m_next]; auto; try lia.
      * now rewrite Hf, app_assoc.
      * intros s Hs. apply in_app_or in Hs. destruct Hs as [Hs|[<-|[]]].
        -- destruct (Hnews s Hs) as (? & ? & ? & ? & ?). repeat split; auto; lia.
        -- cbn. repeat split; auto; try lia. apply libcall_not_intrinsic.
      * intros s Hs. apply in_or_app. now left.
      * eexists. split; [apply in_or_app; right; left; reflexivity|].
        split; reflexivity.
Qed.

Lemma lowerLoop_skips fuel : forall pos st,
  (forall k f, pos <= k -> nth_error (m_functions (fst (fst st))) k = Some f ->
               isIntrinsic f = false) ->
  List.length (m_functions (fst (fst st))) - pos < fuel ->
  loop fuel pos st = Some st.
Proof.
  induction fuel as [|fuel IH]; intros pos st Hskip Hfuel; [lia|].
  cbn [lowerLoop].
  destruct (nth_error (m_functions (fst (fst st))) pos) as [f|] eqn:E; auto.
  assert (Ev : visit' st f = st).
  { unfold visit. destruct st as [[m d] e].
    now rewrite (Hskip pos f (Nat.le_refl _) E). }
  rewrite Ev. apply IH.
  - intros k g Hk. apply Hskip. lia.
  - assert (pos < List.length (m_functions (fst (fst st)))).
    { apply nth_error_Some. congruence. }
    lia.
Qed.

Lemma lowerLoop_runs m0 (Hwf : wfFunctions m0) : forall rest done st r news fuel,
  m_functions m0 = done ++ rest ->
  lowerInv GetLibcall isAlwaysInlined m0 done st r news ->
  2 * List.length rest + List.length news < fuel ->
  exists st' r' news',
    loop fuel (List.length done) st = Some st'
    /\ lowerInv GetLibcall isAlwaysInlined m0 (m_functions m0) st' r' news'.
Proof.
  induction rest as [|f0 rest IH]; intros done st r news fuel Hsplit Hinv Hfuel.
  - rewrite app_nil_r in Hsplit. subst done. exists st, r, news. split; auto.
    destruct st as [[m d] e]. pose proof Hinv as (Hf & _ & _ & Hnews & _).
    apply lowerLoop_skips; cbn [fst]; rewrite Hf.
    + intros k f Hk E. rewrite nth_error_app2 in E by (rewrite length_map; lia).
      apply nth_error_In in E. now apply Hnews.
    + rewrite length_app, length_map. simpl in Hfuel. lia.
  - destruct fuel as [|fuel]; [lia|]. cbn [lowerLoop].
    assert (E : nth_error (m_functions (fst (fst st))) (List.length done)
                = Some (renameFunction r f0)).
    { destruct st as [[m d] e]. destruct Hinv as (Hf & _). cbn [fst].
      rewrite Hf, Hsplit, map_app, <- app_assoc.
      rewrite nth_error_app2 by (rewrite length_map; lia).
      rewrite length_map, Nat.sub_diag. reflexivity. }
    rewrite E.
    destruct (lowerInv_step m0 done f0 rest st r news Hwf Hsplit Hinv)
      as (r' & news' & Hinv' & Hlen).
    replace (S (List.length done)) with (List.length (done ++ [f0]))
      by (rewrite length_app; simpl; lia).
    apply (IH (done ++ [f0]) _ r' news').
    + now rewrite <- app_assoc.
    + exact Hinv'.
    + simpl in Hfuel. lia.
Qed.

Lemma lowered_or_not fs h :
  (exists f, In f fs /\ lowered GetLibcall isAlwaysInlined f = true /\ fn_id f = h)
  \/ (forall f, In f fs -> lowered GetLibcall isAlwaysInlined f = true -> h <> fn_id f).
Proof.
  induction fs as [|g fs [(f & Hf & Hl & E)|IH]].
  - right. intros f [].
  - left. exists f. simpl. auto.
  - destruct (lowered GetLibcall isAlwaysInlined g) eqn:El.
    + destruct (Nat.eq_dec (fn_id g) h) as [E|E].
      * left. exists g. simpl. auto.
      * right. intros f [<-|Hf] Hl; [congruence|now apply IH].
    + right. intros f [<-|Hf] Hl; [congruence|now apply IH].
Qed.

End Lowering.


Lemma example_libcall_names n : prefix "llvm." (example_libcall n) = false.
Proof. unfold example_libcall. now destruct (String.eqb n _). Defined.

Lemma example_intrinsics_wf : wfFunctions example_intrinsics.
Proof.
  split.
  - simpl. repeat constructor; simpl; intuition discriminate.
  - repeat constructor; simpl; lia.
Defined.



(** ** Float conversions *)

Lemma operandsChanged_refl h n bs : operandsChanged h n bs bs.
Proof. split; intros y Hy; [exists y; auto|left; eauto]. Qed.

Lemma operandsChanged_trans h n n' bs1 bs2 bs3 :
  n <= n' -> operandsChanged h n bs1 bs2 -> operandsChanged h n' bs2 bs3 ->
  operandsChanged h n bs1 bs3.
Proof.
  intros Hn [A1 B1] [A2 B2]. split.
  - intros y Hy. destruct (A1 y Hy) as (y1 & H1 & Ei & Eo & Et & Es).
    destruct (A2 y1 H1) as (y2 & H2 & Ei2 & Eo2 & Et2 & Es2).
    exists y2. repeat split; try congruence.
    intros Hne. rewrite Es2 by congruence. auto.
  - intros y Hy. destruct (B2 y Hy) as [(y2 & H2 & E2 & O2)|[Hge Hl]].
    + destruct (B1 y2 H2) as [(y1 & H1 & E1 & O1)|[Hge Hl]].
      * left. exists y1. repeat split; auto; congruence.
      * right. split; [lia|congruence].
    + right. split; [lia|auto].
Qed.

Lemma allInsts_updateInst h g bs :
  allInsts (updateInst h g bs)
  = map (fun i => if i_id i =? h then g i else i) (allInsts bs).
Proof. apply allInsts_mapInsts. Qed.

Lemma insertBefore_keeps ip x bs y :
  In y (allInsts bs) -> In y (allInsts (insertBefore ip x bs)).
Proof.
  destruct ip as [t|]; simpl; auto.
  unfold allInsts. rewrite !in_flat_map. intros (b & Hb & Hy).
  exists (set_insts b (insertBeforeIn t x (b_insts b))). split.
  - apply in_map_iff. eauto.
  - simpl. now apply in_insertBeforeIn.
Qed.

Lemma extractOperand_changes h st k :
  m_functions (fst (extractOperand h st k)) = m_functions (fst st)
  /\ m_next (fst st) <= m_next (fst (extractOperand h st k))
  /\ operandsChanged h (m_next (fst st)) (snd st) (snd (extractOperand h st k)).
Proof.
  destruct st as [m bs]. unfold extractOperand. cbn [fst snd].
  destruct (findInst bs h) as [i|];
    [|split; [auto|split; [auto|apply operandsChanged_refl]]].
  destruct (nth_error _ k) as [[]|];
    try (split; [auto|split; [auto|apply operandsChanged_refl]]).
  destruct (containsConstantFloat c);
    [|split; [auto|split; [auto|apply operandsChanged_refl]]].
  cbn [fst snd createGlobal m_next set_next m_functions i_id gv_id].
  split; [reflexivity|]. split; [lia|]. split.
  - intros y Hy.
    exists (if i_id y =? h
            then set_operands y (setNth k (VInst (S (m_next m))) (i_operands y))
            else y).
    split; [|destruct (i_id y =? h) eqn:E; repeat split; auto;
             intros Hne; apply Nat.eqb_eq in E; congruence].
    unfold setOperand. rewrite allInsts_updateInst.
    apply in_map_iff. exists y. split; [reflexivity|].
    now apply insertBefore_keeps.
  - intros y' Hy'. unfold setOperand in Hy'. rewrite allInsts_updateInst in Hy'.
    apply in_map_iff in Hy'. destruct Hy' as (y & <- & Hy).
    apply insertBefore_In in Hy. destruct Hy as [->|Hy].
    + right. cbn [i_id]. destruct (S (m_next m) =? h); simpl; split; auto.
    + left. exists y. split; auto. destruct (i_id y =? h); auto.
Qed.

Lemma fold_extractOperand_changes h l : forall st,
  m_functions (fst (fold_left (extractOperand h) l st)) = m_functions (fst st)
  /\ m_next (fst st) <= m_next (fst (fold_left (extractOperand h) l st))
  /\ operandsChanged h (m_next (fst st)) (snd st)
       (snd (fold_left (extractOperand h) l st)).
Proof.
  induction l as [|k l IH]; intros st; cbn [fold_left].
  - split; [auto|split; [auto|apply operandsChanged_refl]].
  - destruct (IH (extractOperand h st k)) as (F2 & N2 & C2).
    destruct (extractOperand_changes h st k) as (F1 & N1 & C1).
    split; [congruence|]. split; [lia|].
    eapply operandsChanged_trans; eauto.
Qed.

Lemma isConversion_same m1 m2 a b :
  m_triple m1 = m_triple m2 -> i_op a = i_op b ->
  isConversion m1 a = isConversion m2 b.
Proof.
  intros Ht Ho. unfold isConversion, getPlatform. now rewrite Ht, Ho.
Qed.

Lemma redirect_value h c v :
  (if Value_eq_dec v (VInst h) then VInst c else v)
  = renameInstValue (redirect h c) v.
Proof.
  destruct (Value_eq_dec v (VInst h)) as [->|Hne].
  - simpl. unfold redirect. now rewrite Nat.eqb_refl.
  - destruct v as [k| | | |]; simpl; auto. unfold redirect.
    destruct (k =? h) eqn:E; auto. apply Nat.eqb_eq in E. congruence.
Qed.

Lemma renameInstValue_compose r1 r2 v :
  renameInstValue r1 (renameInstValue r2 v)
  = renameInstValue (fun h => r1 (r2 h)) v.
Proof. now destruct v. Qed.

Lemma allInsts_replaceInstUses h c bs :
  allInsts (replaceInstUses h c bs)
  = map (fun i => set_operands i
                    (map (renameInstValue (redirect h c)) (i_operands i)))
        (allInsts bs).
Proof.
  unfold replaceInstUses. rewrite allInsts_mapInsts. apply map_ext.
  intros i. f_equal. apply map_ext. intros v. apply redirect_value.
Qed.

Lemma insertBefore_new t x bs :
  NoDup (ids bs) -> In t (ids bs) ->
  In x (allInsts (insertBefore (Some t) x bs)).
Proof.
  intros Hnd Hin. rewrite allInsts_insertBefore by exact Hnd.
  now apply in_insertBeforeIn_new.
Qed.

Lemma getFunction_app m fs name :
  find (fun f => String.eqb (fn_name f) name) (m_functions m ++ fs)
  = match getFunction m name with
    | Some g => Some g
    | None => find (fun f => String.eqb (fn_name f) name) fs
    end.
Proof.
  unfold getFunction. induction (m_functions m) as [|g l IH]; simpl; auto.
  destruct (String.eqb (fn_name g) name); auto.
Qed.

Lemma find_name_None name fs :
  find (fun f => String.eqb (fn_name f) name) fs = None ->
  ~ In name (map fn_name fs).
Proof.
  intros H Hin. apply in_map_iff in Hin. destruct Hin as (g & E & Hg).
  apply (find_none _ _ H) in Hg. simpl in Hg.
  rewrite E, String.eqb_refl in Hg. discriminate.
Qed.

Lemma getFloatConversion_spec mk op p tin tout :
  conversionName op = Some p ->
  Forall (fun g => fn_id g < m_next mk) (m_functions mk) ->
  exists conv mc extra,
    getFloatConversion mk op tin tout = Some (conv, mc)
    /\ m_functions mc = m_functions mk ++ extra
    /\ m_triple mc = m_triple mk
    /\ m_next mk <= m_next mc
    /\ getFunction mc (converterName p tin tout) = Some conv
    /\ ((extra = [] /\ getFunction mk (converterName p tin tout) = Some conv)
        \/ (extra = [conv]
            /\ getFunction mk (converterName p tin tout) = None
            /\ m_next mk <= fn_id conv < m_next mc
            /\ fn_linkage conv = InternalLinkage
            /\ fn_name conv = converterName p tin tout
            /\ fn_type conv = FunctionTy tout [tin] false
            /\ fn_blocks conv
               = converterBody (fn_id conv) (S (m_next mk)) op tout)).
Proof.
  intros Hp Hall. unfold getFloatConversion. rewrite Hp.
  destruct (getFunction mk (converterName p tin tout)) as [g|] eqn:Eg.
  - exists g, mk, []. rewrite app_nil_r. repeat split; auto.
  - unfold createFunction, updateFunction.
    cbn [fn_id m_next m_functions set_functions set_next m_triple
         m_pointer_size m_globals set_blocks].
    do 3 eexists. split; [reflexivity|].
    cbn [m_functions m_triple m_next set_next set_functions].
    assert (Hmap : map (fun f0 => if fn_id f0 =? m_next mk
                        then set_blocks f0 (converterBody (m_next mk)
                               (S (m_next mk)) op tout) else f0)
                     (m_functions mk) = m_functions mk).
    { rewrite <- (map_id (m_functions mk)) at 2. apply map_ext_in.
      intros g Hg. rewrite Forall_forall in Hall. specialize (Hall g Hg).
      destruct (fn_id g =? m_next mk) eqn:E; auto.
      apply Nat.eqb_eq in E. lia. }
    split; [|split; [reflexivity|split; [lia|split]]].
    + rewrite map_app, Hmap. cbn [map fn_id]. rewrite Nat.eqb_refl. reflexivity.
    + unfold getFunction. cbn [m_functions set_next set_functions].
      rewrite map_app, Hmap. cbn [map fn_id]. rewrite Nat.eqb_refl.
      rewrite getFunction_app, Eg. cbn [find fn_name set_blocks].
      now rewrite String.eqb_refl.
    + right. cbn. repeat split; auto; lia.
Qed.

Lemma isConversion_load m y : i_op y = Load -> isConversion m y = false.
Proof. unfold isConversion. now intros ->. Qed.

Lemma isConversion_call m y : i_op y = Call -> isConversion m y = false.
Proof. unfold isConversion. now intros ->. Qed.

Lemma stable_type m f mk bs r v :
  wfBody (m_next mk) bs ->
  (forall j, In j (allInsts (fn_blocks f)) ->
     exists j', In j' (allInsts bs) /\ i_id j' = i_id j /\ i_ty j' = i_ty j) ->
  (forall k j, In j (allInsts (fn_blocks f)) -> i_id j = k ->
     isConversion m j = false -> r k = k) ->
  NoDup (ids (fn_blocks f)) ->
  stableOperand m (fn_blocks f) v ->
  getTypeV mk f bs (renameInstValue r v) = getTypeV m f (fn_blocks f) v.
Proof.
  intros [Hnd _] HO Hr Hnd0 Hst. destruct v as [k| | |c|]; simpl; auto.
  - destruct Hst as (j & Hj & Ek & Hc). rewrite (Hr k j Hj Ek Hc).
    destruct (HO j Hj) as (j' & Hj' & Ei & Et).
    destruct (findInst_exists bs k j' Hj' (eq_trans Ei Ek)) as (x & Ex).
    destruct (findInst_exists (fn_blocks f) k j Hj Ek) as (x0 & Ex0).
    rewrite Ex, Ex0. apply findInst_Some in Ex, Ex0.
    rewrite (NoDup_ids_unique bs x j' Hnd (proj1 Ex) Hj') by (destruct Ex; congruence).
    rewrite (NoDup_ids_unique (fn_blocks f) x0 j Hnd0 (proj1 Ex0) Hj)
      by (destruct Ex0; congruence).
    exact Et.
  - destruct c; simpl in *; auto; contradiction.
Qed.

Local Opaque insertBefore.

Lemma convInv_step m f P st r news h :
  wfBody (m_next m) (fn_blocks f) ->
  Forall (fun g => fn_id g < m_next m) (m_functions m) ->
  In h (ids (fn_blocks f)) -> ~ In h P ->
  convInv m f P st r news ->
  exists st' r' news',
    extractStep f (Some st) h = Some st'
    /\ convInv m f (P ++ [h]) st' r' news'.
Proof.
  intros Hwf0 Hfs Hh HhP. destruct st as [[mk bs] del].
  intros (Hwf & Hn & Ht & Hf & Hnd & Hnews & HO & HN & HD & HR & HC).
  pose proof Hwf0 as [Hnd0 Hlt0]. pose proof Hwf as [Hndk Hltk].
  unfold ids in Hh. apply in_map_iff in Hh. destruct Hh as (j0 & Eh & Hj0).
  destruct (HO j0 Hj0) as (x & Hx & Exi & Exo & Ext & Exs).
  assert (Hhlt : h < m_next m).
  { rewrite Forall_forall in Hlt0. apply Hlt0. unfold ids. rewrite <- Eh.
    now apply in_map. }
  assert (Efind : findInst bs h = Some x).
  { destruct (findInst_exists bs h x Hx (eq_trans Exi Eh)) as (x' & Ex').
    rewrite Ex'. apply findInst_Some in Ex'. f_equal.
    apply (NoDup_ids_unique bs); try tauto. destruct Ex'. congruence. }
  assert (Huniq : forall j, In j (allInsts (fn_blocks f)) -> i_id j = h -> j = j0).
  { intros j Hj E. apply (NoDup_ids_unique (fn_blocks f)); auto. congruence. }
  assert (Hdel : ~ In h del).
  { intros Hin. apply HD in Hin. tauto. }
  assert (Hfsk : Forall (fun g => fn_id g < m_next mk) (m_functions mk)).
  { rewrite Hf. apply Forall_app. split.
    - eapply Forall_impl; [|exact Hfs]. simpl. intros. lia.
    - apply Forall_forall. intros s Hs. apply Hnews in Hs. lia. }
  unfold extractStep. rewrite Efind.
  rewrite (isConversion_same mk m x j0 Ht Exo).
  destruct (isConversion m j0) eqn:Ec.
  - (* a conversion *)
    destruct (isConversion_named _ _ Ec) as (p & Hp).
    rewrite Exo, Ext.
    fold (operand0 x).
    destruct (getFloatConversion_spec mk (i_op j0) p
                (getTypeV mk f bs (operand0 x)) (i_ty j0) Hp Hfsk)
      as (conv & mc & extra & -> & Hfc & Htc & Hnc & Hgc & Hcase).
    eexists. exists (fun k => redirect h (m_next mc) (r k)), (news ++ extra).
    split; [reflexivity|].
    set (ci := mkInstruction (m_next mc) Call (returnType (fn_type conv))
                 "" false [operand0 x; VConst (GFunction (fn_id conv))] []).
    assert (Exh : i_id x = h) by congruence. rewrite !Exh.
    change (i_id ci) with (m_next mc).
    assert (Eop0 : operand0 x = renameInstValue r (operand0 j0)).
    { unfold operand0. rewrite (Exs eq_refl).
      change (VConst (UndefValue VoidTy))
        with (renameInstValue r (VConst (UndefValue VoidTy))) at 1.
      apply map_nth. }
    assert (Hin_bs : In h (ids bs)).
    { unfold ids. rewrite <- Eh, <- Exi. now apply in_map. }
    assert (Hmem : forall y, In y (allInsts bs) \/ y = ci ->
              In (set_operands y (map (renameInstValue (redirect h (m_next mc)))
                                      (i_operands y)))
                 (allInsts (replaceInstUses h (m_next mc)
                              (insertBefore (Some h) ci bs)))).
    { intros y Hy. rewrite allInsts_replaceInstUses. apply in_map_iff.
      exists y. split; auto. destruct Hy as [Hy| ->].
      - now apply insertBefore_keeps.
      - apply insertBefore_new; auto. }
    unfold convInv. cbn [m_next set_next m_triple m_functions].
    split; [|split; [|split; [|split; [|split; [|split; [|split;
      [|split; [|split; [|split]]]]]]]]].
    + apply wfBody_replaceInstUses. apply wfBody_insertBefore; auto.
      eapply wfBody_mono; [|exact Hwf]. lia.
    + lia.
    + congruence.
    + now rewrite Hfc, Hf, app_assoc.
    + destruct Hcase as [[-> _]|(-> & Hnone & _ & _ & En & _)].
      * now rewrite app_nil_r.
      * rewrite map_app. cbn [map]. 
        unfold getFunction in Hnone. rewrite Hf, getFunction_app in Hnone.
        destruct (getFunction m _); [discriminate|].
        apply find_name_None in Hnone.
        apply NoDup_app; [auto|repeat constructor; simpl; tauto|].
        intros a Ha [<-|[]]. rewrite En in Ha. contradiction.
    + intros s Hs. apply in_app_or in Hs. destruct Hs as [Hs|Hs].
      * destruct (Hnews s Hs). split; auto. lia.
      * destruct Hcase as [[-> _]|(-> & Hnone & Hid & Hl & En & Ety & Eb)];
          [destruct Hs|]. destruct Hs as [<-|[]]. split; [lia|].
        unfold getFunction in Hnone. rewrite Hf, getFunction_app in Hnone.
        split; [|split; [auto|]].
        -- rewrite En. destruct (getFunction m _); [discriminate|reflexivity].
        -- exists (i_op j0), p. eauto 8.
    + intros j Hj. destruct (HO j Hj) as (j' & Hj' & Ei & Eo & Ety & Es).
      eexists. split; [apply Hmem; left; exact Hj'|]. cbn [i_id i_op i_ty i_operands set_operands].
      destruct j'; cbn in *. repeat split; auto.
      intros Hcj. rewrite (Es Hcj), map_map. apply map_ext.
      intros v. apply renameInstValue_compose.
    + intros y' Hy'. rewrite allInsts_replaceInstUses in Hy'.
      apply in_map_iff in Hy'. destruct Hy' as (y & <- & Hy).
      apply insertBefore_In in Hy. destruct Hy as [->|Hy].
      * right. split; [cbn; lia|]. now apply isConversion_call.
      * destruct (HN y Hy) as [(j & Hj & E)|[Hge Hc]].
        -- left. exists j. split; auto.
        -- right. split; [exact Hge|].
           rewrite <- Hc. apply isConversion_same; auto.
    + intros k. rewrite in_app_iff, HD, in_app_iff. split.
      * intros [[Hk Hj]|[<-|[]]]; [tauto|].
        split; [right; now left|]. exists j0. auto.
      * intros [[Hk|[<-|[]]] Hj]; [tauto|]. right. left. congruence.
    + intros k Hk. rewrite in_app_iff in Hk. rewrite HR by tauto.
      unfold redirect. destruct (k =? h) eqn:E; auto. apply Nat.eqb_eq in E.
      exfalso. apply Hk. right. left. congruence.
    + intros i Hi Hci HiP. apply in_app_or in HiP. destruct HiP as [HiP|[E|[]]].
      * destruct (HC i Hi Hci HiP)
          as (p1 & tin & conv1 & ci1 & Hp1 & Hg1 & Hst1 & Hin1 & Eid1 & Hge1 & Eop1 & Eops1).
        exists p1, tin, conv1. eexists. split; [exact Hp1|]. split.
        { unfold getFunction. cbn [m_functions set_next]. rewrite Hfc.
          change (find _ (m_functions mk ++ extra))
            with (find (fun f0 => String.eqb (fn_name f0) (converterName p1 tin (i_ty i)))
                       (m_functions mk ++ extra)).
          rewrite getFunction_app, Hg1. reflexivity. }
        split; [exact Hst1|]. split; [apply Hmem; left; exact Hin1|].
        cbn [i_id i_op i_operands set_operands].
        assert (Ene : r (i_id i) <> h) by (rewrite <- Eid1; lia).
        split. { unfold redirect. apply Nat.eqb_neq in Ene. rewrite Ene.
                 now destruct ci1. }
        split; [now destruct ci1|]. split; [now destruct ci1|].
        replace (i_operands (set_operands ci1 _)) with
          (map (renameInstValue (redirect h (m_next mc))) (i_operands ci1))
          by now destruct ci1.
        rewrite Eops1. cbn [map renameInstValue].
        now rewrite renameInstValue_compose.
      * assert (i = j0) by (apply Huniq; auto; congruence). subst i.
        exists p, (getTypeV mk f bs (operand0 x)), conv. eexists.
        split; [exact Hp|]. split; [exact Hgc|]. split.
        { intros Hst. rewrite Eop0.
          apply (stable_type m f mk bs r); auto.
          - intros j Hj. destruct (HO j Hj) as (j' & ? & ? & ? & ? & ?). eauto.
          - intros k j Hj Ek Hcj. apply HR. intros Hin. apply HD in Hin.
            destruct Hin as (_ & j1 & Hj1 & Ej1 & Hc1).
            rewrite (NoDup_ids_unique (fn_blocks f) j1 j Hnd0 Hj1 Hj) in Hc1
              by congruence. congruence. }
        split; [apply Hmem; right; reflexivity|].
        cbn [i_id i_op i_operands set_operands ci map renameInstValue].
        rewrite <- Eh, (HR (i_id j0)) by (rewrite Eh; exact Hdel).
        rewrite Eh. unfold redirect at 1. rewrite Nat.eqb_refl.
        split; [reflexivity|]. split; [lia|]. split; [reflexivity|].
        now rewrite Eop0, renameInstValue_compose.
  - (* another instruction: the constants of its operands *)
    pose proof (fold_extractOperand_changes h
                  (seq 0 (List.length (i_operands x))) (mk, bs)) as (F2 & N2 & [A2 B2]).
    pose proof (fold_extractOperand_wf h
                  (seq 0 (List.length (i_operands x))) (mk, bs) Hwf) as W2.
    pose proof (fold_extractOperand_triple h
                  (seq 0 (List.length (i_operands x))) (mk, bs)) as T2.
    destruct (fold_left _ _ _) as [m2 bs2]. cbn [fst snd] in *.
    eexists. exists r, news. split; [reflexivity|].
    unfold convInv.
    split; [exact W2|]. split; [lia|]. split; [congruence|].
    split; [congruence|]. split; [exact Hnd|]. split.
    { intros s Hs. destruct (Hnews s Hs). split; auto. lia. }
    split.
    { intros j Hj. destruct (HO j Hj) as (j' & Hj' & Ei & Eo & Ety & Es).
      destruct (A2 j' Hj') as (y & Hy & Ei2 & Eo2 & Et2 & Es2).
      exists y. repeat split; try congruence.
      intros Hcj. rewrite Es2; auto. intros E.
      rewrite (Huniq j Hj) in Hcj by congruence. congruence. }
    split.
    { intros y Hy. destruct (B2 y Hy) as [(y0 & Hy0 & Ei & Eo)|[Hge Hl]].
      - destruct (HN y0 Hy0) as [(j & Hj & E)|[Hge Hc]].
        + left. exists j. split; auto. congruence.
        + right. split; [lia|]. rewrite <- Hc. now apply isConversion_same.
      - right. split; [lia|]. now apply isConversion_load. }
    split.
    { intros k. rewrite HD, in_app_iff. split; [tauto|].
      intros [[Hk|[<-|[]]] (j & Hj & E & Hcj)]; [eauto|].
      rewrite (Huniq j Hj E) in Hcj. congruence. }
    split; [exact HR|].
    intros i Hi Hci HiP. apply in_app_or in HiP. destruct HiP as [HiP|[E|[]]].
    + destruct (HC i Hi Hci HiP)
        as (p1 & tin & conv1 & ci1 & Hp1 & Hg1 & Hst1 & Hin1 & Eid1 & Hge1 & Eop1 & Eops1).
      exists p1, tin, conv1, ci1. split; [exact Hp1|]. split.
      { unfold getFunction in *. now rewrite F2. }
      split; [exact Hst1|]. split; [|auto].
      destruct (A2 ci1 Hin1) as (y & Hy & _ & _ & _ & Es2).
      rewrite <- Es2 by lia. exact Hy.
    + rewrite (Huniq i Hi) in Hci by congruence. congruence.
Qed.

Local Transparent insertBefore.

Lemma converterName_opcode op1 op2 p1 p2 a b c d :
  conversionName op1 = Some p1 -> conversionName op2 = Some p2 ->
  converterName p1 a b = converterName p2 c d -> op1 = op2.
Proof.
  unfold conversionName, converterName.
  destruct op1; try discriminate; intros [= <-];
    destruct op2; try discriminate; intros [= <-]; simpl; intros E;
    try reflexivity; discriminate E.
Qed.

Lemma renameInstValue_id v : renameInstValue (fun h => h) v = v.
Proof. now destruct v. Qed.

Lemma convInv_init m f :
  wfBody (m_next m) (fn_blocks f) ->
  convInv m f [] (m, fn_blocks f, []) (fun h => h) [].
Proof.
  intros Hwf. unfold convInv. rewrite app_nil_r.
  split; [exact Hwf|]. split; [lia|]. split; [reflexivity|].
  split; [reflexivity|]. split; [constructor|]. split; [intros s []|].
  split.
  { intros j Hj. exists j. repeat split; auto. intros _.
    rewrite <- (map_id (i_operands j)) at 1. apply map_ext.
    intros v. symmetry. apply renameInstValue_id. }
  split; [intros j Hj; left; eauto|].
  split; [intros h; split; [intros []|intros [[] _]]|].
  split; [reflexivity|]. intros i _ _ [].
Qed.

Lemma convInv_fold m f :
  wfBody (m_next m) (fn_blocks f) ->
  Forall (fun g => fn_id g < m_next m) (m_functions m) ->
  forall l P st r news,
    NoDup (P ++ l) -> (forall h, In h l -> In h (ids (fn_blocks f))) ->
    convInv m f P st r news ->
    exists st' r' news',
      fold_left (extractStep f) l (Some st) = Some st'
      /\ convInv m f (P ++ l) st' r' news'.
Proof.
  intros Hwf Hfs. induction l as [|h l IH]; intros P st r news Hnd Hl Hinv.
  - rewrite app_nil_r. exists st, r, news. auto.
  - cbn [fold_left].
    destruct (convInv_step m f P st r news h Hwf Hfs) as (st1 & r1 & n1 & E1 & I1); auto.
    { apply Hl. now left. }
    { apply NoDup_remove_2 in Hnd. intros Hin. apply Hnd. apply in_or_app. now left. }
    rewrite E1. destruct (IH (P ++ [h]) st1 r1 n1) as (st2 & r2 & n2 & E2 & I2); auto.
    { now rewrite <- app_assoc. }
    { intros k Hk. apply Hl. now right. }
    exists st2, r2, n2. split; auto. now rewrite <- app_assoc in I2.
Qed.

Lemma find_name_update name (g : Function -> Function) l :
  (forall x, fn_name (g x) = fn_name x) ->
  find (fun f => String.eqb (fn_name f) name) (map g l)
  = option_map g (find (fun f => String.eqb (fn_name f) name) l).
Proof.
  intros Hg. induction l as [|x l IH]; simpl; auto. rewrite Hg.
  destruct (String.eqb (fn_name x) name); auto.
Qed.

Lemma lookupFunction_In m h g : lookupFunction m h = Some g ->
  In g (m_functions m) /\ fn_id g = h.
Proof.
  unfold lookupFunction. intros H. apply find_some in H.
  destruct H as [H E]. apply Nat.eqb_eq in E. auto.
Qed.

Lemma lookupFunction_app m fs h g :
  lookupFunction m h = Some g ->
  find (fun f => fn_id f =? h) (m_functions m ++ fs) = Some g.
Proof.
  unfold lookupFunction. induction (m_functions m) as [|x l IH]; simpl;
    [discriminate|]. destruct (fn_id x =? h); auto.
Qed.

(** What [extractFloatOperations] does with the conversions.  It returns;
    no conversion is left in the body; for every conversion of the body there is a call, of
    handle [r] of the conversion's, on the conversion's first operand (renamed
    by [r], which sends every conversion to its call), to the function of the
    module whose name is made of the opcode, the type of the operand when the
    conversion is visited and the type of the result.  When the module had no
    function of that name, the function is one that the pass created, with
    internal linkage and a body of a single conversion of that opcode and a
    return.  The functions created have names that differ from one another
    and from the names the module had. *)
Theorem conversions_become_calls (m : Module) (f : Function)
  (Hwf : wfBody (m_next m) (fn_blocks f))
  (Hfs : Forall (fun g => fn_id g < m_next m) (m_functions m))
  (Hf : lookupFunction m (fn_id f) = Some f) :
  exists m' (r : Handle -> Handle) news,
    extractFloatOperations m f = Some m'
    /\ m_functions m'
       = map (fun g => if fn_id g =? fn_id f
                       then set_blocks g (bodyOf m' (fn_id f)) else g)
             (m_functions m) ++ news
    /\ NoDup (map fn_name news)
    /\ (forall s, In s news -> m_next m <= fn_id s /\ isConverter m s)
    /\ (forall j, In j (allInsts (bodyOf m' (fn_id f))) ->
          isConversion m j = false)
    /\ (forall h, (forall i, In i (allInsts (fn_blocks f)) ->
                     isConversion m i = true -> i_id i <> h) -> r h = h)
    /\ forall i, In i (allInsts (fn_blocks f)) -> isConversion m i = true ->
         exists p tin conv ci,
           conversionName (i_op i) = Some p
           /\ getFunction m' (converterName p tin (i_ty i)) = Some conv
           /\ (stableOperand m (fn_blocks f) (operand0 i) ->
               tin = getTypeV m f (fn_blocks f) (operand0 i))
           /\ In ci (allInsts (bodyOf m' (fn_id f)))
           /\ i_id ci = r (i_id i) /\ m_next m <= i_id ci /\ i_op ci = Call
           /\ i_operands ci = [renameInstValue r (operand0 i);
                               VConst (GFunction (fn_id conv))]
           /\ (getFunction m (converterName p tin (i_ty i)) = None ->
               In conv news
               /\ fn_linkage conv = InternalLinkage
               /\ exists tin' tout' n,
                    converterName p tin' tout' = converterName p tin (i_ty i)
                    /\ fn_type conv = FunctionTy tout' [tin'] false
                    /\ fn_blocks conv
                       = converterBody (fn_id conv) n (i_op i) tout').
Proof.
  pose proof Hwf as [Hnd0 Hlt0].
  destruct (convInv_fold m f Hwf Hfs (ids (fn_blocks f)) [] (m, fn_blocks f, [])
              (fun h => h) []) as ([[mk bs] del] & r & news & Efold & Hinv); auto.
  { now apply convInv_init. }
  cbn [app] in Hinv.
  destruct Hinv as (Hwfk & Hn & Ht & Hfk & Hnd & Hnews & HO & HN & HD & HR & HC).
  pose proof Hwfk as [Hndk Hltk].
  set (body := eraseInsts del bs).
  set (m' := updateFunction mk (fn_id f) (fun g => set_blocks g body)).
  assert (Elook : lookupFunction mk (fn_id f) = Some f).
  { unfold lookupFunction. rewrite Hfk. now apply lookupFunction_app. }
  assert (Ebody : bodyOf m' (fn_id f) = body).
  { unfold bodyOf, m'. rewrite lookupFunction_updateFunction by reflexivity.
    rewrite Nat.eqb_refl, Elook. reflexivity. }
  assert (Hflt : fn_id f < m_next m).
  { apply lookupFunction_In in Hf. destruct Hf as [Hin _].
    rewrite Forall_forall in Hfs. now apply Hfs. }
  assert (Hkeep : forall s, In s news ->
            (if fn_id s =? fn_id f then set_blocks s body else s) = s).
  { intros s Hs. destruct (fn_id s =? fn_id f) eqn:E; auto.
    apply Nat.eqb_eq in E. apply Hnews in Hs. lia. }
  assert (Hdelold : forall h, In h del -> h < m_next m).
  { intros h Hh. apply HD in Hh. destruct Hh as (_ & j & Hj & <- & _).
    rewrite Forall_forall in Hlt0. apply Hlt0. unfold ids. now apply in_map. }
  assert (Hsurv : forall y, In y (allInsts bs) -> ~ In (i_id y) del ->
            In y (allInsts body)).
  { intros y Hy Hny. unfold body. rewrite allInsts_eraseInsts.
    apply filter_In. split; auto. apply negb_true_iff.
    destruct (existsb (Nat.eqb (i_id y)) del) eqn:E; auto.
    apply existsb_exists in E. destruct E as (k & Hk & E).
    apply Nat.eqb_eq in E. subst k. contradiction. }
  exists m', r, news. unfold extractFloatOperations. unfold ids in Efold.
  rewrite Efold.
  split; [reflexivity|]. rewrite Ebody.
  split.
  { unfold m', updateFunction. cbn [m_functions set_functions].
    rewrite Hfk, map_app. f_equal.
    rewrite <- (map_id news) at 2. apply map_ext_in. exact Hkeep. }
  split; [exact Hnd|]. split.
  { intros s Hs. destruct (Hnews s Hs). split; auto. lia. }
  split.
  { intros y Hy. unfold body in Hy. rewrite allInsts_eraseInsts in Hy.
    apply filter_In in Hy. destruct Hy as [Hy Hk].
    destruct (HN y Hy) as [(j & Hj & E)|[_ Hc]]; auto.
    destruct (isConversion m y) eqn:Ec; auto. exfalso.
    destruct (HO j Hj) as (j' & Hj' & Ei & Eo & _).
    assert (j' = y) by (apply (NoDup_ids_unique bs); auto; congruence). subst j'.
    assert (Hin : In (i_id y) del).
    { apply HD. split.
      - unfold ids. rewrite <- E. now apply in_map.
      - exists j. repeat split; auto. rewrite <- Ec.
        now apply isConversion_same. }
    apply negb_true_iff in Hk.
    assert (existsb (Nat.eqb (i_id y)) del = true); [|congruence].
    apply existsb_exists. exists (i_id y). split; auto. apply Nat.eqb_refl. }
  split.
  { intros h Hh. apply HR. intros Hin. apply HD in Hin.
    destruct Hin as (_ & j & Hj & E & Hc). exact (Hh j Hj Hc E). }
  intros i Hi Hci.
  destruct (HC i Hi Hci) as (p & tin & conv & ci & Hp & Hg & Hst & Hin & Eid & Hge & Eop & Eops).
  { unfold ids. now apply in_map. }
  exists p, tin, (if fn_id conv =? fn_id f then set_blocks conv body else conv), ci.
  split; [exact Hp|]. split.
  { unfold getFunction, m', updateFunction. cbn [m_functions set_functions].
    rewrite find_name_update by (intros x; now destruct (fn_id x =? fn_id f)).
    fold (getFunction mk (converterName p tin (i_ty i))). now rewrite Hg. }
  split; [exact Hst|]. split.
  { apply Hsurv; auto. intros Hd. apply Hdelold in Hd. lia. }
  split; [exact Eid|]. split; [exact Hge|]. split; [exact Eop|]. split.
  { rewrite Eops. now destruct (fn_id conv =? fn_id f). }
  intros Hnone. unfold getFunction in Hg. rewrite Hfk, getFunction_app, Hnone in Hg.
  apply find_some in Hg. destruct Hg as [Hcn En]. apply String.eqb_eq in En.
  rewrite (Hkeep conv Hcn). split; [exact Hcn|].
  destruct (Hnews conv Hcn) as (_ & _ & Hl & op & p' & tin' & tout' & n & Hp' & En' & Ety & Eb).
  split; [exact Hl|]. 
  assert (op = i_op i).
  { apply (converterName_opcode op (i_op i) p' p tin' tout' tin (i_ty i)); auto.
    congruence. }
  subst op. assert (p' = p) by congruence. subst p'.
  exists tin', tout', n. repeat split; auto. congruence.
Qed.

(** C9.  [getFloatConversion] is documented to return a function that
    performs the conversion; it returns whatever function the module has
    under the converter's name.  In [example_clash] the module has a
    declaration of that name: the conversion is replaced by a call to it,
    and no call of the body goes to a function whose body is the conversion
    and a return. *)
Lemma named_function_is_reused :
  exists m',
    extractFloatOperations example_clash example_convert = Some m'
    /\ (exists ci,
          In ci (allInsts (bodyOf m' 2)) /\ i_op ci = Call
          /\ i_operands ci = [VArg 2 0; VConst (GFunction 1)]
          /\ getFunction m' (converterName "sitofp" (IntegerTy 32) DoubleTy)
             = Some example_named)
    /\ ~ (exists ci conv n,
            In ci (allInsts (bodyOf m' 2)) /\ i_op ci = Call
            /\ In (VConst (GFunction (fn_id conv))) (i_operands ci)
            /\ In conv (m_functions m')
            /\ fn_blocks conv = converterBody (fn_id conv) n SIToFP DoubleTy).
Proof.
  eexists. split; [vm_compute; reflexivity|]. split.
  - eexists. split; [left; reflexivity|]. repeat split.
  - intros (ci & conv & n & Hci & Hop & Harg & Hconv & Hb).
    simpl in Hconv. destruct Hconv as [<-|[<-|[]]]; discriminate Hb.
Qed.

Lemma example_convert_wf : wfBody 6 (fn_blocks example_convert).
Proof.
  split.
  - simpl. repeat constructor; simpl; intuition discriminate.
  - repeat constructor; simpl; lia.
Defined.

Lemma conversions_become_calls_witness :
  wfBody (m_next example_plain) (fn_blocks example_convert)
  /\ Forall (fun g => fn_id g < m_next example_plain) (m_functions example_plain)
  /\ lookupFunction example_plain (fn_id example_convert) = Some example_convert
  /\ exists m',
       extractFloatOperations example_plain example_convert = Some m'
       /\ forall j, In j (allInsts (bodyOf m' (fn_id example_convert))) ->
                    isConversion example_plain j = false.
Proof.
  assert (Hfs : Forall (fun g => fn_id g < m_next example_plain)
                  (m_functions example_plain))
    by (repeat constructor; simpl; lia).
  split; [exact example_convert_wf|]. split; [exact Hfs|].
  split; [reflexivity|].
  destruct (conversions_become_calls example_plain example_convert
              example_convert_wf Hfs eq_refl)
    as (m' & r & news & Hrun & _ & _ & _ & Hgone & _).
  exists m'. split; [exact Hrun|exact Hgone].
Defined.

(** ** How the lists of a module evolve through the pass *)

Section EvolutionFacts.
Context {A : Type}.
Variable ident : A -> nat.
Variable label : A -> string.
Variable same : A -> A -> Prop.
Variable U : A -> Prop.
Variable N : string -> Prop.
Hypothesis same_refl : forall x, same x x.
Hypothesis same_trans : forall x y z, same x y -> same y z -> same x z.
Hypothesis same_ident : forall x y, same x y -> ident y = ident x.
Hypothesis same_label : forall x y, same x y -> label y = label x.

Lemma evolvesL_refl lo hi l : evolvesL ident label same U N lo hi l l.
Proof. split; intros x Hx; [exists x; auto|left; exists x; auto]. Qed.

Lemma evolvesL_trans lo mid hi l1 l2 l3 :
  lo <= mid -> mid <= hi ->
  evolvesL ident label same U N lo mid l1 l2 ->
  evolvesL ident label same U N mid hi l2 l3 ->
  evolvesL ident label same U N lo hi l1 l3.
Proof.
  intros H1 H2 [A1 B1] [A2 B2]. split.
  - intros x Hx. destruct (A1 x Hx) as (y & Hy & Sy & Ey).
    destruct (A2 y Hy) as (z & Hz & Sz & Ez).
    exists z. split; auto. split; [eauto|].
    intros Hu. pose proof (Ey Hu). subst y. now apply Ez.
  - intros z Hz. destruct (B2 z Hz) as [(y & Hy & Sy & Ey)|[Hr Hn]].
    + destruct (B1 y Hy) as [(x & Hx & Sx & Ex)|[Hr Hn]].
      * left. exists x. split; auto. split; [eauto|].
        intros Hu. pose proof (Ex Hu). subst y. now apply Ey.
      * right. rewrite (same_ident _ _ Sy), (same_label _ _ Sy). split; [lia|auto].
    + right. split; [lia|auto].
Qed.

Lemma evolvesL_map lo hi l (v : A -> A) :
  (forall x, In x l -> same x (v x) /\ (~ U x -> v x = x)) ->
  evolvesL ident label same U N lo hi l (map v l).
Proof.
  intros Hv. split.
  - intros x Hx. exists (v x). split; [now apply in_map|]. now apply Hv.
  - intros x' Hx'. apply in_map_iff in Hx'. destruct Hx' as (x & <- & Hx).
    left. exists x. split; [exact Hx|now apply Hv].
Qed.

Lemma evolvesL_members lo hi l l' extra :
  (forall y, In y l' <-> In y l \/ In y extra) ->
  (forall x, In x extra -> lo <= ident x < hi /\ N (label x)) ->
  evolvesL ident label same U N lo hi l l'.
Proof.
  intros Hm He. split.
  - intros x Hx. exists x. split; [apply Hm; now left|auto].
  - intros x Hx. apply Hm in Hx. destruct Hx as [Hx|Hx].
    + left. exists x. auto.
    + right. now apply He.
Qed.
End EvolutionFacts.

Lemma sameFunction_refl f : sameFunction f f.
Proof. now split. Qed.

Lemma sameFunction_trans f g h :
  sameFunction f g -> sameFunction g h -> sameFunction f h.
Proof. unfold sameFunction. intuition congruence. Qed.

Lemma sameGlobal_refl g : sameGlobal g g.
Proof. now repeat split. Qed.

Lemma sameGlobal_trans f g h :
  sameGlobal f g -> sameGlobal g h -> sameGlobal f h.
Proof. unfold sameGlobal. intuition congruence. Qed.

Lemma in_insertAfterIn h x l y :
  In y (insertAfterIn h x l) -> In y l \/ y = x.
Proof.
  induction l as [|f l IH]; simpl; auto.
  destruct (fn_id f =? h); simpl; intuition.
Qed.

Lemma insertAfterIn_keeps h x l y : In y l -> In y (insertAfterIn h x l).
Proof.
  induction l as [|f l IH]; simpl; auto.
  destruct (fn_id f =? h); simpl; intuition.
Qed.

Lemma insertAfterIn_followedBy h x l h0 d :
  h0 <> h -> followedBy h0 d l -> followedBy h0 d (insertAfterIn h x l).
Proof.
  intros Hne (l1 & g & l2 & -> & Eg). revert Hne Eg.
  induction l1 as [|a l1 IH]; intros Hne Eg; simpl.
  - assert (E : (fn_id g =? h) = false) by (apply Nat.eqb_neq; congruence).
    rewrite E. destruct (fn_id d =? h).
    + exists [], g, (x :: l2). auto.
    + exists [], g, (insertAfterIn h x l2). auto.
  - destruct (fn_id a =? h).
    + exists (a :: x :: l1), g, l2. auto.
    + destruct (IH Hne Eg) as (k1 & g' & k2 & E & Eg').
      exists (a :: k1), g', k2. simpl. now rewrite E.
Qed.

Lemma insertAfterIn_here h x l g :
  In g l -> fn_id g = h -> exists g', fn_id g' = h /\ followedBy h x (insertAfterIn h x l).
Proof.
  induction l as [|a l IH]; simpl; [tauto|]. intros Hin Eg.
  destruct (fn_id a =? h) eqn:E.
  - apply Nat.eqb_eq in E. exists a. split; auto. exists [], a, l. auto.
  - destruct Hin as [->|Hin]; [apply Nat.eqb_neq in E; congruence|].
    destruct (IH Hin Eg) as (g' & Eg' & k1 & y & k2 & Ek & Ey).
    exists g'. split; auto. exists (a :: k1), y, k2. simpl. now rewrite Ek.
Qed.

Lemma map_followedBy (v : Function -> Function) l h d :
  (forall f, fn_id (v f) = fn_id f) -> v d = d ->
  followedBy h d l -> followedBy h d (map v l).
Proof.
  intros Hv Hd (l1 & g & l2 & -> & Eg).
  exists (map v l1), (v g), (map v l2).
  rewrite map_app. simpl. rewrite Hd, Hv. auto.
Qed.

Lemma app_followedBy l extra h d :
  followedBy h d l -> followedBy h d (l ++ extra).
Proof.
  intros (l1 & g & l2 & -> & Eg). exists l1, g, (l2 ++ extra).
  rewrite <- app_assoc. auto.
Qed.

Section FunctionSteps.
Variable U : Function -> Prop.
Variable I : Handle -> Prop.
Variable N : string -> Prop.

Lemma fevolves_refl m : fevolves U I N m m.
Proof.
  split; [lia|]. split; [apply evolvesL_refl, sameFunction_refl|auto].
Qed.

Lemma fevolves_trans m1 m2 m3 :
  fevolves U I N m1 m2 -> fevolves U I N m2 m3 -> fevolves U I N m1 m3.
Proof.
  intros (N1 & E1 & F1) (N2 & E2 & F2). split; [lia|]. split.
  - eapply (evolvesL_trans fn_id fn_name sameFunction); eauto.
    + apply sameFunction_trans.
    + now intros x y [? ?].
    + now intros x y [? ?].
  - intros h d Hf Hi Hu. apply F2; auto.
Qed.

Lemma fevolves_same m m' :
  m_functions m' = m_functions m -> m_next m <= m_next m' ->
  fevolves U I N m m'.
Proof.
  intros E Hn. split; [auto|]. rewrite E.
  split; [apply evolvesL_refl, sameFunction_refl|auto].
Qed.

Lemma fevolves_map m m' v :
  m_functions m' = map v (m_functions m) ->
  (forall f, sameFunction f (v f)) ->
  (forall f, In f (m_functions m) -> ~ U f -> v f = f) ->
  m_next m <= m_next m' ->
  fevolves U I N m m'.
Proof.
  intros E Hs Hu Hn. split; [auto|]. rewrite E. split.
  - apply evolvesL_map. intros x Hx. split; auto.
  - intros h d Hf Hi Hd. apply map_followedBy; auto.
    + intros f. apply Hs.
    + apply Hu; auto. destruct Hf as (l1 & g & l2 & -> & _).
      apply in_or_app. right. right. now left.
Qed.

Lemma fevolves_update m m' h u :
  m_functions m' = m_functions (updateFunction m h u) ->
  (forall f, sameFunction f (u f)) ->
  (forall f, In f (m_functions m) -> fn_id f = h -> U f) ->
  m_next m <= m_next m' ->
  fevolves U I N m m'.
Proof.
  intros E Hs Hu Hn.
  apply (fevolves_map m m' (fun f => if fn_id f =? h then u f else f)); auto.
  - intros f. destruct (fn_id f =? h); [apply Hs|apply sameFunction_refl].
  - intros f Hf Hnu. destruct (fn_id f =? h) eqn:Eh; auto.
    apply Nat.eqb_eq in Eh. exfalso. auto.
Qed.

Lemma fevolves_app m m' extra :
  m_functions m' = m_functions m ++ extra ->
  (forall x, In x extra -> m_next m <= fn_id x < m_next m' /\ N (fn_name x)) ->
  m_next m <= m_next m' ->
  fevolves U I N m m'.
Proof.
  intros E He Hn. split; [auto|]. rewrite E. split.
  - eapply evolvesL_members; [apply sameFunction_refl| |exact He].
    intros y. apply in_app_iff.
  - intros h d Hf _ _. now apply app_followedBy.
Qed.

Lemma fevolves_insert m m' h x :
  m_functions m' = insertAfterIn h x (m_functions m) ->
  I h -> m_next m <= fn_id x < m_next m' -> N (fn_name x) ->
  fevolves U I N m m'.
Proof.
  intros E Hi Hx Hn. split; [lia|]. rewrite E. split.
  - split.
    + intros y Hy. exists y. split; [now apply insertAfterIn_keeps|].
      split; [apply sameFunction_refl|auto].
    + intros y Hy. apply in_insertAfterIn in Hy. destruct Hy as [Hy| ->].
      * left. exists y. split; auto. split; [apply sameFunction_refl|auto].
      * right. auto.
  - intros h0 d Hf Hni _. apply insertAfterIn_followedBy; auto.
    intros ->. contradiction.
Qed.

Lemma fevolves_createFunction m t l name :
  N name -> fevolves U I N m (snd (createFunction m t l name)).
Proof.
  intros Hn. eapply fevolves_app with (extra := [_]); [reflexivity| |simpl; lia].
  intros x [<-|[]]. simpl. split; [lia|auto].
Qed.
End FunctionSteps.

Section GlobalSteps.
Variable U : GlobalVariable -> Prop.
Variable N : string -> Prop.

Lemma gevolves_refl m : gevolves U N m m.
Proof. split; [lia|apply evolvesL_refl, sameGlobal_refl]. Qed.

Lemma gevolves_trans m1 m2 m3 :
  gevolves U N m1 m2 -> gevolves U N m2 m3 -> gevolves U N m1 m3.
Proof.
  intros (N1 & E1) (N2 & E2). split; [lia|].
  eapply (evolvesL_trans gv_id gv_name sameGlobal); eauto.
  - apply sameGlobal_trans.
  - now intros x y (? & ? & ?).
  - now intros x y (? & ? & ?).
Qed.

Lemma gevolves_same m m' :
  m_globals m' = m_globals m -> m_next m <= m_next m' -> gevolves U N m m'.
Proof.
  intros E Hn. split; [auto|]. rewrite E. apply evolvesL_refl, sameGlobal_refl.
Qed.

Lemma gevolves_map m m' v :
  m_globals m' = map v (m_globals m) ->
  (forall g, sameGlobal g (v g)) ->
  (forall g, In g (m_globals m) -> ~ U g -> v g = g) ->
  m_next m <= m_next m' ->
  gevolves U N m m'.
Proof.
  intros E Hs Hu Hn. split; [auto|]. rewrite E.
  apply evolvesL_map. intros x Hx. split; auto.
Qed.

Lemma gevolves_app m m' extra :
  m_globals m' = m_globals m ++ extra ->
  (forall x, In x extra -> m_next m <= gv_id x < m_next m' /\ N (gv_name x)) ->
  m_next m <= m_next m' ->
  gevolves U N m m'.
Proof.
  intros E He Hn. split; [auto|]. rewrite E.
  eapply evolvesL_members; [apply sameGlobal_refl| |exact He].
  intros y. apply in_app_iff.
Qed.
End GlobalSteps.

Lemma notMain_dummy x : notMain ("stabilizer.dummy." +++ x).
Proof. unfold notMain. simpl. discriminate. Qed.

Lemma notMain_converter op p tin tout :
  conversionName op = Some p -> notMain (converterName p tin tout).
Proof.
  unfold conversionName, converterName, notMain.
  destruct op; try discriminate; intros [= <-]; simpl; discriminate.
Qed.

Lemma suffix_differs (suffix target : string) :
  (forall k, substring k (String.length suffix) target <> suffix
             \/ String.length target <> k + String.length suffix) ->
  forall x, x +++ suffix <> target.
Proof.
  intros H x E. destruct (H (String.length x)) as [Hs|Hl].
  - apply Hs. rewrite <- E. clear. induction x as [|a x IH]; simpl.
    + induction suffix as [|b s IHs]; simpl; auto. now rewrite IHs at 1.
    + exact IH.
  - apply Hl. rewrite <- E. clear. induction x as [|a x IH]; simpl; auto.
Qed.

Lemma notCtorTable_stack_pad x : notCtorTable (x +++ ".stack_pad").
Proof.
  apply suffix_differs. intros k.
  destruct (Nat.eq_dec k 7) as [->|Hk]; [left; simpl; discriminate|right; simpl; lia].
Qed.

Lemma notCtorTable_relocation_table x :
  notCtorTable (x +++ ".relocation_table").
Proof.
  apply suffix_differs. intros k.
  destruct (Nat.eq_dec k 0) as [->|Hk]; [left; simpl; discriminate|right; simpl; lia].
Qed.

Section Phases.
Variable U : Function -> Prop.
Variable I : Handle -> Prop.
Variable UG : GlobalVariable -> Prop.

Abbreviation steps := (evolves U I UG).

Lemma steps_refl m : steps m m.
Proof. split; [apply fevolves_refl|apply gevolves_refl]. Qed.

Lemma steps_trans m1 m2 m3 : steps m1 m2 -> steps m2 m3 -> steps m1 m3.
Proof.
  intros [F1 G1] [F2 G2].
  split; [eapply fevolves_trans|eapply gevolves_trans]; eauto.
Qed.

Lemma steps_next m m' : steps m m' -> m_next m <= m_next m'.
Proof. now intros [[H _] _]. Qed.

Lemma steps_same m m' :
  m_functions m' = m_functions m -> m_globals m' = m_globals m ->
  m_next m <= m_next m' -> steps m m'.
Proof. split; [now apply fevolves_same|now apply gevolves_same]. Qed.

Lemma steps_update m m' h u :
  m_functions m' = m_functions (updateFunction m h u) ->
  m_globals m' = m_globals m -> m_next m <= m_next m' ->
  (forall f, sameFunction f (u f)) ->
  (forall f, fn_id f = h -> U f) ->
  steps m m'.
Proof.
  intros Ef Eg Hn Hs Hu.
  split; [eapply fevolves_update; eauto|now apply gevolves_same].
Qed.

Lemma steps_function m m' x :
  m_functions m' = m_functions m ++ [x] -> m_globals m' = m_globals m ->
  m_next m <= fn_id x < m_next m' -> notMain (fn_name x) ->
  steps m m'.
Proof.
  intros Ef Eg Hn Hx. split; [|apply gevolves_same; auto; lia].
  eapply fevolves_app; [exact Ef| |lia]. intros y [<-|[]]. auto.
Qed.

Lemma steps_global m m' g :
  m_globals m' = m_globals m ++ [g] -> m_functions m' = m_functions m ->
  m_next m <= gv_id g < m_next m' -> notCtorTable (gv_name g) ->
  steps m m'.
Proof.
  intros Eg Ef Hn Hx. split; [apply fevolves_same; auto; lia|].
  eapply gevolves_app; [exact Eg| |lia]. intros y [<-|[]]. auto.
Qed.

Lemma steps_insert m m' h x :
  m_functions m' = insertAfterIn h x (m_functions m) ->
  m_globals m' = m_globals m ->
  I h -> m_next m <= fn_id x < m_next m' -> notMain (fn_name x) ->
  steps m m'.
Proof.
  intros Ef Eg Hi Hn Hx. split; [|apply gevolves_same; auto; lia].
  eapply fevolves_insert; eauto.
Qed.

Lemma getOrInsertFunction_steps m name t :
  notMain name -> steps m (snd (getOrInsertFunction m name t)).
Proof.
  intros Hn. unfold getOrInsertFunction.
  destruct (getFunction m name); [apply steps_refl|].
  eapply steps_function; simpl; eauto; lia.
Qed.

(** *** Float extraction *)

Lemma extractOperand_steps h st k : steps (fst st) (fst (extractOperand h st k)).
Proof.
  destruct st as [m bs]. unfold extractOperand. cbn [fst].
  destruct (findInst bs h); [|apply steps_refl].
  destruct (nth_error _ k) as [[]|]; try apply steps_refl.
  destruct (containsConstantFloat c); [|apply steps_refl].
  cbn [fst]. eapply steps_global; simpl; eauto; try lia. discriminate.
Qed.

Lemma fold_extractOperand_steps h l : forall st,
  steps (fst st) (fst (fold_left (extractOperand h) l st)).
Proof.
  induction l as [|k l IH]; intros st; cbn [fold_left]; [apply steps_refl|].
  eapply steps_trans; [apply extractOperand_steps|apply IH].
Qed.

Lemma getFloatConversion_steps m op tin tout conv m' :
  (forall f, m_next m <= fn_id f -> U f) ->
  getFloatConversion m op tin tout = Some (conv, m') -> steps m m'.
Proof.
  intros Hnew. unfold getFloatConversion.
  destruct (conversionName op) as [p|] eqn:Ep; [|discriminate].
  destruct (getFunction m _); intros [= <- <-]; [apply steps_refl|].
  eapply steps_trans.
  - eapply (steps_function m (snd (createFunction m (FunctionTy tout [tin] false)
                InternalLinkage (converterName p tin tout)))); simpl; eauto;
      try lia.
    eapply notMain_converter; eauto.
  - cbn [snd createFunction fn_id m_next]. eapply steps_update.
    + reflexivity.
    + reflexivity.
    + simpl. lia.
    + intros f. now split.
    + intros f Ef. apply Hnew. lia.
Qed.

Lemma extractStep_steps f m bs del h m' bs' del' :
  (forall f, m_next m <= fn_id f -> U f) ->
  extractStep f (Some (m, bs, del)) h = Some (m', bs', del') -> steps m m'.
Proof.
  intros Hnew. unfold extractStep. destruct (findInst bs h) as [i|].
  - destruct (isConversion m i).
    + destruct (getFloatConversion _ _ _ _) as [[g mc]|] eqn:Eg; [|discriminate].
      intros [= <- <- <-]. eapply steps_trans.
      * eapply getFloatConversion_steps; eauto.
      * apply steps_same; simpl; auto.
    + pose proof (fold_extractOperand_steps h (seq 0 (List.length (i_operands i)))
                    (m, bs)) as Hs.
      destruct (fold_left _ _ _) as [m2 bs2]. intros [= <- <- <-]. exact Hs.
  - intros [= <- <- <-]. apply steps_refl.
Qed.

Lemma fold_extractStep_steps f l : forall m bs del m' bs' del',
  (forall f, m_next m <= fn_id f -> U f) ->
  fold_left (extractStep f) l (Some (m, bs, del)) = Some (m', bs', del') ->
  steps m m'.
Proof.
  induction l as [|h l IH]; intros m bs del m' bs' del' Hnew; cbn [fold_left].
  - intros [= <- <- <-]. apply steps_refl.
  - destruct (extractStep_total f m bs del h) as (m1 & bs1 & del1 & E & _).
    rewrite E. intros E2.
    pose proof (extractStep_steps _ _ _ _ _ _ _ _ Hnew E) as S1.
    eapply steps_trans; [exact S1|]. eapply IH; [|exact E2].
    intros g Hg. apply Hnew. apply steps_next in S1. lia.
Qed.

Lemma extractFloatOperations_steps m f m' :
  (forall g, m_next m <= fn_id g -> U g) ->
  (forall g, fn_id g = fn_id f -> U g) ->
  extractFloatOperations m f = Some m' -> steps m m'.
Proof.
  intros Hnew Hf. unfold extractFloatOperations.
  destruct (fold_left _ _ _) as [[[m1 bs1] del1]|] eqn:E; [|discriminate].
  intros [= <-]. eapply steps_trans.
  - eapply fold_extractStep_steps; eauto.
  - eapply steps_update; try reflexivity; auto. intros g. now split.
Qed.

(** *** Code randomization *)

Lemma sentinelStage_steps m f :
  I (fn_id f) -> (forall g, fn_id g = fn_id f -> U g) ->
  steps m (sentinelStage m f).
Proof.
  intros Hi Hu. unfold sentinelStage.
  eapply steps_trans; [|eapply steps_update; try reflexivity; auto].
  eapply steps_trans; [|eapply steps_update; try reflexivity; auto].
  eapply steps_trans; [|eapply steps_update; try reflexivity; auto].
  all: try (intros g; cbv beta;
            try destruct (Linkage_eq_dec (fn_linkage g) LinkOnceODRLinkage);
            now split).
  eapply steps_insert; try reflexivity; auto.
  - simpl. lia.
  - apply notMain_dummy.
Qed.

Lemma collect_steps addr ua m f m1 refs :
  I (fn_id f) -> (forall g, fn_id g = fn_id f -> U g) ->
  (forall g, m_next m <= fn_id g -> U g) ->
  collect addr ua m f = Some (m1, refs) -> steps m m1.
Proof.
  intros Hi Hu Hnew. unfold collect.
  destruct (extractFloatOperations _ _) as [m2|] eqn:E; [|discriminate].
  intros [= <- _]. pose proof (sentinelStage_steps m f Hi Hu) as S1.
  eapply steps_trans; [exact S1|].
  eapply extractFloatOperations_steps; eauto.
  intros g Hg. apply Hnew. apply steps_next in S1. lia.
Qed.

Lemma fold_rewriteUse_next m ty base c ix us : forall st,
  fst st <= fst (fold_left (rewriteUse m ty base c ix) us st).
Proof.
  induction us as [|u us IH]; intros st; cbn [fold_left];
    [apply Nat.le_refl|].
  eapply Nat.le_trans; [|apply IH]. destruct st as [n bs].
  unfold rewriteUse. cbn [fst]. apply Nat.le_succ_diag_r.
Qed.

Lemma rewriteAll_next m ty base refs : forall ix st,
  fst st <= fst (rewriteAll m ty base refs ix st).
Proof.
  induction refs as [|[c us] refs IH]; intros ix st; cbn [rewriteAll];
    [apply Nat.le_refl|].
  eapply Nat.le_trans; [|apply IH]. apply fold_rewriteUse_next.
Qed.

Lemma randomizeCode_steps addr ua m f m' args :
  I (fn_id f) -> (forall g, fn_id g = fn_id f -> U g) ->
  (forall g, m_next m <= fn_id g -> U g) ->
  randomizeCode addr ua m f = Some (m', args) -> steps m m'.
Proof.
  intros Hi Hu Hnew. unfold randomizeCode.
  destruct (collect addr ua m f) as [[m1 refs]|] eqn:Ec; [|discriminate].
  pose proof (collect_steps _ _ _ _ _ _ Hi Hu Hnew Ec) as S1.
  destruct (0 <? List.length refs).
  - cbn [createGlobal].
    match goal with
    | |- context [rewriteAll ?a ?b ?c ?d ?e ?st] =>
        pose proof (rewriteAll_next a b c d e st) as Hn;
        destruct (rewriteAll a b c d e st) as [n bs]
    end.
    intros [= <- _]. cbn [fst m_next gv_id] in Hn.
    eapply steps_trans; [exact S1|].
    match goal with
    | |- steps _ (set_next (updateFunction ?mm _ _) _) =>
        apply (steps_trans _ mm)
    end.
    + eapply steps_global; try reflexivity.
      * simpl. lia.
      * apply notCtorTable_relocation_table.
    + eapply steps_update; try reflexivity; auto.
      intros g. now split.
  - intros [= <- _]. exact S1.
Qed.

Lemma randomizeCode_after_sentinel addr ua m f m' args :
  (forall g, fn_id g = fn_id f -> U g) ->
  (forall g, m_next (sentinelStage m f) <= fn_id g -> U g) ->
  randomizeCode addr ua m f = Some (m', args) ->
  steps (sentinelStage m f) m'.
Proof.
  intros Hu Hnew. unfold randomizeCode, collect.
  destruct (extractFloatOperations (sentinelStage m f) f) as [m1|] eqn:Ec;
    [|discriminate].
  pose proof (extractFloatOperations_steps _ _ _ Hnew Hu Ec) as S1.
  destruct (0 <? List.length _).
  - cbn [createGlobal].
    match goal with
    | |- context [rewriteAll ?a ?b ?c ?d ?e ?st] =>
        pose proof (rewriteAll_next a b c d e st) as Hn;
        destruct (rewriteAll a b c d e st) as [n bs]
    end.
    intros [= <- _]. cbn [fst m_next gv_id] in Hn.
    eapply steps_trans; [exact S1|].
    match goal with
    | |- steps _ (set_next (updateFunction ?mm _ _) _) =>
        apply (steps_trans _ mm)
    end.
    + eapply steps_global; try reflexivity.
      * simpl. lia.
      * apply notCtorTable_relocation_table.
    + eapply steps_update; try reflexivity; auto.
      intros g. now split.
  - intros [= <- _]. exact S1.
Qed.

Lemma emitCall_steps m fh block callee args :
  (forall g, fn_id g = fh -> U g) ->
  steps m (emitCall m fh block callee args).
Proof.
  intros Hu. eapply steps_update; try reflexivity; simpl; auto.
  intros g. now split.
Qed.

Lemma codeStep_steps addr ua rt pads ctor bb m fh :
  I fh -> (forall g, fn_id g = fh -> U g) ->
  (forall g, fn_id g = ctor -> U g) ->
  (forall g, m_next m <= fn_id g -> U g) ->
  exists m', codeStep addr ua rt pads ctor bb (Some m) fh = Some m'
             /\ steps m m'.
Proof.
  intros Hi Hu Hc Hnew. unfold codeStep.
  destruct (lookupFunction m fh) as [f|] eqn:El;
    [|exists m; split; [reflexivity|apply steps_refl]].
  apply lookupFunction_In in El. destruct El as [_ Eid]. subst fh.
  destruct (randomizeCode_total addr ua m f) as ([m1 args] & Er). rewrite Er.
  eexists. split; [reflexivity|].
  eapply steps_trans; [exact (randomizeCode_steps _ _ _ _ _ _ Hi Hu Hnew Er)|].
  apply emitCall_steps. exact Hc.
Qed.

Lemma fold_codeStep_steps addr ua rt pads ctor bb l : forall m,
  (forall h, In h l -> I h /\ forall g, fn_id g = h -> U g) ->
  (forall g, fn_id g = ctor -> U g) ->
  (forall g, m_next m <= fn_id g -> U g) ->
  exists m', fold_left (codeStep addr ua rt pads ctor bb) l (Some m) = Some m'
             /\ steps m m'.
Proof.
  induction l as [|h l IH]; intros m Hl Hc Hnew; cbn [fold_left].
  - exists m. split; [reflexivity|apply steps_refl].
  - destruct (codeStep_steps addr ua rt pads ctor bb m h) as (m1 & -> & S1); auto.
    + apply Hl. now left.
    + apply Hl. now left.
    + destruct (IH m1) as (m2 & E2 & S2); auto.
      * intros k Hk. apply Hl. now right.
      * intros g Hg. apply Hnew. apply steps_next in S1. lia.
      * exists m2. split; auto. eapply steps_trans; eauto.
Qed.

(** *** Stack randomization, the runtime functions, the heap *)

Lemma fold_padCallsite_next m pad ss sr cs : forall st,
  fst st <= fst (fold_left (padCallsite m pad ss sr) cs st).
Proof.
  induction cs as [|c cs IH]; intros st; cbn [fold_left];
    [apply Nat.le_refl|].
  eapply Nat.le_trans; [|apply IH]. destruct st as [n bs].
  unfold padCallsite. cbn [fst]. apply Nat.le_add_r.
Qed.

Lemma randomizeStack_steps m f pad :
  (forall g, fn_id g = fn_id f -> U g) ->
  steps m (randomizeStack m f pad).
Proof.
  intros Hu. unfold randomizeStack.
  pose proof (getOrInsertFunction_steps m "llvm.stacksave"
                (FunctionTy Int8PtrTy [] false)) as S1.
  destruct (getOrInsertFunction m "llvm.stacksave" _) as [ss m1].
  pose proof (getOrInsertFunction_steps m1 "llvm.stackrestore"
                (FunctionTy VoidTy [Int8PtrTy] false)) as S2.
  destruct (getOrInsertFunction m1 "llvm.stackrestore" _) as [sr m2].
  cbn [snd] in *.
  match goal with
  | |- context [fold_left ?step ?cs ?st] =>
      pose proof (fold_padCallsite_next m2 pad (fn_id ss) (fn_id sr) cs st) as Hn;
      destruct (fold_left step cs st) as [n bs]
  end.
  cbn [fst] in Hn.
  eapply steps_trans; [apply S1; discriminate|].
  eapply steps_trans; [apply S2; discriminate|].
  eapply steps_update; try reflexivity; auto. intros g. now split.
Qed.

Lemma stackStep_steps addr st fh :
  (forall g, fn_id g = fh -> U g) ->
  steps (snd st) (snd (stackStep addr st fh)).
Proof.
  intros Hu. destruct st as [pads m]. unfold stackStep. cbn [snd].
  destruct (lookupFunction m fh) as [f|] eqn:El; [|apply steps_refl].
  apply lookupFunction_In in El. destruct El as [_ <-].
  cbn [createGlobal snd gv_id].
  eapply steps_trans; [|apply randomizeStack_steps; exact Hu].
  eapply steps_global; try reflexivity.
  - simpl. lia.
  - apply notCtorTable_stack_pad.
Qed.

Lemma fold_stackStep_steps addr l : forall st,
  (forall h g, In h l -> fn_id g = h -> U g) ->
  steps (snd st) (snd (fold_left (stackStep addr) l st)).
Proof.
  induction l as [|h l IH]; intros st Hu; cbn [fold_left]; [apply steps_refl|].
  eapply steps_trans; [apply stackStep_steps|apply IH].
  - intros g. apply Hu. now left.
  - intros k g Hk. apply Hu. now right.
Qed.

Lemma declare_steps m t l name u :
  notMain name -> (forall f, sameFunction f (u f)) ->
  (forall g, m_next m <= fn_id g -> U g) ->
  steps m (updateFunction (snd (createFunction m t l name))
             (fn_id (fst (createFunction m t l name))) u).
Proof.
  intros Hn Hs Hnew. eapply steps_trans.
  - eapply (steps_function m (snd (createFunction m t l name)));
      try reflexivity; auto; simpl; lia.
  - eapply steps_update; try reflexivity; auto.
    intros g Hg. apply Hnew. simpl in Hg. lia.
Qed.

Lemma declareRuntimeFunctions_steps m :
  (forall g, m_next m <= fn_id g -> U g) ->
  steps m (snd (declareRuntimeFunctions m)).
Proof.
  intros Hnew. unfold declareRuntimeFunctions.
  match goal with
  | |- context [createFunction m ?t ?l ?n] =>
      pose proof (declare_steps m t l n (fun f => addFnAttr f NonLazyBind)) as S1;
      destruct (createFunction m t l n) as [rf m1]
  end.
  cbn [fst snd] in S1.
  set (m1' := updateFunction m1 (fn_id rf) (fun f => addFnAttr f NonLazyBind)) in *.
  match goal with
  | |- context [createFunction m1' ?t ?l ?n] =>
      pose proof (declare_steps m1' t l n (fun f => addFnAttr f NonLazyBind)) as S2;
      destruct (createFunction m1' t l n) as [rc m2]
  end.
  cbn [fst snd] in S2.
  set (m2' := updateFunction m2 (fn_id rc) (fun f => addFnAttr f NonLazyBind)) in *.
  match goal with
  | |- context [createFunction m2' ?t ?l ?n] =>
      pose proof (declare_steps m2' t l n (fun f => addFnAttr f NonLazyBind)) as S3;
      destruct (createFunction m2' t l n) as [rs m3]
  end.
  cbn [fst snd] in *.
  assert (H1 : steps m m1').
  { apply S1; auto; [discriminate|intros f; now split]. }
  assert (H2 : steps m1' m2').
  { apply S2; [discriminate|intros f; now split|].
    intros g Hg. apply Hnew. apply steps_next in H1. lia. }
  eapply steps_trans; [exact H1|]. eapply steps_trans; [exact H2|].
  apply S3; [discriminate|intros f; now split|].
  intros g Hg. apply Hnew. apply steps_next in H1, H2. lia.
Qed.

Lemma replaceAllUsesWith_steps m a b :
  (forall g, isDeclaration g = false -> U g) -> (forall g, UG g) ->
  steps m (replaceAllUsesWith m a b).
Proof.
  intros Hu Hg. split.
  - eapply fevolves_map; try reflexivity.
    + intros f. now split.
    + intros f _ Hnu. apply renameFunction_declaration.
      destruct (fn_blocks f) eqn:E; auto. exfalso. apply Hnu, Hu.
      unfold isDeclaration. now rewrite E.
  - eapply gevolves_map; try reflexivity.
    + intros g. now repeat split.
    + intros g _ Hnu. exfalso. auto.
Qed.

Lemma replaceAllocator_steps m fn name :
  notMain name ->
  (forall g, isDeclaration g = false -> U g) -> (forall g, UG g) ->
  steps m (replaceAllocator m fn name).
Proof.
  intros Hn Hu Hg. unfold replaceAllocator.
  destruct fn as [f|]; [|apply steps_refl].
  cbn [createFunction fn_id].
  eapply steps_trans; [|apply replaceAllUsesWith_steps; auto].
  eapply steps_function; try reflexivity; auto; simpl; lia.
Qed.

Lemma randomizeHeap_steps m :
  (forall g, isDeclaration g = false -> U g) -> (forall g, UG g) ->
  steps m (randomizeHeap m).
Proof.
  intros Hu Hg. unfold randomizeHeap.
  repeat (eapply steps_trans;
          [|apply replaceAllocator_steps; [discriminate|auto|auto]]).
  apply steps_refl.
Qed.

(** *** The calls of the constructor *)

Lemma fold_emitCall_steps {X : Type} ctor bb callee (mk : X -> list Value) l :
  (forall g, fn_id g = ctor -> U g) ->
  forall m,
    steps m (fold_left (fun m x => emitCall m ctor bb callee (mk x)) l m).
Proof.
  intros Hu. induction l as [|x l IH]; intros m; cbn [fold_left];
    [apply steps_refl|].
  eapply steps_trans; [apply emitCall_steps; exact Hu|apply IH].
Qed.

End Phases.

(** ** The pass as a whole *)

Section RunPhases.
Variable addr : Constant -> N.
Variable ua : Use -> N.
Variable opts : Options.
Variable U : Function -> Prop.
Variable I : Handle -> Prop.
Variable UG : GlobalVariable -> Prop.

Lemma stackPhase_steps locals m :
  (forall h g, In h locals -> fn_id g = h -> U g) ->
  evolves U I UG m (snd (stackPhase addr opts locals m)).
Proof.
  intros Hu. unfold stackPhase. destruct (stabilize_stack opts).
  - apply (fold_stackStep_steps U I UG addr locals ([], m)). exact Hu.
  - apply steps_refl.
Qed.

Lemma codePhase_steps rt pads ctor bb locals m :
  (forall h, In h locals -> I h /\ forall g, fn_id g = h -> U g) ->
  (forall g, fn_id g = ctor -> U g) ->
  (forall g, m_next m <= fn_id g -> U g) ->
  exists m', codePhase addr ua opts rt pads ctor bb locals m = Some m'
             /\ evolves U I UG m m'.
Proof.
  intros Hl Hc Hnew. unfold codePhase. destruct (stabilize_code opts).
  - now apply fold_codeStep_steps.
  - exists m. split; [reflexivity|apply steps_refl].
Qed.

Lemma registerPhase_steps rt pads old ctor bb m :
  (forall g, fn_id g = ctor -> U g) ->
  evolves U I UG m (registerPhase opts rt pads old ctor bb m).
Proof.
  intros Hc. unfold registerPhase.
  eapply steps_trans;
    [|eapply steps_update; try reflexivity; auto;
      first [now (intros g; split)|simpl; lia]].
  eapply steps_trans;
      [apply (fold_emitCall_steps U I UG ctor bb (registerConstructor rt)
                (fun x => [x])); exact Hc|].
  destruct (stabilize_stack opts && negb (stabilize_code opts)).
  - apply (fold_emitCall_steps U I UG ctor bb (registerStackPad rt)
             (fun p : Handle * Handle => [VConst (GVariable (snd p))])).
    exact Hc.
  - apply steps_refl.
Qed.
End RunPhases.

Lemma makeConstructor_functions m name ctor m' :
  makeConstructor m name = (ctor, m') ->
  ctor = mkFunction (m_next m) name (FunctionTy VoidTy [] false)
           InternalLinkage None [] []
  /\ m_functions m' = m_functions m ++ [ctor]
  /\ m_next m' = S (S (m_next m)).
Proof.
  unfold makeConstructor. cbn [createFunction createGlobal gv_id fn_id m_next].
  match goal with
  | |- context [getGlobalVariable ?mm "llvm.global_ctors" false] =>
      destruct (getGlobalVariable mm "llvm.global_ctors" false)
  end; intros [= <- <-]; repeat split.
Qed.

Lemma makeConstructor_fevolves U I m name ctor m' :
  notMain name -> makeConstructor m name = (ctor, m') ->
  fevolves U I notMain m m'.
Proof.
  intros Hn E. apply makeConstructor_functions in E.
  destruct E as (-> & Ef & En).
  eapply fevolves_app; [exact Ef| |lia].
  intros x [<-|[]]. simpl. split; [lia|auto].
Qed.

Section RunEquations.
Variable addr : Constant -> N.
Variable ua : Use -> N.
Variable opts : Options.

Lemma run_phases m :
  exists rt m2 pads m3 ctor m4 m6,
    declareRuntimeFunctions
      (if stabilize_heap opts then randomizeHeap m else m) = (rt, m2)
    /\ stackPhase addr opts
         (localFunctions addr
            (if stabilize_heap opts then randomizeHeap m else m)) m2
       = (pads, m3)
    /\ makeConstructor m3 "stabilizer.module_ctor" = (ctor, m4)
    /\ codePhase addr ua opts rt pads (fn_id ctor) (m_next m4)
         (localFunctions addr
            (if stabilize_heap opts then randomizeHeap m else m))
         (set_next
            (updateFunction m4 (fn_id ctor)
               (fun g => set_blocks g
                           (fn_blocks g ++ [mkBasicBlock (m_next m4) "" []])))
            (S (m_next m4)))
       = Some m6
    /\ run addr ua opts m
       = Some (renameMain
                 (registerPhase opts rt pads (getConstructors m3)
                    (fn_id ctor) (m_next m4) m6)).
Proof.
  unfold run.
  destruct (declareRuntimeFunctions _) as [rt m2] eqn:E2.
  destruct (stackPhase addr opts _ m2) as [pads m3] eqn:E3.
  destruct (makeConstructor m3 _) as [ctor m4] eqn:E4.
  match goal with
  | |- context [codePhase addr ua opts ?a ?b ?c ?d ?e ?mm] =>
      destruct (codePhase_steps addr ua opts (fun _ => True) (fun _ => True)
                  (fun _ => True) a b c d e mm) as (m6 & E6 & _);
        [intros; split; auto|auto|auto|]
  end.
  exists rt, m2, pads, m3, ctor, m4, m6. rewrite E6.
  repeat split; auto.
Qed.
End RunEquations.

Section RunTrace.
Variable addr : Constant -> N.
Variable ua : Use -> N.
Variable opts : Options.
Variable U : Function -> Prop.
Variable I : Handle -> Prop.
Variable UG : GlobalVariable -> Prop.

Lemma afterHeap_steps m :
  (forall g, isDeclaration g = false -> U g) -> (forall g, UG g) ->
  evolves U I UG m (afterHeap opts m).
Proof.
  intros Hu Hg. unfold afterHeap. destruct (stabilize_heap opts).
  - now apply randomizeHeap_steps.
  - apply steps_refl.
Qed.

Lemma prefix_steps m rt m2 pads m3 :
  declareRuntimeFunctions (afterHeap opts m) = (rt, m2) ->
  stackPhase addr opts (localFunctions addr (afterHeap opts m)) m2 = (pads, m3) ->
  (forall g, isDeclaration g = false -> U g) -> (forall g, UG g) ->
  (forall h g, In h (localFunctions addr (afterHeap opts m)) -> fn_id g = h -> U g) ->
  (forall g, m_next m <= fn_id g -> U g) ->
  evolves U I UG m m3.
Proof.
  intros E2 E3 Hu Hg Hl Hnew.
  pose proof (afterHeap_steps m Hu Hg) as S1.
  pose proof (declareRuntimeFunctions_steps U I UG (afterHeap opts m)) as S2.
  rewrite E2 in S2. cbn [snd] in S2.
  assert (S12 : evolves U I UG m m2).
  { eapply steps_trans; [exact S1|]. apply S2.
    intros g Hge. apply Hnew. apply steps_next in S1. lia. }
  pose proof (stackPhase_steps addr opts U I UG
                (localFunctions addr (afterHeap opts m)) m2) as S3.
  rewrite E3 in S3. cbn [snd] in S3.
  eapply steps_trans; [exact S12|]. apply S3. exact Hl.
Qed.

Lemma ctor_block_steps m4 ctor :
  (forall g, fn_id g = ctor -> U g) ->
  evolves U I UG m4
    (set_next (updateFunction m4 ctor
                 (fun g => set_blocks g
                             (fn_blocks g ++ [mkBasicBlock (m_next m4) "" []])))
              (S (m_next m4))).
Proof.
  intros Hc. eapply steps_update; try reflexivity; auto.
  - simpl. lia.
  - intros g. now split.
Qed.

Lemma run_trace m :
  (forall g, isDeclaration g = false -> U g) -> (forall g, UG g) ->
  (forall h, In h (localFunctions addr (afterHeap opts m)) ->
             I h /\ forall g, fn_id g = h -> U g) ->
  (forall g, m_next m <= fn_id g -> U g) ->
  exists m3 ctor m4 m7,
    makeConstructor m3 "stabilizer.module_ctor" = (ctor, m4)
    /\ run addr ua opts m = Some (renameMain m7)
    /\ evolves U I UG m m3
    /\ evolves U I (fun _ => False) m4 m7.
Proof.
  intros Hu Hg Hl Hnew.
  destruct (run_phases addr ua opts m)
    as (rt & m2 & pads & m3 & ctor & m4 & m6 & E2 & E3 & E4 & E6 & Erun).
  fold (afterHeap opts m) in E2, E3, E6.
  assert (S13 : evolves U I UG m m3).
  { apply (prefix_steps m rt m2 pads m3); auto.
    intros h g Hh Eg. now apply (Hl h Hh). }
  destruct (makeConstructor_functions _ _ _ _ E4) as (Ec & Ef4 & En4).
  assert (Hctor : forall g, fn_id g = fn_id ctor -> U g).
  { intros g Eg. apply Hnew. rewrite Eg, Ec. simpl.
    apply steps_next in S13. lia. }
  set (m5 := set_next (updateFunction m4 (fn_id ctor)
               (fun g => set_blocks g
                  (fn_blocks g ++ [mkBasicBlock (m_next m4) "" []])))
               (S (m_next m4))) in *.
  assert (S45 : evolves U I (fun _ => False) m4 m5).
  { eapply steps_update; try reflexivity; auto.
    - simpl. lia.
    - intros g. now split. }
  destruct (codePhase_steps addr ua opts U I (fun _ => False) rt pads
              (fn_id ctor) (m_next m4) (localFunctions addr (afterHeap opts m)) m5)
    as (m6' & E6' & S56); auto.
  { intros g Hge. apply Hnew. apply steps_next in S13. unfold m5 in Hge.
    simpl in Hge. lia. }
  rewrite E6 in E6'. injection E6' as <-.
  exists m3, ctor, m4. eexists. split; [exact E4|]. split; [exact Erun|].
  split; [exact S13|].
  eapply steps_trans; [exact S45|]. eapply steps_trans; [exact S56|].
  apply registerPhase_steps. exact Hctor.
Qed.
End RunTrace.

Lemma localFunctions_In addr m h :
  In h (localFunctions addr m) <->
  exists f, In f (m_functions m) /\ isLocalFunction f = true /\ fn_id f = h.
Proof.
  unfold localFunctions.
  assert (G : forall l s,
            In h (fold_left (fun s f => if isLocalFunction f
                                        then setInsert Nat.eqb (faddr addr) (fn_id f) s
                                        else s) l s)
            <-> In h s \/ exists f, In f l /\ isLocalFunction f = true /\ fn_id f = h).
  { induction l as [|f l IH]; intros s; cbn [fold_left].
    - split; [auto|intros [H|(f & [] & _)]; auto].
    - rewrite IH. destruct (isLocalFunction f) eqn:E.
      + rewrite (setInsert_In Nat.eqb (faddr addr) Nat.eqb_eq). split.
        * intros [[->|H]|(g & Hg & Hl & Eg)]; eauto.
          -- right. exists f. simpl. auto.
          -- right. exists g. simpl. auto.
        * intros [H|(g & [<-|Hg] & Hl & Eg)]; eauto.
      + split.
        * intros [H|(g & Hg & Hl & Eg)]; auto. right. exists g. simpl. auto.
        * intros [H|(g & [<-|Hg] & Hl & Eg)]; eauto. congruence. }
  rewrite G. simpl. tauto.
Qed.

Lemma localFunctions_NoDup addr m : NoDup (localFunctions addr m).
Proof.
  unfold localFunctions.
  assert (G : forall l s, NoDup s ->
            NoDup (fold_left (fun s f => if isLocalFunction f
                                then setInsert Nat.eqb (faddr addr) (fn_id f) s
                                else s) l s)).
  { induction l as [|f l IH]; intros s Hs; cbn [fold_left]; auto.
    apply IH. destruct (isLocalFunction f); auto.
    apply (setInsert_NoDup Nat.eqb (faddr addr) Nat.eqb_eq). exact Hs. }
  apply G. constructor.
Qed.

Lemma find_name_absent name (l : list Function) :
  (forall g, In g l -> fn_name g <> name) ->
  find (fun f => String.eqb (fn_name f) name) l = None.
Proof.
  intros H. destruct (find _ l) as [g|] eqn:E; auto.
  apply find_some in E. destruct E as [Hg En]. apply String.eqb_eq in En.
  exfalso. exact (H g Hg En).
Qed.

Lemma fevolves_total U I m1 m2 m3 m4 name ctor :
  notMain name ->
  evolves U I (fun _ => True) m1 m2 ->
  makeConstructor m2 name = (ctor, m3) ->
  evolves U I (fun _ => False) m3 m4 ->
  fevolves U I notMain m1 m4.
Proof.
  intros Hn [F1 _] E [F2 _].
  eapply fevolves_trans; [exact F1|]. eapply fevolves_trans; [|exact F2].
  eapply makeConstructor_fevolves; eauto.
Qed.

(** C10. The pass returns; whatever the options, no function of the result
    is named [main]; a function named [main] of the module, defined or only
    declared, is in the result under the name [stabilizer_main], and when
    it is a declaration nothing else of it has changed.  The name
    [stabilizer_main] is taken to be free in the module ([Hfree]): the pass
    itself creates nothing under it, so it is free when [main] is renamed. *)
Theorem main_is_renamed addr ua opts (m : Module)
  (Hwf : wfFunctions m)
  (Hone : forall f1 f2, In f1 (m_functions m) -> In f2 (m_functions m) ->
            fn_name f1 = "main" -> fn_name f2 = "main" -> f1 = f2)
  (Hfree : nameFree m "stabilizer_main" = true) :
  exists m',
    run addr ua opts m = Some m'
    /\ getFunction m' "main" = None
    /\ forall f, getFunction m "main" = Some f ->
         (exists f', In f' (m_functions m') /\ fn_id f' = fn_id f
                     /\ fn_name f' = "stabilizer_main")
         /\ (isDeclaration f = true ->
             In (set_fn_name f "stabilizer_main") (m_functions m')).
Proof.
  set (P := fun g : Function => isDeclaration g = true /\ In g (m_functions m)).
  set (U := fun g : Function => ~ P g).
  assert (Hold : forall g, In g (m_functions m) -> fn_id g < m_next m).
  { destruct Hwf as [_ Hall]. now rewrite Forall_forall in Hall. }
  assert (Hu1 : forall g, isDeclaration g = false -> U g).
  { intros g Hd [Hd' _]. congruence. }
  assert (Hu2 : forall g, m_next m <= fn_id g -> U g).
  { intros g Hge [_ Hin]. apply Hold in Hin. lia. }
  assert (Hu3 : forall h, In h (localFunctions addr (afterHeap opts m)) ->
                  True /\ forall g, fn_id g = h -> U g).
  { intros h Hh. split; auto. intros g Eg [Hd Hin].
    apply localFunctions_In in Hh. destruct Hh as (f1 & Hf1 & Hl1 & E1).
    destruct (afterHeap_steps opts U (fun _ => True) (fun _ => True) m Hu1)
      as [(_ & [_ Hb] & _) _]; auto.
    destruct (Hb f1 Hf1) as [(g0 & Hg0 & [Ei En] & Hsame)|[Hr _]].
    - assert (g0 = g) by (apply (wfFunctions_unique m); auto; congruence).
      subst g0. rewrite Hsame in Hl1.
      + unfold isLocalFunction in Hl1. rewrite Hd in Hl1.
        rewrite andb_false_r in Hl1. discriminate.
      + intros Hug. apply Hug. split; auto.
    - apply Hold in Hin. lia. }
  destruct (run_trace addr ua opts U (fun _ => True) (fun _ => True) m)
    as (m3 & ctor & m4 & m7 & E4 & Erun & S3 & S7); auto.
  assert (F : fevolves U (fun _ => True) notMain m m7).
  { eapply fevolves_total; eauto. discriminate. }
  destruct F as (Hn & [Ha Hb] & _).
  assert (F1 : forall g', In g' (m_functions m7) -> fn_name g' = "main" ->
            exists g0, In g0 (m_functions m) /\ fn_name g0 = "main"
                       /\ fn_id g' = fn_id g0).
  { intros g' Hg' En. destruct (Hb g' Hg') as [(g0 & Hg0 & [Ei En0] & _)|[_ Hnm]].
    - exists g0. repeat split; auto; congruence.
    - contradiction. }
  exists (renameMain m7). split; [exact Erun|]. unfold renameMain.
  destruct (getFunction m7 "main") as [mn|] eqn:Emn.
  - apply getFunction_In in Emn. destruct Emn as [Hmn Enm].
    destruct (F1 mn Hmn Enm) as (g0 & Hg0 & En0 & Ei0).
    split.
    + unfold getFunction, updateFunction. cbn [m_functions set_functions].
      apply find_name_absent. intros g Hg En. apply in_map_iff in Hg.
      destruct Hg as (g' & <- & Hg').
      destruct (fn_id g' =? fn_id mn) eqn:E; [discriminate En|].
      apply Nat.eqb_neq in E. destruct (F1 g' Hg' En) as (g1 & Hg1 & En1 & Ei1).
      rewrite (Hone g1 g0 Hg1 Hg0 En1 En0) in Ei1. congruence.
    + intros f Hf. apply getFunction_In in Hf. destruct Hf as [Hf Enf].
      assert (f = g0) by (apply Hone; auto). subst g0.
      destruct (Ha f Hf) as (f7 & Hf7 & [Ei7 En7] & Hsame).
      assert (Hin : In (set_fn_name f7 "stabilizer_main")
                      (m_functions (updateFunction m7 (fn_id mn)
                                      (fun g => set_fn_name g "stabilizer_main")))).
      { unfold updateFunction. cbn [m_functions set_functions].
        apply in_map_iff. exists f7. split; auto.
        assert (E : (fn_id f7 =? fn_id mn) = true)
          by (apply Nat.eqb_eq; congruence).
        now rewrite E. }
      split.
      * eexists. split; [exact Hin|]. destruct f7; simpl in *. auto.
      * intros Hd. rewrite <- (Hsame (fun Hu => Hu (conj Hd Hf))). exact Hin.
  - split; [exact Emn|]. intros f Hf. exfalso.
    apply getFunction_In in Hf. destruct Hf as [Hf Enf].
    destruct (Ha f Hf) as (f7 & Hf7 & [Ei7 En7] & _).
    unfold getFunction in Emn. apply (find_none _ _ Emn) in Hf7.
    simpl in Hf7. rewrite En7, Enf in Hf7. discriminate.
Qed.

(** ** The constructor table *)

Lemma getGlobalVariable_In m name b g :
  getGlobalVariable m name b = Some g ->
  In g (m_globals m) /\ gv_name g = name.
Proof.
  unfold getGlobalVariable.
  destruct (find _ (m_globals m)) as [x|] eqn:E; [|discriminate].
  apply find_some in E. destruct E as [Hx En]. apply String.eqb_eq in En.
  destruct (b || _); intros [= <-]; auto.
Qed.

Lemma makeConstructor_globals m name ctor m' :
  Forall (fun g => gv_id g < m_next m) (m_globals m) ->
  makeConstructor m name = (ctor, m') ->
  In (ctorGlobal (m_next m)) (m_globals m')
  /\ (forall g, In g (m_globals m') ->
        g = ctorGlobal (m_next m)
        \/ (In g (m_globals m)
            /\ forall old,
                 getGlobalVariable m "llvm.global_ctors" false = Some old ->
                 gv_id g <> gv_id old)).
Proof.
  intros Hall. rewrite Forall_forall in Hall.
  unfold makeConstructor. cbn [createFunction createGlobal gv_id fn_id m_next].
  match goal with
  | |- context [getGlobalVariable ?mm "llvm.global_ctors" false] =>
      assert (Eg : getGlobalVariable mm "llvm.global_ctors" false
                   = getGlobalVariable m "llvm.global_ctors" false)
  end.
  { unfold getGlobalVariable. cbn [m_globals].
    rewrite find_app. destruct (find _ (m_globals m)); reflexivity. }
  rewrite Eg. clear Eg.
  destruct (getGlobalVariable m "llvm.global_ctors" false) as [old|] eqn:Eold.
  - apply getGlobalVariable_In in Eold. destruct Eold as [Hold Ename].
    pose proof (Hall old Hold) as Hlt.
    intros [= <- <-]. unfold eraseGlobal, updateGlobal.
    cbn [m_globals set_globals]. rewrite !map_map.
    assert (E : (S (m_next m) =? gv_id old) = false)
      by (apply Nat.eqb_neq; lia).
    split.
    + apply filter_In. split.
      * apply in_map_iff. eexists. split; [|apply in_or_app; right; left; reflexivity].
        repeat (cbn [gv_id set_gv_name set_gv_linkage];
                rewrite ?E, ?Nat.eqb_refl).
        unfold ctorGlobal, ctorTable, ctorEntryTy.
        rewrite Ename. reflexivity.
      * unfold ctorGlobal. cbn [gv_id]. now rewrite E.
    + intros g Hg. apply filter_In in Hg. destruct Hg as [Hg Hne].
      apply negb_true_iff, Nat.eqb_neq in Hne.
      apply in_map_iff in Hg. destruct Hg as (x & Ex & Hx).
      apply in_app_or in Hx. destruct Hx as [Hx|[<-|[]]].
      * right. pose proof (Hall x Hx) as Hxl.
        assert (E1 : (gv_id x =? S (m_next m)) = false)
          by (apply Nat.eqb_neq; lia).
        rewrite E1 in Ex.
        destruct (gv_id x =? gv_id old) eqn:E2;
          repeat (cbn [gv_id set_gv_name set_gv_linkage] in Ex;
                  rewrite ?E2 in Ex).
        -- exfalso. apply Hne. rewrite <- Ex. cbn. now apply Nat.eqb_eq.
        -- subst g. split; auto. intros old' [= <-]. now apply Nat.eqb_neq.
      * left. rewrite <- Ex.
        repeat (cbn [gv_id set_gv_name set_gv_linkage];
                rewrite ?E, ?Nat.eqb_refl).
        unfold ctorGlobal, ctorTable, ctorEntryTy.
        rewrite Ename. reflexivity.
  - intros [= <- <-]. unfold updateGlobal. cbn [m_globals set_globals].
    split.
    + apply in_map_iff. eexists. split; [|apply in_or_app; right; left; reflexivity].
      cbn [gv_id]. rewrite Nat.eqb_refl. reflexivity.
    + intros g Hg. apply in_map_iff in Hg. destruct Hg as (x & Ex & Hx).
      apply in_app_or in Hx. destruct Hx as [Hx|[<-|[]]].
      * right. pose proof (Hall x Hx) as Hxl.
        assert (E1 : (gv_id x =? S (m_next m)) = false)
          by (apply Nat.eqb_neq; lia).
        rewrite E1 in Ex. subst g. split; auto. discriminate.
      * left. rewrite <- Ex. cbn [gv_id]. rewrite Nat.eqb_refl. reflexivity.
Qed.

Lemma renameMain_globals m : m_globals (renameMain m) = m_globals m.
Proof. unfold renameMain. now destruct (getFunction m "main"). Qed.

Lemma ctor_table_found UG m m3 :
  gevolves UG notCtorTable m m3 ->
  (forall g1 g2, In g1 (m_globals m) -> In g2 (m_globals m) ->
     gv_name g1 = "llvm.global_ctors" -> gv_name g2 = "llvm.global_ctors" ->
     g1 = g2) ->
  (forall g, In g (m_globals m) -> gv_name g = "llvm.global_ctors" ->
     hasLocalLinkage (gv_linkage g) = false) ->
  forall x, In x (m_globals m3) -> gv_name x = "llvm.global_ctors" ->
  exists y, getGlobalVariable m3 "llvm.global_ctors" false = Some y
            /\ gv_id y = gv_id x.
Proof.
  intros (_ & _ & Gb) Hone Hlink x Hx En.
  assert (Horig : forall z, In z (m_globals m3) ->
            gv_name z = "llvm.global_ctors" ->
            exists z0, In z0 (m_globals m) /\ gv_name z0 = "llvm.global_ctors"
                       /\ gv_id z = gv_id z0 /\ gv_linkage z = gv_linkage z0).
  { intros z Hz Ez. destruct (Gb z Hz) as [(z0 & Hz0 & (Ei & Enz & El) & _)|[_ Hn]].
    - exists z0. repeat split; auto; congruence.
    - contradiction. }
  unfold getGlobalVariable.
  destruct (find _ (m_globals m3)) as [y|] eqn:E.
  - apply find_some in E. destruct E as [Hy Ey]. apply String.eqb_eq in Ey.
    destruct (Horig y Hy Ey) as (y0 & Hy0 & Eny & Eiy & Ely).
    destruct (Horig x Hx En) as (x0 & Hx0 & Enx & Eix & Elx).
    rewrite Ely, (Hlink y0 Hy0 Eny). cbn. exists y. split; auto.
    rewrite (Hone y0 x0 Hy0 Hx0 Eny Enx) in Eiy. congruence.
  - apply (find_none _ _ E) in Hx. simpl in Hx. rewrite En in Hx. discriminate.
Qed.

(** C6. After the pass the global named [llvm.global_ctors] is one, a new
    one: its initializer is the table of the single entry of priority 65535
    for the function [stabilizer.module_ctor] that the pass created, with a
    null third field; a table the module had under that name is no longer
    in the module, and the new one has the name.  The name
    [stabilizer.module_ctor] is taken to be free in the module ([Hfree]),
    and no function to be named [llvm.global_ctors] ([Hfn]): what the pass
    creates before the constructor has other names, so both names are free
    when the constructor and the table get them. *)
Theorem constructor_table_replaced addr ua opts (m : Module)
  (Hfw : wfFunctions m)
  (Hgw : Forall (fun g => gv_id g < m_next m) (m_globals m))
  (Hone : forall g1 g2, In g1 (m_globals m) -> In g2 (m_globals m) ->
            gv_name g1 = "llvm.global_ctors" ->
            gv_name g2 = "llvm.global_ctors" -> g1 = g2)
  (Hlink : forall g, In g (m_globals m) -> gv_name g = "llvm.global_ctors" ->
             hasLocalLinkage (gv_linkage g) = false)
  (Hfree : nameFree m "stabilizer.module_ctor" = true)
  (Hfn : forall f, In f (m_functions m) -> fn_name f <> "llvm.global_ctors") :
  exists m' t c,
    run addr ua opts m = Some m'
    /\ getGlobalVariable m' "llvm.global_ctors" false = Some t
    /\ (forall g, In g (m_globals m') -> gv_name g = "llvm.global_ctors" ->
          g = t)
    /\ gv_init t = Some (ctorTable (fn_id c))
    /\ gv_type t = ArrayTy 1 ctorEntryTy
    /\ gv_linkage t = AppendingLinkage
    /\ In c (m_functions m') /\ fn_name c = "stabilizer.module_ctor"
    /\ m_next m <= fn_id c /\ m_next m <= gv_id t
    /\ forall old, getGlobalVariable m "llvm.global_ctors" false = Some old ->
         lookupGlobal m' (gv_id old) = None.
Proof.
  assert (Hold : forall g, In g (m_functions m) -> fn_id g < m_next m).
  { destruct Hfw as [_ Hall]. now rewrite Forall_forall in Hall. }
  rewrite Forall_forall in Hgw.
  destruct (run_trace addr ua opts (fun _ => True) (fun _ => True)
              (fun _ => True) m)
    as (m3 & ctor & m4 & m7 & E4 & Erun & S3 & S7); auto.
  assert (F : fevolves (fun _ => True) (fun _ => True) notMain m m7).
  { eapply fevolves_total; eauto. discriminate. }
  destruct S3 as [F3 G3]. destruct S7 as [F7 G7].
  pose proof G3 as (Hn3 & Ga3 & Gb3). pose proof G7 as (Hn7 & Ga7 & Gb7).
  assert (Hgw3 : Forall (fun g => gv_id g < m_next m3) (m_globals m3)).
  { apply Forall_forall. intros g Hg.
    destruct (Gb3 g Hg) as [(g0 & Hg0 & (Ei & _) & _)|[Hr _]]; [|lia].
    rewrite Ei. apply Hgw in Hg0. lia. }
  destruct (makeConstructor_globals m3 _ ctor m4 Hgw3 E4) as (Ht4 & Hcl4).
  destruct (makeConstructor_functions _ _ _ _ E4) as (Ec & Ef4 & En4).
  set (t := ctorGlobal (m_next m3)) in *.
  assert (Ht7 : In t (m_globals m7)).
  { destruct (Ga7 t Ht4) as (t' & Ht' & _ & Est). rewrite <- Est; auto. }
  assert (Hfound : forall x, In x (m_globals m3) ->
            gv_name x = "llvm.global_ctors" ->
            exists y, getGlobalVariable m3 "llvm.global_ctors" false = Some y
                      /\ gv_id y = gv_id x).
  { apply (ctor_table_found (fun _ => True) m m3); auto. }
  assert (Huniq : forall g, In g (m_globals m7) ->
            gv_name g = "llvm.global_ctors" -> g = t).
  { intros g Hg En.
    destruct (Gb7 g Hg) as [(x & Hx & _ & Egx)|[_ Hnn]]; [|contradiction].
    rewrite Egx in * by auto. clear Egx.
    destruct (Hcl4 x Hx) as [->|[Hx3 Hne]]; auto. exfalso.
    destruct (Hfound x Hx3 En) as (y & Ey & Eid).
    apply (Hne y Ey). congruence. }
  (* the constructor in the result *)
  assert (Hc4 : In ctor (m_functions m4)).
  { rewrite Ef4. apply in_or_app. right. now left. }
  destruct F7 as (_ & [Fa7 _] & _).
  destruct (Fa7 ctor Hc4) as (c7 & Hc7 & [Ei7 En7] & _).
  assert (Eic : fn_id c7 = m_next m3) by (rewrite Ei7, Ec; reflexivity).
  assert (Enc : fn_name c7 = "stabilizer.module_ctor")
    by (rewrite En7, Ec; reflexivity).
  assert (Hcm : In c7 (m_functions (renameMain m7))).
  { unfold renameMain. destruct (getFunction m7 "main") as [mn|] eqn:Emn; auto.
    apply getFunction_In in Emn. destruct Emn as [Hmn Enm].
    unfold updateFunction. cbn [m_functions set_functions].
    apply in_map_iff. exists c7. split; auto.
    destruct F as (_ & [_ Fb] & _).
    destruct (Fb mn Hmn) as [(g0 & Hg0 & [Ei _] & _)|[_ Hnm]]; [|contradiction].
    assert (E : (fn_id c7 =? fn_id mn) = false).
    { apply Nat.eqb_neq. rewrite Ei, Eic. apply Hold in Hg0.
      destruct F3 as (Hn & _). lia. }
    now rewrite E. }
  exists (renameMain m7), t, c7. rewrite renameMain_globals.
  split; [exact Erun|]. split.
  { unfold getGlobalVariable. rewrite renameMain_globals.
    destruct (find _ (m_globals m7)) as [z|] eqn:E.
    - apply find_some in E. destruct E as [Hz Ez]. apply String.eqb_eq in Ez.
      rewrite (Huniq z Hz Ez). reflexivity.
    - apply (find_none _ _ E) in Ht7. discriminate Ht7. }
  split; [exact Huniq|]. rewrite Eic.
  split; [reflexivity|]. split; [reflexivity|]. split; [reflexivity|].
  split; [exact Hcm|]. split; [exact Enc|].
  split; [lia|]. split; [simpl; lia|].
  intros old Eold. apply getGlobalVariable_In in Eold.
  destruct Eold as [Hold0 Eno]. unfold lookupGlobal.
  rewrite renameMain_globals.
  destruct (find _ (m_globals m7)) as [g|] eqn:E; auto. exfalso.
  apply find_some in E. destruct E as [Hg Eg]. apply Nat.eqb_eq in Eg.
  pose proof (Hgw old Hold0) as Hlt.
  destruct (Gb7 g Hg) as [(x & Hx & _ & Egx)|[Hr _]]; [|lia].
  rewrite Egx in * by auto. clear Egx.
  destruct (Hcl4 x Hx) as [->|[Hx3 Hne]].
  - simpl in Eg. lia.
  - destruct (Ga3 old Hold0) as (o3 & Ho3 & (Ei3 & En3 & _) & _).
    destruct (Hfound o3 Ho3) as (y & Ey & Eid); [congruence|].
    apply (Hne y Ey). congruence.
Qed.

(** ** The sentinel *)

Lemma replaceAllocator_local m fn name f :
  In f (m_functions m) ->
  exists f', In f' (m_functions (replaceAllocator m fn name))
             /\ fn_id f' = fn_id f
             /\ isLocalFunction f' = isLocalFunction f.
Proof.
  intros Hf. unfold replaceAllocator. destruct fn as [a|]; [|eauto].
  cbn [createFunction fn_id]. unfold replaceAllUsesWith.
  cbn [m_functions]. eexists. split.
  - apply in_map. apply in_or_app. left. exact Hf.
  - split; [reflexivity|]. unfold isLocalFunction, isIntrinsic, isDeclaration.
    cbn [renameFunction set_blocks fn_name fn_blocks]. unfold mapInsts.
    now destruct (fn_blocks f).
Qed.

Lemma afterHeap_local opts m f :
  In f (m_functions m) ->
  exists f', In f' (m_functions (afterHeap opts m))
             /\ fn_id f' = fn_id f
             /\ isLocalFunction f' = isLocalFunction f.
Proof.
  intros Hf. unfold afterHeap. destruct (stabilize_heap opts); [|eauto].
  unfold randomizeHeap.
  destruct (replaceAllocator_local m (getFunction m "malloc")
              "stabilizer_malloc" f Hf) as (f1 & H1 & I1 & L1).
  destruct (replaceAllocator_local _ (getFunction m "calloc")
              "stabilizer_calloc" f1 H1) as (f2 & H2 & I2 & L2).
  destruct (replaceAllocator_local _ (getFunction m "realloc")
              "stabilizer_realloc" f2 H2) as (f3 & H3 & I3 & L3).
  destruct (replaceAllocator_local _ (getFunction m "free")
              "stabilizer_free" f3 H3) as (f4 & H4 & I4 & L4).
  exists f4. split; [exact H4|]. split; congruence.
Qed.

Lemma sentinelStage_followedBy m f :
  In f (m_functions m) -> fn_id f < m_next m ->
  followedBy (fn_id f) (makeDummy (m_next m) (fn_name f))
    (m_functions (sentinelStage m f)).
Proof.
  intros Hf Hlt. unfold sentinelStage, updateFunction, insertAfter.
  cbn [m_functions set_functions set_next].
  assert (E : (fn_id (makeDummy (m_next m) (fn_name f)) =? fn_id f) = false).
  { apply Nat.eqb_neq. simpl. lia. }
  do 3 (apply map_followedBy;
        [intros g; destruct (fn_id g =? fn_id f); try reflexivity;
         try (destruct (Linkage_eq_dec (fn_linkage g) LinkOnceODRLinkage);
              reflexivity)
        |cbv beta; rewrite E; reflexivity|]).
  destruct (insertAfterIn_here (fn_id f) (makeDummy (m_next m) (fn_name f))
              (m_functions m) f Hf eq_refl) as (g' & _ & H).
  exact H.
Qed.

Lemma fevolves_weaken U I N m m' :
  fevolves U I N m m' ->
  fevolves (fun _ => True) (fun _ => True) N m m'.
Proof.
  intros (Hn & [Ha Hb] & _). split; [auto|]. split; [split|].
  - intros x Hx. destruct (Ha x Hx) as (x' & Hx' & Hs & _).
    exists x'. split; auto. split; auto. intros Hu. exfalso. auto.
  - intros x' Hx'. destruct (Hb x' Hx') as [(x & Hx & Hs & _)|Hnew]; auto.
    left. exists x. split; auto. split; auto. intros Hu. exfalso. auto.
  - intros h d _ Hi. exfalso. auto.
Qed.

Lemma lookupFunction_exists m h g :
  In g (m_functions m) -> fn_id g = h ->
  exists f, lookupFunction m h = Some f.
Proof.
  intros Hg E. unfold lookupFunction.
  destruct (find _ (m_functions m)) as [f|] eqn:F; eauto.
  apply (find_none _ _ F) in Hg. simpl in Hg. apply Nat.eqb_neq in Hg.
  contradiction.
Qed.

(** C3. With code randomization on, the pass returns, and in the function
    list of the result every local function of the module is immediately
    followed by its sentinel: an internal function named
    [stabilizer.dummy.] and the name the function has in the module, of
    type [void ()], aligned to 64, whose body is one block with a single
    instruction, a return of nothing.  The name of the sentinel is taken to
    be free when the sentinel is linked in: no name of the module begins
    with [stabilizer.] ([Hfree]), and no other local function has the name
    of the function ([Hown]), so that neither the module, nor a stack pad or
    a relocation table, nor the sentinel of another function has the
    name. *)
Theorem sentinel_follows addr ua opts (m : Module) (F : Function)
  (Hwf : wfFunctions m)
  (Hcode : stabilize_code opts = true)
  (HF : In F (m_functions m))
  (Hlocal : isLocalFunction F = true)
  (Hfree : prefixFree m "stabilizer." = true)
  (Hown : ownName m F) :
  exists m' l1 F' d l2 b r,
    run addr ua opts m = Some m'
    /\ m_functions m' = l1 ++ F' :: d :: l2
    /\ fn_id F' = fn_id F
    /\ fn_name d = "stabilizer.dummy." +++ fn_name F
    /\ fn_linkage d = InternalLinkage
    /\ fn_type d = FunctionTy VoidTy [] false
    /\ fn_align d = Some 64%N
    /\ m_next m <= fn_id d
    /\ fn_blocks d = [b] /\ b_insts b = [r]
    /\ i_op r = Ret /\ i_operands r = [] /\ i_ty r = VoidTy.
Proof.
  assert (Hold : forall g, In g (m_functions m) -> fn_id g < m_next m).
  { destruct Hwf as [_ Hall]. now rewrite Forall_forall in Hall. }
  set (T := fun _ : Function => True).
  set (TI := fun _ : Handle => True).
  set (TG := fun _ : GlobalVariable => True).
  destruct (run_phases addr ua opts m)
    as (rt & m2 & pads & m3 & ctor & m4 & m6 & E2 & E3 & E4 & E6 & Erun).
  fold (afterHeap opts m) in E2, E3, E6.
  set (locals := localFunctions addr (afterHeap opts m)) in *.
  (* the function is one of the local functions *)
  assert (Hin : In (fn_id F) locals).
  { destruct (afterHeap_local opts m F HF) as (F1 & H1 & I1 & L1).
    apply localFunctions_In. exists F1. repeat split; auto. congruence. }
  assert (S01 : evolves T TI TG m (afterHeap opts m)).
  { apply afterHeap_steps; unfold T, TG; auto. }
  assert (Hloc : forall h, In h locals -> h < m_next (afterHeap opts m)).
  { intros h Hh. apply localFunctions_In in Hh.
    destruct Hh as (f & Hf & _ & <-).
    destruct S01 as [(Hn & [_ Hb] & _) _].
    destruct (Hb f Hf) as [(g0 & Hg0 & [Ei _] & _)|[Hr _]]; [|lia].
    rewrite Ei. apply Hold in Hg0. lia. }
  assert (S03 : evolves T TI TG m m3).
  { apply (prefix_steps addr opts T TI TG m rt m2 pads m3); unfold T, TG; auto. }
  assert (S13 : m_next (afterHeap opts m) <= m_next m3).
  { pose proof (declareRuntimeFunctions_steps T TI TG (afterHeap opts m)) as S2.
    rewrite E2 in S2. cbn [snd] in S2.
    pose proof (stackPhase_steps addr opts T TI TG locals m2) as S3.
    fold locals in E3. rewrite E3 in S3. cbn [snd] in S3.
    assert (H2 : m_next (afterHeap opts m) <= m_next m2)
      by (apply (steps_next T TI TG), S2; unfold T; auto).
    assert (H3 : m_next m2 <= m_next m3)
      by (apply (steps_next T TI TG), S3; unfold T; auto).
    lia. }
  destruct (makeConstructor_functions _ _ _ _ E4) as (Ec & Ef4 & En4).
  assert (Eci : fn_id ctor = m_next m3) by (rewrite Ec; reflexivity).
  set (m5 := set_next (updateFunction m4 (fn_id ctor)
               (fun g => set_blocks g
                  (fn_blocks g ++ [mkBasicBlock (m_next m4) "" []])))
               (S (m_next m4))) in *.
  assert (F05 : fevolves T TI notMain m m5).
  { eapply fevolves_trans; [apply S03|]. eapply fevolves_trans.
    - eapply makeConstructor_fevolves; [|exact E4]. discriminate.
    - apply (ctor_block_steps T TI TG m4 (fn_id ctor)). unfold T. auto. }
  assert (En5 : m_next m5 = S (m_next m4)) by reflexivity.
  (* the loop up to the function *)
  unfold codePhase in E6. rewrite Hcode in E6.
  destruct (in_split _ _ Hin) as (k1 & k2 & Ek).
  pose proof (localFunctions_NoDup addr (afterHeap opts m)) as Hnd.
  fold locals in Hnd. rewrite Ek in Hnd, E6.
  apply NoDup_remove_2 in Hnd.
  rewrite fold_left_app in E6. cbn [fold_left] in E6.
  destruct (fold_codeStep_steps T TI TG addr ua rt pads (fn_id ctor)
              (m_next m4) k1 m5) as (ma & Ea & Sa); unfold T, TI; auto.
  rewrite Ea in E6.
  assert (F0a : fevolves T TI notMain m ma).
  { eapply fevolves_trans; [exact F05|]. apply Sa. }
  pose proof F0a as (Hna & [Haa Hba] & _).
  destruct (Haa F HF) as (Fa & HFa & [Eia Ena] & _).
  destruct (lookupFunction_exists ma (fn_id F) Fa HFa Eia) as (fa & Efa).
  pose proof (lookupFunction_In _ _ _ Efa) as [Hfa Eifa].
  assert (Enfa : fn_name fa = fn_name F).
  { destruct (Hba fa Hfa) as [(g0 & Hg0 & [Ei En] & _)|[Hr _]].
    - rewrite En. f_equal. apply (wfFunctions_unique m); auto. congruence.
    - pose proof (Hold F HF). lia. }
  unfold codeStep at 2 in E6. rewrite Efa in E6.
  destruct (randomizeCode_total addr ua ma fa) as ([mb0 args] & Er).
  rewrite Er in E6.
  set (d := makeDummy (m_next ma) (fn_name fa)).
  set (U' := fun g : Function => fn_id g <> m_next ma).
  set (I' := fun h : Handle => h <> fn_id F).
  set (FG := fun _ : GlobalVariable => False).
  assert (Hlt : fn_id F < m_next ma).
  { pose proof (Hold F HF). lia. }
  assert (Hnext : m_next m3 < m_next ma).
  { destruct Sa as [(Hn & _) _]. rewrite En5, En4 in Hn. lia. }
  assert (Hfol : followedBy (fn_id F) d (m_functions (sentinelStage ma fa))).
  { rewrite <- Eifa. apply sentinelStage_followedBy; auto. lia. }
  assert (Ens : m_next (sentinelStage ma fa) = m_next ma + 3) by reflexivity.
  assert (S1 : evolves U' I' FG (sentinelStage ma fa) mb0).
  { eapply randomizeCode_after_sentinel; [| |exact Er].
    - intros g Eg. unfold U'. lia.
    - intros g Hg. unfold U'. lia. }
  set (mb := emitCall mb0 (fn_id ctor) (m_next m4) (registerFunction rt)
               (args ++ [match mapFind Nat.eqb (fn_id F) pads with
                         | Some pad => VConst (GVariable pad)
                         | None => VConst (getNullValue (PointerTy Int8Ty))
                         end])) in *.
  assert (Hctor : forall g, fn_id g = fn_id ctor -> U' g).
  { intros g Eg. unfold U'. lia. }
  assert (S2 : evolves U' I' FG mb0 mb).
  { apply emitCall_steps. exact Hctor. }
  assert (Hnb : m_next ma + 3 <= m_next mb).
  { apply steps_next in S1, S2. lia. }
  destruct (fold_codeStep_steps U' I' FG addr ua rt pads (fn_id ctor)
              (m_next m4) k2 mb) as (m6' & E6' & S3); auto.
  { intros h Hh. assert (Hhl : In h locals).
    { rewrite Ek. apply in_or_app. right. now right. }
    split.
    - unfold I'. intros ->. apply Hnd. apply in_or_app. now right.
    - intros g Eg. unfold U'. apply Hloc in Hhl. lia. }
  { intros g Hg. unfold U'. lia. }
  rewrite E6 in E6'. injection E6' as <-.
  set (m7 := registerPhase opts rt pads (getConstructors m3) (fn_id ctor)
               (m_next m4) m6) in *.
  assert (S4 : evolves U' I' FG m6 m7).
  { apply registerPhase_steps. exact Hctor. }
  assert (Ssm7 : evolves U' I' FG (sentinelStage ma fa) m7).
  { eapply steps_trans; [exact S1|]. eapply steps_trans; [exact S2|].
    eapply steps_trans; [exact S3|exact S4]. }
  assert (Hfol7 : followedBy (fn_id F) d (m_functions m7)).
  { destruct Ssm7 as [(_ & _ & Hadj) _].
    apply Hadj; [exact Hfol|unfold I'; auto|unfold U', d; simpl; auto]. }
  (* the renaming of [main] leaves the sentinel as it is *)
  assert (F07 : fevolves T TI notMain m m7).
  { eapply fevolves_trans; [exact F0a|]. eapply fevolves_trans.
    - apply (sentinelStage_steps T TI TG ma fa); unfold T, TI; auto.
    - apply (fevolves_weaken U' I'). apply Ssm7. }
  assert (Hfol' : followedBy (fn_id F) d (m_functions (renameMain m7))).
  { unfold renameMain. destruct (getFunction m7 "main") as [mn|] eqn:Emn; auto.
    apply getFunction_In in Emn. destruct Emn as [Hmn Enm].
    unfold updateFunction. cbn [m_functions set_functions].
    apply map_followedBy; auto.
    - intros g. now destruct (fn_id g =? fn_id mn).
    - destruct F07 as (_ & [_ Hb] & _).
      destruct (Hb mn Hmn) as [(g0 & Hg0 & [Ei _] & _)|[_ Hnm]]; [|contradiction].
      assert (E : (fn_id d =? fn_id mn) = false).
      { apply Nat.eqb_neq. rewrite Ei. unfold d. simpl.
        apply Hold in Hg0. lia. }
      now rewrite E. }
  destruct Hfol' as (l1 & F' & l2 & El & EF').
  exists (renameMain m7), l1, F', d, l2.
  exists (mkBasicBlock (m_next ma + 1) ""
            [mkInstruction (m_next ma + 2) Ret VoidTy "" false [] []]),
         (mkInstruction (m_next ma + 2) Ret VoidTy "" false [] []).
  split; [exact Erun|]. split; [exact El|]. split; [exact EF'|].
  unfold d, makeDummy. cbn. rewrite Enfa.
  repeat split; auto; lia.
Qed.

Lemma example_program_wf : wfFunctions example_program.
Proof.
  split.
  - simpl. repeat constructor; simpl; intuition discriminate.
  - repeat constructor; simpl; lia.
Defined.

Lemma example_program_one_main f1 f2 :
  In f1 (m_functions example_program) -> In f2 (m_functions example_program) ->
  fn_name f1 = "main" -> fn_name f2 = "main" -> f1 = f2.
Proof.
  simpl. intros [<-|[<-|[]]] [<-|[<-|[]]] E1 E2;
    try reflexivity; discriminate.
Defined.

Lemma example_program_one_table g1 g2 :
  In g1 (m_globals example_program) -> In g2 (m_globals example_program) ->
  gv_name g1 = "llvm.global_ctors" -> gv_name g2 = "llvm.global_ctors" ->
  g1 = g2.
Proof. simpl. intros [<-|[]] [<-|[]] _ _. reflexivity. Defined.

Lemma example_program_table_linkage g :
  In g (m_globals example_program) -> gv_name g = "llvm.global_ctors" ->
  hasLocalLinkage (gv_linkage g) = false.
Proof. simpl. intros [<-|[]] _. reflexivity. Defined.

Lemma sentinel_follows_witness :
  wfFunctions example_program
  /\ stabilize_code example_options = true
  /\ In example_init (m_functions example_program)
  /\ isLocalFunction example_init = true
  /\ prefixFree example_program "stabilizer." = true
  /\ ownName example_program example_init
  /\ exists m' l1 F' d l2,
       run example_addr example_use_addr example_options example_program
       = Some m'
       /\ m_functions m' = l1 ++ F' :: d :: l2
       /\ fn_id F' = fn_id example_init
       /\ fn_name d = "stabilizer.dummy.init".
Proof.
  assert (Hown : ownName example_program example_init)
    by (intros g [<-|[<-|[]]] Hl En; [discriminate Hl|reflexivity]).
  split; [exact example_program_wf|]. split; [reflexivity|].
  split; [simpl; tauto|]. split; [reflexivity|]. split; [reflexivity|].
  split; [exact Hown|].
  destruct (sentinel_follows example_addr example_use_addr example_options
              example_program example_init example_program_wf eq_refl
              (or_intror (or_introl eq_refl)) eq_refl eq_refl Hown)
    as (m' & l1 & F' & d & l2 & b & r & Hrun & Hl & Hid & Hname & _).
  exists m', l1, F', d, l2. repeat split; assumption.
Defined.

Lemma constructor_table_replaced_witness :
  wfFunctions example_program
  /\ Forall (fun g => gv_id g < m_next example_program)
       (m_globals example_program)
  /\ nameFree example_program "stabilizer.module_ctor" = true
  /\ exists m' t c,
       run example_addr example_use_addr example_options example_program
       = Some m'
       /\ getGlobalVariable m' "llvm.global_ctors" false = Some t
       /\ gv_init t = Some (ctorTable (fn_id c))
       /\ In c (m_functions m') /\ fn_name c = "stabilizer.module_ctor"
       /\ lookupGlobal m' (gv_id example_ctors) = None.
Proof.
  assert (Hg : Forall (fun g => gv_id g < m_next example_program)
                 (m_globals example_program))
    by (repeat constructor; simpl; lia).
  assert (Hfn : forall f, In f (m_functions example_program) ->
                  fn_name f <> "llvm.global_ctors")
    by (intros f [<-|[<-|[]]]; discriminate).
  split; [exact example_program_wf|]. split; [exact Hg|].
  split; [reflexivity|].
  destruct (constructor_table_replaced example_addr example_use_addr
              example_options example_program example_program_wf Hg
              example_program_one_table example_program_table_linkage
              eq_refl Hfn)
    as (m' & t & c & Hrun & Hget & _ & Hinit & _ & _ & Hc & Hname & _ & _ & Hold).
  exists m', t, c. repeat split; try assumption.
  apply Hold. reflexivity.
Defined.

Lemma main_is_renamed_witness :
  wfFunctions example_program
  /\ nameFree example_program "stabilizer_main" = true
  /\ exists m',
       run example_addr example_use_addr example_options example_program
       = Some m'
       /\ getFunction m' "main" = None
       /\ In (set_fn_name example_main "stabilizer_main") (m_functions m').
Proof.
  split; [exact example_program_wf|]. split; [reflexivity|].
  destruct (main_is_renamed example_addr example_use_addr example_options
              example_program example_program_wf example_program_one_main
              eq_refl)
    as (m' & Hrun & Hnone & Hmain).
  exists m'. split; [exact Hrun|]. split; [exact Hnone|].
  exact (proj2 (Hmain example_main eq_refl) eq_refl).
Defined.

(** ** The set of local functions *)

Lemma localFunctions_ascending addr m :
  ascending (faddr addr) (localFunctions addr m).
Proof.
  unfold localFunctions.
  assert (G : forall l s, ascending (faddr addr) s ->
            ascending (faddr addr)
              (fold_left (fun s f => if isLocalFunction f
                                     then setInsert Nat.eqb (faddr addr) (fn_id f) s
                                     else s) l s)).
  { induction l as [|f l IH]; intros s Hs; cbn [fold_left]; auto.
    apply IH. destruct (isLocalFunction f); auto.
    now apply setInsert_ascending. }
  apply G. constructor.
Qed.

(** X1. The set of local functions that the pass builds holds the handles of
    exactly the functions that are defined, are not intrinsics and are not
    named [__gxx_personality_v0]; it holds each handle once, and the loops
    of the pass go through it in ascending order of address, whatever the
    order of the functions in the module. *)
Theorem local_functions_collected (addr : Constant -> N) (m : Module) :
  (forall h, In h (localFunctions addr m) <->
             exists f, In f (m_functions m) /\ fn_id f = h
                       /\ isIntrinsic f = false /\ isDeclaration f = false
                       /\ fn_name f <> "__gxx_personality_v0")
  /\ NoDup (localFunctions addr m)
  /\ ascending (faddr addr) (localFunctions addr m).
Proof.
  split; [|split].
  - intros h. rewrite localFunctions_In. split.
    + intros (f & Hf & Hl & E). exists f. unfold isLocalFunction in Hl.
      apply andb_prop in Hl. destruct Hl as [Hl Hn].
      apply andb_prop in Hl. destruct Hl as [Hi Hd].
      apply negb_true_iff in Hi, Hd, Hn. apply String.eqb_neq in Hn. auto.
    + intros (f & Hf & E & Hi & Hd & Hn). exists f. split; auto. split; auto.
      unfold isLocalFunction. rewrite Hi, Hd. apply String.eqb_neq in Hn.
      now rewrite Hn.
  - apply localFunctions_NoDup.
  - apply localFunctions_ascending.
Qed.

(** ** The test for a global reference *)

Lemma existsb_impl {A : Type} (p q : A -> bool) l :
  Forall (fun x => p x = true -> q x = true) l ->
  existsb p l = true -> existsb q l = true.
Proof.
  induction 1 as [|x l Hx _ IH]; simpl; auto.
  rewrite !orb_true_iff. intuition.
Qed.

Lemma existsb_agree {A : Type} (p q : A -> bool) (r : A -> bool) l :
  Forall (fun x => r x = true -> q x = p x) l ->
  forallb r l = true -> existsb q l = existsb p l.
Proof.
  induction 1 as [|x l Hx _ IH]; simpl; auto.
  rewrite andb_true_iff. intros [H1 H2]. now rewrite Hx, IH.
Qed.

(** [containsGlobal] reports only constants whose closure refers to a global
    value, and on a constant made by constant expressions alone the two
    agree: the test does not look inside a structure, an array, a vector or
    a block address. *)
Lemma containsGlobalC_closure (m : Module) (c : Constant) :
  (containsGlobalC m c = true -> closureReferencesGlobal m c = true)
  /\ (expressionsOnly c = true ->
      containsGlobalC m c = closureReferencesGlobal m c).
Proof.
  split.
  - induction c as [h|h|h b|b v|t v|t|t|t|op t ops IH|t es IH|t es IH|t es IH]
      using Constant_nested_ind; simpl; auto; try discriminate;
      try (destruct (lookupFunction m h) as [f|]; auto;
           now destruct (isIntrinsic f || _)).
    now apply existsb_impl.
  - induction c as [h|h|h b|b v|t v|t|t|t|op t ops IH|t es IH|t es IH|t es IH]
      using Constant_nested_ind; simpl; auto; try discriminate;
      try (destruct (lookupFunction m h) as [f|]; auto;
           now destruct (isIntrinsic f || _)).
    intros Ha. now apply existsb_agree with (r := expressionsOnly).
Qed.

(** ** The constructor table, made and read back *)

(** X3. The constructors read back from a module in which [makeConstructor]
    has just installed its table are the new constructor function alone,
    whatever the table held before: [getConstructors] after
    [makeConstructor] yields one value, the internal function of the given
    name that [makeConstructor] appended to the module, the only function of
    that name.  The name is taken to be free in the module ([Hfree]), and
    no function to be named [llvm.global_ctors] ([Hfn]). *)
Theorem constructor_is_sole_entry (m : Module) (name : string)
  (ctor : Function) (m' : Module)
  (Hgw : Forall (fun g => gv_id g < m_next m) (m_globals m))
  (Hone : forall g1 g2, In g1 (m_globals m) -> In g2 (m_globals m) ->
            gv_name g1 = "llvm.global_ctors" ->
            gv_name g2 = "llvm.global_ctors" -> g1 = g2)
  (Hlink : forall g, In g (m_globals m) -> gv_name g = "llvm.global_ctors" ->
             hasLocalLinkage (gv_linkage g) = false)
  (Hfree : nameFree m name = true)
  (Hfn : forall f, In f (m_functions m) -> fn_name f <> "llvm.global_ctors")
  (Hmake : makeConstructor m name = (ctor, m')) :
  getConstructors m' = [VConst (GFunction (fn_id ctor))]
  /\ m_functions m' = m_functions m ++ [ctor]
  /\ fn_name ctor = name /\ fn_linkage ctor = InternalLinkage
  /\ fn_type ctor = FunctionTy VoidTy [] false
  /\ (forall g, In g (m_functions m') -> fn_name g = name -> g = ctor).
Proof.
  destruct (makeConstructor_functions _ _ _ _ Hmake) as (Ec & Ef & En).
  destruct (makeConstructor_globals m name ctor m' Hgw Hmake) as (Ht & Hcl).
  split; [|subst ctor; repeat split; auto].
  2:{ intros g Hg Eg. rewrite Ef in Hg. apply in_app_or in Hg.
      destruct Hg as [Hg|[<-|[]]]; [|reflexivity]. exfalso.
      unfold nameFree in Hfree. apply negb_true_iff in Hfree.
      assert (Hx : existsb (String.eqb name) (globalNames m) = true);
        [|congruence].
      apply existsb_exists. exists (fn_name g). split.
      - unfold globalNames. apply in_or_app. left. now apply in_map.
      - apply String.eqb_eq. auto. }
  assert (Hsole : forall g, In g (m_globals m') ->
            gv_name g = "llvm.global_ctors" -> g = ctorGlobal (m_next m)).
  { intros g Hg Eg. destruct (Hcl g Hg) as [->|[Hold Hne]]; auto. exfalso.
    unfold getGlobalVariable in Hne.
    destruct (find (fun g0 => String.eqb (gv_name g0) "llvm.global_ctors")
                (m_globals m)) as [g1|] eqn:E1.
    - apply find_some in E1. destruct E1 as [H1 N1]. apply String.eqb_eq in N1.
      rewrite (Hlink g1 H1 N1) in Hne. cbn in Hne.
      apply (Hne g1 eq_refl). now rewrite (Hone g g1 Hold H1 Eg N1).
    - apply (find_none _ _ E1) in Hold. simpl in Hold.
      rewrite Eg in Hold. discriminate. }
  unfold getConstructors, getGlobalVariable.
  destruct (find (fun g => String.eqb (gv_name g) "llvm.global_ctors")
              (m_globals m')) as [t|] eqn:E.
  - apply find_some in E. destruct E as [Hin Et]. apply String.eqb_eq in Et.
    rewrite (Hsole t Hin Et). subst ctor. reflexivity.
  - apply (find_none _ _ E) in Ht. discriminate.
Qed.

Lemma constructor_is_sole_entry_witness :
  getConstructors example_program = [VConst (GFunction 2)]
  /\ getConstructors (snd (makeConstructor example_program "stabilizer.module_ctor"))
     = [VConst (GFunction 6)].
Proof.
  split; [reflexivity|].
  destruct (makeConstructor example_program "stabilizer.module_ctor")
    as [ctor m'] eqn:E.
  assert (Ei : fn_id ctor = 6).
  { apply makeConstructor_functions in E. destruct E as (-> & _). reflexivity. }
  rewrite <- Ei.
  apply (constructor_is_sole_entry example_program "stabilizer.module_ctor"
           ctor m').
  - repeat constructor.
  - exact example_program_one_table.
  - exact example_program_table_linkage.
  - reflexivity.
  - intros f [<-|[<-|[]]]; discriminate.
  - exact E.
Defined.

(** ** What the randomization of one function leaves alone *)

(** X4. [randomizeCode] on a function returns, and it only touches that
    function: every other function of the module and every global variable
    is in the result as it was; what the result has besides are functions
    and global variables with new handles.  The function itself keeps its
    handle and its name. *)
Theorem code_randomization_frame (addr : Constant -> N) (ua : Use -> N)
  (m : Module) (f : Function) :
  exists m' args,
    randomizeCode addr ua m f = Some (m', args)
    /\ (forall g, In g (m_functions m) -> fn_id g <> fn_id f ->
          fn_id g < m_next m -> In g (m_functions m'))
    /\ (forall g, In g (m_functions m) ->
          exists g', In g' (m_functions m') /\ fn_id g' = fn_id g
                     /\ fn_name g' = fn_name g)
    /\ (forall g', In g' (m_functions m') ->
          (exists g, In g (m_functions m) /\ fn_id g' = fn_id g
                     /\ fn_name g' = fn_name g)
          \/ m_next m <= fn_id g' < m_next m')
    /\ (forall x, In x (m_globals m) -> In x (m_globals m'))
    /\ (forall x', In x' (m_globals m') ->
          In x' (m_globals m) \/ m_next m <= gv_id x' < m_next m').
Proof.
  destruct (randomizeCode_total addr ua m f) as ([m' args] & Er).
  exists m', args. split; [exact Er|].
  pose proof (randomizeCode_steps
                (fun g => fn_id g = fn_id f \/ m_next m <= fn_id g)
                (fun h => h = fn_id f) (fun _ => False)
                addr ua m f m' args eq_refl
                (fun g E => or_introl E) (fun g E => or_intror E) Er)
    as [(_ & [Fa Fb] & _) (_ & [Ga Gb])].
  split; [|split; [|split; [|split]]].
  - intros g Hg Hne Hlt. destruct (Fa g Hg) as (g' & Hg' & _ & Eg).
    rewrite <- Eg; auto. intros [E|E]; [auto|lia].
  - intros g Hg. destruct (Fa g Hg) as (g' & Hg' & [Ei En] & _). eauto.
  - intros g' Hg'. destruct (Fb g' Hg') as [(g & Hg & [Ei En] & _)|[Hr _]]; eauto.
  - intros x Hx. destruct (Ga x Hx) as (x' & Hx' & _ & Ex).
    rewrite <- Ex; auto.
  - intros x' Hx'. destruct (Gb x' Hx') as [(x & Hx & _ & Ex)|[Hr _]]; auto.
    left. rewrite Ex; auto.
Qed.

(** X5. [randomizeStack] on a function changes no global variable and no
    other function, and adds nothing but declarations named
    [llvm.stacksave] and [llvm.stackrestore]; when the function has no call
    instruction, the function itself is left as it was. *)
Theorem stack_randomization_frame (m : Module) (f : Function) (pad : Handle)
  (Hwf : wfFunctions m) (Hf : In f (m_functions m)) :
  let m' := randomizeStack m f pad in
  m_globals m' = m_globals m
  /\ (forall g, In g (m_functions m) -> fn_id g <> fn_id f ->
        In g (m_functions m'))
  /\ (forall g', In g' (m_functions m') ->
        (exists g, In g (m_functions m) /\ fn_id g' = fn_id g
                   /\ (fn_id g <> fn_id f -> g' = g))
        \/ (m_next m <= fn_id g' /\ isDeclaration g' = true
            /\ (fn_name g' = "llvm.stacksave"
                \/ fn_name g' = "llvm.stackrestore")))
  /\ (filter isCallInst (allInsts (fn_blocks f)) = [] ->
      forall g, In g (m_functions m) -> In g (m_functions m')).
Proof.
  assert (Hold : forall g, In g (m_functions m) -> fn_id g < m_next m).
  { destruct Hwf as [_ Hall]. now rewrite Forall_forall in Hall. }
  cbv zeta. unfold randomizeStack.
  (* the functions after the two declarations *)
  assert (Hdecl : forall mm name t,
            (forall g, In g (m_functions mm) ->
               In g (m_functions m)
               \/ (m_next m <= fn_id g < m_next mm /\ isDeclaration g = true
                   /\ (fn_name g = "llvm.stacksave"
                       \/ fn_name g = "llvm.stackrestore"))) ->
            m_next m <= m_next mm ->
            name = "llvm.stacksave" \/ name = "llvm.stackrestore" ->
            let mm' := snd (getOrInsertFunction mm name t) in
            (forall g, In g (m_functions mm) -> In g (m_functions mm'))
            /\ (forall g, In g (m_functions mm') ->
                  In g (m_functions m)
                  \/ (m_next m <= fn_id g < m_next mm' /\ isDeclaration g = true
                      /\ (fn_name g = "llvm.stacksave"
                          \/ fn_name g = "llvm.stackrestore")))
            /\ m_next mm <= m_next mm' /\ m_globals mm' = m_globals mm).
  { intros mm name t Hmm Hn Hname. cbv zeta. unfold getOrInsertFunction.
    destruct (getFunction mm name); cbn [snd createFunction m_functions m_next m_globals].
    - repeat split; auto.
    - split; [intros g Hg; apply in_or_app; now left|].
      split; [|split; [lia|reflexivity]].
      intros g Hg. apply in_app_or in Hg. destruct Hg as [Hg|[<-|[]]].
      + destruct (Hmm g Hg) as [H|(H1 & H2 & H3)]; auto.
        right. repeat split; auto; lia.
      + right. cbn. repeat split; auto; lia. }
  destruct (Hdecl m "llvm.stacksave" (FunctionTy Int8PtrTy [] false))
    as (K1 & N1 & L1 & G1); auto.
  destruct (getOrInsertFunction m "llvm.stacksave" _) as [ss m1].
  cbn [snd] in K1, N1, L1, G1.
  destruct (Hdecl m1 "llvm.stackrestore" (FunctionTy VoidTy [Int8PtrTy] false))
    as (K2 & N2 & L2 & G2); auto.
  destruct (getOrInsertFunction m1 "llvm.stackrestore" _) as [sr m2].
  cbn [snd] in K2, N2, L2, G2.
  destruct (fold_left _ _ (m_next m2, fn_blocks f)) as [n bs] eqn:Efold.
  cbn [set_next updateFunction set_functions m_functions m_globals].
  split; [congruence|]. split; [|split].
  - intros g Hg Hne. apply in_map_iff. exists g.
    apply Nat.eqb_neq in Hne. rewrite Hne. auto.
  - intros g' Hg'. apply in_map_iff in Hg'. destruct Hg' as (g & <- & Hg).
    destruct (N2 g Hg) as [H|(H1 & H2 & H3)].
    + left. exists g. split; auto. split.
      * now destruct (fn_id g =? fn_id f).
      * intros Hne. apply Nat.eqb_neq in Hne. now rewrite Hne.
    + right. assert (E : (fn_id g =? fn_id f) = false).
      { apply Nat.eqb_neq. apply Hold in Hf. lia. }
      rewrite E. repeat split; auto; lia.
  - intros Hnone g Hg. rewrite Hnone in Efold. cbn in Efold.
    injection Efold as <- <-. apply in_map_iff. exists g. split; auto.
    destruct (fn_id g =? fn_id f) eqn:E; auto. apply Nat.eqb_eq in E.
    rewrite (wfFunctions_unique m g f Hwf Hg Hf E). now destruct f.
Qed.

Lemma stack_randomization_frame_witness :
  wfFunctions example_calls /\ In example_callee (m_functions example_calls)
  /\ randomizeStack example_calls example_callee 7
     = mkModule "x86_64-unknown-linux-gnu" 8
         [example_callee; example_caller;
          mkFunction 8 "llvm.stacksave" (FunctionTy Int8PtrTy [] false)
            ExternalLinkage None [] [];
          mkFunction 9 "llvm.stackrestore" (FunctionTy VoidTy [Int8PtrTy] false)
            ExternalLinkage None [] []]
         (m_globals example_calls) 10
  /\ In example_caller (m_functions (randomizeStack example_calls example_callee 7)).
Proof.
  assert (Hwf : wfFunctions example_calls).
  { split.
    - simpl. repeat constructor; simpl; intuition discriminate.
    - repeat constructor; simpl; lia. }
  assert (Hin : In example_callee (m_functions example_calls))
    by (simpl; auto).
  split; [exact Hwf|]. split; [exact Hin|]. split; [reflexivity|].
  destruct (stack_randomization_frame example_calls example_callee 7 Hwf Hin)
    as (_ & _ & _ & Hall).
  apply Hall; [reflexivity|]. simpl. auto.
Defined.

(** ** Floating-point literals are moved to global variables *)

Lemma cleanBelow_next k j :
  cleanBelow k j ->
  (forall v, nth_error (i_operands j) k = Some v -> floatOperand v = false) ->
  cleanBelow (S k) j.
Proof.
  intros Hc Hk k' v Hlt Ev. destruct (Nat.eq_dec k' k) as [->|Hne]; auto.
  apply (Hc k' v); auto. lia.
Qed.

Lemma extractOperand_clean h st k :
  wfBody (m_next (fst st)) (snd st) ->
  (forall j, In j (allInsts (snd st)) -> i_id j = h -> cleanBelow k j) ->
  forall j', In j' (allInsts (snd (extractOperand h st k))) -> i_id j' = h ->
             cleanBelow (S k) j'.
Proof.
  destruct st as [m bs]. cbn [fst snd]. intros [Hnd Hlt] Hclean.
  unfold extractOperand.
  destruct (findInst bs h) as [i|] eqn:Ef.
  2:{ cbn [snd]. intros j' Hj' Ej'.
      destruct (findInst_exists bs h j' Hj' Ej') as (y & Ey). congruence. }
  apply findInst_Some in Ef. destruct Ef as [Hi Ei].
  assert (Hu : forall j, In j (allInsts bs) -> i_id j = h -> j = i).
  { intros j Hj Ej. apply (NoDup_ids_unique bs); auto. congruence. }
  destruct (nth_error (i_operands i) k) as [v|] eqn:En.
  2:{ cbn [snd]. intros j' Hj' Ej'. rewrite (Hu j' Hj' Ej').
      apply cleanBelow_next; auto. intros v. rewrite En. discriminate. }
  assert (Hkeep : floatOperand v = false ->
            forall j', In j' (allInsts bs) -> i_id j' = h -> cleanBelow (S k) j').
  { intros Hv j' Hj' Ej'. rewrite (Hu j' Hj' Ej').
    apply cleanBelow_next; auto. intros w. rewrite En. now intros [= <-]. }
  destruct v as [x|x y|x|c|x]; try (cbn [snd]; now apply Hkeep).
  destruct (containsConstantFloat c) eqn:Ec; [|cbn [snd]; now apply Hkeep].
  cbn [snd createGlobal m_next gv_id i_id]. intros j' Hj' Ej'.
  unfold setOperand in Hj'. rewrite allInsts_updateInst in Hj'.
  apply in_map_iff in Hj'. destruct Hj' as (y & Ey & Hy).
  apply insertBefore_In in Hy. destruct Hy as [->|Hy].
  - exfalso. cbn [i_id] in Ey.
    rewrite Forall_forall in Hlt.
    assert (h < m_next m).
    { apply Hlt. unfold ids. rewrite <- Ei. now apply in_map. }
    destruct (S (m_next m) =? h) eqn:E.
    + apply Nat.eqb_eq in E. lia.
    + subst j'. cbn in Ej'. lia.
  - assert (Ey' : i_id y = h).
    { destruct (i_id y =? h) eqn:E; [now apply Nat.eqb_eq|now subst j']. }
    rewrite Ey' , Nat.eqb_refl in Ey. subst j'. rewrite (Hu y Hy Ey').
    apply cleanBelow_next.
    + intros k' w Hk' Ew. cbn [i_operands set_operands] in Ew.
      rewrite nth_error_setNth_other in Ew by lia.
      apply (Hclean i Hi Ei k' w); auto.
    + intros w. cbn [i_operands set_operands].
      rewrite nth_error_setNth_same.
      * now intros [= <-].
      * apply nth_error_Some. congruence.
Qed.

Lemma extractOperand_others h st k j' :
  In j' (allInsts (snd (extractOperand h st k))) -> i_id j' <> h ->
  In j' (allInsts (snd st))
  \/ (m_next (fst st) <= i_id j' /\ hasFloatOperand j' = false).
Proof.
  destruct st as [m bs]. cbn [fst snd]. unfold extractOperand.
  destruct (findInst bs h) as [i|]; [|now left].
  destruct (nth_error (i_operands i) k) as [[x|x y|x|c|x]|]; try now left.
  destruct (containsConstantFloat c); [|now left].
  cbn [snd createGlobal m_next gv_id i_id]. intros Hj' Hne.
  unfold setOperand in Hj'. rewrite allInsts_updateInst in Hj'.
  apply in_map_iff in Hj'. destruct Hj' as (y & Ey & Hy).
  assert (Ey' : j' = y).
  { destruct (i_id y =? h) eqn:E; auto. apply Nat.eqb_eq in E.
    subst j'. cbn in Hne. contradiction. }
  subst y. apply insertBefore_In in Hy. destruct Hy as [->|Hy]; auto.
  right. cbn. split; [lia|reflexivity].
Qed.

Lemma extractOperand_length h st k j' :
  In j' (allInsts (snd (extractOperand h st k))) -> i_id j' = h ->
  h < m_next (fst st) ->
  exists j, In j (allInsts (snd st)) /\ i_id j = h
            /\ List.length (i_operands j') = List.length (i_operands j).
Proof.
  destruct st as [m bs]. cbn [fst snd]. unfold extractOperand.
  destruct (findInst bs h) as [i|]; [|eauto].
  destruct (nth_error (i_operands i) k) as [[x|x y|x|c|x]|]; eauto.
  destruct (containsConstantFloat c); eauto.
  cbn [snd createGlobal m_next gv_id i_id]. intros Hj' Ej' Hlt.
  unfold setOperand in Hj'. rewrite allInsts_updateInst in Hj'.
  apply in_map_iff in Hj'. destruct Hj' as (y & Ey & Hy).
  apply insertBefore_In in Hy. destruct Hy as [->|Hy].
  - exfalso. cbn [i_id] in Ey. destruct (S (m_next m) =? h) eqn:E.
    + apply Nat.eqb_eq in E. lia.
    + subst j'. cbn in Ej'. lia.
  - exists y. split; auto. destruct (i_id y =? h) eqn:E.
    + apply Nat.eqb_eq in E. split; auto. subst j'. cbn.
      apply length_setNth.
    + subst j'. auto.
Qed.

Lemma fold_extractOperand_floats h n : forall s st,
  wfBody (m_next (fst st)) (snd st) -> h < m_next (fst st) ->
  (forall j, In j (allInsts (snd st)) -> i_id j = h -> cleanBelow s j) ->
  let st' := fold_left (extractOperand h) (seq s n) st in
  (forall j', In j' (allInsts (snd st')) -> i_id j' = h ->
     cleanBelow (s + n) j'
     /\ exists j, In j (allInsts (snd st)) /\ i_id j = h
                  /\ List.length (i_operands j') = List.length (i_operands j))
  /\ (forall j', In j' (allInsts (snd st')) -> i_id j' <> h ->
        In j' (allInsts (snd st))
        \/ (m_next (fst st) <= i_id j' /\ hasFloatOperand j' = false)).
Proof.
  induction n as [|n IH]; intros s st Hwf Hlt Hc; cbn [seq fold_left].
  - split; [|auto]. intros j' Hj' Ej'. rewrite Nat.add_0_r. split; eauto.
  - pose proof (extractOperand_wf h st s Hwf) as Hwf1.
    pose proof (extractOperand_clean h st s Hwf Hc) as Hc1.
    destruct (extractOperand_changes h st s) as (_ & Hn & _).
    destruct (IH (S s) (extractOperand h st s) Hwf1 ltac:(lia) Hc1) as [A B].
    split.
    + intros j' Hj' Ej'. destruct (A j' Hj' Ej') as (Hcl & j1 & Hj1 & E1 & L1).
      split; [now rewrite <- Nat.add_succ_comm|].
      destruct (extractOperand_length h st s j1 Hj1 E1 Hlt) as (j & Hj & E & L).
      exists j. split; auto. split; auto. congruence.
    + intros j' Hj' Ne. destruct (B j' Hj' Ne) as [Hold|[Hge Hf]].
      * destruct (extractOperand_others h st s j' Hold Ne) as [H|[H1 H2]]; auto.
      * right. split; [lia|auto].
Qed.

Lemma floatOperand_rename r v :
  floatOperand (renameInstValue r v) = floatOperand v.
Proof. now destruct v. Qed.

Lemma hasFloatOperand_rename r j :
  hasFloatOperand (set_operands j (map (renameInstValue r) (i_operands j)))
  = hasFloatOperand j.
Proof.
  unfold hasFloatOperand. cbn [i_operands set_operands].
  induction (i_operands j) as [|v l IH]; simpl; auto.
  now rewrite floatOperand_rename, IH.
Qed.

Lemma cleanBelow_all j :
  cleanBelow (List.length (i_operands j)) j -> hasFloatOperand j = false.
Proof.
  intros Hc. unfold hasFloatOperand.
  destruct (existsb floatOperand (i_operands j)) eqn:E; auto.
  apply existsb_exists in E. destruct E as (v & Hv & Ev).
  apply In_nth_error in Hv. destruct Hv as (k & Ek).
  rewrite (Hc k v) in Ev; [discriminate| |exact Ek].
  apply nth_error_Some. congruence.
Qed.

Local Opaque insertBefore.

Lemma floatInv_step f n0 orig P st h st' :
  floatInv n0 orig P st ->
  extractStep f (Some st) h = Some st' ->
  floatInv n0 orig (P ++ [h]) st'.
Proof.
  destruct st as [[m bs] del]. intros (Hwf & Hn & Hfl) Hstep.
  pose proof Hstep as Hstep'. destruct st' as [[m' bs'] del'].
  apply (extractStep_wf f m bs del h m' bs' del' Hwf) in Hstep'.
  unfold floatInv. split; [exact Hstep'|].
  assert (Hkeep : forall j, In j (allInsts bs) -> hasFloatOperand j = true ->
            i_id j <> h ->
            (In (i_id j) orig /\ ~ In (i_id j) (P ++ [h]))
            \/ In (i_id j) del \/ (n0 <= i_id j /\ i_op j = Call)).
  { intros j Hj Hf Hne. destruct (Hfl j Hj Hf) as [[H1 H2]|H]; auto.
    left. split; auto. intros Hin. apply in_app_or in Hin.
    destruct Hin as [Hin|[E|[]]]; auto. }
  revert Hstep. unfold extractStep.
  destruct (findInst bs h) as [i|] eqn:Ef.
  2:{ intros [= <- <- <-]. split; auto. intros j Hj Hf.
      apply Hkeep; auto. intros E.
      destruct (findInst_exists bs h j Hj E) as (y & Ey). congruence. }
  pose proof (findInst_Some _ _ _ Ef) as [Hi Ei].
  destruct (isConversion m i).
  - destruct (getFloatConversion _ _ _ _) as [[conv mc]|] eqn:Eg; [|discriminate].
    intros [= <- <- <-]. cbn [m_next set_next].
    pose proof (getFloatConversion_next _ _ _ _ _ _ Eg) as Hmc.
    split; [lia|]. intros j Hj Hf.
    rewrite allInsts_replaceInstUses in Hj. apply in_map_iff in Hj.
    destruct Hj as (j0 & <- & Hj0). rewrite hasFloatOperand_rename in Hf.
    cbn [i_id set_operands]. apply insertBefore_In in Hj0.
    destruct Hj0 as [->|Hj0].
    + right. right. cbn. split; [lia|reflexivity].
    + destruct (Nat.eq_dec (i_id j0) h) as [E|E].
      * right. left. apply in_or_app. right. left. congruence.
      * destruct (Hkeep j0 Hj0 Hf E) as [H|[H|H]]; auto.
        right. left. apply in_or_app. now left.
  - assert (Hlt : h < m_next m).
    { destruct Hwf as [_ Hall]. rewrite Forall_forall in Hall.
      apply Hall. unfold ids. rewrite <- Ei. now apply in_map. }
    destruct (fold_extractOperand_floats h (List.length (i_operands i)) 0 (m, bs)
                Hwf Hlt) as [A B].
    { intros j _ _ k' v Hk'. lia. }
    destruct (fold_extractOperand_changes h (seq 0 (List.length (i_operands i)))
                (m, bs)) as (_ & Hn2 & _).
    destruct (fold_left _ _ (m, bs)) as [m2 bs2].
    cbn [fst snd] in A, B, Hn2. intros [= <- <- <-]. split; [lia|].
    intros j Hj Hf. destruct (Nat.eq_dec (i_id j) h) as [E|E].
    + exfalso. destruct (A j Hj E) as (Hcl & j1 & Hj1 & E1 & L1).
      assert (j1 = i).
      { destruct Hwf as [Hnd _]. apply (NoDup_ids_unique bs); auto. congruence. }
      subst j1. cbn [Nat.add] in Hcl. rewrite <- L1 in Hcl.
      apply cleanBelow_all in Hcl. congruence.
    + destruct (B j Hj E) as [Hold|[_ Hno]]; [|congruence].
      now apply Hkeep.
Qed.

Local Transparent insertBefore.

Lemma floatInv_fold f n0 orig l : forall P st st',
  floatInv n0 orig P st ->
  fold_left (extractStep f) l (Some st) = Some st' ->
  floatInv n0 orig (P ++ l) st'.
Proof.
  induction l as [|h l IH]; intros P st st' Hinv; cbn [fold_left].
  - intros [= <-]. now rewrite app_nil_r.
  - destruct st as [[m bs] del].
    destruct (extractStep_total f m bs del h) as (m1 & bs1 & del1 & E & _).
    rewrite E. intros Hfold.
    replace (P ++ h :: l) with ((P ++ [h]) ++ l) by now rewrite <- app_assoc.
    eapply IH; [|exact Hfold]. eapply floatInv_step; eauto.
Qed.

(** X6. [extractFloatOperations] returns, and in the body it leaves an
    operand in which [containsConstantFloat] finds a floating-point literal
    stands nowhere but in the calls that the pass has put in place of the
    conversions: every other instruction has had each such operand
    replaced. *)
Theorem float_constants_extracted (m : Module) (f : Function)
  (Hwf : wfBody (m_next m) (fn_blocks f)) :
  exists m',
    extractFloatOperations m f = Some m'
    /\ forall j, In j (allInsts (bodyOf m' (fn_id f))) ->
       forall c, In (VConst c) (i_operands j) ->
                 containsConstantFloat c = true ->
                 m_next m <= i_id j /\ i_op j = Call.
Proof.
  destruct (extractFloatOperations_total m f) as (m' & Em & _).
  exists m'. split; [exact Em|]. revert Em. unfold extractFloatOperations.
  destruct (fold_left _ _ _) as [[[m1 bs1] del1]|] eqn:E; [|discriminate].
  intros [= <-].
  assert (Hinit : floatInv (m_next m) (ids (fn_blocks f)) [] (m, fn_blocks f, [])).
  { split; [exact Hwf|]. split; [lia|]. intros j Hj _. left.
    split; [|intros []]. unfold ids. now apply in_map. }
  pose proof (floatInv_fold f _ _ _ _ _ _ Hinit E) as (_ & _ & Hfl).
  cbn [app] in Hfl.
  intros j Hj c Hc Hfc. unfold bodyOf in Hj.
  rewrite lookupFunction_updateFunction in Hj by reflexivity.
  rewrite Nat.eqb_refl in Hj.
  destruct (lookupFunction m1 (fn_id f)); cbn in Hj; [|contradiction].
  rewrite allInsts_eraseInsts in Hj. apply filter_In in Hj.
  destruct Hj as [Hj Hk]. apply negb_true_iff in Hk.
  assert (Hf : hasFloatOperand j = true).
  { apply existsb_exists. exists (VConst c). auto. }
  destruct (Hfl j Hj Hf) as [[H1 H2]|[H|H]]; auto.
  - contradiction.
  - exfalso. assert (existsb (Nat.eqb (i_id j)) del1 = true); [|congruence].
    apply existsb_exists. exists (i_id j). split; auto. apply Nat.eqb_refl.
Qed.

Lemma float_constants_extracted_witness :
  wfBody (m_next example_floats) (fn_blocks example_half)
  /\ exists m',
       extractFloatOperations example_floats example_half = Some m'
       /\ bodyOf m' 1
          = [mkBasicBlock 2 "entry"
               [mkInstruction 6 Load DoubleTy "fconst.load" false
                  [VConst (GVariable 5)] [];
                mkInstruction 3 FMul DoubleTy "y" false [VArg 1 0; VInst 6] [];
                mkInstruction 4 Ret VoidTy "" false [VInst 3] []]]
       /\ forall j, In j (allInsts (bodyOf m' 1)) ->
          forall c, In (VConst c) (i_operands j) ->
                    containsConstantFloat c = true ->
                    5 <= i_id j /\ i_op j = Call.
Proof.
  assert (Hwf : wfBody (m_next example_floats) (fn_blocks example_half)).
  { split.
    - simpl. repeat constructor; simpl; intuition discriminate.
    - repeat constructor. }
  split; [exact Hwf|].
  destruct (float_constants_extracted example_floats example_half Hwf)
    as (m' & Em & H).
  exists m'. split; [exact Em|]. split; [|exact H].
  vm_compute in Em. injection Em as <-. reflexivity.
Defined.

(** *** What the loop leaves as it is *)

Lemma set_operands_chain j j1 j2 :
  j1 = set_operands j (i_operands j1) -> j2 = set_operands j1 (i_operands j2) ->
  j2 = set_operands j (i_operands j2).
Proof. destruct j, j1, j2. unfold set_operands. cbn. congruence. Qed.

Lemma set_operands_id j j' :
  j' = set_operands j (i_operands j') -> i_id j' = i_id j /\ i_op j' = i_op j.
Proof. intros ->. auto. Qed.

Lemma keeps_refl n0 V bs : keeps n0 V bs bs.
Proof. intros j Hj. exists j. repeat split; auto. now destruct j. Qed.

Lemma keeps_trans n0 V bs1 bs2 bs3 :
  keeps n0 V bs1 bs2 -> keeps n0 V bs2 bs3 -> keeps n0 V bs1 bs3.
Proof.
  intros H1 H2 j Hj. destruct (H1 j Hj) as (j1 & Hj1 & E1 & L1 & K1).
  destruct (H2 j1 Hj1) as (j2 & Hj2 & E2 & L2 & K2).
  exists j2. split; auto. split; [eapply set_operands_chain; eauto|].
  split; [congruence|]. intros k v Ev Hs. apply K2; auto.
  destruct (set_operands_id _ _ E1) as [Ei _]. now rewrite Ei.
Qed.

Lemma extractOperand_keeps n0 (V : Handle -> Prop) h st k :
  wfBody (m_next (fst st)) (snd st) -> V h ->
  keeps n0 V (snd st) (snd (extractOperand h st k)).
Proof.
  destruct st as [m bs]. cbn [fst snd]. intros [Hnd Hlt] Hv.
  unfold extractOperand.
  destruct (findInst bs h) as [i|] eqn:Ef; [|apply keeps_refl].
  apply findInst_Some in Ef. destruct Ef as [Hi Ei].
  destruct (nth_error (i_operands i) k) as [[x|x y|x|c|x]|] eqn:En;
    try apply keeps_refl.
  destruct (containsConstantFloat c) eqn:Ec; [|apply keeps_refl].
  cbn [snd createGlobal m_next gv_id i_id]. intros j Hj.
  exists (if i_id j =? h
          then set_operands j (setNth k (VInst (S (m_next m))) (i_operands j))
          else j).
  split.
  { unfold setOperand. rewrite allInsts_updateInst. apply in_map_iff.
    exists j. split; [reflexivity|]. now apply insertBefore_keeps. }
  destruct (i_id j =? h) eqn:E.
  - apply Nat.eqb_eq in E.
    assert (j = i) by (apply (NoDup_ids_unique bs); auto; congruence).
    subst j. split; [reflexivity|]. split; [apply length_setNth|].
    intros k' v Ev Hs. cbn [i_operands set_operands].
    destruct (Nat.eq_dec k' k) as [->|Hne].
    + rewrite En in Ev. injection Ev as <-. cbn in Hs.
      destruct Hs as [Hs|Hs]; [congruence|]. exfalso. apply Hs. now rewrite Ei.
    + now rewrite nth_error_setNth_other.
  - split; [now destruct j|]. split; auto.
Qed.

Lemma fold_extractOperand_keeps n0 (V : Handle -> Prop) h l : forall st,
  wfBody (m_next (fst st)) (snd st) -> V h ->
  keeps n0 V (snd st) (snd (fold_left (extractOperand h) l st)).
Proof.
  induction l as [|k l IH]; intros st Hwf Hv; cbn [fold_left];
    [apply keeps_refl|].
  apply (keeps_trans n0 V _ (snd (extractOperand h st k)));
    [apply extractOperand_keeps; auto|].
  apply (IH (extractOperand h st k)); auto. now apply extractOperand_wf.
Qed.

Local Opaque insertBefore.

Lemma extractStep_keeps n0 (V : Handle -> Prop) f m bs del h m' bs' del' :
  wfBody (m_next m) bs -> V h -> h < n0 ->
  extractStep f (Some (m, bs, del)) h = Some (m', bs', del') ->
  keeps n0 V bs bs'.
Proof.
  intros Hwf Hv Hlt. unfold extractStep.
  destruct (findInst bs h) as [i|] eqn:Ef;
    [|intros [= <- <- <-]; apply keeps_refl].
  apply findInst_Some in Ef. destruct Ef as [Hi Ei].
  destruct (isConversion m i).
  - destruct (getFloatConversion _ _ _ _) as [[conv mc]|]; [|discriminate].
    intros [= <- <- <-]. intros j Hj.
    exists (set_operands j
              (map (renameInstValue (redirect (i_id i) (m_next mc)))
                   (i_operands j))).
    split.
    { rewrite allInsts_replaceInstUses. apply in_map_iff. exists j.
      split; [reflexivity|]. now apply insertBefore_keeps. }
    split; [reflexivity|]. split; [apply length_map|].
    intros k v Ev Hs. cbn [i_operands set_operands].
    rewrite nth_error_map, Ev. cbn [option_map]. f_equal.
    destruct v as [x|x y|x|c|x]; auto. cbn in *. unfold redirect.
    destruct (x =? i_id i) eqn:E; auto. apply Nat.eqb_eq in E. lia.
  - pose proof (fold_extractOperand_keeps n0 V h
                  (seq 0 (List.length (i_operands i))) (m, bs) Hwf Hv) as Hk.
    destruct (fold_left _ _ (m, bs)) as [m2 bs2]. intros [= <- <- <-].
    exact Hk.
Qed.

Local Transparent insertBefore.

Lemma extractStep_next f m bs del h m' bs' del' :
  extractStep f (Some (m, bs, del)) h = Some (m', bs', del') ->
  m_next m <= m_next m'
  /\ (forall g, In g (m_globals m) -> In g (m_globals m'))
  /\ (forall x, In x del' -> In x del \/ x = h).
Proof.
  intros E.
  pose proof (extractStep_steps (fun _ => True) (fun _ => True) (fun _ => False)
                f m bs del h m' bs' del' (fun _ _ => I) E)
    as [(Hn & _) (_ & [Ga _])].
  split; [exact Hn|]. split.
  - intros g Hg. destruct (Ga g Hg) as (g' & Hg' & _ & Eg).
    rewrite <- Eg; auto.
  - revert E. unfold extractStep. destruct (findInst bs h) as [i|] eqn:Ef.
    + apply findInst_Some in Ef. destruct Ef as [_ Ei].
      destruct (isConversion m i).
      * destruct (getFloatConversion _ _ _ _) as [[conv mc]|]; [|discriminate].
        intros [= <- <- <-] x Hx. apply in_app_or in Hx.
        destruct Hx as [Hx|[<-|[]]]; auto.
      * destruct (fold_left _ _ (m, bs)) as [m2 bs2]. intros [= <- <- <-]. auto.
    + intros [= <- <- <-]. auto.
Qed.

Lemma fold_extractStep_keeps n0 (V : Handle -> Prop) f l :
  forall m bs del m' bs' del',
  wfBody (m_next m) bs -> (forall h, In h l -> V h /\ h < n0) ->
  fold_left (extractStep f) l (Some (m, bs, del)) = Some (m', bs', del') ->
  keeps n0 V bs bs'
  /\ wfBody (m_next m') bs' /\ m_next m <= m_next m'
  /\ m_triple m' = m_triple m
  /\ (forall g, In g (m_globals m) -> In g (m_globals m'))
  /\ (forall x, In x del' -> In x del \/ In x l).
Proof.
  induction l as [|h l IH]; intros m bs del m' bs' del' Hwf Hl; cbn [fold_left].
  - intros [= <- <- <-]. split; [apply keeps_refl|]. split; [exact Hwf|].
    repeat split; auto.
  - destruct (extractStep_total f m bs del h) as (m1 & bs1 & del1 & E & Et).
    rewrite E. intros Hfold.
    destruct (Hl h (or_introl eq_refl)) as [Hv Hlt].
    pose proof (extractStep_keeps n0 V f m bs del h m1 bs1 del1 Hwf Hv Hlt E) as K1.
    pose proof (extractStep_wf f m bs del h m1 bs1 del1 Hwf E) as W1.
    destruct (extractStep_next f m bs del h m1 bs1 del1 E) as (N1 & G1 & D1).
    destruct (IH m1 bs1 del1 m' bs' del' W1 (fun x Hx => Hl x (or_intror Hx)) Hfold)
      as (K2 & W2 & N2 & T2 & G2 & D2).
    split; [eapply keeps_trans; eauto|]. split; [exact W2|]. split; [lia|].
    split; [congruence|]. split; [auto|].
    intros x Hx. destruct (D2 x Hx) as [H|H]; [|right; now right].
    destruct (D1 x H) as [H'|E']; [now left|right; now left].
Qed.

(** *** The replacement of a literal *)

Lemma float_type m1 m2 c :
  containsConstantFloat c = true -> getTypeC m1 c = getTypeC m2 c.
Proof. destruct c; simpl; auto; discriminate. Qed.

Lemma extractedAt_keeps n0 V m mk mk' bs bs' h k c :
  extractedAt n0 m mk bs h k c -> keeps n0 V bs bs' ->
  (forall g, In g (m_globals mk) -> In g (m_globals mk')) ->
  extractedAt n0 m mk' bs' h k c.
Proof.
  intros (j & l & g & Hj & Ej & Ek & Hl & Hg & Hgl & Hld) Hk Hgs.
  destruct (Hk j Hj) as (j' & Hj' & E' & L' & K').
  destruct (set_operands_id _ _ E') as [Ei Eo].
  exists j', l, g. split; auto. split; [congruence|].
  split; [apply K'; auto; exact Hl|]. split; auto. split; auto. split; auto.
  intros Hphi. unfold isPHI in *. rewrite Eo in Hphi. specialize (Hld Hphi).
  destruct (Hk _ Hld) as (ld' & Hld' & El & Ll & Kl).
  replace (fconstLoad m l g c) with ld'; auto.
  rewrite El. unfold fconstLoad, set_operands. cbn. f_equal.
  specialize (Kl 0 (VConst (GVariable g)) eq_refl (or_introl eq_refl)).
  cbn in Ll. destruct (i_operands ld') as [|a [|b r]]; cbn in *; try discriminate.
  congruence.
Qed.

Lemma fold_extractOperand_extracts n0 m0 h j n : forall s ms bss,
  i_id j = h ->
  wfBody (m_next ms) bss -> n0 <= m_next ms ->
  s + n = List.length (i_operands j) ->
  (exists js, In js (allInsts bss) /\ js = set_operands j (i_operands js)
              /\ List.length (i_operands js) = List.length (i_operands j)
              /\ forall k, s <= k ->
                   nth_error (i_operands js) k = nth_error (i_operands j) k) ->
  (forall k c, k < s -> nth_error (i_operands j) k = Some (VConst c) ->
     containsConstantFloat c = true -> extractedAt n0 m0 ms bss h k c) ->
  forall k c, nth_error (i_operands j) k = Some (VConst c) ->
    containsConstantFloat c = true ->
    extractedAt n0 m0
      (fst (fold_left (extractOperand h) (seq s n) (ms, bss)))
      (snd (fold_left (extractOperand h) (seq s n) (ms, bss))) h k c.
Proof.
  induction n as [|n IH]; intros s ms bss Eh Hwf Hn0 Hlen Hjs Hdone k c Ek Ec;
    cbn [seq fold_left fst snd].
  - apply Hdone; auto. rewrite Nat.add_0_r in Hlen. rewrite Hlen.
    apply nth_error_Some. congruence.
  - destruct Hjs as (js & Hjs & Ejs & Ljs & Kjs).
    destruct (set_operands_id _ _ Ejs) as [Eid Eop].
    assert (Hwf' := extractOperand_wf h (ms, bss) s Hwf).
    destruct (extractOperand_changes h (ms, bss) s) as (_ & Hn' & _).
    cbn [fst] in Hn'.
    destruct (extractOperand h (ms, bss) s) as [ms' bss'] eqn:Estep.
    cbn [fst snd] in Hwf', Hn'.
    apply (IH (S s) ms' bss'); auto; try lia.
    + (* the instruction after the step *)
      revert Estep. unfold extractOperand.
      destruct (findInst bss h) as [i|] eqn:Ef.
      2:{ exfalso. destruct (findInst_exists bss h js Hjs) as (y & Ey);
            congruence. }
      apply findInst_Some in Ef. destruct Ef as [Hi Ei].
      assert (i = js).
      { destruct Hwf as [Hnd _]. apply (NoDup_ids_unique bss); auto. congruence. }
      subst i.
      assert (Hsame : exists js0, In js0 (allInsts bss)
                /\ js0 = set_operands j (i_operands js0)
                /\ List.length (i_operands js0) = List.length (i_operands j)
                /\ forall k, S s <= k ->
                     nth_error (i_operands js0) k = nth_error (i_operands j) k).
      { exists js. repeat split; auto. intros k0 Hk0. apply Kjs. lia. }
      destruct (nth_error (i_operands js) s) as [[x|x y|x|c0|x]|] eqn:En;
        try (intros [= <- <-]; exact Hsame).
      destruct (containsConstantFloat c0) eqn:Ec0;
        [|intros [= <- <-]; exact Hsame].
      cbn [createGlobal m_next gv_id i_id set_next]. intros [= <- <-].
      exists (set_operands js (setNth s (VInst (S (m_next ms))) (i_operands js))).
      split.
      { unfold setOperand. rewrite allInsts_updateInst. apply in_map_iff.
        exists js. rewrite Eid, Eh, Nat.eqb_refl. split; [reflexivity|].
        now apply insertBefore_keeps. }
      split; [rewrite Ejs at 1; reflexivity|].
      cbn [i_operands set_operands]. split; [now rewrite length_setNth|].
      intros k0 Hk0. rewrite nth_error_setNth_other by lia. apply Kjs. lia.
    + (* what has been replaced *)
      intros k0 c0 Hk0 Ek0 Ec0'.
      destruct (Nat.eq_dec k0 s) as [->|Hne].
      * (* this step *)
        revert Estep. unfold extractOperand.
        destruct (findInst bss h) as [i|] eqn:Ef.
        2:{ exfalso. destruct (findInst_exists bss h js Hjs) as (y & Ey);
              congruence. }
        pose proof (findInst_Some _ _ _ Ef) as [Hi Ei].
        assert (i = js).
        { destruct Hwf as [Hnd _]. apply (NoDup_ids_unique bss); auto.
          congruence. }
        subst i. rewrite (Kjs s (Nat.le_refl s)), Ek0, Ec0'.
        cbn [createGlobal m_next gv_id i_id set_next]. intros [= <- <-].
        exists (set_operands js (setNth s (VInst (S (m_next ms))) (i_operands js))),
               (S (m_next ms)), (m_next ms).
        assert (Hh : h < m_next ms).
        { destruct Hwf as [_ Hall]. rewrite Forall_forall in Hall.
          apply Hall. unfold ids. rewrite <- Eh, <- Eid. now apply in_map. }
        split.
        { unfold setOperand. rewrite allInsts_updateInst. apply in_map_iff.
          exists js. rewrite Eid, Eh, Nat.eqb_refl. split; [reflexivity|].
          now apply insertBefore_keeps. }
        split; [cbn; congruence|]. split.
        { cbn [i_operands set_operands]. apply nth_error_setNth_same.
          rewrite Ljs. apply nth_error_Some. congruence. }
        split; [lia|]. split; [lia|]. split.
        { cbn [m_globals]. apply in_or_app. right. left. unfold fconstGlobal.
          now rewrite (float_type ms m0 c0 Ec0'). }
        intros Hphi. unfold isPHI in Hphi. cbn [i_op set_operands] in Hphi.
        unfold setOperand. rewrite allInsts_updateInst. apply in_map_iff.
        exists (fconstLoad m0 (S (m_next ms)) (m_next ms) c0).
        split.
        { cbn [fconstLoad i_id]. destruct (S (m_next ms) =? h) eqn:E; auto.
          apply Nat.eqb_eq in E. lia. }
        unfold insertionPoint. unfold isPHI. rewrite Hphi.
        unfold fconstLoad. rewrite (float_type m0 ms c0 Ec0').
        apply insertBefore_new; [apply Hwf|].
        unfold ids. now apply in_map.
      * (* an earlier step *)
        assert (Hk : keeps n0 (fun x => x = h) bss bss').
        { pose proof (extractOperand_keeps n0 (fun x => x = h) h (ms, bss) s
                        Hwf eq_refl) as K.
          now rewrite Estep in K. }
        apply (extractedAt_keeps n0 (fun x => x = h) m0 ms ms' bss bss'); auto.
        -- apply Hdone; auto. lia.
        -- pose proof (extractOperand_steps (fun _ => True) (fun _ => True)
                         (fun _ => False) h (ms, bss) s) as [_ (_ & [Ga _])].
           rewrite Estep in Ga. cbn [fst] in Ga. intros g Hg.
           destruct (Ga g Hg) as (g' & Hg' & _ & Eg). rewrite <- Eg; auto.
Qed.

Lemma fold_extractStep_app f l1 l2 st :
  fold_left (extractStep f) (l1 ++ l2) st
  = fold_left (extractStep f) l2 (fold_left (extractStep f) l1 st).
Proof. apply fold_left_app. Qed.

(** X7. A constant operand with a floating-point literal, of an instruction
    that is not a conversion, is replaced by the result of a load: the body
    that [extractFloatOperations] leaves has the instruction with, at that
    position, the result of a new instruction, and the module has a new
    global variable, constant, internal, of the type of the constant, whose
    initializer is the constant; when the instruction is not a PHI, the new
    instruction is in the body, and it is the load of that global variable.
    Nothing is said of the names of the variable and of the load: the code
    asks for [fconst] and [fconst.load] each time, and LLVM numbers them
    from the second on. *)
Theorem float_literals_loaded (m : Module) (f : Function)
  (Hwf : wfBody (m_next m) (fn_blocks f))
  (Hf : lookupFunction m (fn_id f) = Some f) :
  exists m',
    extractFloatOperations m f = Some m'
    /\ forall i k c,
         In i (allInsts (fn_blocks f)) -> isConversion m i = false ->
         nth_error (i_operands i) k = Some (VConst c) ->
         containsConstantFloat c = true ->
         exists j l x,
           In j (allInsts (bodyOf m' (fn_id f))) /\ i_id j = i_id i
           /\ nth_error (i_operands j) k = Some (VInst l)
           /\ m_next m <= l /\ m_next m <= gv_id x
           /\ In x (m_globals m')
           /\ gv_type x = getTypeC m c /\ gv_constant x = true
           /\ gv_linkage x = InternalLinkage /\ gv_init x = Some c
           /\ (isPHI i = false ->
               exists y, In y (allInsts (bodyOf m' (fn_id f)))
                         /\ i_id y = l /\ i_op y = Load
                         /\ i_ty y = getTypeC m c
                         /\ i_operands y = [VConst (GVariable (gv_id x))]).
Proof.
  destruct (extractFloatOperations_total m f) as (m' & Em & _).
  exists m'. split; [exact Em|]. revert Em. unfold extractFloatOperations.
  destruct (fold_left _ _ _) as [[[m3 bs3] del3]|] eqn:E; [|discriminate].
  intros [= <-]. intros i k c Hi Hconv Ek Ec.
  set (n0 := m_next m).
  assert (Hlook : exists g0, lookupFunction m3 (fn_id f) = Some g0).
  { pose proof (fold_extractStep_steps (fun _ => True) (fun _ => True)
                  (fun _ => False) f _ _ _ _ _ _ _ (fun _ _ => I) E)
      as [(_ & [Fa _] & _) _].
    apply lookupFunction_In in Hf. destruct Hf as [Hf _].
    destruct (Fa f Hf) as (f' & Hf' & [Ei _] & _).
    eapply lookupFunction_exists; eauto. }
  (* the visits before that of [i], the visit of [i], the visits after *)
  destruct (in_split i _ Hi) as (A & B & Esplit).
  assert (Hnd : NoDup (map i_id A ++ i_id i :: map i_id B)).
  { destruct Hwf as [Hnd _]. unfold ids in Hnd. rewrite Esplit, map_app in Hnd.
    exact Hnd. }
  assert (Hlt : forall h, In h (map i_id A ++ i_id i :: map i_id B) -> h < n0).
  { destruct Hwf as [_ Hall]. unfold ids in Hall.
    rewrite Esplit, map_app in Hall. rewrite Forall_forall in Hall. exact Hall. }
  rewrite Esplit, map_app in E. cbn [map] in E.
  rewrite fold_extractStep_app in E. cbn [fold_left] in E.
  destruct (fold_extractStep_total f (map i_id A) m (fn_blocks f) [])
    as (m1 & bs1 & del1 & E1 & T1).
  rewrite E1 in E.
  destruct (fold_extractStep_keeps n0 (fun x => In x (map i_id A)) f (map i_id A)
              m (fn_blocks f) [] m1 bs1 del1 Hwf) as (K1 & W1 & N1 & _ & G1 & D1);
    auto.
  { intros h Hh. split; auto. apply Hlt. apply in_or_app. now left. }
  assert (Hnot : ~ In (i_id i) (map i_id A)).
  { intros Hin. apply NoDup_remove_2 in Hnd. apply Hnd. apply in_or_app.
    now left. }
  destruct (K1 i Hi) as (j1 & Hj1 & Ej1 & Lj1 & Kj1).
  destruct (set_operands_id _ _ Ej1) as [Eid1 Eop1].
  (* the visit of [i] *)
  destruct (extractStep_total f m1 bs1 del1 (i_id i)) as (m2 & bs2 & del2 & E2 & _).
  rewrite E2 in E.
  assert (Hx : extractedAt n0 m m2 bs2 (i_id i) k c /\ del2 = del1
               /\ wfBody (m_next m2) bs2).
  { pose proof (extractStep_wf f m1 bs1 del1 (i_id i) m2 bs2 del2 W1 E2) as W2.
    revert E2. unfold extractStep.
    destruct (findInst bs1 (i_id i)) as [x|] eqn:Ef.
    2:{ exfalso. destruct (findInst_exists bs1 (i_id i) j1 Hj1 Eid1) as (y & Ey).
        congruence. }
    apply findInst_Some in Ef. destruct Ef as [Hx Ex].
    assert (x = j1).
    { destruct W1 as [Hnd1 _]. apply (NoDup_ids_unique bs1); auto. congruence. }
    subst x. rewrite (isConversion_same m1 m j1 i T1 Eop1), Hconv.
    pose proof (fold_extractOperand_extracts n0 m (i_id i) j1
                  (List.length (i_operands j1)) 0 m1 bs1 Eid1 W1 N1 eq_refl) as Hext.
    destruct (fold_left _ _ (m1, bs1)) as [mx bsx]. cbn [fst snd] in Hext.
    intros [= <- <- <-]. split; [|split; [reflexivity|exact W2]].
    apply Hext; auto.
    - exists j1. repeat split; auto. now destruct j1.
    - intros k0 c0 Hk0. lia.
    - apply Kj1; auto. right. exact Hnot. }
  destruct Hx as (Hx & -> & W2).
  (* the visits after *)
  destruct (fold_extractStep_keeps n0 (fun x => In x (map i_id B)) f (map i_id B)
              m2 bs2 del1 m3 bs3 del3 W2) as (K3 & W3 & N3 & _ & G3 & D3); auto.
  { intros h Hh. split; auto. apply Hlt. apply in_or_app. right. now right. }
  pose proof (extractedAt_keeps n0 _ m m2 m3 bs2 bs3 (i_id i) k c Hx K3 G3)
    as (j & l & g & Hj & Ej & Ekj & Hl & Hg & Hgl & Hld).
  (* the deletion *)
  assert (Hdel : forall x, In x del3 -> In x (map i_id A) \/ In x (map i_id B)).
  { intros x Hx3. destruct (D3 x Hx3) as [H|H]; auto.
    destruct (D1 x H) as [[]|H']; auto. }
  assert (Hbody : bodyOf (updateFunction m3 (fn_id f)
                            (fun g0 => set_blocks g0 (eraseInsts del3 bs3)))
                    (fn_id f) = eraseInsts del3 bs3).
  { unfold bodyOf. rewrite lookupFunction_updateFunction by reflexivity.
    rewrite Nat.eqb_refl. destruct Hlook as (g0 & ->). reflexivity. }
  rewrite Hbody. clear Hbody.
  assert (Hstay : forall x, In x (allInsts bs3) ->
            (i_id x = i_id i \/ n0 <= i_id x) ->
            In x (allInsts (eraseInsts del3 bs3))).
  { intros x Hx3 Hid. rewrite allInsts_eraseInsts. apply filter_In.
    split; auto. apply negb_true_iff.
    destruct (existsb (Nat.eqb (i_id x)) del3) eqn:Ex; auto. exfalso.
    apply existsb_exists in Ex. destruct Ex as (y & Hy & Ey).
    apply Nat.eqb_eq in Ey. subst y.
    assert (Hin : In (i_id x) (map i_id A) \/ In (i_id x) (map i_id B))
      by now apply Hdel.
    destruct Hid as [Hid|Hid].
    - rewrite Hid in Hin. apply NoDup_remove_2 in Hnd. apply Hnd.
      apply in_or_app. exact Hin.
    - assert (i_id x < n0); [|lia]. apply Hlt. apply in_app_iff.
      destruct Hin; [now left|right; now right]. }
  assert (Eop : i_op j = i_op i).
  { assert (K2 : keeps n0 (fun x => x = i_id i) bs1 bs2).
    { apply (extractStep_keeps n0 _ f m1 bs1 del1 (i_id i) m2 bs2 del1); auto.
      apply Hlt. apply in_or_app. right. now left. }
    destruct (K2 j1 Hj1) as (j2 & Hj2 & Ej2 & _).
    destruct (K3 j2 Hj2) as (j3 & Hj3 & Ej3 & _).
    destruct (set_operands_id _ _ Ej2) as [Ei2 Eo2].
    destruct (set_operands_id _ _ Ej3) as [Ei3 Eo3].
    assert (j = j3).
    { destruct W3 as [Hnd3 _]. apply (NoDup_ids_unique bs3); auto. congruence. }
    subst j3. congruence. }
  exists j, l, (fconstGlobal m g c). split; [apply Hstay; auto|].
  split; [exact Ej|]. split; [exact Ekj|]. split; [exact Hl|].
  split; [exact Hg|]. split; [exact Hgl|].
  do 4 (split; [reflexivity|]).
  intros Hphi. exists (fconstLoad m l g c). split; [|repeat split].
  apply Hstay.
  - apply Hld. unfold isPHI in *. now rewrite Eop.
  - right. exact Hl.
Qed.

Lemma example_half_wf : wfBody (m_next example_floats) (fn_blocks example_half).
Proof.
  split.
  - simpl. repeat constructor; simpl; intuition discriminate.
  - repeat constructor.
Defined.

Lemma float_literals_loaded_witness :
  wfBody (m_next example_floats) (fn_blocks example_half)
  /\ lookupFunction example_floats (fn_id example_half) = Some example_half
  /\ exists m',
       extractFloatOperations example_floats example_half = Some m'
       /\ exists j l x y,
            In j (allInsts (bodyOf m' 1)) /\ i_id j = 3
            /\ nth_error (i_operands j) 1 = Some (VInst l)
            /\ In x (m_globals m')
            /\ gv_init x = Some (ConstantFP DoubleTy 4602678819172646912)
            /\ In y (allInsts (bodyOf m' 1))
            /\ i_id y = l /\ i_op y = Load
            /\ i_operands y = [VConst (GVariable (gv_id x))].
Proof.
  split; [exact example_half_wf|]. split; [reflexivity|].
  destruct (float_literals_loaded example_floats example_half example_half_wf
              eq_refl) as (m' & Em & H).
  exists m'. split; [exact Em|].
  destruct (H (mkInstruction 3 FMul DoubleTy "y" false
                 [VArg 1 0; VConst (ConstantFP DoubleTy 4602678819172646912)] [])
              1 (ConstantFP DoubleTy 4602678819172646912))
    as (j & l & x & Hj & Ej & Ek & _ & _ & Hx & _ & _ & _ & Hi & Hl);
    try reflexivity.
  { simpl. auto. }
  destruct (Hl eq_refl) as (y & Hy & Ey & Eo & _ & Eops).
  exists j, l, x, y. repeat split; auto.
Defined.

(** ** Intrinsic lowering: when nothing is left to lower *)

Lemma skipn_nth_error {A : Type} (l : list A) n x :
  nth_error l n = Some x -> skipn n l = x :: skipn (S n) l.
Proof.
  revert l. induction n as [|n IH]; intros [|y l]; simpl; try discriminate.
  - now intros [= ->].
  - apply IH.
Qed.

Lemma skipn_nth_error_None {A : Type} (l : list A) n :
  nth_error l n = None -> skipn n l = [].
Proof.
  intros H. apply skipn_all2. now apply nth_error_None.
Qed.

Section Idle.
Variable GetLibcall : string -> string.
Variable isAlwaysInlined : string -> bool.
Variable addr : Constant -> N.

Lemma lowerLoop_idle fuel : forall pos m del err,
  (forall f, In f (m_functions m) ->
     lowered GetLibcall isAlwaysInlined f = false) ->
  List.length (m_functions m) - pos < fuel ->
  lowerLoop GetLibcall isAlwaysInlined addr fuel pos (m, del, err)
  = Some (m, del,
          err ++ map (fun f => warning (fn_name f))
                     (filter (warned GetLibcall isAlwaysInlined)
                             (skipn pos (m_functions m)))).
Proof.
  induction fuel as [|fuel IH]; intros pos m del err Hnone Hfuel; [lia|].
  cbn [lowerLoop fst].
  destruct (nth_error (m_functions m) pos) as [f|] eqn:E.
  - assert (Hin : In f (m_functions m)) by (eapply nth_error_In; eauto).
    assert (Hpos : pos < List.length (m_functions m)).
    { apply nth_error_Some. congruence. }
    rewrite (skipn_nth_error _ _ _ E). cbn [filter].
    pose proof (Hnone f Hin) as Hl. unfold lowered in Hl. unfold warned, visit.
    destruct (isIntrinsic f && negb (isAlwaysInlined (fn_name f))); cbn [andb] in *.
    + rewrite Hl. apply negb_false_iff in Hl. rewrite Hl.
      rewrite IH by (auto; lia). cbn [map]. now rewrite <- app_assoc.
    + rewrite IH by (auto; lia). reflexivity.
  - rewrite (skipn_nth_error_None _ _ E). cbn. now rewrite app_nil_r.
Qed.

Lemma lowerInstrinsicsPass_idle fuel m :
  (forall f, In f (m_functions m) ->
     lowered GetLibcall isAlwaysInlined f = false) ->
  List.length (m_functions m) < fuel ->
  lowerInstrinsicsPass GetLibcall isAlwaysInlined addr fuel m
  = Some (m, map (fun f => warning (fn_name f))
               (filter (warned GetLibcall isAlwaysInlined) (m_functions m))).
Proof.
  intros Hnone Hfuel. unfold lowerInstrinsicsPass.
  rewrite lowerLoop_idle by (auto; lia). reflexivity.
Qed.

End Idle.

(** X8. On a module in which no intrinsic is both outside the always-inlined
    list and known to the table of library calls, the lowering pass changes
    nothing at all: it returns the module it was given, and the warnings
    for the intrinsics that the table does not know, in the order of the
    function list.  A number of turns above the number of functions is
    enough. *)
Theorem lowering_leaves_unmapped
  (GetLibcall : string -> string) (isAlwaysInlined : string -> bool)
  (addr : Constant -> N) (m : Module) (fuel : nat)
  (Hnone : forall f, In f (m_functions m) -> isIntrinsic f = true ->
             isAlwaysInlined (fn_name f) = false ->
             GetLibcall (fn_name f) = EmptyString)
  (Hfuel : List.length (m_functions m) < fuel) :
  lowerInstrinsicsPass GetLibcall isAlwaysInlined addr fuel m
  = Some (m, map (fun f => warning (fn_name f))
               (filter (fun f => isIntrinsic f
                                 && negb (isAlwaysInlined (fn_name f)))
                       (m_functions m))).
Proof.
  rewrite lowerInstrinsicsPass_idle; auto.
  - f_equal. f_equal. f_equal. apply filter_ext_in. intros f Hf.
    unfold warned. destruct (isIntrinsic f) eqn:Ei; auto.
    destruct (isAlwaysInlined (fn_name f)) eqn:Ea; auto.
    now rewrite (Hnone f Hf Ei Ea).
  - intros f Hf. unfold lowered. destruct (isIntrinsic f) eqn:Ei; auto.
    destruct (isAlwaysInlined (fn_name f)) eqn:Ea; auto.
    now rewrite (Hnone f Hf Ei Ea).
Qed.

Lemma lowering_leaves_unmapped_witness :
  lowerInstrinsicsPass (fun _ => EmptyString) (fun _ => false) (fun _ => 0%N) 4
    example_intrinsics
  = Some (example_intrinsics,
          [warning "llvm.memset.p0i8.i64"; warning "llvm.trap"]).
Proof.
  apply (lowering_leaves_unmapped (fun _ => EmptyString) (fun _ => false)
           (fun _ => 0%N) example_intrinsics 4).
  - reflexivity.
  - simpl. lia.
Defined.

Lemma filter_warned_kept (warned keep : Function -> bool)
  (rn : Function -> Function) l :
  (forall f, fn_name (rn f) = fn_name f) ->
  (forall f, warned (rn f) = warned f) ->
  (forall f, In f l -> warned f = true -> keep (rn f) = true) ->
  map (fun f => warning (fn_name f)) (filter warned (filter keep (map rn l)))
  = map (fun f => warning (fn_name f)) (filter warned l).
Proof.
  intros Hn Hw Hk. induction l as [|f l IH]; cbn [map filter]; auto.
  destruct (warned f) eqn:Ew.
  - rewrite (Hk f (or_introl eq_refl) Ew). cbn [filter]. rewrite Hw, Ew.
    cbn [map]. rewrite Hn, IH; auto. intros g Hg. apply Hk. now right.
  - destruct (keep (rn f)); cbn [filter]; rewrite ?Hw, ?Ew; apply IH;
      intros g Hg; apply Hk; now right.
Qed.

Lemma filter_none {A : Type} (p : A -> bool) l :
  (forall x, In x l -> p x = false) -> filter p l = [].
Proof.
  induction l as [|x l IH]; intros H; cbn [filter]; auto.
  rewrite (H x (or_introl eq_refl)). apply IH. intros y Hy. apply H. now right.
Qed.

(** X9. The lowering pass is idempotent: run again on the module it has
    produced, it returns that module unchanged, with the same warnings. *)
Theorem lowering_is_idempotent
  (GetLibcall : string -> string) (isAlwaysInlined : string -> bool)
  (addr : Constant -> N)
  (Hlib : forall n, prefix "llvm." (GetLibcall n) = false)
  (m : Module) (Hwf : wfFunctions m)
  (fuel : nat) (Hfuel : 2 * List.length (m_functions m) < fuel) :
  exists m' err,
    lowerInstrinsicsPass GetLibcall isAlwaysInlined addr fuel m = Some (m', err)
    /\ forall fuel', List.length (m_functions m') < fuel' ->
         lowerInstrinsicsPass GetLibcall isAlwaysInlined addr fuel' m'
         = Some (m', err).
Proof.
  destruct (lowerLoop_runs GetLibcall isAlwaysInlined addr Hlib m Hwf
              (m_functions m) [] (m, [], []) (fun h => h) [] fuel)
    as ([[m1 del] err] & r & news & Hrun & Hinv).
  { reflexivity. }
  { unfold lowerInv. rewrite app_nil_r.
    split; [|split; [|split; [|split; [|split; [|split; [|split]]]]]]; auto.
    - rewrite <- (map_id (m_functions m)) at 1. apply map_ext.
      intros f. symmetry. apply renameFunction_id.
    - rewrite <- (map_id (m_globals m)) at 1. apply map_ext.
      intros g. symmetry. apply renameGlobal_id.
    - intros s [].
    - intros h. split; [intros []|intros (f & [] & _)].
    - intros f []. }
  { simpl. lia. }
  destruct Hinv as (Hf & Hg & Hn & Hnews & Hdel & Herr & Hid & Htgt).
  exists (fold_left eraseFunction del m1), err.
  split; [unfold lowerInstrinsicsPass; cbn [List.length] in Hrun; now rewrite Hrun|].
  destruct (fold_eraseFunction del m1) as [Efs Egs].
  set (keep := fun f => negb (existsb (Nat.eqb (fn_id f)) del)) in *.
  assert (Hkeep : forall f, In f (m_functions m) ->
            keep (renameFunction r f)
            = negb (lowered GetLibcall isAlwaysInlined f)).
  { intros f Hfin. unfold keep. f_equal.
    change (fn_id (renameFunction r f)) with (fn_id f).
    destruct (lowered GetLibcall isAlwaysInlined f) eqn:El.
    - apply existsb_exists. exists (fn_id f). split; [|apply Nat.eqb_refl].
      apply Hdel. eauto.
    - destruct (existsb (Nat.eqb (fn_id f)) del) eqn:Ex; auto.
      apply existsb_exists in Ex. destruct Ex as (x & Hx & Ex).
      apply Nat.eqb_eq in Ex. subst x. apply Hdel in Hx.
      destruct Hx as (f' & Hfin' & El' & E).
      rewrite (wfFunctions_unique m f' f Hwf Hfin' Hfin E) in El'. congruence. }
  assert (Hnl : forall s, In s news ->
            lowered GetLibcall isAlwaysInlined s = false
            /\ warned GetLibcall isAlwaysInlined s = false).
  { intros s Hs. destruct (Hnews s Hs) as (_ & _ & _ & Hi & _).
    unfold lowered, warned. now rewrite Hi. }
  intros fuel' Hfuel'. rewrite lowerInstrinsicsPass_idle; auto.
  - f_equal. f_equal. rewrite Efs, Hf, Herr, filter_app, filter_app.
    rewrite map_app.
    rewrite (filter_warned_kept (warned GetLibcall isAlwaysInlined) keep
               (renameFunction r) (m_functions m)); auto.
    + rewrite (filter_none (warned GetLibcall isAlwaysInlined) (filter keep news)).
      * now rewrite app_nil_r.
      * intros s Hs. apply filter_In in Hs. now apply Hnl.
    + intros f Hfin Hw. rewrite Hkeep by exact Hfin. unfold warned in Hw.
      unfold lowered. apply andb_prop in Hw. destruct Hw as [-> Hw].
      rewrite Hw. reflexivity.
  - intros g Hgin. rewrite Efs in Hgin. apply filter_In in Hgin.
    destruct Hgin as [Hgin Hk]. rewrite Hf in Hgin. apply in_app_or in Hgin.
    destruct Hgin as [Hgin|Hs]; [|now apply Hnl].
    apply in_map_iff in Hgin. destruct Hgin as (f & <- & Hfin).
    fold (keep (renameFunction r f)) in Hk. rewrite Hkeep in Hk by exact Hfin.
    apply negb_true_iff in Hk. exact Hk.
Qed.

Lemma lowering_is_idempotent_witness :
  (forall n, prefix "llvm." (example_libcall n) = false)
  /\ wfFunctions example_intrinsics
  /\ exists m' err,
       lowerInstrinsicsPass example_libcall (fun _ => false) (fun _ => 0%N) 7
         example_intrinsics = Some (m', err)
       /\ lowerInstrinsicsPass example_libcall (fun _ => false) (fun _ => 0%N) 7
            m' = Some (m', err).
Proof.
  split; [exact example_libcall_names|]. split; [exact example_intrinsics_wf|].
  destruct (lowering_is_idempotent example_libcall (fun _ => false)
              (fun _ => 0%N) example_libcall_names example_intrinsics
              example_intrinsics_wf 7) as (m' & err & Hrun & Hagain).
  { simpl. lia. }
  exists m', err. split; [exact Hrun|]. apply Hagain.
  vm_compute in Hrun. injection Hrun as <- _. simpl. lia.
Defined.

(** ** The pass as a whole: what it keeps *)

Section RunFrame.
Variable addr : Constant -> N.
Variable ua : Use -> N.
Variable opts : Options.
Variable U : Function -> Prop.
Variable I : Handle -> Prop.
Variable UG : GlobalVariable -> Prop.

Lemma afterHeap_steps_guarded m :
  (stabilize_heap opts = true ->
     (forall g, isDeclaration g = false -> U g) /\ (forall g, UG g)) ->
  evolves U I UG m (afterHeap opts m).
Proof.
  intros Hh. unfold afterHeap. destruct (stabilize_heap opts).
  - destruct (Hh eq_refl). now apply randomizeHeap_steps.
  - apply steps_refl.
Qed.

Lemma run_frame m :
  (stabilize_heap opts = true ->
     (forall g, isDeclaration g = false -> U g) /\ (forall g, UG g)) ->
  (forall h, In h (localFunctions addr (afterHeap opts m)) ->
             I h /\ forall g, fn_id g = h -> U g) ->
  (forall g, m_next m <= fn_id g -> U g) ->
  exists rt m2 pads m3 ctor m4 m6,
    declareRuntimeFunctions (afterHeap opts m) = (rt, m2)
    /\ stackPhase addr opts (localFunctions addr (afterHeap opts m)) m2
       = (pads, m3)
    /\ makeConstructor m3 "stabilizer.module_ctor" = (ctor, m4)
    /\ codePhase addr ua opts rt pads (fn_id ctor) (m_next m4)
         (localFunctions addr (afterHeap opts m))
         (set_next
            (updateFunction m4 (fn_id ctor)
               (fun g => set_blocks g
                           (fn_blocks g ++ [mkBasicBlock (m_next m4) "" []])))
            (S (m_next m4)))
       = Some m6
    /\ run addr ua opts m
       = Some (renameMain
                 (registerPhase opts rt pads (getConstructors m3)
                    (fn_id ctor) (m_next m4) m6))
    /\ evolves U I UG m (afterHeap opts m)
    /\ evolves U I UG (afterHeap opts m) m2
    /\ evolves U I UG m2 m3
    /\ evolves U I (fun _ => False) m4
         (registerPhase opts rt pads (getConstructors m3)
            (fn_id ctor) (m_next m4) m6).
Proof.
  intros Hh Hl Hnew.
  destruct (run_phases addr ua opts m)
    as (rt & m2 & pads & m3 & ctor & m4 & m6 & E2 & E3 & E4 & E6 & Erun).
  fold (afterHeap opts m) in E2, E3, E6.
  exists rt, m2, pads, m3, ctor, m4, m6.
  pose proof (afterHeap_steps_guarded m Hh) as S1.
  pose proof (declareRuntimeFunctions_steps U I UG (afterHeap opts m)) as S2.
  rewrite E2 in S2. cbn [snd] in S2.
  assert (S2' : evolves U I UG (afterHeap opts m) m2).
  { apply S2. intros g Hge. apply Hnew. apply steps_next in S1. lia. }
  pose proof (stackPhase_steps addr opts U I UG
                (localFunctions addr (afterHeap opts m)) m2) as S3.
  rewrite E3 in S3. cbn [snd] in S3.
  assert (S3' : evolves U I UG m2 m3).
  { apply S3. intros h g Hh' Eg. now apply (Hl h Hh'). }
  assert (Hn3 : m_next m <= m_next m3).
  { apply steps_next in S1, S2', S3'. lia. }
  destruct (makeConstructor_functions _ _ _ _ E4) as (Ec & Ef4 & En4).
  assert (Hctor : forall g, fn_id g = fn_id ctor -> U g).
  { intros g Eg. apply Hnew. rewrite Eg, Ec. simpl. lia. }
  set (m5 := set_next (updateFunction m4 (fn_id ctor)
               (fun g => set_blocks g
                  (fn_blocks g ++ [mkBasicBlock (m_next m4) "" []])))
               (S (m_next m4))) in *.
  assert (S45 : evolves U I (fun _ => False) m4 m5).
  { eapply steps_update; try reflexivity; auto.
    - simpl. lia.
    - intros g. now split. }
  destruct (codePhase_steps addr ua opts U I (fun _ => False) rt pads
              (fn_id ctor) (m_next m4) (localFunctions addr (afterHeap opts m)) m5)
    as (m6' & E6' & S56); auto.
  { intros g Hge. apply Hnew. unfold m5 in Hge. simpl in Hge. lia. }
  rewrite E6 in E6'. injection E6' as <-.
  repeat (split; [assumption|]).
  eapply steps_trans; [exact S45|]. eapply steps_trans; [exact S56|].
  apply registerPhase_steps. exact Hctor.
Qed.

End RunFrame.

(** The declarations of [m] are out of reach of the pass. *)
Lemma run_declarations addr ua opts (m : Module) (Hwf : wfFunctions m) :
  exists m3 ctor m4 m7,
    makeConstructor m3 "stabilizer.module_ctor" = (ctor, m4)
    /\ run addr ua opts m = Some (renameMain m7)
    /\ fevolves (fun g => ~ (isDeclaration g = true /\ In g (m_functions m)))
         (fun _ => True) notMain m m7.
Proof.
  set (U := fun g : Function =>
              ~ (isDeclaration g = true /\ In g (m_functions m))).
  assert (Hold : forall g, In g (m_functions m) -> fn_id g < m_next m).
  { destruct Hwf as [_ Hall]. now rewrite Forall_forall in Hall. }
  assert (Hu1 : forall g, isDeclaration g = false -> U g).
  { intros g Hd [Hd' _]. congruence. }
  assert (Hu2 : forall g, m_next m <= fn_id g -> U g).
  { intros g Hge [_ Hin]. apply Hold in Hin. lia. }
  assert (Hu3 : forall h, In h (localFunctions addr (afterHeap opts m)) ->
                  True /\ forall g, fn_id g = h -> U g).
  { intros h Hh. split; auto. intros g Eg [Hd Hin].
    apply localFunctions_In in Hh. destruct Hh as (f1 & Hf1 & Hl1 & E1).
    destruct (afterHeap_steps opts U (fun _ => True) (fun _ => True) m Hu1)
      as [(_ & [_ Hb] & _) _]; auto.
    destruct (Hb f1 Hf1) as [(g0 & Hg0 & [Ei En] & Hsame)|[Hr _]].
    - assert (g0 = g) by (apply (wfFunctions_unique m); auto; congruence).
      subst g0. rewrite Hsame in Hl1.
      + unfold isLocalFunction in Hl1. rewrite Hd in Hl1.
        rewrite andb_false_r in Hl1. discriminate.
      + intros Hug. apply Hug. split; auto.
    - apply Hold in Hin. lia. }
  destruct (run_trace addr ua opts U (fun _ => True) (fun _ => True) m)
    as (m3 & ctor & m4 & m7 & E4 & Erun & S3 & S7); auto.
  exists m3, ctor, m4, m7. split; [exact E4|]. split; [exact Erun|].
  eapply fevolves_total; eauto. discriminate.
Qed.

(** X10. The pass deletes no function and, but for [main], renames none:
    every function of the module that is not named [main] is in the result
    with its handle and its name, and a declaration is there unchanged;
    what the result has besides has a new handle. *)
Theorem pass_keeps_functions addr ua opts (m : Module)
  (Hwf : wfFunctions m) :
  exists m',
    run addr ua opts m = Some m'
    /\ (forall f, In f (m_functions m) -> fn_name f <> "main" ->
          exists f', In f' (m_functions m') /\ fn_id f' = fn_id f
                     /\ fn_name f' = fn_name f
                     /\ (isDeclaration f = true -> f' = f))
    /\ (forall f', In f' (m_functions m') ->
          (exists f, In f (m_functions m) /\ fn_id f' = fn_id f)
          \/ m_next m <= fn_id f').
Proof.
  destruct (run_declarations addr ua opts m Hwf)
    as (m3 & ctor & m4 & m7 & E4 & Erun & (Hn & [Ha Hb] & _)).
  exists (renameMain m7). split; [exact Erun|].
  split.
  - intros f Hf Hne. destruct (Ha f Hf) as (f7 & Hf7 & [Ei En] & Hsame).
    exists f7. split; [|split; [exact Ei|split; [exact En|]]].
    + unfold renameMain. destruct (getFunction m7 "main") as [mn|] eqn:Emn; auto.
      apply getFunction_In in Emn. destruct Emn as [Hmn Enm].
      unfold updateFunction. cbn [m_functions set_functions].
      apply in_map_iff. exists f7. split; auto.
      destruct (fn_id f7 =? fn_id mn) eqn:E; auto. exfalso.
      apply Nat.eqb_eq in E.
      destruct (Hb mn Hmn) as [(g0 & Hg0 & [Ei0 En0] & _)|[_ Hnm]];
        [|contradiction].
      apply Hne.
      rewrite (wfFunctions_unique m f g0 Hwf Hf Hg0) by congruence. congruence.
    + intros Hd. apply Hsame. intros Hu. apply Hu. split; auto.
  - intros f' Hf'.
    assert (Hy : exists y, In y (m_functions m7) /\ fn_id f' = fn_id y).
    { revert Hf'. unfold renameMain.
      destruct (getFunction m7 "main") as [mn|]; [|eauto].
      unfold updateFunction. cbn [m_functions set_functions]. intros Hf'.
      apply in_map_iff in Hf'. destruct Hf' as (y & <- & Hy).
      exists y. split; auto. now destruct (fn_id y =? fn_id mn). }
    destruct Hy as (y & Hy & Ey).
    destruct (Hb y Hy) as [(x & Hx & [Ei _] & _)|[Hr _]].
    + left. exists x. split; auto. congruence.
    + right. lia.
Qed.

Lemma pass_keeps_functions_witness :
  wfFunctions example_program
  /\ exists m',
       run example_addr example_use_addr example_options example_program
       = Some m'
       /\ exists f', In f' (m_functions m') /\ fn_id f' = 2
                     /\ fn_name f' = "init".
Proof.
  split; [exact example_program_wf|].
  destruct (pass_keeps_functions example_addr example_use_addr example_options
              example_program example_program_wf) as (m' & Erun & Hkeep & _).
  exists m'. split; [exact Erun|].
  destruct (Hkeep example_init) as (f' & Hf' & Ei & En & _).
  - simpl. auto.
  - discriminate.
  - exists f'. auto.
Defined.

Lemma NoDup_gv_unique (l : list GlobalVariable) g1 g2 :
  NoDup (map gv_id l) -> In g1 l -> In g2 l -> gv_id g1 = gv_id g2 -> g1 = g2.
Proof.
  induction l as [|z l IH]; simpl; [tauto|].
  intros H [->|Hx] [->|Hy] E; auto; inversion H as [|? ? Hz Hl]; subst.
  - exfalso. apply Hz. rewrite E. now apply in_map.
  - exfalso. apply Hz. rewrite <- E. now apply in_map.
  - now apply IH.
Qed.

Lemma makeConstructor_keeps m name ctor m' g :
  Forall (fun g => gv_id g < m_next m) (m_globals m) ->
  makeConstructor m name = (ctor, m') ->
  In g (m_globals m) ->
  (forall old, getGlobalVariable m "llvm.global_ctors" false = Some old ->
               gv_id g <> gv_id old) ->
  In g (m_globals m').
Proof.
  intros Hall. rewrite Forall_forall in Hall.
  unfold makeConstructor. cbn [createFunction createGlobal gv_id fn_id m_next].
  match goal with
  | |- context [getGlobalVariable ?mm "llvm.global_ctors" false] =>
      assert (Eg : getGlobalVariable mm "llvm.global_ctors" false
                   = getGlobalVariable m "llvm.global_ctors" false)
  end.
  { unfold getGlobalVariable. cbn [m_globals].
    rewrite find_app. destruct (find _ (m_globals m)); reflexivity. }
  rewrite Eg. clear Eg.
  intros E Hg Hne. pose proof (Hall g Hg) as Hlt.
  assert (E1 : (gv_id g =? S (m_next m)) = false) by (apply Nat.eqb_neq; lia).
  destruct (getGlobalVariable m "llvm.global_ctors" false) as [old|] eqn:Eold.
  - injection E as <- <-. unfold eraseGlobal, updateGlobal.
    cbn [m_globals set_globals]. rewrite !map_map.
    assert (E2 : (gv_id g =? gv_id old) = false)
      by (apply Nat.eqb_neq; now apply Hne).
    apply filter_In. split.
    + apply in_map_iff. exists g. split; [|apply in_or_app; now left].
      rewrite E1. now rewrite !E2.
    + now rewrite E2.
  - injection E as <- <-. unfold updateGlobal. cbn [m_globals set_globals].
    apply in_map_iff. exists g. split; [|apply in_or_app; now left].
    now rewrite E1.
Qed.

(** X11. The pass deletes and renames no global variable but the
    constructor table: a global variable of the module that is not named
    [llvm.global_ctors] is in the result with its handle, its name and its
    linkage, and unchanged when heap randomization is off; what the result
    has besides has a new handle. *)
Theorem pass_keeps_globals addr ua opts (m : Module)
  (Hgw : Forall (fun g => gv_id g < m_next m) (m_globals m))
  (Hnd : NoDup (map gv_id (m_globals m))) :
  exists m',
    run addr ua opts m = Some m'
    /\ (forall g, In g (m_globals m) -> gv_name g <> "llvm.global_ctors" ->
          exists g', In g' (m_globals m') /\ gv_id g' = gv_id g
                     /\ gv_name g' = gv_name g
                     /\ gv_linkage g' = gv_linkage g
                     /\ (stabilize_heap opts = false -> g' = g))
    /\ (forall g', In g' (m_globals m') ->
          (exists g, In g (m_globals m) /\ gv_id g' = gv_id g)
          \/ m_next m <= gv_id g').
Proof.
  rewrite Forall_forall in Hgw.
  destruct (run_frame addr ua opts (fun _ => True) (fun _ => True)
              (fun _ => stabilize_heap opts = true) m)
    as (rt & m2 & pads & m3 & ctor & m4 & m6 & E2 & E3 & E4 & E6 & Erun
        & [_ G1] & [_ G2] & [_ G3] & [_ G7]); auto.
  eexists. split; [exact Erun|]. rewrite renameMain_globals.
  assert (G : gevolves (fun _ => stabilize_heap opts = true) notCtorTable m m3).
  { eapply gevolves_trans; [exact G1|]. eapply gevolves_trans; eauto. }
  destruct G as (Hn3 & Ga3 & Gb3). destruct G7 as (Hn7 & Ga7 & Gb7).
  assert (Hgw3 : Forall (fun g => gv_id g < m_next m3) (m_globals m3)).
  { apply Forall_forall. intros g Hg.
    destruct (Gb3 g Hg) as [(g0 & Hg0 & (Ei & _) & _)|[Hr _]]; [|lia].
    rewrite Ei. apply Hgw in Hg0. lia. }
  destruct (makeConstructor_functions _ _ _ _ E4) as (_ & _ & En4).
  split.
  - intros g Hg Hne. destruct (Ga3 g Hg) as (g3 & Hg3 & (Ei & En & El) & Hsame).
    assert (Hg4 : In g3 (m_globals m4)).
    { apply (makeConstructor_keeps m3 _ ctor m4 g3 Hgw3 E4 Hg3).
      intros old Hold Eid. apply getGlobalVariable_In in Hold.
      destruct Hold as [Hold Ename].
      destruct (Gb3 old Hold) as [(o0 & Ho0 & (Eio & Eno & _) & _)|[_ Hnm]].
      - apply Hne.
        rewrite (NoDup_gv_unique (m_globals m) g o0 Hnd Hg Ho0) by congruence.
        congruence.
      - contradiction. }
    destruct (Ga7 g3 Hg4) as (g7 & Hg7 & _ & E7).
    rewrite (E7 (fun F => F)) in Hg7.
    exists g3. repeat split; auto. intros Hoff. apply Hsame. congruence.
  - intros g' Hg'.
    destruct (Gb7 g' Hg') as [(g4 & Hg4 & _ & E7)|[Hr _]]; [|right; lia].
    rewrite (E7 (fun F => F)) in *.
    destruct (makeConstructor_globals m3 _ ctor m4 Hgw3 E4) as (_ & Hcl).
    destruct (Hcl g4 Hg4) as [->|[Hg3 _]]; [right; cbn; lia|].
    destruct (Gb3 g4 Hg3) as [(g0 & Hg0 & (Ei & _) & _)|[Hr _]];
      [left; eauto|right; lia].
Qed.

Lemma pass_keeps_globals_witness :
  Forall (fun g => gv_id g < m_next example_module) (m_globals example_module)
  /\ NoDup (map gv_id (m_globals example_module))
  /\ exists m',
       run example_addr example_use_addr (mkOptions false false true)
         example_module = Some m'
       /\ In example_g (m_globals m') /\ In example_k (m_globals m').
Proof.
  assert (H1 : Forall (fun g => gv_id g < m_next example_module)
                 (m_globals example_module)) by (repeat constructor).
  assert (H2 : NoDup (map gv_id (m_globals example_module))).
  { simpl. repeat constructor; simpl; intuition discriminate. }
  split; [exact H1|]. split; [exact H2|].
  destruct (pass_keeps_globals example_addr example_use_addr
              (mkOptions false false true) example_module H1 H2)
    as (m' & Erun & Hkeep & _).
  exists m'. split; [exact Erun|]. split.
  - destruct (Hkeep example_g) as (g' & Hg' & _ & _ & _ & Eg);
      [simpl; auto|discriminate|]. now rewrite <- (Eg eq_refl).
  - destruct (Hkeep example_k) as (g' & Hg' & _ & _ & _ & Eg);
      [simpl; auto|discriminate|]. now rewrite <- (Eg eq_refl).
Defined.

(** ** The local functions after heap randomization *)

Lemma heapShape_refl m : heapShape m m.
Proof.
  exists (fun h => h), []. rewrite app_nil_r. repeat split; auto.
  - rewrite <- (map_id (m_functions m)) at 1. apply map_ext.
    intros f. symmetry. apply renameFunction_id.
  - rewrite <- (map_id (m_globals m)) at 1. apply map_ext.
    intros g. symmetry. apply renameGlobal_id.
  - destruct H.
  - destruct H.
  - destruct H.
Qed.

Lemma heapShape_step m0 m fn name :
  heapShape m0 m -> heapShape m0 (replaceAllocator m fn name).
Proof.
  intros (r & news & Hf & Hg & Hn & Hnews). destruct fn as [f|].
  2:{ exists r, news. auto. }
  unfold replaceAllocator, createFunction, replaceAllUsesWith.
  exists (fun h => redirect (fn_id f) (m_next m) (r h)),
         (news ++ [mkFunction (m_next m) name (fn_type f) ExternalLinkage
                     None [] []]).
  cbn [m_functions m_globals m_next fn_id].
  split; [|split; [|split]].
  - rewrite Hf, !map_app, map_map. cbn [map]. rewrite <- app_assoc. f_equal.
    + apply map_ext. intros g. apply renameFunction_compose.
    + f_equal. rewrite <- (map_id news) at 2. apply map_ext_in. intros s Hs.
      apply renameFunction_declaration. now apply Hnews.
  - rewrite Hg, map_map. apply map_ext. intros g. apply renameGlobal_compose.
  - lia.
  - intros s Hs. apply in_app_or in Hs. destruct Hs as [Hs|[<-|[]]].
    + destruct (Hnews s Hs). split; auto; lia.
    + cbn. split; auto; lia.
Qed.

Lemma afterHeap_shape opts m : heapShape m (afterHeap opts m).
Proof.
  unfold afterHeap. destruct (stabilize_heap opts); [|apply heapShape_refl].
  unfold randomizeHeap. repeat apply heapShape_step. apply heapShape_refl.
Qed.

Lemma isLocalFunction_rename r f :
  isLocalFunction (renameFunction r f) = isLocalFunction f.
Proof.
  unfold isLocalFunction, isIntrinsic, isDeclaration.
  cbn [renameFunction set_blocks fn_name fn_blocks]. unfold mapInsts.
  now destruct (fn_blocks f).
Qed.

Lemma localFunctions_afterHeap addr opts m :
  localFunctions addr (afterHeap opts m) = localFunctions addr m.
Proof.
  destruct (afterHeap_shape opts m) as (r & news & Hf & _ & _ & Hnews).
  unfold localFunctions. rewrite Hf, fold_left_app.
  set (step := fun s f => if isLocalFunction f
                          then setInsert Nat.eqb (faddr addr) (fn_id f) s
                          else s).
  assert (E1 : forall l s, fold_left step (map (renameFunction r) l) s
                           = fold_left step l s).
  { induction l as [|f l IH]; intros s; cbn [map fold_left]; auto.
    rewrite IH. f_equal. unfold step. now rewrite isLocalFunction_rename. }
  rewrite E1.
  assert (E2 : forall l s, (forall x, In x l -> fn_blocks x = []) ->
                           fold_left step l s = s).
  { induction l as [|f l IH]; intros s Hl; cbn [fold_left]; auto.
    rewrite IH by (intros x Hx; apply Hl; now right). unfold step.
    unfold isLocalFunction, isDeclaration.
    rewrite (Hl f (or_introl eq_refl)). now rewrite andb_false_r. }
  apply E2. intros x Hx. now apply Hnews.
Qed.

(** ** The stack pads *)

Lemma orderedInsert_last {A : Type} (address : A -> N) x l :
  (forall y, In y l -> (address y <= address x)%N) ->
  orderedInsert address x l = l ++ [x].
Proof.
  induction l as [|y l IH]; intros H; cbn [orderedInsert app]; auto.
  assert (E : (address x <? address y)%N = false).
  { apply N.ltb_ge. apply H. now left. }
  rewrite E, IH; auto. intros z Hz. apply H. now right.
Qed.

Lemma mapEnsure_update_last {V : Type} (address : nat -> N) (k : nat)
  (d v : V) (l : list (nat * V)) :
  ~ In k (map fst l) ->
  (forall q, In q l -> (address (fst q) <= address k)%N) ->
  mapUpdate Nat.eqb k (fun _ => v) (mapEnsure Nat.eqb address k d l)
  = l ++ [(k, v)].
Proof.
  intros Hk Hle. unfold mapEnsure.
  match goal with
  | |- context [existsb ?p l] => assert (E : existsb p l = false)
  end.
  { match goal with |- ?b = false => destruct b eqn:Ex end; auto. exfalso.
    apply existsb_exists in Ex. destruct Ex as (q & Hq & Eq).
    apply Nat.eqb_eq in Eq. apply Hk. rewrite Eq. now apply in_map. }
  rewrite E.
  rewrite (orderedInsert_last (fun p : nat * V => address (fst p)) (k, d) l)
    by exact Hle.
  unfold mapUpdate. rewrite map_app. cbn [map fst snd]. rewrite Nat.eqb_refl.
  f_equal. rewrite <- (map_id l) at 2. apply map_ext_in. intros q Hq.
  destruct (k =? fst q) eqn:Eq; auto. apply Nat.eqb_eq in Eq.
  exfalso. apply Hk. rewrite Eq. now apply in_map.
Qed.

Lemma ascending_middle {A : Type} (address : A -> N) l1 x l2 :
  ascending address (l1 ++ x :: l2) ->
  forall y, In y l1 -> (address y <= address x)%N.
Proof.
  unfold ascending. induction l1 as [|z l1 IH]; cbn [app]; intros H y Hy;
    [destruct Hy|].
  inversion H as [|? ? Hs Hall]; subst. destruct Hy as [->|Hy]; auto.
  rewrite Forall_forall in Hall. apply Hall. apply in_or_app. right. now left.
Qed.

Lemma randomizeStack_globals m f pad :
  m_globals (randomizeStack m f pad) = m_globals m.
Proof.
  unfold randomizeStack, getOrInsertFunction.
  destruct (getFunction m "llvm.stacksave");
    cbn [createFunction];
    match goal with
    | |- context [getFunction ?mm "llvm.stackrestore"] =>
        destruct (getFunction mm "llvm.stackrestore")
    end;
    cbn [createFunction];
    match goal with
    | |- context [fold_left ?a ?b ?c] => destruct (fold_left a b c)
    end; reflexivity.
Qed.

Lemma globals_grow m m' :
  evolves (fun _ => True) (fun _ => True) (fun _ => False) m m' ->
  forall g, In g (m_globals m) -> In g (m_globals m').
Proof.
  intros [_ (_ & [Ga _])] g Hg. destruct (Ga g Hg) as (g' & Hg' & _ & E).
  rewrite <- E; auto.
Qed.

Lemma fold_stackStep_pads addr m0 l :
  forall pads m,
  evolves (fun _ => True) (fun _ => True) (fun _ => False) m0 m ->
  ascending (faddr addr) (map fst pads ++ l) ->
  NoDup (map fst pads ++ l) ->
  (forall h, In h l ->
     (exists g, In g (m_functions m0) /\ fn_id g = h /\ h < m_next m0)
     /\ forall g1 g2, In g1 (m_functions m0) -> In g2 (m_functions m0) ->
          fn_id g1 = h -> fn_id g2 = h -> fn_name g1 = fn_name g2) ->
  map fst (fst (fold_left (stackStep addr) l (pads, m))) = map fst pads ++ l
  /\ (forall q, In q pads -> In q (fst (fold_left (stackStep addr) l (pads, m))))
  /\ forall h, In h l ->
       exists p g0,
         In (h, p) (fst (fold_left (stackStep addr) l (pads, m)))
         /\ In g0 (m_functions m0) /\ fn_id g0 = h
         /\ In (stackPad p (fn_name g0))
               (m_globals (snd (fold_left (stackStep addr) l (pads, m))))
         /\ m_next m0 <= p.
Proof.
  induction l as [|h l IH]; intros pads m Hev Hasc Hnd Hl; cbn [fold_left].
  - rewrite app_nil_r. split; auto. split; auto. intros h [].
  - destruct (Hl h (or_introl eq_refl)) as ((g & Hg & Eg & Hlt) & Hnames).
    pose proof Hev as [(Hn & [Fa Fb] & _) _].
    destruct (Fa g Hg) as (g' & Hg' & [Ei _] & _).
    destruct (lookupFunction_exists m h g' Hg' ltac:(congruence)) as (f & Ef).
    pose proof (lookupFunction_In _ _ _ Ef) as [Hf Eid].
    assert (Ename : fn_name f = fn_name g).
    { destruct (Fb f Hf) as [(g1 & Hg1 & [Ei1 En1] & _)|[Hr _]]; [|lia].
      rewrite En1. apply Hnames; auto. congruence. }
    pose proof (stackStep_steps (fun _ => True) (fun _ => True) (fun _ => False)
                  addr (pads, m) h (fun _ _ => I)) as Hstep.
    pose proof (fold_stackStep_steps (fun _ => True) (fun _ => True)
                  (fun _ => False) addr l (stackStep addr (pads, m) h)
                  (fun _ _ _ _ => I)) as Hrest.
    set (m1 := mkModule (m_triple m) (m_pointer_size m) (m_functions m)
                 (m_globals m ++
                  [mkGlobalVariable (m_next m) (fn_name f +++ ".stack_pad")
                     Int8Ty false InternalLinkage (Some (getInt m 8 0 false))])
                 (S (m_next m))).
    assert (Estep : stackStep addr (pads, m) h
                    = (pads ++ [(h, m_next m)], randomizeStack m1 f (m_next m))).
    { unfold stackStep. rewrite Ef. cbn [createGlobal gv_id].
      rewrite mapEnsure_update_last; [reflexivity| |].
      - intros Hin. apply NoDup_remove_2 in Hnd. apply Hnd. apply in_or_app.
        now left.
      - intros q Hq. apply (ascending_middle (faddr addr) _ h l Hasc).
        now apply in_map. }
    rewrite Estep in *. cbn [snd] in Hstep, Hrest.
    destruct (IH (pads ++ [(h, m_next m)]) (randomizeStack m1 f (m_next m)))
      as (K1 & K2 & K3).
    + eapply steps_trans; [exact Hev|exact Hstep].
    + rewrite map_app. cbn [map fst]. now rewrite <- app_assoc.
    + rewrite map_app. cbn [map fst]. now rewrite <- app_assoc.
    + intros k Hk. apply Hl. now right.
    + split; [|split].
      * rewrite K1, map_app. cbn [map fst]. now rewrite <- app_assoc.
      * intros q Hq. apply K2. apply in_or_app. now left.
      * intros k [<-|Hk]; [|now apply K3].
        exists (m_next m), g. split; [apply K2; apply in_or_app; right; now left|].
        split; [exact Hg|]. split; [exact Eg|]. split; [|lia].
        apply (globals_grow _ _ Hrest). rewrite randomizeStack_globals.
        unfold m1. cbn [m_globals]. apply in_or_app. right. left.
        unfold stackPad. now rewrite Ename.
Qed.

(** ** The body of the module constructor *)

Lemma ctorIs_emitCall m cid c0 bb calls callee args :
  ctorIs m cid c0 bb calls ->
  ctorIs (emitCall m cid bb callee args) cid c0 bb
    (calls ++ [mkInstruction (m_next m) Call VoidTy "" false
                 (args ++ [VConst (GFunction callee)]) []]).
Proof.
  intros [(g & Hg & Eg) Hall]. unfold emitCall, updateFunction.
  cbn [m_functions set_next set_functions]. split.
  - exists (if fn_id g =? cid
            then set_blocks g (insertAtEnd bb
                   (mkInstruction (m_next m) Call VoidTy "" false
                      (args ++ [VConst (GFunction callee)]) []) (fn_blocks g))
            else g).
    split; [apply in_map_iff; exists g; auto|].
    now destruct (fn_id g =? cid).
  - intros g' Hg' Eg'. apply in_map_iff in Hg'. destruct Hg' as (y & <- & Hy).
    assert (Ey : fn_id y = cid) by (now destruct (fn_id y =? cid)).
    rewrite Ey, Nat.eqb_refl. rewrite (Hall y Hy Ey).
    unfold set_blocks, insertAtEnd. cbn. now rewrite Nat.eqb_refl.
Qed.

Lemma ctorIs_frame U I N m m' cid c0 bb calls :
  fevolves U I N m m' -> cid < m_next m ->
  (forall g, In g (m_functions m) -> fn_id g = cid -> ~ U g) ->
  ctorIs m cid c0 bb calls -> ctorIs m' cid c0 bb calls.
Proof.
  intros (Hn & [Fa Fb] & _) Hlt Hnu [(g & Hg & Eg) Hall]. split.
  - destruct (Fa g Hg) as (g' & Hg' & [Ei _] & _). exists g'. split; auto.
    congruence.
  - intros g' Hg' Eg'.
    destruct (Fb g' Hg') as [(g0 & Hg0 & [Ei _] & Hsame)|[Hr _]]; [|lia].
    assert (E0 : fn_id g0 = cid) by congruence.
    rewrite (Hsame (Hnu g0 Hg0 E0)). now apply Hall.
Qed.

Lemma randomizeCode_args addr ua m f m' args :
  randomizeCode addr ua m f = Some (m', args) ->
  exists base limit table size adjacent,
    args = [base; limit; table; size; adjacent]
    /\ (base = VConst (GFunction (fn_id f))
        \/ base = VConst (ConstantExpr BitCast Int8PtrTy [GFunction (fn_id f)])).
Proof.
  unfold randomizeCode.
  destruct (collect addr ua m f) as [[m1 refs]|]; [|discriminate].
  assert (Hb : getPointerCast m1 (GFunction (fn_id f)) Int8PtrTy
               = GFunction (fn_id f)
               \/ getPointerCast m1 (GFunction (fn_id f)) Int8PtrTy
                  = ConstantExpr BitCast Int8PtrTy [GFunction (fn_id f)]).
  { unfold getPointerCast. destruct (Ty_eq_dec _ _); auto. }
  destruct (0 <? List.length refs).
  - cbn [createGlobal].
    match goal with
    | |- context [rewriteAll ?a ?b ?c ?d ?e ?st] =>
        destruct (rewriteAll a b c d e st) as [n bs]
    end.
    intros [= _ <-]. do 5 eexists. split; [reflexivity|].
    destruct Hb as [-> | ->]; auto.
  - intros [= _ <-]. do 5 eexists. split; [reflexivity|].
    destruct Hb as [-> | ->]; auto.
Qed.

Section CodeCalls.
Variable addr : Constant -> N.
Variable ua : Use -> N.
Variable rt : Runtime.
Variable pads : StackPads.
Variable cid : Handle.
Variable c0 : Function.
Variable bb : Handle.

Lemma codeStep_ctor m calls h :
  ctorIs m cid c0 bb calls -> cid < m_next m -> h <> cid ->
  (exists g, In g (m_functions m) /\ fn_id g = h) ->
  exists m' ci,
    codeStep addr ua rt pads cid bb (Some m) h = Some m'
    /\ ctorIs m' cid c0 bb (calls ++ [ci])
    /\ registersFunction (registerFunction rt) (padValue pads h) h ci
    /\ evolves (fun _ => True) (fun _ => True) (fun _ => False) m m'.
Proof.
  intros Hc Hlt Hne (g & Hg & Eg).
  pose proof (codeStep_steps (fun _ => True) (fun _ => True) (fun _ => False)
                addr ua rt pads cid bb m h I (fun _ _ => I) (fun _ _ => I)
                (fun _ _ => I)) as (mx & Ex & Sx).
  revert Ex. unfold codeStep.
  destruct (lookupFunction_exists m h g Hg Eg) as (f & Ef). rewrite Ef.
  apply lookupFunction_In in Ef. destruct Ef as [Hf Eid].
  destruct (randomizeCode addr ua m f) as [[m1 args]|] eqn:Er; [|discriminate].
  intros [= <-].
  destruct (randomizeCode_args _ _ _ _ _ _ Er)
    as (a1 & a2 & a3 & a4 & a5 & -> & Hbase).
  pose proof (randomizeCode_steps
                (fun g => fn_id g = fn_id f \/ m_next m <= fn_id g)
                (fun _ => True) (fun _ => False) addr ua m f m1 _ I
                (fun g E => or_introl E) (fun g E => or_intror E) Er) as [F1 _].
  assert (Hc1 : ctorIs m1 cid c0 bb calls).
  { eapply ctorIs_frame; eauto. intros x Hx Ex [E|E]; [congruence|lia]. }
  eexists. eexists. split; [reflexivity|].
  split; [apply ctorIs_emitCall; exact Hc1|]. split; [|exact Sx].
  exists a1, a2, a3, a4, a5. split.
  - unfold callOf, padValue. cbn [i_op i_ty i_operands app].
    destruct (mapFind Nat.eqb h pads); repeat split.
  - now rewrite <- Eid.
Qed.

Lemma fold_codeStep_ctor l : forall m calls,
  ctorIs m cid c0 bb calls -> cid < m_next m ->
  (forall h, In h l -> h <> cid /\ exists g, In g (m_functions m) /\ fn_id g = h) ->
  exists m' regF,
    fold_left (codeStep addr ua rt pads cid bb) l (Some m) = Some m'
    /\ ctorIs m' cid c0 bb (calls ++ regF)
    /\ Forall2 (fun h i => registersFunction (registerFunction rt)
                           (padValue pads h) h i) l regF.
Proof.
  induction l as [|h l IH]; intros m calls Hc Hlt Hl; cbn [fold_left].
  - exists m, []. rewrite app_nil_r. split; [reflexivity|].
    split; [exact Hc|constructor].
  - destruct (Hl h (or_introl eq_refl)) as [Hne Hex].
    destruct (codeStep_ctor m calls h Hc Hlt Hne Hex)
      as (m1 & ci & E1 & C1 & R1 & S1).
    rewrite E1.
    destruct (IH m1 (calls ++ [ci]) C1) as (m2 & regF & E2 & C2 & R2).
    + apply steps_next in S1. lia.
    + intros k Hk. destruct (Hl k (or_intror Hk)) as [Hnk (g & Hg & Eg)].
      split; auto. destruct S1 as [(_ & [Fa _] & _) _].
      destruct (Fa g Hg) as (g' & Hg' & [Ei _] & _). exists g'. split; auto.
      congruence.
    + exists m2, (ci :: regF). split; [exact E2|].
      split; [now rewrite <- app_assoc in C2|]. now constructor.
Qed.

End CodeCalls.

Lemma fold_emitCall_ctor {X : Type} cid c0 bb callee (mk : X -> list Value) l :
  forall m calls,
  ctorIs m cid c0 bb calls ->
  exists new,
    ctorIs (fold_left (fun m x => emitCall m cid bb callee (mk x)) l m)
      cid c0 bb (calls ++ new)
    /\ Forall2 (fun x i => callOf callee (mk x) i) l new.
Proof.
  induction l as [|x l IH]; intros m calls Hc; cbn [fold_left].
  - exists []. rewrite app_nil_r. split; auto.
  - destruct (IH _ _ (ctorIs_emitCall m cid c0 bb calls callee (mk x) Hc))
      as (new & C & R).
    exists (mkInstruction (m_next m) Call VoidTy "" false
              (mk x ++ [VConst (GFunction callee)]) [] :: new).
    split; [rewrite <- app_assoc in C; exact C|].
    constructor; auto. repeat split.
Qed.

(** *** The pads and the constructors on the way *)

Lemma fold_stackStep_globals addr l : forall st,
  exists extra,
    m_globals (snd (fold_left (stackStep addr) l st))
    = m_globals (snd st) ++ extra
    /\ forall x, In x extra -> notCtorTable (gv_name x).
Proof.
  induction l as [|h l IH]; intros st; cbn [fold_left].
  - exists []. rewrite app_nil_r. split; auto. intros x [].
  - destruct (IH (stackStep addr st h)) as (extra & E & Hn).
    assert (Hs : exists e1,
              m_globals (snd (stackStep addr st h)) = m_globals (snd st) ++ e1
              /\ forall x, In x e1 -> notCtorTable (gv_name x)).
    { destruct st as [pads m]. unfold stackStep. cbn [snd].
      destruct (lookupFunction m h) as [f|].
      - cbn [createGlobal gv_id snd]. rewrite randomizeStack_globals.
        cbn [m_globals]. eexists. split; [reflexivity|].
        intros x [<-|[]]. apply notCtorTable_stack_pad.
      - exists []. rewrite app_nil_r. split; auto. intros x []. }
    destruct Hs as (e1 & E1 & Hn1). rewrite E1, <- app_assoc in E.
    exists (e1 ++ extra). split; [exact E|].
    intros x Hx. apply in_app_or in Hx. destruct Hx; auto.
Qed.

Lemma getConstructors_app m m' extra :
  m_globals m' = m_globals m ++ extra ->
  (forall x, In x extra -> notCtorTable (gv_name x)) ->
  getConstructors m' = getConstructors m.
Proof.
  intros E Hn. unfold getConstructors, getGlobalVariable.
  rewrite E, find_app.
  destruct (find _ (m_globals m)); auto.
  destruct (find _ extra) as [x|] eqn:Ex; auto.
  apply find_some in Ex. destruct Ex as [Hx En]. apply String.eqb_eq in En.
  exfalso. exact (Hn x Hx En).
Qed.

Lemma declareRuntimeFunctions_globals m :
  m_globals (snd (declareRuntimeFunctions m)) = m_globals m.
Proof. reflexivity. Qed.

Lemma getConstructors_stackPhase addr opts l m :
  getConstructors (snd (stackPhase addr opts l m)) = getConstructors m.
Proof.
  unfold stackPhase. destruct (stabilize_stack opts); auto.
  destruct (fold_stackStep_globals addr l ([], m)) as (extra & E & Hn).
  eapply getConstructors_app; eauto.
Qed.

Lemma declareRuntimeFunctions_names m :
  let rt := fst (declareRuntimeFunctions m) in
  let m2 := snd (declareRuntimeFunctions m) in
  (exists d, In d (m_functions m2) /\ fn_id d = registerFunction rt
             /\ fn_name d = "stabilizer_register_function")
  /\ (exists d, In d (m_functions m2) /\ fn_id d = registerConstructor rt
                /\ fn_name d = "stabilizer_register_constructor")
  /\ (exists d, In d (m_functions m2) /\ fn_id d = registerStackPad rt
                /\ fn_name d = "stabilizer_register_stack_pad").
Proof.
  cbv zeta. unfold declareRuntimeFunctions, createFunction, updateFunction.
  cbn [fst snd fn_id m_functions set_functions m_next registerFunction
       registerConstructor registerStackPad].
  rewrite !map_app, !map_map. cbn [map].
  split; [|split]; eexists; (split; [|split]).
  - apply in_or_app. left. apply in_or_app. left. apply in_or_app. right.
    left. reflexivity.
  - repeat match goal with
           | |- context [if ?b then _ else _] => destruct b
           end; reflexivity.
  - repeat match goal with
           | |- context [if ?b then _ else _] => destruct b
           end; reflexivity.
  - apply in_or_app. left. apply in_or_app. right. left. reflexivity.
  - repeat match goal with
           | |- context [if ?b then _ else _] => destruct b
           end; reflexivity.
  - repeat match goal with
           | |- context [if ?b then _ else _] => destruct b
           end; reflexivity.
  - apply in_or_app. right. left. reflexivity.
  - repeat match goal with
           | |- context [if ?b then _ else _] => destruct b
           end; reflexivity.
  - repeat match goal with
           | |- context [if ?b then _ else _] => destruct b
           end; reflexivity.
Qed.

Lemma mapFind_In {V : Type} (l : list (nat * V)) k v :
  NoDup (map fst l) -> In (k, v) l -> mapFind Nat.eqb k l = Some v.
Proof.
  unfold mapFind. induction l as [|[k' v'] l IH]; cbn [map fst find];
    intros Hnd Hin; [destruct Hin|].
  inversion Hnd as [|? ? Hk Hl]; subst. destruct Hin as [E|Hin].
  - injection E as -> ->. now rewrite Nat.eqb_refl.
  - destruct (k =? k') eqn:E.
    + apply Nat.eqb_eq in E. subst k'. exfalso. apply Hk.
      change k with (fst (k, v)). now apply in_map.
    + now apply IH.
Qed.

(** *** The pass, phase by phase *)

Lemma run_pads addr ua opts (m : Module)
  (Hwf : wfFunctions m)
  (Hgw : Forall (fun g => gv_id g < m_next m) (m_globals m)) :
  exists rt m2 pads m3 ctor m4 m6,
    declareRuntimeFunctions (afterHeap opts m) = (rt, m2)
    /\ stackPhase addr opts (localFunctions addr m) m2 = (pads, m3)
    /\ makeConstructor m3 "stabilizer.module_ctor" = (ctor, m4)
    /\ codePhase addr ua opts rt pads (fn_id ctor) (m_next m4)
         (localFunctions addr m)
         (set_next
            (updateFunction m4 (fn_id ctor)
               (fun g => set_blocks g
                           (fn_blocks g ++ [mkBasicBlock (m_next m4) "" []])))
            (S (m_next m4)))
       = Some m6
    /\ run addr ua opts m
       = Some (renameMain
                 (registerPhase opts rt pads (getConstructors (afterHeap opts m))
                    (fn_id ctor) (m_next m4) m6))
    /\ fevolves (fun _ => True) (fun _ => True) notMain m m2
    /\ fevolves (fun _ => True) (fun _ => True) notMain m2 m3
    /\ fevolves (fun _ => True) (fun _ => True) notMain m4
         (registerPhase opts rt pads (getConstructors (afterHeap opts m))
            (fn_id ctor) (m_next m4) m6)
    /\ (stabilize_stack opts = false -> pads = [])
    /\ (stabilize_stack opts = true -> map fst pads = localFunctions addr m)
    /\ forall h p, In (h, p) pads ->
         exists f, In f (m_functions m) /\ fn_id f = h
                   /\ isLocalFunction f = true /\ m_next m <= p
                   /\ In (stackPad p (fn_name f))
                        (m_globals
                           (renameMain
                              (registerPhase opts rt pads
                                 (getConstructors (afterHeap opts m))
                                 (fn_id ctor) (m_next m4) m6))).
Proof.
  assert (Hold : forall g, In g (m_functions m) -> fn_id g < m_next m).
  { destruct Hwf as [_ Hall]. now rewrite Forall_forall in Hall. }
  rewrite Forall_forall in Hgw.
  destruct (run_frame addr ua opts (fun _ => True) (fun _ => True)
              (fun _ => True) m)
    as (rt & m2 & pads & m3 & ctor & m4 & m6 & E2 & E3 & E4 & E6 & Erun
        & S1 & S2 & S3 & S7); auto.
  rewrite localFunctions_afterHeap in E3, E6.
  assert (Ectors : getConstructors m3 = getConstructors (afterHeap opts m)).
  { pose proof (getConstructors_stackPhase addr opts (localFunctions addr m) m2)
      as H1. rewrite E3 in H1. cbn [snd] in H1. rewrite H1.
    unfold getConstructors, getGlobalVariable.
    pose proof (declareRuntimeFunctions_globals (afterHeap opts m)) as H2.
    rewrite E2 in H2. cbn [snd] in H2. now rewrite H2. }
  rewrite Ectors in Erun, S7.
  exists rt, m2, pads, m3, ctor, m4, m6.
  assert (S12 : evolves (fun _ => True) (fun _ => True) (fun _ => True) m m2)
    by (eapply steps_trans; eauto).
  split; [exact E2|]. split; [exact E3|]. split; [exact E4|].
  split; [exact E6|]. split; [exact Erun|].
  split; [apply S12|]. split; [apply S3|]. split; [apply S7|].
  split.
  { intros Hoff. revert E3. unfold stackPhase. rewrite Hoff. now intros [= <- _]. }
  (* the names and handles of the local functions in [m2] *)
  assert (Hloc : forall h, In h (localFunctions addr m) ->
            exists f, In f (m_functions m) /\ fn_id f = h
                      /\ isLocalFunction f = true).
  { intros h Hh. apply localFunctions_In in Hh.
    destruct Hh as (f & Hf & Hl & E). eauto. }
  destruct S12 as [(Hn12 & [Fa Fb] & _) G12].
  assert (Hfrom : forall g f, In g (m_functions m2) -> In f (m_functions m) ->
            fn_id g = fn_id f -> fn_name g = fn_name f).
  { intros g f Hg Hf E.
    destruct (Fb g Hg) as [(x & Hx & [Ei En] & _)|[Hr _]].
    - rewrite En. f_equal. apply (wfFunctions_unique m); auto. congruence.
    - apply Hold in Hf. lia. }
  assert (Hpads : stabilize_stack opts = true ->
            map fst pads = localFunctions addr m
            /\ forall h, In h (localFunctions addr m) ->
                 exists p f, In (h, p) pads /\ In f (m_functions m)
                             /\ fn_id f = h /\ isLocalFunction f = true
                             /\ In (stackPad p (fn_name f)) (m_globals m3)
                             /\ m_next m <= p).
  { intros Hon. revert E3. unfold stackPhase. rewrite Hon. intros E3.
    destruct (fold_stackStep_pads addr m2 (localFunctions addr m) [] m2)
      as (K1 & _ & K3).
    - apply steps_refl.
    - apply localFunctions_ascending.
    - apply localFunctions_NoDup.
    - intros h Hh. destruct (Hloc h Hh) as (f & Hf & E & Hl). split.
      + destruct (Fa f Hf) as (g & Hg & [Ei _] & _). exists g.
        split; auto. split; [congruence|]. apply Hold in Hf. lia.
      + intros g1 g2 H1 H2 E1 E2'.
        rewrite (Hfrom g1 f), (Hfrom g2 f); auto; congruence.
    - rewrite E3 in K1, K3. cbn [fst snd map app] in K1, K3.
      split; [exact K1|]. intros h Hh.
      destruct (K3 h Hh) as (p & g0 & Hp & Hg0 & Eg0 & Hpad & Hge).
      destruct (Hloc h Hh) as (f & Hf & E & Hl).
      exists p, f. split; auto. split; auto. split; auto. split; auto.
      split; [|lia]. rewrite <- (Hfrom g0 f); auto. congruence. }
  split; [intros Hon; now apply Hpads|].
  intros h p Hin.
  destruct (stabilize_stack opts) eqn:Hon.
  2:{ revert E3. unfold stackPhase. rewrite Hon. intros [= <- _]. destruct Hin. }
  destruct (Hpads eq_refl) as (Hkeys & Hall).
  assert (Hh : In h (localFunctions addr m)).
  { rewrite <- Hkeys. change h with (fst (h, p)). now apply in_map. }
  destruct (Hall h Hh) as (p' & f & Hp' & Hf & E & Hl & Hpad & Hge).
  assert (p' = p).
  { assert (Hnd : NoDup (map fst pads)).
    { rewrite Hkeys. apply localFunctions_NoDup. }
    pose proof (mapFind_In pads h p Hnd Hin) as F1.
    pose proof (mapFind_In pads h p' Hnd Hp') as F2. congruence. }
  subst p'. exists f. split; auto. split; auto. split; auto. split; auto.
  rewrite renameMain_globals.
  (* from [m3] to the result *)
  assert (G13 : gevolves (fun _ => True) notCtorTable m m3).
  { eapply gevolves_trans; [exact G12|apply S3]. }
  destruct G13 as (Hn3 & Ga3 & Gb3).
  assert (Hgw3 : Forall (fun g => gv_id g < m_next m3) (m_globals m3)).
  { apply Forall_forall. intros g Hg.
    destruct (Gb3 g Hg) as [(g0 & Hg0 & (Ei & _) & _)|[Hr _]]; [|lia].
    rewrite Ei. apply Hgw in Hg0. lia. }
  assert (H4 : In (stackPad p (fn_name f)) (m_globals m4)).
  { apply (makeConstructor_keeps m3 _ ctor m4 _ Hgw3 E4 Hpad).
    intros old Hold' Eid. apply getGlobalVariable_In in Hold'.
    destruct Hold' as [Hin_old Ename].
    destruct (Gb3 old Hin_old) as [(o0 & Ho0 & (Eio & _) & _)|[_ Hnm]].
    - apply Hgw in Ho0. cbn in Eid. lia.
    - contradiction. }
  destruct S7 as [_ G7]. destruct G7 as (_ & Ga7 & _).
  destruct (Ga7 _ H4) as (g7 & Hg7 & _ & E7).
  now rewrite <- (E7 (fun F => F)).
Qed.

(** X12. With stack randomization on, the pass gives a local function its
    pad byte: for a function of the module that is defined, is not an
    intrinsic and is not the personality routine, the result has a new
    global variable named after the function with the suffix [.stack_pad],
    of type [i8], internal, not constant, with initializer 0.  The name of
    the pad is taken to be free when the pad is created: the module has
    nothing of that name ([Hfree]) and no other local function has the name
    of the function ([Hown]); nothing else that the pass creates before has
    a name that ends so. *)
Theorem stack_pads_created addr ua opts (m : Module) (f : Function)
  (Hwf : wfFunctions m)
  (Hgw : Forall (fun g => gv_id g < m_next m) (m_globals m))
  (Hstack : stabilize_stack opts = true)
  (Hf : In f (m_functions m))
  (Hl : isLocalFunction f = true)
  (Hfree : nameFree m (fn_name f +++ ".stack_pad") = true)
  (Hown : ownName m f) :
  exists m' p,
    run addr ua opts m = Some m'
    /\ m_next m <= p
    /\ In (mkGlobalVariable p (fn_name f +++ ".stack_pad")
             Int8Ty false InternalLinkage (Some (ConstantInt 8 0)))
          (m_globals m').
Proof.
  destruct (run_pads addr ua opts m Hwf Hgw)
    as (rt & m2 & pads & m3 & ctor & m4 & m6 & _ & _ & _ & _ & Erun
        & _ & _ & _ & _ & Hkeys & Hall).
  assert (Hh : In (fn_id f) (map fst pads)).
  { rewrite (Hkeys Hstack). apply localFunctions_In. eauto. }
  apply in_map_iff in Hh. destruct Hh as ([h p] & Eh & Hin). cbn in Eh. subst h.
  destruct (Hall _ _ Hin) as (f' & Hf' & E & _ & Hge & Hpad).
  eexists. exists p. split; [exact Erun|]. split; auto.
  now rewrite <- (wfFunctions_unique m f' f Hwf Hf' Hf E).
Qed.

Lemma stack_pads_created_witness :
  wfFunctions example_program
  /\ Forall (fun g => gv_id g < m_next example_program)
       (m_globals example_program)
  /\ nameFree example_program "init.stack_pad" = true
  /\ ownName example_program example_init
  /\ exists m',
       run example_addr example_use_addr example_options example_program
       = Some m'
       /\ exists p, In (mkGlobalVariable p "init.stack_pad" Int8Ty false
                          InternalLinkage (Some (ConstantInt 8 0)))
                       (m_globals m').
Proof.
  assert (Hgw : Forall (fun g => gv_id g < m_next example_program)
                  (m_globals example_program)) by (repeat constructor).
  assert (Hown : ownName example_program example_init)
    by (intros g [<-|[<-|[]]] Hl En; [discriminate Hl|reflexivity]).
  split; [exact example_program_wf|]. split; [exact Hgw|].
  split; [reflexivity|]. split; [exact Hown|].
  destruct (stack_pads_created example_addr example_use_addr example_options
              example_program example_init example_program_wf Hgw eq_refl
              (or_intror (or_introl eq_refl)) eq_refl eq_refl Hown)
    as (m' & p & Erun & _ & Hp).
  exists m'. split; [exact Erun|]. exists p. exact Hp.
Defined.

Lemma ctorIs_insertAtEnd m cid c0 bb calls x n :
  ctorIs m cid c0 bb calls ->
  ctorIs (set_next (updateFunction m cid
                      (fun g => set_blocks g (insertAtEnd bb x (fn_blocks g))))
                   n)
    cid c0 bb (calls ++ [x]).
Proof.
  intros [(g & Hg & Eg) Hall]. unfold updateFunction.
  cbn [m_functions set_next set_functions]. split.
  - exists (if fn_id g =? cid
            then set_blocks g (insertAtEnd bb x (fn_blocks g)) else g).
    split; [apply in_map_iff; exists g; auto|].
    now destruct (fn_id g =? cid).
  - intros g' Hg' Eg'. apply in_map_iff in Hg'. destruct Hg' as (y & <- & Hy).
    assert (Ey : fn_id y = cid) by (now destruct (fn_id y =? cid)).
    rewrite Ey, Nat.eqb_refl. rewrite (Hall y Hy Ey).
    unfold set_blocks, insertAtEnd. cbn. now rewrite Nat.eqb_refl.
Qed.

Lemma renameMain_keeps m m7 g :
  fevolves (fun _ => True) (fun _ => True) notMain m m7 ->
  (forall x, In x (m_functions m) -> fn_id x < m_next m) ->
  In g (m_functions m7) -> m_next m <= fn_id g ->
  In g (m_functions (renameMain m7)).
Proof.
  intros (_ & [_ Fb] & _) Hold Hg Hge. unfold renameMain.
  destruct (getFunction m7 "main") as [mn|] eqn:Emn; auto.
  apply getFunction_In in Emn. destruct Emn as [Hmn Enm].
  unfold updateFunction. cbn [m_functions set_functions].
  apply in_map_iff. exists g. split; auto.
  destruct (fn_id g =? fn_id mn) eqn:E; auto. apply Nat.eqb_eq in E.
  exfalso. destruct (Fb mn Hmn) as [(x & Hx & [Ei _] & _)|[_ Hnm]].
  - apply Hold in Hx. lia.
  - contradiction.
Qed.



(** ** The attributes and the linkage of a randomized function *)

Lemma sameButBody_refl g : sameButBody g g.
Proof. unfold sameButBody. now destruct g. Qed.

Lemma sameButBody_trans g1 g2 g3 :
  sameButBody g1 g2 -> sameButBody g2 g3 -> sameButBody g1 g3.
Proof.
  unfold sameButBody. destruct g1, g2, g3. unfold set_blocks. cbn. congruence.
Qed.

Lemma bodiesOnly_refl m : bodiesOnly m m.
Proof.
  split; [lia|]. intros g Hg. left. exists g. split; auto.
  apply sameButBody_refl.
Qed.

Lemma bodiesOnly_trans m1 m2 m3 :
  bodiesOnly m1 m2 -> bodiesOnly m2 m3 -> bodiesOnly m1 m3.
Proof.
  intros [N1 B1] [N2 B2]. split; [lia|]. intros g3 Hg3.
  destruct (B2 g3 Hg3) as [(g2 & Hg2 & S2)|Hnew]; [|right; lia].
  destruct (B1 g2 Hg2) as [(g1 & Hg1 & S1)|Hnew].
  - left. exists g1. split; auto. eapply sameButBody_trans; eauto.
  - right. rewrite S2. cbn. exact Hnew.
Qed.

Lemma bodiesOnly_same m m' :
  m_functions m' = m_functions m -> m_next m <= m_next m' -> bodiesOnly m m'.
Proof.
  intros E Hn. split; auto. rewrite E. intros g Hg. left. exists g.
  split; auto. apply sameButBody_refl.
Qed.

Lemma bodiesOnly_update m h bs n :
  m_next m <= n ->
  bodiesOnly m (set_next (updateFunction m h (fun g => set_blocks g bs)) n).
Proof.
  intros Hn. split; [exact Hn|]. unfold updateFunction.
  cbn [m_functions set_next set_functions]. intros g' Hg'.
  apply in_map_iff in Hg'. destruct Hg' as (g & <- & Hg). left. exists g.
  split; auto. destruct (fn_id g =? h); [|apply sameButBody_refl].
  unfold sameButBody. now destruct g.
Qed.

Lemma bodiesOnly_create m t l name :
  bodiesOnly m (snd (createFunction m t l name)).
Proof.
  split; [simpl; lia|]. cbn [createFunction snd m_functions].
  intros g Hg. apply in_app_or in Hg. destruct Hg as [Hg|[<-|[]]].
  - left. exists g. split; auto. apply sameButBody_refl.
  - right. cbn. lia.
Qed.

Lemma getFloatConversion_bodiesOnly m op tin tout conv m' :
  getFloatConversion m op tin tout = Some (conv, m') -> bodiesOnly m m'.
Proof.
  unfold getFloatConversion. destruct (conversionName op) as [p|]; [|discriminate].
  destruct (getFunction m _); intros [= <- <-]; [apply bodiesOnly_refl|].
  eapply bodiesOnly_trans; [apply bodiesOnly_create|].
  cbn [createFunction snd fn_id m_next]. apply bodiesOnly_update. simpl. lia.
Qed.

Lemma extractStep_bodiesOnly f m bs del h m' bs' del' :
  extractStep f (Some (m, bs, del)) h = Some (m', bs', del') -> bodiesOnly m m'.
Proof.
  unfold extractStep. destruct (findInst bs h) as [i|].
  - destruct (isConversion m i).
    + destruct (getFloatConversion _ _ _ _) as [[g mc]|] eqn:Eg; [|discriminate].
      intros [= <- <- <-]. eapply bodiesOnly_trans.
      * eapply getFloatConversion_bodiesOnly; eauto.
      * apply bodiesOnly_same; simpl; auto.
    + destruct (fold_extractOperand_changes h (seq 0 (List.length (i_operands i)))
                  (m, bs)) as (Hf & Hn & _).
      destruct (fold_left _ _ (m, bs)) as [m2 bs2]. intros [= <- <- <-].
      now apply bodiesOnly_same.
  - intros [= <- <- <-]. apply bodiesOnly_refl.
Qed.

Lemma fold_extractStep_bodiesOnly f l : forall m bs del m' bs' del',
  fold_left (extractStep f) l (Some (m, bs, del)) = Some (m', bs', del') ->
  bodiesOnly m m'.
Proof.
  induction l as [|h l IH]; intros m bs del m' bs' del'; cbn [fold_left].
  - intros [= <- <- <-]. apply bodiesOnly_refl.
  - destruct (extractStep_total f m bs del h) as (m1 & bs1 & del1 & E & _).
    rewrite E. intros E2. eapply bodiesOnly_trans.
    + eapply extractStep_bodiesOnly; eauto.
    + eapply IH; eauto.
Qed.

Lemma randomizeCode_bodiesOnly addr ua m f m' args :
  randomizeCode addr ua m f = Some (m', args) ->
  bodiesOnly (sentinelStage m f) m'.
Proof.
  unfold randomizeCode, collect, extractFloatOperations.
  destruct (fold_left (extractStep f) _ _) as [[[m1 bs1] del1]|] eqn:E;
    [|discriminate].
  pose proof (fold_extractStep_bodiesOnly _ _ _ _ _ _ _ _ E) as B1.
  set (m2 := updateFunction m1 (fn_id f)
               (fun g => set_blocks g (eraseInsts del1 bs1))) in *.
  assert (B2 : bodiesOnly (sentinelStage m f) m2).
  { eapply bodiesOnly_trans; [exact B1|].
    apply (bodiesOnly_update m1 (fn_id f) (eraseInsts del1 bs1) (m_next m1)).
    lia. }
  destruct (0 <? List.length _).
  - cbn [createGlobal].
    match goal with
    | |- context [rewriteAll ?a ?b ?c ?d ?e ?st] =>
        pose proof (rewriteAll_next a b c d e st) as Hn;
        destruct (rewriteAll a b c d e st) as [n bs]
    end.
    intros [= <- _]. cbn [fst m_next gv_id] in Hn.
    eapply bodiesOnly_trans; [exact B2|].
    match goal with
    | |- bodiesOnly _ (set_next (updateFunction ?mm _ _) _) =>
        apply (bodiesOnly_trans _ mm)
    end.
    + apply bodiesOnly_same; simpl; auto.
    + apply bodiesOnly_update. simpl. simpl in Hn. lia.
  - intros [= <- _]. exact B2.
Qed.

Lemma removeFnAttr_attrs f a b :
  In b (fn_attrs (removeFnAttr f a)) <-> In b (fn_attrs f) /\ b <> a.
Proof.
  unfold removeFnAttr. cbn [fn_attrs set_fn_attrs]. rewrite filter_In.
  destruct (Attribute_eq_dec a b); intuition congruence.
Qed.

(** X14. Code randomization takes the stack-protector attributes
    [StackProtect] and [StackProtectReq] off the function and nothing else:
    every other attribute, [StackProtectStrong] among them, stays; the
    linkage changes only from linkonce_odr, to external; the name, the type
    and the alignment are as they were. *)
Theorem stack_protection_removed addr ua (m : Module) (f : Function)
  (Hwf : wfFunctions m) (Hf : In f (m_functions m)) :
  exists m' args,
    randomizeCode addr ua m f = Some (m', args)
    /\ (exists f', In f' (m_functions m') /\ fn_id f' = fn_id f)
    /\ forall f', In f' (m_functions m') -> fn_id f' = fn_id f ->
         (forall a, In a (fn_attrs f') <->
                    In a (fn_attrs f) /\ a <> StackProtect
                    /\ a <> StackProtectReq)
         /\ fn_linkage f'
            = (if Linkage_eq_dec (fn_linkage f) LinkOnceODRLinkage
               then ExternalLinkage else fn_linkage f)
         /\ fn_name f' = fn_name f /\ fn_type f' = fn_type f
         /\ fn_align f' = fn_align f.
Proof.
  assert (Hold : forall g, In g (m_functions m) -> fn_id g < m_next m).
  { destruct Hwf as [_ Hall]. now rewrite Forall_forall in Hall. }
  destruct (randomizeCode_total addr ua m f) as ([m' args] & Er).
  exists m', args. split; [exact Er|]. split.
  - pose proof (randomizeCode_steps (fun _ => True) (fun _ => True)
                  (fun _ => False) addr ua m f m' args I (fun _ _ => I)
                  (fun _ _ => I) Er) as [(_ & [Fa _] & _) _].
    destruct (Fa f Hf) as (f' & Hf' & [Ei _] & _). eauto.
  - intros f' Hf' Ei.
    destruct (randomizeCode_bodiesOnly _ _ _ _ _ _ Er) as [Hn Hb].
    destruct (Hb f' Hf') as [(g & Hg & Sg)|Hnew].
    2:{ apply Hold in Hf. unfold sentinelStage in Hnew. simpl in Hnew. lia. }
    assert (Eg : fn_id g = fn_id f) by (rewrite Sg in Ei; exact Ei).
    (* the record that the first stage leaves *)
    unfold sentinelStage, updateFunction, insertAfter in Hg.
    cbn [m_functions set_functions set_next] in Hg. rewrite !map_map in Hg.
    apply in_map_iff in Hg. destruct Hg as (y & Ey & Hy).
    apply in_insertAfterIn in Hy.
    assert (Hyid : fn_id y = fn_id f).
    { rewrite <- Eg, <- Ey.
      repeat match goal with
             | |- context [if ?b then _ else _] => destruct b
             end; reflexivity. }
    destruct Hy as [Hy| ->].
    2:{ apply Hold in Hf. cbn in Hyid. lia. }
    assert (y = f) by (apply (wfFunctions_unique m); auto). subst y.
    rewrite Nat.eqb_refl in Ey. cbn [fn_id removeFnAttr set_fn_attrs] in Ey.
    rewrite Nat.eqb_refl in Ey. cbn [fn_id] in Ey. rewrite Nat.eqb_refl in Ey.
    rewrite Sg, <- Ey. cbn [set_blocks fn_attrs fn_linkage fn_name fn_type fn_align].
    split.
    + intros a.
      destruct (Linkage_eq_dec _ LinkOnceODRLinkage);
        unfold set_fn_linkage; cbn [fn_attrs];
        rewrite !removeFnAttr_attrs; tauto.
    + unfold removeFnAttr, set_fn_attrs, set_fn_linkage.
      cbn [fn_linkage fn_name fn_type fn_align].
      destruct (Linkage_eq_dec (fn_linkage f) LinkOnceODRLinkage);
        cbn [fn_linkage fn_name fn_type fn_align]; auto.
Qed.

Lemma stack_protection_removed_witness :
  wfFunctions example_protected
  /\ In example_guarded (m_functions example_protected)
  /\ exists m' args f',
       randomizeCode example_addr example_use_addr example_protected
         example_guarded = Some (m', args)
       /\ In f' (m_functions m') /\ fn_id f' = 1
       /\ ~ In StackProtect (fn_attrs f')
       /\ In StackProtectStrong (fn_attrs f')
       /\ fn_linkage f' = ExternalLinkage.
Proof.
  assert (Hwf : wfFunctions example_protected).
  { split.
    - simpl. repeat constructor; simpl; intuition discriminate.
    - repeat constructor. }
  assert (Hin : In example_guarded (m_functions example_protected))
    by (simpl; auto).
  split; [exact Hwf|]. split; [exact Hin|].
  destruct (stack_protection_removed example_addr example_use_addr
              example_protected example_guarded Hwf Hin)
    as (m' & args & Er & (f' & Hf' & Ei) & Hall).
  exists m', args, f'. split; [exact Er|]. split; [exact Hf'|].
  split; [exact Ei|].
  destruct (Hall f' Hf' Ei) as (Ha & Hl & _).
  split; [|split; [|exact Hl]].
  - intros H. apply Ha in H. destruct H as (_ & H & _). now apply H.
  - apply Ha. split; [simpl; auto|]. split; discriminate.
Defined.

(** ** The platform test *)

Lemma prefix_lowercase n s :
  prefix n s = true -> prefix (lowercase n) (lowercase s) = true.
Proof.
  revert s. induction n as [|a n IH]; intros [|b s]; cbn; auto;
    try discriminate.
  destruct (ascii_dec a b) as [->|]; [|discriminate].
  intros H. destruct (ascii_dec (tolower b) (tolower b)); [auto|congruence].
Qed.

Lemma index_here n b s :
  index 0 n (String b s)
  = if prefix n (String b s) then Some 0
    else match index 0 n s with Some k => Some (S k) | None => None end.
Proof. reflexivity. Qed.

Lemma index_later k n b s :
  index (S k) n (String b s)
  = match index k n s with Some j => Some (S j) | None => None end.
Proof. reflexivity. Qed.

Lemma index_lowercase n : forall s k,
  index k n s <> None -> index k (lowercase n) (lowercase s) <> None.
Proof.
  induction s as [|b s IH]; intros k.
  - destruct k; cbn; [|auto]. destruct n; cbn; auto.
  - change (lowercase (String b s)) with (String (tolower b) (lowercase s)).
    destruct k as [|k].
    + rewrite !index_here.
      change (String (tolower b) (lowercase s)) with (lowercase (String b s)).
      destruct (prefix n (String b s)) eqn:Ep.
      * rewrite (prefix_lowercase _ _ Ep). discriminate.
      * intros H. destruct (prefix (lowercase n) (lowercase (String b s)));
          [discriminate|].
        specialize (IH 0). destruct (index 0 n s); [|congruence].
        destruct (index 0 (lowercase n) (lowercase s)); [discriminate|].
        exfalso. apply IH; [discriminate|reflexivity].
    + rewrite !index_later. intros H. specialize (IH k).
      destruct (index k n s); [|congruence].
      destruct (index k (lowercase n) (lowercase s)); [discriminate|].
      exfalso. apply IH; [discriminate|reflexivity].
Qed.

Lemma contains_lowercase s n :
  contains s n = true -> contains (lowercase s) (lowercase n) = true.
Proof.
  unfold contains. intros H.
  pose proof (index_lowercase n s 0) as L.
  destruct (index 0 n s); [|discriminate].
  destruct (index 0 (lowercase n) (lowercase s)); auto.
  exfalso. apply L; [discriminate|reflexivity].
Qed.

(** X15. The platform is read off the target triple without regard to the
    case of the letters, and the 64-bit x86 names take precedence: a triple
    that holds [x86_64] or [amd64], in any mixture of upper and lower case,
    is taken for x86-64 whatever else it holds, and data is then addressed
    relative to the program counter. *)
Theorem platform_ignores_case (m : Module) (needle : string)
  (Hin : contains (m_triple m) needle = true)
  (Hname : lowercase needle = "x86_64" \/ lowercase needle = "amd64") :
  getPlatform m = x86_64 /\ isDataPCRelative m = true.
Proof.
  apply contains_lowercase in Hin.
  assert (E : getPlatform m = x86_64).
  { unfold getPlatform. destruct Hname as [E|E]; rewrite E in Hin; rewrite Hin.
    - reflexivity.
    - now rewrite orb_true_r. }
  split; [exact E|]. unfold isDataPCRelative. now rewrite E.
Qed.

Lemma platform_ignores_case_witness :
  getPlatform (mkModule "AMD64-i386-PC-Linux" 8 [] [] 0) = x86_64
  /\ isDataPCRelative (mkModule "AMD64-i386-PC-Linux" 8 [] [] 0) = true.
Proof.
  apply (platform_ignores_case (mkModule "AMD64-i386-PC-Linux" 8 [] [] 0)
           "AMD64").
  - reflexivity.
  - right. reflexivity.
Defined.

(** ** The sentinel and the table that the registration names *)

Lemma makeDummy_isSentinel n name : isSentinel (makeDummy n name).
Proof. repeat split. do 2 eexists. reflexivity. Qed.

Lemma randomizeCode_sentinel addr ua m f m' args :
  In f (m_functions m) -> fn_id f < m_next m ->
  randomizeCode addr ua m f = Some (m', args) ->
  followedBy (fn_id f) (makeDummy (m_next m) (fn_name f)) (m_functions m').
Proof.
  intros Hf Hlt Er.
  set (U' := fun g : Function => fn_id g <> m_next m).
  set (I' := fun h : Handle => h <> fn_id f).
  assert (S1 : evolves U' I' (fun _ => False) (sentinelStage m f) m').
  { eapply randomizeCode_after_sentinel; [| |exact Er];
      intros g Hg; unfold U'; [lia|simpl in Hg; lia]. }
  destruct S1 as [(_ & _ & Hadj) _]. apply Hadj.
  - now apply sentinelStage_followedBy.
  - unfold I'. auto.
  - unfold U'. simpl. auto.
Qed.

Lemma sentinelStage_dummy m f x :
  (forall g, In g (m_functions m) -> fn_id g < m_next m) ->
  In x (m_functions (sentinelStage m f)) -> fn_id x = m_next m ->
  x = makeDummy (m_next m) (fn_name f).
Proof.
  intros Hold. unfold sentinelStage, updateFunction, insertAfter.
  cbn [m_functions set_functions set_next]. rewrite !map_map.
  intros Hx Ex. apply in_map_iff in Hx. destruct Hx as (y & Ey & Hy).
  apply in_insertAfterIn in Hy. destruct Hy as [Hy|Hy].
  - exfalso. apply Hold in Hy.
    assert (fn_id x = fn_id y); [|lia].
    rewrite <- Ey. clear.
    repeat (match goal with
            | |- context [if ?b then _ else _] => destruct b
            end; cbn [fn_id removeFnAttr set_fn_attrs set_fn_linkage]);
      reflexivity.
  - subst y x. clear Ex. set (d := makeDummy (m_next m) (fn_name f)).
    assert (R1 : removeFnAttr d StackProtect = d) by reflexivity.
    assert (R2 : removeFnAttr d StackProtectReq = d) by reflexivity.
    assert (R3 : (if Linkage_eq_dec (fn_linkage d) LinkOnceODRLinkage
                  then set_fn_linkage d ExternalLinkage else d) = d).
    { destruct (Linkage_eq_dec (fn_linkage d) LinkOnceODRLinkage) as [E|E];
        [discriminate E|reflexivity]. }
    destruct (fn_id d =? fn_id f) eqn:E;
      repeat (rewrite ?R1, ?E, ?R2, ?R3); reflexivity.
Qed.

Lemma collect_sentinel addr ua m f m1 refs :
  wfFunctions m -> In f (m_functions m) ->
  collect addr ua m f = Some (m1, refs) ->
  lookupFunction m1 (m_next m) = Some (makeDummy (m_next m) (fn_name f)).
Proof.
  intros Hwf Hf. assert (Hold : forall g, In g (m_functions m) -> fn_id g < m_next m).
  { destruct Hwf as [_ Hall]. now rewrite Forall_forall in Hall. }
  unfold collect.
  destruct (extractFloatOperations (sentinelStage m f) f) as [m2|] eqn:Ec;
    [|discriminate].
  intros [= <- _].
  set (d := makeDummy (m_next m) (fn_name f)).
  set (U' := fun g : Function => fn_id g <> m_next m).
  assert (S1 : evolves U' (fun _ => True) (fun _ => False) (sentinelStage m f) m2).
  { eapply extractFloatOperations_steps; [| |exact Ec];
      intros g Hg; unfold U'; [simpl in Hg; lia|].
    pose proof (Hold f Hf). lia. }
  destruct S1 as [(_ & [Fa Fb] & _) _].
  assert (Hd : In d (m_functions (sentinelStage m f))).
  { destruct (sentinelStage_followedBy m f Hf (Hold f Hf))
      as (l1 & g & l2 & -> & _).
    apply in_or_app. right. right. now left. }
  destruct (Fa d Hd) as (d' & Hd' & _ & Esame).
  rewrite Esame in Hd' by (unfold U', d; simpl; auto).
  destruct (lookupFunction_exists m2 (m_next m) d Hd' eq_refl) as (x & Ex).
  rewrite Ex. f_equal.
  apply lookupFunction_In in Ex. destruct Ex as [Hx Eix].
  destruct (Fb x Hx) as [(x0 & Hx0 & [Ei _] & Ekeep)|[Hr _]].
  - assert (E0 : fn_id x0 = m_next m) by congruence.
    rewrite Ekeep by (unfold U'; auto).
    now apply sentinelStage_dummy.
  - simpl in Hr. lia.
Qed.

Lemma sentinel_cast m1 h d t :
  lookupFunction m1 h = Some d -> fn_type d = FunctionTy VoidTy [] false ->
  t <> PointerTy (FunctionTy VoidTy [] false) ->
  getPointerCast m1 (GFunction h) t = ConstantExpr BitCast t [GFunction h].
Proof.
  intros El Et Hne. unfold getPointerCast. cbn [getTypeC]. rewrite El, Et.
  destruct (Ty_eq_dec _ t) as [E|E]; [congruence|reflexivity].
Qed.

(** ** The registration tuple *)

(** C4. [randomizeCode] returns, and the tuple it returns is the function
    cast to a byte pointer, the sentinel cast to a byte pointer, the table
    pointer, the size of the table and the flag.  The sentinel is the
    function that the result has right after the function in the function
    list, a new function of the shape [isSentinel]; the collection is the
    one a scan of the body for operands that refer to a global gives.  The
    flag is 1 exactly when the target addresses data relative to the
    program counter and the collection is not empty.  With an empty
    collection the table pointer is null, the size is 0 and the flag is 0;
    otherwise the table pointer is the new global variable that holds the
    collected constants, cast to a byte pointer, and the size is the size
    of its type, cast to 32 bits. *)
Theorem registration_tuple addr ua (m : Module) (f : Function)
  (Hwf : wfFunctions m) (Hf : In f (m_functions m)) :
  exists m1 refs m' args d,
    collect addr ua m f = Some (m1, refs)
    /\ randomizeCode addr ua m f = Some (m', args)
    /\ map fst refs = pointerOrder addr (discovered m1 (bodyOf m1 (fn_id f)))
    /\ followedBy (fn_id f) d (m_functions m')
    /\ fn_id d = m_next m /\ isSentinel d
    /\ exists table size flag,
         args = [VConst (getPointerCast m1 (GFunction (fn_id f)) Int8PtrTy);
                 VConst (ConstantExpr BitCast Int8PtrTy [GFunction (fn_id d)]);
                 VConst table; VConst size; VConst (ConstantInt 1 flag)]
         /\ (flag = 1%N <-> isDataPCRelative m = true /\ refs <> [])
         /\ (flag = 0%N \/ flag = 1%N)
         /\ (refs = [] ->
               table = ConstantPointerNull Int8PtrTy
               /\ size = ConstantInt 32 0 /\ flag = 0%N)
         /\ (refs <> [] ->
               exists g,
                 In g (m_globals m')
                 /\ m_next m <= gv_id g
                 /\ gv_type g = relocationTableTypeOf m1 f refs
                 /\ gv_init g = Some (ConstantStruct
                                        (relocationTableTypeOf m1 f refs)
                                        (map fst refs))
                 /\ gv_constant g = false
                 /\ gv_linkage g = InternalLinkage
                 /\ table = getPointerCast m' (GVariable (gv_id g)) Int8PtrTy
                 /\ size = ConstantExpr Trunc Int32Ty
                             [getSizeOf (relocationTableTypeOf m1 f refs)]).
Proof.
  assert (Hold : forall g, In g (m_functions m) -> fn_id g < m_next m).
  { destruct Hwf as [_ Hall]. now rewrite Forall_forall in Hall. }
  destruct (randomizeCode_tuple addr ua m f)
    as (m1 & refs & m' & args & Ec & Er & table & size & flag & Ea & Hflag
        & H01 & Hempty & Hfull).
  set (d := makeDummy (m_next m) (fn_name f)).
  exists m1, refs, m', args, d. split; [exact Ec|]. split; [exact Er|].
  split.
  { pose proof Ec as Ec'. unfold collect in Ec'.
    destruct (extractFloatOperations _ f) as [m2|]; [|discriminate].
    injection Ec' as <- <-. apply referencedValues_pointerOrder. }
  split; [eapply randomizeCode_sentinel; eauto|].
  split; [reflexivity|]. split; [apply makeDummy_isSentinel|].
  exists table, size, flag. split.
  { rewrite Ea. do 2 f_equal. f_equal.
    apply (sentinel_cast m1 (m_next m) d).
    - eapply collect_sentinel; eauto.
    - reflexivity.
    - discriminate. }
  split; [exact Hflag|]. split; [exact H01|]. split; [exact Hempty|].
  intros Hne. destruct (Hfull Hne) as (g & Hg & Ei & Et & Einit & Hc & Hl & Etab & Es).
  exists g. repeat split; auto. rewrite Ei.
  assert (S1 : evolves (fun _ => True) (fun _ => True) (fun _ => True) m m1).
  { eapply collect_steps; eauto. }
  apply (steps_next _ _ _ _ _ S1).
Qed.

(** ** The loads of the slots *)

(** C1, as the code has it.  After [randomizeCode], an instruction of the
    function with an operand whose closure refers to a global value
    (intrinsics and the personality routine set aside) is one of the loads
    that the rewriting inserted: a load from a slot of the relocation table
    of the function, the new global variable that holds the collected
    constants, which is addressed through the table itself or, where data
    is PC-relative, through the sentinel, the function that follows the
    function in the list, cast to the type of the table.  There is no such
    instruction when nothing was collected.  Operands that hold the global
    value inside a structure, an array, a vector or a block address are left
    aside ([expressionsOnly]). *)
Theorem globals_reached_through_slot_loads addr ua (m : Module) (f : Function)
  (Hwf : wfFunctions m) (Hf : In f (m_functions m)) :
  exists m1 refs m' args d,
    collect addr ua m f = Some (m1, refs)
    /\ randomizeCode addr ua m f = Some (m', args)
    /\ map fst refs = pointerOrder addr (discovered m1 (bodyOf m1 (fn_id f)))
    /\ followedBy (fn_id f) d (m_functions m')
    /\ fn_id d = m_next m /\ isSentinel d
    /\ (refs <> [] ->
        exists t, In t (m_globals m') /\ gv_id t = m_next m1
                  /\ m_next m <= gv_id t
                  /\ gv_type t = relocationTableTypeOf m1 f refs
                  /\ gv_init t = Some (ConstantStruct
                                         (relocationTableTypeOf m1 f refs)
                                         (map fst refs)))
    /\ forall i, In i (allInsts (bodyOf m' (fn_id f))) ->
       forall c, In (VConst c) (i_operands i) ->
         closureReferencesGlobal m' c = true -> expressionsOnly c = true ->
         refs <> []
         /\ isSlotLoad (relocationTableTypeOf m1 f refs)
              (if isDataPCRelative m
               then ConstantExpr BitCast
                      (PointerTy (relocationTableTypeOf m1 f refs))
                      [GFunction (fn_id d)]
               else GVariable (m_next m1))
              i.
Proof.
  assert (Hold : forall g, In g (m_functions m) -> fn_id g < m_next m).
  { destruct Hwf as [_ Hall]. now rewrite Forall_forall in Hall. }
  destruct (randomizeCode_slot_loads addr ua m f)
    as (m1 & refs & m' & args & Ec & Er & Hloads).
  destruct (randomizeCode_tuple addr ua m f)
    as (m1' & refs' & m'' & args' & Ec' & Er' & table & size & flag & _ & _
        & _ & _ & Hfull).
  rewrite Ec in Ec'. injection Ec' as <- <-.
  rewrite Er in Er'. injection Er' as <- <-.
  set (d := makeDummy (m_next m) (fn_name f)).
  exists m1, refs, m', args, d. split; [exact Ec|]. split; [exact Er|].
  split.
  { pose proof Ec as Ec'. unfold collect in Ec'.
    destruct (extractFloatOperations _ f) as [m2|]; [|discriminate].
    injection Ec' as <- <-. apply referencedValues_pointerOrder. }
  split; [eapply randomizeCode_sentinel; eauto|].
  split; [reflexivity|]. split; [apply makeDummy_isSentinel|].
  assert (S1 : evolves (fun _ => True) (fun _ => True) (fun _ => True) m m1).
  { eapply collect_steps; eauto. }
  split.
  { intros Hne. destruct (Hfull Hne) as (g & Hg & Ei & Et & Einit & _).
    exists g. repeat split; auto. rewrite Ei.
    apply (steps_next _ _ _ _ _ S1). }
  intros i Hi c Hc Hcl Hex.
  destruct (Hloads i Hi (VConst c) Hc) as [Hne Hslot].
  { cbn [containsGlobal].
    rewrite (proj2 (containsGlobalC_closure m' c) Hex). exact Hcl. }
  split; [exact Hne|].
  replace (if isDataPCRelative m
           then ConstantExpr BitCast
                  (PointerTy (relocationTableTypeOf m1 f refs))
                  [GFunction (fn_id d)]
           else GVariable (m_next m1))
    with (actualTable m1 (m_next m) (relocationTableTypeOf m1 f refs)
            (m_next m1)); [exact Hslot|].
  unfold actualTable.
  assert (Et : m_triple m1 = m_triple m).
  { destruct (collect_total addr ua m f) as (m1' & Ec'' & Ht).
    rewrite Ec in Ec''. now injection Ec'' as <- _. }
  rewrite (isDataPCRelative_triple m m1 Et).
  destruct (isDataPCRelative m); [|reflexivity].
  apply (sentinel_cast m1 (m_next m) d).
  - eapply collect_sentinel; eauto.
  - reflexivity.
  - unfold relocationTableTypeOf. discriminate.
Qed.

Lemma example_module_wf : wfFunctions example_module.
Proof.
  split.
  - simpl. repeat constructor; simpl; intuition discriminate.
  - repeat constructor; simpl; lia.
Defined.

Lemma registration_tuple_witness :
  wfFunctions example_module
  /\ In example_h (m_functions example_module)
  /\ exists m' args d,
       randomizeCode example_addr example_use_addr example_module example_h
       = Some (m', args)
       /\ followedBy (fn_id example_h) d (m_functions m')
       /\ isSentinel d
       /\ nth_error args 1
          = Some (VConst (ConstantExpr BitCast Int8PtrTy [GFunction (fn_id d)])).
Proof.
  split; [exact example_module_wf|]. split; [left; reflexivity|].
  destruct (registration_tuple example_addr example_use_addr example_module
              example_h example_module_wf (or_introl eq_refl))
    as (m1 & refs & m' & args & d & _ & Er & _ & Hfol & _ & Hs
        & table & size & flag & Ea & _).
  exists m', args, d. split; [exact Er|]. split; [exact Hfol|].
  split; [exact Hs|]. rewrite Ea. reflexivity.
Defined.

Lemma globals_reached_through_slot_loads_witness :
  wfFunctions example_module
  /\ In example_h (m_functions example_module)
  /\ exists m1 refs m' args d,
       collect example_addr example_use_addr example_module example_h
       = Some (m1, refs)
       /\ randomizeCode example_addr example_use_addr example_module example_h
          = Some (m', args)
       /\ followedBy (fn_id example_h) d (m_functions m')
       /\ forall i, In i (allInsts (bodyOf m' (fn_id example_h))) ->
          forall c, In (VConst c) (i_operands i) ->
            closureReferencesGlobal m' c = true -> expressionsOnly c = true ->
            i_op i = Load.
Proof.
  split; [exact example_module_wf|]. split; [left; reflexivity|].
  destruct (globals_reached_through_slot_loads example_addr example_use_addr
              example_module example_h example_module_wf (or_introl eq_refl))
    as (m1 & refs & m' & args & d & Ec & Er & _ & Hfol & _ & _ & _ & Hall).
  exists m1, refs, m', args, d. split; [exact Ec|]. split; [exact Er|].
  split; [exact Hfol|]. intros i Hi c Hc Hcl Hex.
  destruct (Hall i Hi c Hc Hcl Hex) as (_ & Hop & _). exact Hop.
Defined.

(** What [containsGlobal] does not see stays: the structure that
    [example_packed] returns holds the address of [g], and it is still the
    operand of the return after [randomizeCode], which has collected
    nothing. *)
Lemma aggregate_reference_remains :
  exists m' args i c,
    randomizeCode example_addr example_use_addr example_aggregate
      example_packed = Some (m', args)
    /\ In i (allInsts (bodyOf m' (fn_id example_packed)))
    /\ i_op i = Ret /\ In (VConst c) (i_operands i)
    /\ closureReferencesGlobal m' c = true
    /\ expressionsOnly c = false
    /\ nth_error args 2 = Some (VConst (ConstantPointerNull Int8PtrTy)).
Proof.
  do 4 eexists. split; [vm_compute; reflexivity|].
  split; [left; reflexivity|]. split; [reflexivity|].
  split; [left; reflexivity|]. repeat split.
Qed.
